(** * zstr.h: a shallow embedding of the small-string-optimised string type

    The development follows src/zstr.h.  Integers of type [size_t] are
    64-bit ([size_t len; // 8 bytes] in the source) and are kept as [Z]
    with the wrap-around written out.  Memory objects are lists of
    bytes: a heap block, a local array, a caller's buffer, the 24 bytes
    of a [zstr_short].  Every access is checked against its object: an
    access outside it makes the whole operation [None], which stands for
    undefined behaviour. *)

From stdpp Require Import base numbers option list strings gmap.
From Stdlib Require Import ZArith Lia.
Open Scope Z_scope.

(** ** Machine integers *)

Definition SIZE_MOD : Z := 2 ^ 64.
Definition SIZE_MAX : Z := SIZE_MOD - 1.

Definition to_size_t (x : Z) : Z := x mod SIZE_MOD.
Definition to_uint8 (x : Z) : Z := x mod 256.

Definition size_add (a b : Z) : Z := to_size_t (a + b).
Definition size_sub (a b : Z) : Z := to_size_t (a - b).
Definition size_mul (a b : Z) : Z := to_size_t (a * b).

(** ** Constants of the header *)

Definition Z_OK : Z := 0.
Definition Z_ERR : Z := -1.
Definition ZSTR_SSO_CAP : Z := 23.
Definition ZSTR_UTF8_INVALID : Z := 0xFFFD.

(** [#define Z_GROWTH_FACTOR(cap) ((cap) == 0 ? 32 : (cap) * 2)] *)
Definition Z_GROWTH_FACTOR (cap : Z) : Z :=
  if decide (cap = 0) then 32 else size_mul cap 2.

(** ** Byte buffers with checked accesses *)

Definition zlen {A} (l : list A) : Z := Z.of_nat (length l).

Definition in_range (buf : list Z) (off n : Z) : Prop :=
  0 ≤ off ∧ 0 ≤ n ∧ off + n ≤ zlen buf.

Global Instance in_range_dec buf off n : Decision (in_range buf off n).
Proof. unfold in_range. apply _. Defined.

(** [n] bytes starting at [off]. *)
Definition buf_read (buf : list Z) (off n : Z) : option (list Z) :=
  if decide (in_range buf off n)
  then Some (take (Z.to_nat n) (drop (Z.to_nat off) buf))
  else None.

(** [memcpy (buf + off, src, |src|)]. *)
Definition buf_write (buf : list Z) (off : Z) (src : list Z) : option (list Z) :=
  if decide (in_range buf off (zlen src))
  then Some (take (Z.to_nat off) buf ++ src
             ++ drop (Z.to_nat off + length src) buf)
  else None.

Definition buf_load (buf : list Z) (i : Z) : option Z :=
  if decide (0 ≤ i) then buf !! Z.to_nat i else None.

(** ** The allocator

    A heap is a finite map from block identifiers to block contents.
    [oracle] lists the outcome of the coming allocation requests
    ([false]: the request returns NULL; an exhausted oracle grants every
    request), [fill] is the byte found in memory that was never written. *)

Record heap := Heap {
  blocks : gmap nat (list Z);
  oracle : list bool;
  fill : Z
}.

Definition heap_empty : heap := Heap ∅ [] 0xCD.

(** [Z_STR_MALLOC (sz)]: NULL is [None]. *)
Definition malloc (h : heap) (sz : Z) : heap * option nat :=
  match oracle h with
  | false :: o => (Heap (blocks h) o (fill h), None)
  | o =>
      let p := fresh (dom (blocks h)) in
      (Heap (<[p := replicate (Z.to_nat sz) (fill h)]> (blocks h))
            (tail o) (fill h),
       Some p)
  end.

(** [Z_STR_REALLOC (p, sz)]: on success the block moves, keeping the
    common prefix; on failure the old block is untouched.  A request of
    0 bytes is left to the implementation by the C standard: the
    default, [realloc] of glibc, releases the block and returns NULL;
    no allocation is requested. *)
Definition realloc (h : heap) (p : nat) (sz : Z) : option (heap * option nat) :=
  old ← blocks h !! p;
  if decide (sz = 0)
  then Some (Heap (delete p (blocks h)) (oracle h) (fill h), None) else
  match oracle h with
  | false :: o => Some (Heap (blocks h) o (fill h), None)
  | o =>
      let q := fresh (dom (blocks h)) in
      let n := Z.to_nat sz in
      Some (Heap (<[q := take n (old ++ replicate n (fill h))]>
                    (delete p (blocks h)))
                 (tail o) (fill h),
            Some q)
  end.

(** [Z_STR_FREE (p)] *)
Definition free (h : heap) (p : nat) : option heap :=
  _ ← blocks h !! p;
  Some (Heap (delete p (blocks h)) (oracle h) (fill h)).

Definition heap_read (h : heap) (p : nat) (off n : Z) : option (list Z) :=
  blk ← blocks h !! p; buf_read blk off n.

Definition heap_write (h : heap) (p : nat) (off : Z) (src : list Z) : option heap :=
  blk ← blocks h !! p;
  blk' ← buf_write blk off src;
  Some (Heap (<[p := blk']> (blocks h)) (oracle h) (fill h)).

(** ** Data structures *)

(** [typedef struct { char *ptr; size_t len; size_t cap; } zstr_long;] *)
Record zstr_long := ZLong { l_ptr : nat; l_len : Z; l_cap : Z }.

(** [typedef struct { char buf[ZSTR_SSO_CAP]; uint8_t len; } zstr_short;] *)
Record zstr_short := ZShort { s_buf : list Z; s_len : Z }.

(** [zstr]: the discriminator [is_long] and the union, as a sum. *)
Inductive zstr :=
  | Short (sh : zstr_short)
  | Long (l : zstr_long).

(** The 24 bytes of a [zstr_short]: [buf] at offsets 0..22 and [len] at
    offset 23 (both members have alignment 1).  Accesses through
    [s.buf] are checked against this object, so that [s.buf[23]] is the
    [len] byte. *)
Definition short_raw (sh : zstr_short) : list Z := s_buf sh ++ [s_len sh].

Definition short_of_raw (raw : list Z) : zstr_short :=
  ZShort (take (Z.to_nat ZSTR_SSO_CAP) raw)
         (default 0 (raw !! Z.to_nat ZSTR_SSO_CAP)).

Definition set_s_len (s : zstr) (n : Z) : option zstr :=
  match s with
  | Short sh => Some (Short (ZShort (s_buf sh) n))
  | Long _ => None
  end.

Definition set_l_len (s : zstr) (n : Z) : option zstr :=
  match s with
  | Long l => Some (Long (ZLong (l_ptr l) n (l_cap l)))
  | Short _ => None
  end.

(** ** Internal helpers and accessors *)

Definition zstr_is_long (s : zstr) : bool :=
  match s with Long _ => true | Short _ => false end.

Definition zstr_len (s : zstr) : Z :=
  match s with Long l => l_len l | Short sh => s_len sh end.

Definition zstr_is_empty (s : zstr) : bool := bool_decide (zstr_len s = 0).

(** Capacity as the append operations read it:
    [s->is_long ? s->l.cap : ZSTR_SSO_CAP]. *)
Definition zstr_cap (s : zstr) : Z :=
  match s with Long l => l_cap l | Short _ => ZSTR_SSO_CAP end.

(** The memory object [zstr_data (s)] / [zstr_cstr (s)] points into. *)
Definition data_buffer (h : heap) (s : zstr) : option (list Z) :=
  match s with
  | Short sh => Some (short_raw sh)
  | Long l => blocks h !! l_ptr l
  end.

Definition data_read (h : heap) (s : zstr) (off n : Z) : option (list Z) :=
  buf ← data_buffer h s; buf_read buf off n.

(** [memcpy (zstr_data (s) + off, src, |src|)] *)
Definition data_write (h : heap) (s : zstr) (off : Z) (src : list Z)
  : option (heap * zstr) :=
  match s with
  | Short sh =>
      raw ← buf_write (short_raw sh) off src;
      Some (h, Short (short_of_raw raw))
  | Long l =>
      h' ← heap_write h (l_ptr l) off src;
      Some (h', s)
  end.

(** ** Creation and destruction *)

Definition zstr_init : zstr :=
  Short (ZShort (replicate (Z.to_nat ZSTR_SSO_CAP) 0) 0).

Definition zstr_free (h : heap) (s : zstr) : option (heap * zstr) :=
  match s with
  | Long l => h' ← free h (l_ptr l); Some (h', zstr_init)
  | Short _ => Some (h, zstr_init)
  end.

Definition zstr_clear (h : heap) (s : zstr) : option (heap * zstr) :=
  match s with
  | Long l =>
      data_write h (Long (ZLong (l_ptr l) 0 (l_cap l))) 0 [0]
  | Short sh =>
      data_write h (Short (ZShort (s_buf sh) 0)) 0 [0]
  end.

(** ** Memory management *)

Definition zstr_reserve (h : heap) (s : zstr) (new_cap : Z)
  : option (heap * zstr * Z) :=
  if decide (new_cap < ZSTR_SSO_CAP) then Some (h, s, Z_OK) else
  match s with
  | Long l =>
      if decide (new_cap ≤ l_cap l) then Some (h, s, Z_OK) else
      '(h1, new_ptr) ← realloc h (l_ptr l) (size_add new_cap 1);
      match new_ptr with
      | None => Some (h1, s, Z_ERR)
      | Some p => Some (h1, Long (ZLong p (l_len l) new_cap), Z_OK)
      end
  | Short sh =>
      let '(h1, new_ptr) := malloc h (size_add new_cap 1) in
      match new_ptr with
      | None => Some (h1, s, Z_ERR)
      | Some p =>
          bytes ← buf_read (short_raw sh) 0 (s_len sh);
          h2 ← heap_write h1 p 0 bytes;
          h3 ← heap_write h2 p (s_len sh) [0];
          Some (h3, Long (ZLong p (s_len sh) new_cap), Z_OK)
      end
  end.

Definition zstr_with_capacity (h : heap) (cap : Z) : option (heap * zstr) :=
  if decide (ZSTR_SSO_CAP < cap)
  then '(h1, s1, _) ← zstr_reserve h zstr_init cap; Some (h1, s1)
  else Some (h, zstr_init).

(** After [s->is_long = 0] the union is read as a [zstr_short]; the bytes
    that the following [memcpy] does not overwrite are those of the
    former heap descriptor.  Their values play no role below and are
    stood in by the never-written byte of the heap. *)
Definition union_residue (h : heap) : zstr :=
  Short (ZShort (replicate (Z.to_nat ZSTR_SSO_CAP) (fill h)) (fill h)).

Definition zstr_shrink_to_fit (h : heap) (s : zstr) : option (heap * zstr) :=
  match s with
  | Short _ => Some (h, s)
  | Long l =>
      if decide (l_len l ≤ ZSTR_SSO_CAP) then
        (* char temp[ZSTR_SSO_CAP]; *)
        let temp := replicate (Z.to_nat ZSTR_SSO_CAP) (fill h) in
        bytes ← heap_read h (l_ptr l) 0 (l_len l);
        temp ← buf_write temp 0 bytes;
        temp ← buf_write temp (l_len l) [0];
        let old_len := to_uint8 (l_len l) in
        h1 ← free h (l_ptr l);
        cp ← buf_read temp 0 (old_len + 1);
        '(h2, s2) ← data_write h1 (union_residue h) 0 cp;
        s3 ← set_s_len s2 old_len;
        Some (h2, s3)
      else if decide (l_len l < l_cap l) then
        '(h1, new_ptr) ← realloc h (l_ptr l) (size_add (l_len l) 1);
        match new_ptr with
        | Some p => Some (h1, Long (ZLong p (l_len l) (l_len l)))
        | None => Some (h1, s)
        end
      else Some (h, s)
  end.

(** ** Construction helpers *)

(** [zstr_from_len (ptr, len)]: [src] is the object [ptr] points to. *)
Definition zstr_from_len (h : heap) (src : list Z) (len : Z)
  : option (heap * zstr) :=
  if decide (ZSTR_SSO_CAP ≤ len) then
    '(h1, s1, rc) ← zstr_reserve h zstr_init len;
    if decide (rc ≠ Z_OK) then Some (h1, s1) else
    bytes ← buf_read src 0 len;
    '(h2, s2) ← data_write h1 s1 0 bytes;
    '(h3, s3) ← data_write h2 s2 len [0];
    s4 ← set_l_len s3 len;
    Some (h3, s4)
  else
    bytes ← buf_read src 0 len;
    '(h2, s2) ← data_write h zstr_init 0 bytes;
    '(h3, s3) ← data_write h2 s2 len [0];
    s4 ← set_s_len s3 (to_uint8 len);
    Some (h3, s4).

(** [from_bytes] of the specification: the whole of [b]. *)
Definition zstr_from_bytes (h : heap) (b : list Z) : option (heap * zstr) :=
  zstr_from_len h b (zlen b).

(** [zstr_own (ptr, len, cap)]: [ptr] is a heap block. *)
Definition zstr_own (h : heap) (ptr : nat) (len cap : Z)
  : option (heap * zstr) :=
  if decide (cap ≤ ZSTR_SSO_CAP) then
    bytes ← heap_read h ptr 0 len;
    '(h1, s1) ← data_write h zstr_init 0 bytes;
    '(h2, s2) ← data_write h1 s1 len [0];
    s3 ← set_s_len s2 (to_uint8 len);
    h3 ← free h2 ptr;
    Some (h3, s3)
  else
    Some (h, Long (ZLong ptr len cap)).

(** [zstr_take (s)]: the value is reset, the pointer (or NULL) returned. *)
Definition zstr_take (h : heap) (s : zstr) : option (heap * zstr * option nat) :=
  match s with
  | Long l => Some (h, zstr_init, Some (l_ptr l))
  | Short sh =>
      let '(h1, ptr) := malloc h (s_len sh + 1) in
      match ptr with
      | None => Some (h1, zstr_init, None)
      | Some p =>
          bytes ← buf_read (short_raw sh) 0 (s_len sh);
          h2 ← heap_write h1 p 0 bytes;
          h3 ← heap_write h2 p (s_len sh) [0];
          Some (h3, zstr_init, Some p)
      end
  end.

(** ** Appending and removing characters *)

Definition incr_len (s : zstr) : zstr :=
  match s with
  | Long l => Long (ZLong (l_ptr l) (size_add (l_len l) 1) (l_cap l))
  | Short sh => Short (ZShort (s_buf sh) (to_uint8 (s_len sh + 1)))
  end.

Definition decr_len (s : zstr) : zstr :=
  match s with
  | Long l => Long (ZLong (l_ptr l) (size_sub (l_len l) 1) (l_cap l))
  | Short sh => Short (ZShort (s_buf sh) (to_uint8 (s_len sh - 1)))
  end.

Definition add_len (s : zstr) (n : Z) : zstr :=
  match s with
  | Long l => Long (ZLong (l_ptr l) (size_add (l_len l) n) (l_cap l))
  | Short sh => Short (ZShort (s_buf sh) (to_uint8 (s_len sh + to_uint8 n)))
  end.

Definition zstr_push_char (h : heap) (s : zstr) (c : Z)
  : option (heap * zstr * Z) :=
  let len := zstr_len s in
  '(h1, s1, rc) ←
    (if decide (zstr_cap s ≤ size_add len 1)
     then zstr_reserve h s (Z_GROWTH_FACTOR (zstr_cap s))
     else Some (h, s, Z_OK));
  if decide (rc ≠ Z_OK) then Some (h1, s1, Z_ERR) else
  '(h2, s2) ← data_write h1 s1 len [c];
  '(h3, s3) ← data_write h2 s2 (size_add len 1) [0];
  Some (h3, incr_len s3, Z_OK).

(** Returns the removed byte, or the byte 0 on the empty string. *)
Definition zstr_pop_char (h : heap) (s : zstr) : option (heap * zstr * Z) :=
  let len := zstr_len s in
  if decide (len = 0) then Some (h, s, 0) else
  cs ← data_read h s (len - 1) 1;
  c ← head cs;
  '(h1, s1) ← data_write h s (len - 1) [0];
  Some (h1, decr_len s1, c).

(** [while (new_cap <= req_cap) new_cap = Z_GROWTH_FACTOR (new_cap);]
    The loop is run for at most [fuel] rounds. *)
Fixpoint grow_cap (fuel : nat) (new_cap req_cap : Z) : option Z :=
  if decide (new_cap ≤ req_cap) then
    match fuel with
    | O => None
    | S f => grow_cap f (Z_GROWTH_FACTOR new_cap) req_cap
    end
  else Some new_cap.

Definition grow_fuel : nat := 64.

(** [zstr_cat_len (s, src, src_len)]: [src] is the object behind the
    pointer, of which the first [src_len] bytes are appended.  It is an
    object of its own: a pointer into the buffer of [s] itself, which
    [zstr_reserve] may release before the bytes are read, is not
    covered. *)
Definition zstr_cat_len (h : heap) (s : zstr) (src : list Z) (src_len : Z)
  : option (heap * zstr * Z) :=
  let cur_len := zstr_len s in
  let req_cap := size_add cur_len src_len in
  '(h1, s1, rc) ←
    (if decide (zstr_cap s ≤ req_cap) then
       let new_cap := zstr_cap s in
       let new_cap := if decide (new_cap = 0) then ZSTR_SSO_CAP else new_cap in
       new_cap ← grow_cap grow_fuel new_cap req_cap;
       zstr_reserve h s new_cap
     else Some (h, s, Z_OK));
  if decide (rc ≠ Z_OK) then Some (h1, s1, Z_ERR) else
  bytes ← buf_read src 0 src_len;
  '(h2, s2) ← data_write h1 s1 cur_len bytes;
  '(h3, s3) ← data_write h2 s2 (size_add cur_len src_len) [0];
  Some (h3, add_len s3 src_len, Z_OK).

(** ** C strings

    A [const char *] argument is given by the bytes before its
    terminator; a pointer into a memory object is the object and an
    offset.  Reading a C string that runs off its object is undefined. *)

Fixpoint until_nul (l : list Z) : option (list Z) :=
  match l with
  | [] => None
  | c :: l' => if decide (c = 0) then Some [] else (c ::.) <$> until_nul l'
  end.

(** The C string starting at [obj + off]. *)
Definition cstr_at (obj : list Z) (off : Z) : option (list Z) :=
  if decide (0 ≤ off ≤ zlen obj)
  then until_nul (drop (Z.to_nat off) obj)
  else None.

(** Index of the first occurrence of [needle] in [hay]. *)
Fixpoint find_sub (hay needle : list Z) : option nat :=
  if decide (needle `prefix_of` hay) then Some O else
  match hay with
  | [] => None
  | _ :: hay' => S <$> find_sub hay' needle
  end.

(** [strstr (obj + off, needle)]: NULL is [None], a hit is given by its
    offset in [obj]. *)
Definition c_strstr (obj : list Z) (off : Z) (needle : list Z)
  : option (option Z) :=
  hay ← cstr_at obj off;
  Some ((λ i, off + Z.of_nat i) <$> find_sub hay needle).

(** ** In-place transformations: [zstr_replace] *)

(** [while ((scan = strstr (scan, target)) != NULL) { count++; scan += target_len; }]
    Every round moves [scan] forward (the target is not empty), so that
    a fuel above the size of the buffer is never used up. *)
Fixpoint replace_count (fuel : nat) (src : list Z) (target : list Z)
    (scan count : Z) : option Z :=
  match fuel with
  | O => None
  | S f =>
      hit ← c_strstr src scan target;
      match hit with
      | None => Some count
      | Some p => replace_count f src target (p + zlen target) (size_add count 1)
      end
  end.

(** The rewriting loop; [s] is the value being read, [res] the one being
    written.  Returns the final [curr_src] and [curr_dest].  The fuel is
    that of the counting loop. *)
Fixpoint replace_copy (fuel : nat) (h : heap) (s res : zstr)
    (target replacement : list Z) (curr_src curr_dest : Z)
  : option (heap * zstr * Z * Z) :=
  match fuel with
  | O => None
  | S f =>
      src ← data_buffer h s;
      hit ← c_strstr src curr_src target;
      match hit with
      | None => Some (h, res, curr_src, curr_dest)
      | Some p =>
          let segment_len := p - curr_src in
          seg ← buf_read src curr_src segment_len;
          '(h1, res1) ← data_write h res curr_dest seg;
          let curr_dest := curr_dest + segment_len in
          '(h2, res2) ← data_write h1 res1 curr_dest replacement;
          let curr_dest := curr_dest + zlen replacement in
          replace_copy f h2 s res2 target replacement (p + zlen target) curr_dest
      end
  end.

Definition set_len (s : zstr) (n : Z) : zstr :=
  match s with
  | Long l => Long (ZLong (l_ptr l) n (l_cap l))
  | Short sh => Short (ZShort (s_buf sh) (to_uint8 n))
  end.

Definition zstr_replace (h : heap) (s : zstr) (target replacement : list Z)
  : option (heap * zstr * Z) :=
  if decide (target = []) then Some (h, s, Z_ERR) else
  src ← data_buffer h s;
  p ← c_strstr src 0 target;
  if decide (p = None) then Some (h, s, Z_OK) else
  let target_len := zlen target in
  let repl_len := zlen replacement in
  count ← replace_count (S (length src)) src target 0 0;
  let old_len := zstr_len s in
  let new_len := size_add old_len (size_mul count (size_sub repl_len target_len)) in
  '(h1, res, rc) ← zstr_reserve h zstr_init new_len;
  if decide (rc ≠ Z_OK) then Some (h1, s, Z_ERR) else
  '(h2, res2, curr_src, curr_dest) ←
     replace_copy (S (length src)) h1 s res target replacement 0 0;
  src2 ← data_buffer h2 s;
  rest ← cstr_at src2 curr_src;
  '(h3, res3) ← data_write h2 res2 curr_dest (rest ++ [0]);
  let res4 := set_len res3 new_len in
  '(h4, _) ← zstr_free h3 s;
  Some (h4, res4, Z_OK).

(** ** UTF-8 support *)

(** The [for] loop of [zstr_next_rune] over the [n] continuation bytes
    left; [Some None] is the early [return ZSTR_UTF8_INVALID]. *)
Fixpoint rune_tail (n : nat) (obj : list Z) (p i rune : Z) : option (option Z) :=
  match n with
  | O => Some (Some rune)
  | S n' =>
      next ← buf_load obj (p + i);
      if decide (Z.land next 0xC0 ≠ 0x80) then Some None
      else rune_tail n' obj p (i + 1)
             (Z.lor (Z.shiftl rune 6) (Z.land next 0x3F))
  end.

(** Encoded length announced by a leading byte [c >= 0x80], with the
    payload bits of [c]; [None] for a byte that starts no sequence. *)
Definition rune_lead (c : Z) : option (Z * Z) :=
  if decide (Z.land c 0xE0 = 0xC0) then Some (Z.land c 0x1F, 2)
  else if decide (Z.land c 0xF0 = 0xE0) then Some (Z.land c 0x0F, 3)
  else if decide (Z.land c 0xF8 = 0xF0) then Some (Z.land c 0x07, 4)
  else None.

(** [zstr_next_rune (&p)]: the rune and the new value of [p]. *)
Definition zstr_next_rune (obj : list Z) (p : Z) : option (Z * Z) :=
  c ← buf_load obj p;
  if decide (c = 0) then Some (0, p) else
  if decide (c < 0x80) then Some (c, p + 1) else
  match rune_lead c with
  | None => Some (ZSTR_UTF8_INVALID, p + 1)
  | Some (rune, len) =>
      r ← rune_tail (Z.to_nat (len - 1)) obj p 1 rune;
      match r with
      | None => Some (ZSTR_UTF8_INVALID, p + 1)
      | Some rune => Some (rune, p + len)
      end
  end.

(** [while ( *ptr) { zstr_next_rune (&ptr); count++; }]
    Every round moves [ptr] forward; the size of the buffer is fuel
    enough. *)
Fixpoint count_runes_from (fuel : nat) (obj : list Z) (ptr count : Z) : option Z :=
  c ← buf_load obj ptr;
  if decide (c = 0) then Some count else
  match fuel with
  | O => None
  | S f =>
      '(_, ptr') ← zstr_next_rune obj ptr;
      count_runes_from f obj ptr' (size_add count 1)
  end.

Definition zstr_count_runes (h : heap) (s : zstr) : option Z :=
  obj ← data_buffer h s;
  count_runes_from (length obj) obj 0 0.

(** One round of the validation loop at a non-NUL byte: [Some None] is
    [return false], [Some (Some p')] goes on at [p']. *)
Definition valid_step (obj : list Z) (p : Z) : option (option Z) :=
  c ← buf_load obj p;
  if decide (c < 0x80) then Some (Some (p + 1))
  else if decide (Z.land c 0xE0 = 0xC0) then
    if decide (c < 0xC2) then Some None else
    c1 ← buf_load obj (p + 1);
    if decide (Z.land c1 0xC0 ≠ 0x80) then Some None else
    Some (Some (p + 2))
  else if decide (Z.land c 0xF0 = 0xE0) then
    let b1 := c in
    b2 ← buf_load obj (p + 1);
    c2 ← buf_load obj (p + 2);
    if decide (Z.land c2 0xC0 ≠ 0x80) then Some None else
    if decide (b1 = 0xE0 ∧ b2 < 0xA0) then Some None else
    if decide (b1 = 0xED ∧ 0xA0 ≤ b2) then Some None else
    if decide (Z.land b2 0xC0 ≠ 0x80) then Some None else
    Some (Some (p + 3))
  else if decide (Z.land c 0xF8 = 0xF0) then
    let b1 := c in
    if decide (0xF4 < b1) then Some None else
    b2 ← buf_load obj (p + 1);
    if decide (b1 = 0xF0 ∧ b2 < 0x90) then Some None else
    if decide (b1 = 0xF4 ∧ 0x90 ≤ b2) then Some None else
    if decide (Z.land b2 0xC0 ≠ 0x80) then Some None else
    c2 ← buf_load obj (p + 2);
    if decide (Z.land c2 0xC0 ≠ 0x80) then Some None else
    c3 ← buf_load obj (p + 3);
    if decide (Z.land c3 0xC0 ≠ 0x80) then Some None else
    Some (Some (p + 4))
  else Some None.

(** [while ( *p) { ... }]: every round that goes on moves [p] forward. *)
Fixpoint valid_from (fuel : nat) (obj : list Z) (p : Z) : option bool :=
  c ← buf_load obj p;
  if decide (c = 0) then Some true else
  match fuel with
  | O => None
  | S f =>
      r ← valid_step obj p;
      match r with
      | None => Some false
      | Some p' => valid_from f obj p'
      end
  end.

Definition zstr_is_valid_utf8 (h : heap) (s : zstr) : option bool :=
  obj ← data_buffer h s;
  valid_from (length obj) obj 0.

(** ** Views and slices *)

(** [typedef struct { const char *data; size_t len; } zstr_view;]
    [data] is a pointer into the object [v_obj], at offset [v_off]. *)
Record zstr_view := ZView { v_obj : list Z; v_off : Z; v_len : Z }.

(** The bytes a view denotes. *)
Definition view_bytes (v : zstr_view) : option (list Z) :=
  buf_read (v_obj v) (v_off v) (v_len v).

(** [strlen] *)
Definition c_strlen (obj : list Z) (off : Z) : option Z :=
  zlen <$> cstr_at obj off.

(** [zstr_view_from (cstr)]: the literal is the object [cstr ++ [0]]. *)
Definition zstr_view_from (cstr : list Z) : option zstr_view :=
  let obj := cstr ++ [0] in
  n ← c_strlen obj 0;
  Some (ZView obj 0 n).

Definition zstr_as_view (h : heap) (s : zstr) : option zstr_view :=
  obj ← data_buffer h s;
  Some (ZView obj 0 (zstr_len s)).

(** [as_bytes] of the specification. *)
Definition zstr_as_bytes (h : heap) (s : zstr) : option (list Z) :=
  v ← zstr_as_view h s; view_bytes v.

Definition zstr_sub (v : zstr_view) (start len : Z) : zstr_view :=
  if decide (v_len v ≤ start) then ZView [0] 0 0 else
  let len := if decide (v_len v < size_add start len)
             then size_sub (v_len v) start else len in
  ZView (v_obj v) (v_off v + start) len.

(** [memcmp (a + aoff, b + boff, n) == 0] *)
Definition memcmp_eq (a : list Z) (aoff : Z) (b : list Z) (boff n : Z)
  : option bool :=
  x ← buf_read a aoff n;
  y ← buf_read b boff n;
  Some (bool_decide (x = y)).

(** [typedef struct { zstr_view source; zstr_view delim; size_t current_pos;
    bool finished; } zstr_split_iter;] *)
Record zstr_split_iter := ZSplit {
  source : zstr_view;
  delim : zstr_view;
  current_pos : Z;
  finished : bool
}.

Definition zstr_split_init (src : zstr_view) (delim : list Z)
  : option zstr_split_iter :=
  d ← zstr_view_from delim;
  Some (ZSplit src d 0 false).

(** [for (i = 0; i <= remaining - it->delim.len; i++)]: the value of
    [found_at] after the loop.  The bound is computed in [size_t]; a
    round whose [memcmp] leaves the source object is undefined, so that
    a fuel above the size of that object is never used up. *)
Fixpoint split_scan (fuel : nat) (it : zstr_split_iter)
    (start remaining i : Z) : option Z :=
  if decide (i ≤ size_sub remaining (v_len (delim it))) then
    match fuel with
    | O => None
    | S f =>
        eq ← memcmp_eq (v_obj (source it)) (start + i)
                        (v_obj (delim it)) (v_off (delim it))
                        (v_len (delim it));
        if eq : bool then Some i
        else split_scan f it start remaining (size_add i 1)
    end
  else Some remaining.

(** [zstr_split_next (it, out_part)]: the iterator afterwards and the
    part written to [out_part]; [None] for the part is the result
    [false], with [out_part] untouched. *)
Definition zstr_split_next (it : zstr_split_iter)
  : option (zstr_split_iter * option zstr_view) :=
  if finished it then Some (it, None) else
  let start := v_off (source it) + current_pos it in
  let remaining := size_sub (v_len (source it)) (current_pos it) in
  found_at ← split_scan (S (length (v_obj (source it)))) it start remaining 0;
  if decide (found_at = remaining) then
    Some (ZSplit (source it) (delim it) (current_pos it) true,
          Some (ZView (v_obj (source it)) start remaining))
  else
    Some (ZSplit (source it) (delim it)
                 (size_add (current_pos it)
                           (size_add found_at (v_len (delim it))))
                 false,
          Some (ZView (v_obj (source it)) start found_at)).

(** The parts produced by at most [n] calls of [zstr_split_next], up to
    the first call that returns [false]. *)
Fixpoint split_all (n : nat) (it : zstr_split_iter) : option (list zstr_view) :=
  match n with
  | O => Some []
  | S n' =>
      '(it', part) ← zstr_split_next it;
      match part with
      | None => Some []
      | Some v => (v ::.) <$> split_all n' it'
      end
  end.

(** ** Representation invariants *)

(** The byte that [zstr_cstr (s)[zstr_len (s)]] reads is the terminator. *)
Definition terminated (h : heap) (s : zstr) : Prop :=
  ∃ obj, data_buffer h s = Some obj ∧ obj !! Z.to_nat (zstr_len s) = Some 0.

(** The invariant of the data model: terminator after the content,
    [length ≤ capacity] when long, [length < C] when inline. *)
Definition sso_inv (h : heap) (s : zstr) : Prop :=
  terminated h s ∧
  match s with
  | Long l => 0 ≤ l_len l ≤ l_cap l
  | Short sh => 0 ≤ s_len sh < ZSTR_SSO_CAP
  end.

(** The invariant the operations maintain: [sso_inv], the inline buffer
    has its [ZSTR_SSO_CAP] bytes, and a heap-backed value owns a live
    block of more than [cap] bytes, with [cap] at least [ZSTR_SSO_CAP]. *)
Definition zstr_inv (h : heap) (s : zstr) : Prop :=
  match s with
  | Short sh =>
      length (s_buf sh) = Z.to_nat ZSTR_SSO_CAP ∧
      0 ≤ s_len sh < ZSTR_SSO_CAP ∧
      s_buf sh !! Z.to_nat (s_len sh) = Some 0
  | Long l =>
      ∃ blk, blocks h !! l_ptr l = Some blk ∧
             0 ≤ l_len l ≤ l_cap l ∧
             ZSTR_SSO_CAP ≤ l_cap l ∧
             l_cap l < zlen blk ∧
             blk !! Z.to_nat (l_len l) = Some 0
  end.

(** A value whose buffer exists: the inline buffer, or a live non-empty
    heap block. *)
Definition zstr_backed (h : heap) (s : zstr) : Prop :=
  match s with
  | Short sh => length (s_buf sh) = Z.to_nat ZSTR_SSO_CAP
  | Long l => ∃ blk, blocks h !! l_ptr l = Some blk ∧ 0 < zlen blk
  end.

(** The next allocation request is granted. *)
Definition alloc_ok (h : heap) : Prop :=
  match oracle h with false :: _ => False | _ => True end.

(** The character buffer of a value: [s.buf], or the heap block. *)
Definition zstr_chars (h : heap) (s : zstr) : option (list Z) :=
  match s with
  | Short sh => Some (s_buf sh)
  | Long l => blocks h !! l_ptr l
  end.

(** Same form, same descriptor fields. *)
Definition same_shape (s s' : zstr) : Prop :=
  match s, s' with
  | Short a, Short b => s_len a = s_len b
  | Long a, Long b => a = b
  | _, _ => False
  end.

(** The two heaps differ at most in the block of [s]. *)
Definition heap_frame (h h' : heap) (s : zstr) : Prop :=
  oracle h' = oracle h ∧ fill h' = fill h ∧
  dom (blocks h') = dom (blocks h) ∧
  match s with
  | Short _ => h' = h
  | Long l => ∀ q, q ≠ l_ptr l → blocks h' !! q = blocks h !! q
  end.

(** ** Building values *)

(** The operations that make a value grow. *)
Inductive build_op :=
  | OpPush (c : Z)
  | OpCat (src : list Z).

Definition op_bytes (op : build_op) : list Z :=
  match op with OpPush c => [c] | OpCat src => src end.

Definition run_op (h : heap) (s : zstr) (op : build_op)
  : option (heap * zstr * Z) :=
  match op with
  | OpPush c => zstr_push_char h s c
  | OpCat src => zstr_cat_len h s src (zlen src)
  end.

(** ** Sample data *)

(** The bytes of a string literal. *)
Definition bytes_of (s : String.string) : list Z :=
  (λ a, Z.of_N (Ascii.N_of_ascii a)) <$> String.list_ascii_of_string s.

(** Twenty-three letters. *)
Definition abc23 : list Z := bytes_of "abcdefghijklmnopqrstuvw"%string.

(** A UTF-8 encoded smiley, U+1F600. *)
Definition emoji : list Z := [0xF0; 0x9F; 0x98; 0x80].

(** [zstr_is_valid_utf8] on the value [from_bytes b] built in the empty heap. *)
Definition valid_utf8_of (b : list Z) : option bool :=
  '(h, s) ← zstr_from_bytes heap_empty b; zstr_is_valid_utf8 h s.

(** [zstr_count_runes] on the value [from_bytes b] built in the empty heap. *)
Definition count_runes_of (b : list Z) : option Z :=
  '(h, s) ← zstr_from_bytes heap_empty b; zstr_count_runes h s.

(** The parts of [src] split at [delim], through at most [n] calls of
    [zstr_split_next]. *)
Definition split_parts (n : nat) (src delim : list Z) : option (list zstr_view) :=
  v ← zstr_view_from src;
  it ← zstr_split_init v delim;
  split_all n it.

(** "héllo" and "日本語" in UTF-8. *)
Definition hello_acute : list Z := [0x68; 0xC3; 0xA9; 0x6C; 0x6C; 0x6F].
Definition nihongo : list Z :=
  [0xE6; 0x97; 0xA5; 0xE6; 0x9C; 0xAC; 0xE8; 0xAA; 0x9E].

(** ** Replacement, in the words of the specification

    Every non-overlapping occurrence of [target], scanning from the
    left: at a byte that is not inside the previous occurrence, an
    occurrence of [target] is replaced by [repl] and skipped; any other
    byte is kept.  [skip] counts the bytes of the previous occurrence
    still to be skipped. *)
Fixpoint spec_replace (skip : nat) (hay target repl : list Z) : list Z :=
  match hay with
  | [] => []
  | c :: hay' =>
      match skip with
      | S k => spec_replace k hay' target repl
      | O =>
          if decide (target `prefix_of` hay)
          then repl ++ spec_replace (length target - 1) hay' target repl
          else c :: spec_replace 0 hay' target repl
      end
  end.

(** The number of those occurrences. *)
Fixpoint spec_count (skip : nat) (hay target : list Z) : nat :=
  match hay with
  | [] => O
  | c :: hay' =>
      match skip with
      | S k => spec_count k hay' target
      | O =>
          if decide (target `prefix_of` hay)
          then S (spec_count (length target - 1) hay' target)
          else spec_count 0 hay' target
      end
  end.

(** [replace] on the value [from_bytes b] built in the empty heap: the
    status and the bytes of the value afterwards. *)
Definition replace_of (b target repl : list Z) : option (Z * list Z) :=
  '(h, s) ← zstr_from_bytes heap_empty b;
  '(h', s', rc) ← zstr_replace h s target repl;
  out ← zstr_as_bytes h' s';
  Some (rc, out).

(** The values [s] and [res] do not share a heap block. *)
Definition independent (s res : zstr) : Prop :=
  match s, res with
  | Long ls, Long lr => l_ptr ls ≠ l_ptr lr
  | _, _ => True
  end.

(** What an append operation guarantees: it returns, the invariant is
    kept, the length grows by the number of bytes on success and the
    value is untouched on failure, a heap-backed value stays heap-backed,
    and an inline value whose new length stays below [ZSTR_SSO_CAP]
    stays inline without any allocation request. *)
Definition append_post (h : heap) (s : zstr) (n : Z)
    (r : option (heap * zstr * Z)) : Prop :=
  ∃ h' s' rc, r = Some (h', s', rc) ∧ zstr_inv h' s' ∧
    ((rc = Z_OK ∧ zstr_len s' = zstr_len s + n) ∨
     (rc = Z_ERR ∧ s' = s ∧ blocks h' = blocks h ∧ ¬ alloc_ok h)) ∧
    (zstr_is_long s = true → zstr_is_long s' = true) ∧
    (zstr_is_long s = false → zstr_len s + n < ZSTR_SSO_CAP →
       rc = Z_OK ∧ h' = h ∧ zstr_is_long s' = false).

(** ** Proof automation *)

(** Unfolding the bind of the option monad, and nothing else. *)
Ltac mstep := cbn [mbind option_bind fst snd].

(** * The rest of the header

    The operations below are those of [zstr.h] that build on the ones
    above: construction from C strings, values and views, joining,
    case conversion, trimming, comparison, search and the functions on
    views. *)

(** ** What a value holds, and what an operation does to the heap *)

(** The value [s] is well formed in [h] and its bytes are [c]. *)
Definition zstr_holds (h : heap) (s : zstr) (c : list Z) : Prop :=
  zstr_inv h s ∧ zstr_as_bytes h s = Some c.

(** The heap block a value owns. *)
Definition owns (s : zstr) (q : nat) : Prop :=
  match s with Long l => l_ptr l = q | Short _ => False end.

Global Instance owns_dec s q : Decision (owns s q).
Proof. destruct s; simpl; apply _. Defined.

(** From [h] to [h'] the value [s] became [s']: a block that neither
    owns is untouched, a block that [s] gave up is released, a block
    that [s'] acquired was not live, and the allocator has answered
    some requests. *)
Definition heap_step (h h' : heap) (s s' : zstr) : Prop :=
  (∀ q, ¬ owns s q → ¬ owns s' q → blocks h' !! q = blocks h !! q) ∧
  (∀ q, owns s q → ¬ owns s' q → blocks h' !! q = None) ∧
  (∀ q, owns s' q → ¬ owns s q → blocks h !! q = None) ∧
  fill h' = fill h ∧
  oracle h' `suffix_of` oracle h.

(** Every allocation request to come is granted. *)
Definition grants_all (h : heap) : Prop := Forall (λ b, b = true) (oracle h).

(** ** Construction from C strings, values and views *)

(** [zstr_from (cstr)]: the argument is the object [cstr ++ [0]]. *)
Definition zstr_from (h : heap) (cstr : list Z) : option (heap * zstr) :=
  let obj := cstr ++ [0] in
  n ← c_strlen obj 0;
  zstr_from_len h obj n.

(** [zstr_dup (s)] *)
Definition zstr_dup (h : heap) (s : zstr) : option (heap * zstr) :=
  obj ← data_buffer h s;
  zstr_from_len h obj (zstr_len s).

(** The object seen from the pointer [obj + off]. *)
Definition obj_from (obj : list Z) (off : Z) : option (list Z) :=
  if decide (0 ≤ off ≤ zlen obj) then Some (drop (Z.to_nat off) obj) else None.

(** [zstr_from_view (v)] *)
Definition zstr_from_view (h : heap) (v : zstr_view) : option (heap * zstr) :=
  src ← obj_from (v_obj v) (v_off v);
  zstr_from_len h src (v_len v).

(** ** Appending C strings and joining *)

(** [zstr_cat (s, cstr)] *)
Definition zstr_cat (h : heap) (s : zstr) (cstr : list Z)
  : option (heap * zstr * Z) :=
  let obj := cstr ++ [0] in
  n ← c_strlen obj 0;
  zstr_cat_len h s obj n.

(** The first loop of [zstr_join]: the value of [total_len].  The array
    [strings] is read at [i]; reading it out of range is undefined. *)
Fixpoint join_total (fuel : nat) (strings : list (list Z))
    (count delim_len i total_len : Z) : option Z :=
  if decide (i < count) then
    match fuel with
    | O => None
    | S f =>
        str ← strings !! Z.to_nat i;
        n ← c_strlen (str ++ [0]) 0;
        let total_len := size_add total_len n in
        let total_len :=
          if decide (i < size_sub count 1)
          then size_add total_len delim_len else total_len in
        join_total f strings count delim_len (size_add i 1) total_len
    end
  else Some total_len.

(** The second loop of [zstr_join]; the results of [zstr_cat] are not
    looked at. *)
Fixpoint join_cat (fuel : nat) (h : heap) (s : zstr)
    (strings : list (list Z)) (count : Z) (delim : list Z) (i : Z)
  : option (heap * zstr) :=
  if decide (i < count) then
    match fuel with
    | O => None
    | S f =>
        str ← strings !! Z.to_nat i;
        '(h1, s1, _) ← zstr_cat h s str;
        '(h2, s2) ←
          (if decide (i < size_sub count 1)
           then '(h2, s2, _) ← zstr_cat h1 s1 delim; Some (h2, s2)
           else Some (h1, s1));
        join_cat f h2 s2 strings count delim (size_add i 1)
    end
  else Some (h, s).

(** [zstr_join (strings, count, delim)]: both loops run [count] rounds. *)
Definition zstr_join (h : heap) (strings : list (list Z)) (count : Z)
    (delim : list Z) : option (heap * zstr) :=
  let s := zstr_init in
  if decide (count = 0) then Some (h, s) else
  delim_len ← c_strlen (delim ++ [0]) 0;
  total_len ← join_total (Z.to_nat count) strings count delim_len 0 0;
  '(h1, s1, rc) ← zstr_reserve h s total_len;
  if decide (rc ≠ Z_OK) then Some (h1, s1) else
  join_cat (Z.to_nat count) h1 s1 strings count delim 0.

(** The strings separated by the delimiter. *)
Fixpoint spec_join (strings : list (list Z)) (delim : list Z) : list Z :=
  match strings with
  | [] => []
  | [x] => x
  | x :: rest => x ++ delim ++ spec_join rest delim
  end.

(** ** Character classes

    [tolower], [toupper] and [isspace] of [<ctype.h>], in the "C"
    locale, on a byte read as [unsigned char]. *)

Definition c_tolower (c : Z) : Z :=
  if decide (0x41 ≤ c ≤ 0x5A) then c + 0x20 else c.

Definition c_toupper (c : Z) : Z :=
  if decide (0x61 ≤ c ≤ 0x7A) then c - 0x20 else c.

Definition c_isspace (c : Z) : bool :=
  bool_decide (c = 0x20 ∨ 0x09 ≤ c ≤ 0x0D).

(** ** In-place transformations *)

(** [for (i = 0; i < len; i++) p[i] = f (p[i]);] where [p] is
    [zstr_data (s)] and [len] is read before the loop. *)
Fixpoint map_in_place (f : Z → Z) (fuel : nat) (h : heap) (s : zstr)
    (len i : Z) : option (heap * zstr) :=
  if decide (i < len) then
    match fuel with
    | O => None
    | S fuel' =>
        obj ← data_buffer h s;
        c ← buf_load obj i;
        '(h1, s1) ← data_write h s i [f c];
        map_in_place f fuel' h1 s1 len (size_add i 1)
    end
  else Some (h, s).

Definition zstr_to_lower (h : heap) (s : zstr) : option (heap * zstr) :=
  map_in_place c_tolower (Z.to_nat (zstr_len s)) h s (zstr_len s) 0.

Definition zstr_to_upper (h : heap) (s : zstr) : option (heap * zstr) :=
  map_in_place c_toupper (Z.to_nat (zstr_len s)) h s (zstr_len s) 0.

(** The pointers of [zstr_trim] are offsets from [start]; [end] runs
    down to [-1] on a string of white space, and is compared with
    [start] before it is dereferenced.

    [while (end >= start && isspace ( *end)) { *end = 0; end--; }] *)
Fixpoint trim_right (fuel : nat) (h : heap) (s : zstr) (e : Z)
  : option (heap * zstr * Z) :=
  if decide (0 ≤ e) then
    obj ← data_buffer h s;
    c ← buf_load obj e;
    if c_isspace c then
      match fuel with
      | O => None
      | S fuel' =>
          '(h1, s1) ← data_write h s e [0];
          trim_right fuel' h1 s1 (e - 1)
      end
    else Some (h, s, e)
  else Some (h, s, e).

(** [while (new_start <= end && isspace ( *new_start)) new_start++;] *)
Fixpoint trim_left (fuel : nat) (obj : list Z) (new_start e : Z) : option Z :=
  if decide (new_start ≤ e) then
    c ← buf_load obj new_start;
    if c_isspace c then
      match fuel with
      | O => None
      | S fuel' => trim_left fuel' obj (new_start + 1) e
      end
    else Some new_start
  else Some new_start.

(** [zstr_trim (s)]; [memmove] reads its source before it writes. *)
Definition zstr_trim (h : heap) (s : zstr) : option (heap * zstr) :=
  if decide (zstr_len s = 0) then Some (h, s) else
  let fuel := Z.to_nat (zstr_len s) in
  '(h1, s1, e) ← trim_right fuel h s (zstr_len s - 1);
  obj ← data_buffer h1 s1;
  new_start ← trim_left fuel obj 0 e;
  let final_len :=
    if decide (new_start ≤ e) then to_size_t (e - new_start + 1) else 0 in
  '(h2, s2) ←
    (if decide (0 < new_start) then
       bytes ← data_read h1 s1 new_start final_len;
       '(h2, s2) ← data_write h1 s1 0 bytes;
       data_write h2 s2 final_len [0]
     else Some (h1, s1));
  Some (h2, set_len s2 final_len).

(** The bytes without the white space at both ends. *)
Fixpoint spec_lstrip (c : list Z) : list Z :=
  match c with
  | x :: c' => if c_isspace x then spec_lstrip c' else c
  | [] => []
  end.

Definition spec_rstrip (c : list Z) : list Z :=
  reverse (spec_lstrip (reverse c)).

Definition spec_trim (c : list Z) : list Z := spec_lstrip (spec_rstrip c).

(** ** Comparison *)

(** [zstr_eq (a, b)] *)
Definition zstr_eq (h : heap) (a b : zstr) : option bool :=
  let la := zstr_len a in
  if decide (la ≠ zstr_len b) then Some false else
  oa ← data_buffer h a;
  ob ← data_buffer h b;
  memcmp_eq oa 0 ob 0 la.

(** The loop of [zstr_eq_ignore_case]. *)
Fixpoint eq_ignore_case_from (fuel : nat) (p1 p2 : list Z) (len i : Z)
  : option bool :=
  if decide (i < len) then
    match fuel with
    | O => None
    | S fuel' =>
        x ← buf_load p1 i;
        y ← buf_load p2 i;
        if decide (c_tolower x ≠ c_tolower y) then Some false
        else eq_ignore_case_from fuel' p1 p2 len (size_add i 1)
    end
  else Some true.

Definition zstr_eq_ignore_case (h : heap) (a b : zstr) : option bool :=
  let len := zstr_len a in
  if decide (len ≠ zstr_len b) then Some false else
  p1 ← data_buffer h a;
  p2 ← data_buffer h b;
  eq_ignore_case_from (Z.to_nat len) p1 p2 len 0.

(** [strcmp (a + i, b + j)]: the bytes are compared as [unsigned char]
    up to the first difference or the terminator.  The C standard fixes
    the sign of the result only, which is what is returned here. *)
Fixpoint c_strcmp (fuel : nat) (a : list Z) (i : Z) (b : list Z) (j : Z)
  : option Z :=
  match fuel with
  | O => None
  | S fuel' =>
      x ← buf_load a i;
      y ← buf_load b j;
      if decide (x ≠ y) then Some (if decide (x < y) then -1 else 1)
      else if decide (x = 0) then Some 0
      else c_strcmp fuel' a (i + 1) b (j + 1)
  end.

(** [zstr_cmp (a, b)]: a difference or a terminator is met within the
    object of [a], or the comparison leaves it. *)
Definition zstr_cmp (h : heap) (a b : zstr) : option Z :=
  oa ← data_buffer h a;
  ob ← data_buffer h b;
  c_strcmp (S (length oa)) oa 0 ob 0.

(** The bytes before the first NUL byte: what the C string functions
    see of a value. *)
Fixpoint spec_cstr (c : list Z) : list Z :=
  match c with
  | [] => []
  | x :: c' => if decide (x = 0) then [] else x :: spec_cstr c'
  end.

(** The sign of the lexicographic comparison of two byte strings. *)
Fixpoint spec_lex (a b : list Z) : Z :=
  match a, b with
  | [], [] => 0
  | [], _ :: _ => -1
  | _ :: _, [] => 1
  | x :: a', y :: b' =>
      if decide (x < y) then -1
      else if decide (y < x) then 1
      else spec_lex a' b'
  end.

(** ** Search *)

(** [zstr_find (s, needle)]: the offset [found - data], or -1. *)
Definition zstr_find (h : heap) (s : zstr) (needle : list Z) : option Z :=
  data ← data_buffer h s;
  found ← c_strstr data 0 needle;
  match found with
  | None => Some (-1)
  | Some off => Some (off - 0)
  end.

Definition zstr_contains (h : heap) (s : zstr) (needle : list Z)
  : option bool :=
  r ← zstr_find h s needle;
  Some (bool_decide (r ≠ -1)).

(** ** Views: comparison *)

(** [zstr_view_eq (v, cstr)] *)
Definition zstr_view_eq (v : zstr_view) (cstr : list Z) : option bool :=
  let obj := cstr ++ [0] in
  n ← c_strlen obj 0;
  if decide (n ≠ v_len v) then Some false else
  memcmp_eq (v_obj v) (v_off v) obj 0 (v_len v).

(** [zstr_view_eq_view (a, b)] *)
Definition zstr_view_eq_view (a b : zstr_view) : option bool :=
  if decide (v_len a ≠ v_len b) then Some false else
  memcmp_eq (v_obj a) (v_off a) (v_obj b) (v_off b) (v_len a).

(** [zstr_view_starts_with (v, prefix)] *)
Definition zstr_view_starts_with (v : zstr_view) (prefix : list Z)
  : option bool :=
  let obj := prefix ++ [0] in
  pre_len ← c_strlen obj 0;
  if decide (v_len v < pre_len) then Some false else
  memcmp_eq (v_obj v) (v_off v) obj 0 pre_len.

(** [zstr_view_ends_with (v, suffix)] *)
Definition zstr_view_ends_with (v : zstr_view) (suffix : list Z)
  : option bool :=
  let obj := suffix ++ [0] in
  suf_len ← c_strlen obj 0;
  if decide (v_len v < suf_len) then Some false else
  memcmp_eq (v_obj v) (v_off v + v_len v - suf_len) obj 0 suf_len.

Definition zstr_starts_with (h : heap) (s : zstr) (prefix : list Z)
  : option bool :=
  v ← zstr_as_view h s; zstr_view_starts_with v prefix.

Definition zstr_ends_with (h : heap) (s : zstr) (suffix : list Z)
  : option bool :=
  v ← zstr_as_view h s; zstr_view_ends_with v suffix.

(** ** Views: stripping white space *)

(** [while (start < end && isspace ( *start)) start++;] with the
    pointers as offsets in the object of the view. *)
Fixpoint lstrip_from (fuel : nat) (obj : list Z) (start e : Z) : option Z :=
  if decide (start < e) then
    c ← buf_load obj start;
    if c_isspace c then
      match fuel with
      | O => None
      | S fuel' => lstrip_from fuel' obj (start + 1) e
      end
    else Some start
  else Some start.

Definition zstr_view_lstrip (v : zstr_view) : option zstr_view :=
  let start := v_off v in
  let e := v_off v + v_len v in
  start ← lstrip_from (Z.to_nat (v_len v)) (v_obj v) start e;
  Some (ZView (v_obj v) start (to_size_t (e - start))).

(** [while (end > start && isspace ( *(end - 1))) end--;] *)
Fixpoint rstrip_from (fuel : nat) (obj : list Z) (start e : Z) : option Z :=
  if decide (start < e) then
    c ← buf_load obj (e - 1);
    if c_isspace c then
      match fuel with
      | O => None
      | S fuel' => rstrip_from fuel' obj start (e - 1)
      end
    else Some e
  else Some e.

Definition zstr_view_rstrip (v : zstr_view) : option zstr_view :=
  let start := v_off v in
  let e := v_off v + v_len v in
  e ← rstrip_from (Z.to_nat (v_len v)) (v_obj v) start e;
  Some (ZView (v_obj v) start (to_size_t (e - start))).

Definition zstr_view_trim (v : zstr_view) : option zstr_view :=
  r ← zstr_view_rstrip v; zstr_view_lstrip r.

(** ** Views: integers *)

(** [int] is 32 bits wide; an operation on [int] whose result is not
    representable is undefined. *)
Definition INT_MIN : Z := - 2 ^ 31.
Definition INT_MAX : Z := 2 ^ 31 - 1.

Definition int_of (x : Z) : option Z :=
  if decide (INT_MIN ≤ x ≤ INT_MAX) then Some x else None.

(** The loop of [zstr_view_to_int]: [Some None] is [return false].  A
    byte above 0x7F is below ['0'] when [char] is signed and above
    ['9'] when it is not: it is refused either way. *)
Fixpoint to_int_from (fuel : nat) (v : zstr_view) (i result : Z)
  : option (option Z) :=
  if decide (i < v_len v) then
    match fuel with
    | O => None
    | S fuel' =>
        c ← buf_load (v_obj v) (v_off v + i);
        if decide (c < 0x30 ∨ 0x39 < c) then Some None else
        m ← int_of (result * 10);
        r ← int_of (m + (c - 0x30));
        to_int_from fuel' v (size_add i 1) r
    end
  else Some (Some result).

(** [zstr_view_to_int (v, out)]: [Some (Some n)] is the result [true]
    with [n] stored in [out], [Some None] the result [false], with
    [out] untouched. *)
Definition zstr_view_to_int (v : zstr_view) : option (option Z) :=
  if decide (v_len v = 0) then Some None else
  c0 ← buf_load (v_obj v) (v_off v);
  let '(sign, i) :=
    if decide (c0 = 0x2D) then (-1, 1)
    else if decide (c0 = 0x2B) then (1, 1)
    else (1, 0) in
  if decide (i = v_len v) then Some None else
  r ← to_int_from (Z.to_nat (v_len v)) v i 0;
  match r with
  | None => Some None
  | Some result => out ← int_of (result * sign); Some (Some out)
  end.

(** The value of a string of decimal digits. *)
Definition digit_of (c : Z) : Z := c - 0x30.

Definition is_digit (c : Z) : Prop := 0x30 ≤ c ≤ 0x39.

Definition spec_decimal (ds : list Z) : Z :=
  fold_left (λ acc c, acc * 10 + digit_of c) ds 0.

(** ** Unicode scalar values *)

(** A code point that is not a surrogate, and the length of its UTF-8
    encoding. *)
Definition is_scalar (r : Z) : Prop :=
  0 ≤ r < 0xD800 ∨ 0xDFFF < r ≤ 0x10FFFF.

Definition utf8_len (r : Z) : Z :=
  if decide (r < 0x80) then 1
  else if decide (r < 0x800) then 2
  else if decide (r < 0x10000) then 3
  else 4.

(** The runes that the loop of [zstr_count_runes] decodes, in order. *)
Fixpoint runes_from (fuel : nat) (obj : list Z) (ptr : Z) : option (list Z) :=
  c ← buf_load obj ptr;
  if decide (c = 0) then Some [] else
  match fuel with
  | O => None
  | S f =>
      '(r, ptr') ← zstr_next_rune obj ptr;
      (r ::.) <$> runes_from f obj ptr'
  end.

Definition zstr_runes (h : heap) (s : zstr) : option (list Z) :=
  obj ← data_buffer h s;
  runes_from (length obj) obj 0.

(** ** Decoding, in the words of the specification

    [decode_next] on the bytes that remain before the terminator.  The
    leading byte gives the encoded length by the standard bit patterns
    ([0xxxxxxx], [110xxxxx], [1110xxxx], [11110xxx], read here on the
    value of the byte); every continuation byte must have the pattern
    [10xxxxxx].  The result is the scalar and the number of bytes
    consumed, or the replacement code point and one byte when the
    leading byte is malformed or a continuation byte is invalid or
    missing. *)
Definition spec_cont (b : Z) : Prop := 0x80 ≤ b ≤ 0xBF.

Global Instance spec_cont_dec b : Decision (spec_cont b).
Proof. unfold spec_cont. apply _. Defined.

(** The payload bits of a leading byte and the number of continuation
    bytes it announces. *)
Definition spec_lead (c : Z) : option (Z * nat) :=
  if decide (0xC0 ≤ c ≤ 0xDF) then Some (c - 0xC0, 1%nat)
  else if decide (0xE0 ≤ c ≤ 0xEF) then Some (c - 0xE0, 2%nat)
  else if decide (0xF0 ≤ c ≤ 0xF7) then Some (c - 0xF0, 3%nat)
  else None.

Definition spec_decode_next (bs : list Z) : Z * nat :=
  match bs with
  | [] => (0, 0%nat)
  | c :: rest =>
      if decide (c < 0x80) then (c, 1%nat) else
      match spec_lead c with
      | None => (ZSTR_UTF8_INVALID, 1%nat)
      | Some (bits, k) =>
          let cont := take k rest in
          if decide (length cont = k ∧ Forall spec_cont cont)
          then (foldl (λ r b, r * 64 + (b - 0x80)) bits cont, S k)
          else (ZSTR_UTF8_INVALID, 1%nat)
      end
  end.

(** [count_runes] of the specification counts the decode operations:
    the runes of the successive [decode_next], each starting where the
    one before stopped.  [skip] is the number of bytes of the current
    sequence still to pass. *)
Fixpoint spec_runes (skip : nat) (bs : list Z) : list Z :=
  match bs with
  | [] => []
  | _ :: rest =>
      match skip with
      | S k => spec_runes k rest
      | O =>
          let '(r, n) := spec_decode_next bs in
          r :: spec_runes (n - 1) rest
      end
  end.

(** A byte that is not the terminator. *)
Definition byte_ok (b : Z) : Prop := 0 ≤ b < 256 ∧ b ≠ 0.

(** ** The Lua binding ([bindings/lua/zstr_lua.h])

    The binding works on the [zstr] inside a userdata.  Of the Lua
    state only the arguments matter here: [lua_tolstring] gives, for an
    argument that is a string or a number, its bytes and their number,
    and NULL for any other value; [lua_isstring] is true for exactly
    the former.  An argument is therefore [Some bytes] or [None]. *)
Definition lua_arg := option (list Z).

(** [for (i = 2; i <= nargs; i++)
       if (lua_isstring (L, i)) { lua_tolstring (L, i, &len); total_add_len += len; }] *)
Fixpoint append_total (args : list lua_arg) (total_add_len : Z) : Z :=
  match args with
  | [] => total_add_len
  | Some str :: args => append_total args (size_add total_add_len (zlen str))
  | None :: args => append_total args total_add_len
  end.

(** [for (i = 2; i <= nargs; i++)
       { str = lua_tolstring (L, i, &len);
         if (str) { memcpy (ptr, str, len); ptr += len; } }],
    with [ptr] as an offset into [zstr_data (s)]. *)
Fixpoint append_copy (h : heap) (s : zstr) (args : list lua_arg) (ptr : Z)
  : option (heap * zstr * Z) :=
  match args with
  | [] => Some (h, s, ptr)
  | Some str :: args =>
      '(h', s') ← data_write h s ptr str;
      append_copy h' s' args (ptr + zlen str)
  | None :: args => append_copy h s args ptr
  end.

(** [s:append (str1, str2, ...)].  The result of [zstr_reserve] is not
    looked at. *)
Definition l_zstr_append (h : heap) (s : zstr) (args : list lua_arg)
  : option (heap * zstr) :=
  let total_add_len := append_total args 0 in
  if decide (0 < total_add_len) then
    let current_len := zstr_len s in
    let required := size_add current_len total_add_len in
    let cap := zstr_cap s in
    '(h1, s1) ←
      (if decide (cap < required)
       then '(h1, s1, _) ← zstr_reserve h s required; Some (h1, s1)
       else Some (h, s));
    '(h2, s2, ptr) ← append_copy h1 s1 args current_len;
    '(h3, s3) ← data_write h2 s2 ptr [0];
    Some (h3, add_len s3 total_add_len)
  else Some (h, s).

(** [s:append_table (t)] runs the same two loops over the elements
    [t[1]], ..., [t[n]] of the table. *)
Definition l_zstr_append_table (h : heap) (s : zstr) (t : list lua_arg)
  : option (heap * zstr) :=
  l_zstr_append h s t.

(** The bytes of the arguments that are strings, in order. *)
Definition lua_strings (args : list lua_arg) : list Z :=
  concat (omap id args).

(** ** Sample values *)

(** A heap whose only block holds [c] and a terminator, the heap-backed
    value that owns it, and the inline value with the bytes [c]. *)
Definition sample_heap (c : list Z) : heap :=
  Heap {[ 0%nat := c ++ [0] ]} [] 0xCD.

Definition sample_long (c : list Z) : zstr :=
  Long (ZLong 0 (zlen c) (zlen c)).

Definition sample_short (c : list Z) : zstr :=
  Short (ZShort (c ++ replicate (Z.to_nat ZSTR_SSO_CAP - length c) 0) (zlen c)).

(** Discharging [zstr_holds] on closed values. *)
Ltac holds_closed :=
  split;
  [ first [ (eexists; split_and!; [reflexivity|vm_compute; congruence..])
          | (split_and!; vm_compute; (reflexivity || congruence)) ]
  | vm_compute; reflexivity ].

(** * Properties *)

(** ** Checked buffers *)

Lemma zlen_nonneg {A} (l : list A) : 0 ≤ zlen l.
Proof. unfold zlen. lia. Qed.

Lemma zlen_app {A} (l k : list A) : zlen (l ++ k) = zlen l + zlen k.
Proof. unfold zlen. rewrite length_app. lia. Qed.

Lemma zlen_replicate {A} n (x : A) : zlen (replicate n x) = Z.of_nat n.
Proof. unfold zlen. by rewrite length_replicate. Qed.

Lemma buf_read_Some buf off n :
  in_range buf off n →
  buf_read buf off n = Some (take (Z.to_nat n) (drop (Z.to_nat off) buf)).
Proof. intros H. unfold buf_read. by rewrite decide_True. Qed.

Lemma buf_read_inv buf off n r :
  buf_read buf off n = Some r →
  in_range buf off n ∧ r = take (Z.to_nat n) (drop (Z.to_nat off) buf).
Proof. unfold buf_read. case_decide; [|done]. by intros [= <-]. Qed.

Lemma buf_read_length buf off n r :
  buf_read buf off n = Some r → zlen r = n.
Proof.
  intros [(H0 & Hn & Hle) ->]%buf_read_inv. unfold zlen in *.
  rewrite length_take, length_drop. lia.
Qed.

Lemma buf_read_all buf : buf_read buf 0 (zlen buf) = Some buf.
Proof.
  rewrite buf_read_Some.
  - unfold zlen. rewrite Nat2Z.id. simpl. by rewrite firstn_all.
  - unfold in_range, zlen. lia.
Qed.

Lemma buf_write_Some buf off src :
  in_range buf off (zlen src) →
  buf_write buf off src =
    Some (take (Z.to_nat off) buf ++ src ++ drop (Z.to_nat off + length src) buf).
Proof. intros H. unfold buf_write. by rewrite decide_True. Qed.

Lemma buf_write_inv buf off src buf' :
  buf_write buf off src = Some buf' →
  in_range buf off (zlen src) ∧
  buf' = take (Z.to_nat off) buf ++ src ++ drop (Z.to_nat off + length src) buf.
Proof. unfold buf_write. case_decide; [|done]. by intros [= <-]. Qed.

Lemma buf_write_length buf off src buf' :
  buf_write buf off src = Some buf' → length buf' = length buf.
Proof.
  intros [(H0 & Hn & Hle) ->]%buf_write_inv. unfold zlen in *.
  rewrite !length_app, length_take, length_drop. lia.
Qed.

Lemma buf_write_zlen buf off src buf' :
  buf_write buf off src = Some buf' → zlen buf' = zlen buf.
Proof. intros H. unfold zlen. by rewrite (buf_write_length _ _ _ _ H). Qed.

(** Bytes below the written range are kept. *)
Lemma buf_write_lookup_lt buf off src buf' (i : nat) :
  buf_write buf off src = Some buf' → Z.of_nat i < off → buf' !! i = buf !! i.
Proof.
  intros [(H0 & Hn & Hle) ->]%buf_write_inv Hi. unfold zlen in *.
  rewrite lookup_app_l by (rewrite length_take; lia).
  apply lookup_take_lt. lia.
Qed.

(** Bytes above the written range are kept. *)
Lemma buf_write_lookup_ge buf off src buf' (i : nat) :
  buf_write buf off src = Some buf' → off + zlen src ≤ Z.of_nat i →
  buf' !! i = buf !! i.
Proof.
  intros [(H0 & Hn & Hle) ->]%buf_write_inv Hi. unfold zlen in *.
  rewrite lookup_app_r by (rewrite length_take; lia).
  rewrite lookup_app_r by (rewrite length_take; lia).
  rewrite lookup_drop, length_take. f_equal. lia.
Qed.

(** The written range holds the source. *)
Lemma buf_write_lookup_in buf off src buf' (i : nat) :
  buf_write buf off src = Some buf' → (i < length src)%nat →
  buf' !! (Z.to_nat off + i)%nat = src !! i.
Proof.
  intros [(H0 & Hn & Hle) ->]%buf_write_inv Hi. unfold zlen in *.
  rewrite lookup_app_r by (rewrite length_take; lia).
  rewrite length_take.
  replace (Z.to_nat off + i - Z.to_nat off `min` length buf)%nat with i by lia.
  by rewrite lookup_app_l.
Qed.

Lemma buf_write_byte buf off c buf' :
  buf_write buf off [c] = Some buf' → buf' !! Z.to_nat off = Some c.
Proof.
  intros H. pose proof (buf_write_lookup_in _ _ _ _ 0 H) as Hi.
  rewrite Nat.add_0_r in Hi. apply Hi. simpl. lia.
Qed.

Lemma buf_read_write buf off src buf' :
  buf_write buf off src = Some buf' → buf_read buf' off (zlen src) = Some src.
Proof.
  intros H. pose proof (buf_write_zlen _ _ _ _ H) as Hl.
  destruct (buf_write_inv _ _ _ _ H) as [(H0 & Hn & Hle) ->].
  rewrite buf_read_Some by (unfold in_range; lia).
  f_equal. unfold zlen in *.
  rewrite drop_app_length' by (rewrite length_take; lia).
  rewrite take_app_length' by lia. done.
Qed.

(** A prefix read below a later write is not disturbed. *)
Lemma buf_read_write_below buf off src buf' n :
  buf_write buf off src = Some buf' → 0 ≤ n ≤ off →
  buf_read buf' 0 n = buf_read buf 0 n.
Proof.
  intros H Hn. pose proof (buf_write_zlen _ _ _ _ H) as Hl.
  destruct (buf_write_inv _ _ _ _ H) as [(H0 & Hs & Hle) Heq].
  rewrite !buf_read_Some by (unfold in_range; lia).
  f_equal. change (Z.to_nat 0) with 0%nat. rewrite !drop_0, Heq.
  rewrite take_app_le by (rewrite length_take; unfold zlen in *; lia).
  rewrite take_take. f_equal. lia.
Qed.

(** ** Writes through [zstr_data] *)

Lemma short_raw_length sh :
  length (s_buf sh) = Z.to_nat ZSTR_SSO_CAP → zlen (short_raw sh) = 24.
Proof. intros H. unfold short_raw. rewrite zlen_app. unfold zlen. rewrite H. done. Qed.

Lemma short_of_raw_app buf n :
  length buf = Z.to_nat ZSTR_SSO_CAP → short_of_raw (buf ++ [n]) = ZShort buf n.
Proof.
  intros H. unfold short_of_raw. f_equal.
  - by apply take_app_length'.
  - rewrite lookup_app_r by lia. rewrite H, Nat.sub_diag. done.
Qed.

(** A write that stays inside [buf] leaves [len] alone. *)
Lemma data_write_short h sh off src :
  length (s_buf sh) = Z.to_nat ZSTR_SSO_CAP →
  0 ≤ off → off + zlen src ≤ ZSTR_SSO_CAP →
  ∃ buf', buf_write (s_buf sh) off src = Some buf' ∧
    data_write h (Short sh) off src = Some (h, Short (ZShort buf' (s_len sh))).
Proof.
  intros Hlen H0 Hle. pose proof (zlen_nonneg src).
  assert (Hz : zlen (s_buf sh) = 23) by (unfold zlen; rewrite Hlen; done).
  assert (in_range (s_buf sh) off (zlen src))
    by (unfold in_range, ZSTR_SSO_CAP in *; lia).
  eexists. split; [by apply buf_write_Some|].
  unfold data_write, short_raw.
  rewrite buf_write_Some
    by (unfold in_range in *; rewrite zlen_app; change (zlen [s_len sh]) with 1; lia).
  simpl. do 3 f_equal.
  rewrite take_app_le by (unfold zlen in *; lia).
  rewrite drop_app_le by (unfold zlen in *; lia).
  rewrite !app_assoc. apply short_of_raw_app.
  rewrite !length_app, length_take, length_drop. unfold zlen in *. lia.
Qed.

Lemma data_write_long h l off src blk :
  blocks h !! l_ptr l = Some blk → in_range blk off (zlen src) →
  ∃ blk', buf_write blk off src = Some blk' ∧
    data_write h (Long l) off src =
      Some (Heap (<[l_ptr l := blk']> (blocks h)) (oracle h) (fill h), Long l).
Proof.
  intros Hb Hr. eexists. split; [by apply buf_write_Some|].
  unfold data_write, heap_write. rewrite Hb. simpl.
  rewrite buf_write_Some by done. done.
Qed.

Lemma buf_write_byte_insert buf c :
  0 < zlen buf → buf_write buf 0 [c] = Some (<[0%nat := c]> buf).
Proof.
  intros H. rewrite buf_write_Some by (unfold in_range, zlen in *; simpl; lia).
  destruct buf; [unfold zlen in H; simpl in H; lia|]. done.
Qed.

(** ** [zstr_clear] *)

(** C10.  [zstr_clear] sets the length to 0 and stores the terminator at
    offset 0, and does nothing else: the value keeps its form (inline or
    heap), a heap-backed value keeps its pointer and its capacity, no
    block is freed, moved or allocated, and every other byte is kept. *)
Theorem zstr_clear_frame (h : heap) (s : zstr) :
  zstr_backed h s →
  ∃ h' s', zstr_clear h s = Some (h', s') ∧
    zstr_len s' = 0 ∧
    zstr_is_long s' = zstr_is_long s ∧
    oracle h' = oracle h ∧
    dom (blocks h') = dom (blocks h) ∧
    match s with
    | Short sh =>
        h' = h ∧ s' = Short (ZShort (<[0%nat := 0]> (s_buf sh)) 0)
    | Long l =>
        s' = Long (ZLong (l_ptr l) 0 (l_cap l)) ∧
        ∃ blk, blocks h !! l_ptr l = Some blk ∧
          h' = Heap (<[l_ptr l := <[0%nat := 0]> blk]> (blocks h))
                    (oracle h) (fill h)
    end.
Proof.
  intros Hb. destruct s as [sh|l]; simpl in Hb.
  - destruct (data_write_short h (ZShort (s_buf sh) 0) 0 [0])
      as (buf' & Hw & Hd); [done|lia|unfold zlen, ZSTR_SSO_CAP; simpl; lia|].
    rewrite buf_write_byte_insert in Hw
      by (unfold zlen; simpl in *; rewrite Hb; done).
    injection Hw as <-.
    exists h, (Short (ZShort (<[0%nat := 0]> (s_buf sh)) 0)).
    repeat split; done.
  - destruct Hb as (blk & Hblk & Hpos).
    destruct (data_write_long h (ZLong (l_ptr l) 0 (l_cap l)) 0 [0] blk)
      as (blk' & Hw & Hd);
      [done|unfold in_range, zlen in *; simpl; lia|].
    rewrite buf_write_byte_insert in Hw by done. injection Hw as <-.
    eexists _, _. split; [exact Hd|]. simpl.
    repeat split; try done.
    + apply set_eq. intros q. rewrite !elem_of_dom.
      destruct (decide (q = l_ptr l)) as [->|Hne].
      * rewrite lookup_insert_eq, Hblk. split; eauto.
      * by rewrite lookup_insert_ne.
    + by exists blk.
Qed.

Lemma zstr_clear_frame_witness :
  let h := Heap {[ 0%nat := abc23 ++ [0] ]} [] 0xCD in
  let s := Long (ZLong 0 ZSTR_SSO_CAP ZSTR_SSO_CAP) in
  zstr_backed h s ∧
  ∃ h' s', zstr_clear h s = Some (h', s') ∧
    zstr_len s' = 0 ∧
    zstr_is_long s' = zstr_is_long s ∧
    oracle h' = oracle h ∧
    dom (blocks h') = dom (blocks h) ∧
    s' = Long (ZLong 0 0 ZSTR_SSO_CAP) ∧
    ∃ blk, blocks h !! 0%nat = Some blk ∧
      h' = Heap (<[0%nat := <[0%nat := 0]> blk]> (blocks h)) (oracle h) (fill h).
Proof.
  intros h s.
  assert (H : zstr_backed h s).
  { exists (abc23 ++ [0]). split; reflexivity. }
  split; [exact H|].
  exact (zstr_clear_frame h s H).
Defined.

Lemma dom_insert_live (m : gmap nat (list Z)) p blk blk' :
  m !! p = Some blk → dom (<[p := blk']> m) = dom m.
Proof.
  intros H. apply set_eq. intros q. rewrite !elem_of_dom.
  destruct (decide (q = p)) as [->|Hne].
  - rewrite lookup_insert_eq, H. split; eauto.
  - by rewrite lookup_insert_ne.
Qed.

Lemma same_shape_refl s : same_shape s s.
Proof. by destruct s. Qed.

Lemma same_shape_trans s1 s2 s3 :
  same_shape s1 s2 → same_shape s2 s3 → same_shape s1 s3.
Proof. destruct s1, s2, s3; simpl; try done; congruence. Qed.

Lemma same_shape_len s s' : same_shape s s' → zstr_len s' = zstr_len s.
Proof. destruct s, s'; simpl; try done; congruence. Qed.

Lemma same_shape_cap s s' : same_shape s s' → zstr_cap s' = zstr_cap s.
Proof. destruct s, s'; simpl; try done; congruence. Qed.

Lemma same_shape_is_long s s' :
  same_shape s s' → zstr_is_long s' = zstr_is_long s.
Proof. destruct s, s'; simpl; done. Qed.

Lemma heap_frame_refl h s : heap_frame h h s.
Proof. unfold heap_frame. destruct s; done. Qed.

Lemma heap_frame_trans h1 h2 h3 s s' :
  same_shape s s' → heap_frame h1 h2 s → heap_frame h2 h3 s' →
  heap_frame h1 h3 s.
Proof.
  intros Hs (Ho & Hf & Hd & H12) (Ho' & Hf' & Hd' & H23).
  unfold heap_frame. repeat split; try congruence.
  destruct s as [a|a], s' as [b|b]; simpl in Hs; try done.
  - congruence.
  - subst b. intros q Hq. rewrite H23, H12; done.
Qed.

(** A checked write through [zstr_data] rewrites the character buffer
    and nothing else. *)
Lemma data_write_chars h s off src buf :
  zstr_chars h s = Some buf →
  (zstr_is_long s = false → length buf = Z.to_nat ZSTR_SSO_CAP) →
  in_range buf off (zlen src) →
  ∃ buf' h' s', buf_write buf off src = Some buf' ∧
    data_write h s off src = Some (h', s') ∧
    zstr_chars h' s' = Some buf' ∧
    same_shape s s' ∧ heap_frame h h' s.
Proof.
  intros Hc Hlen Hr. destruct s as [sh|l]; simpl in *.
  - injection Hc as <-. specialize (Hlen eq_refl).
    destruct (data_write_short h sh off src) as (buf' & Hw & Hd);
      [done|unfold in_range in Hr; lia|
       unfold in_range, zlen, ZSTR_SSO_CAP in *; lia|].
    exists buf', h, (Short (ZShort buf' (s_len sh))).
    repeat split; done.
  - destruct (data_write_long h l off src buf) as (blk' & Hw & Hd); [done..|].
    eexists blk', _, _. split; [done|]. split; [exact Hd|]. simpl.
    split; [by rewrite lookup_insert_eq|]. split; [done|].
    unfold heap_frame. simpl. repeat split.
    + by eapply dom_insert_live.
    + intros q Hq. by rewrite lookup_insert_ne.
Qed.

(** Appending [bytes] after the content and storing the terminator keeps
    the invariant, as long as the bytes fit. *)
Lemma append_write h s bytes :
  zstr_inv h s →
  match s with
  | Short sh => s_len sh + zlen bytes < ZSTR_SSO_CAP
  | Long l => l_len l + zlen bytes ≤ l_cap l
  end →
  ∃ h2 s2 h3 s3,
    data_write h s (zstr_len s) bytes = Some (h2, s2) ∧
    data_write h2 s2 (zstr_len s + zlen bytes) [0] = Some (h3, s3) ∧
    same_shape s s3 ∧ heap_frame h h3 s ∧
    zstr_inv h3 (set_len s3 (zstr_len s + zlen bytes)) ∧
    (∃ old new, zstr_chars h s = Some old ∧ zstr_chars h3 s3 = Some new ∧
       take (Z.to_nat (zstr_len s)) new = take (Z.to_nat (zstr_len s)) old ∧
       buf_read new (zstr_len s) (zlen bytes) = Some bytes).
Proof.
  intros Hinv Hfit. pose proof (zlen_nonneg bytes) as Hb.
  assert (∃ buf, zstr_chars h s = Some buf ∧
            (zstr_is_long s = false → length buf = Z.to_nat ZSTR_SSO_CAP) ∧
            0 ≤ zstr_len s ∧ zstr_len s + zlen bytes < zlen buf)
    as (buf & Hc & Hlen & Hl0 & Hlt).
  { destruct s as [sh|l]; simpl in *.
    - destruct Hinv as (Hlen & Hr & _). exists (s_buf sh).
      repeat split; try done; try lia.
      unfold zlen in *. rewrite Hlen. unfold ZSTR_SSO_CAP in *. lia.
    - destruct Hinv as (blk & Hblk & Hr & _ & Hsz & _). exists blk.
      repeat split; try done; lia. }
  destruct (data_write_chars h s (zstr_len s) bytes buf)
    as (buf2 & h2 & s2 & Hw2 & Hd2 & Hc2 & Hs2 & Hf2);
    [done|done|unfold in_range; lia|].
  pose proof (buf_write_length _ _ _ _ Hw2) as Hlen2.
  pose proof (buf_write_zlen _ _ _ _ Hw2) as Hz2.
  destruct (data_write_chars h2 s2 (zstr_len s + zlen bytes) [0] buf2)
    as (buf3 & h3 & s3 & Hw3 & Hd3 & Hc3 & Hs3 & Hf3);
    [done| |unfold in_range; change (zlen [0]) with 1; lia|].
  { rewrite (same_shape_is_long _ _ Hs2), Hlen2. done. }
  pose proof (buf_write_length _ _ _ _ Hw3) as Hlen3.
  pose proof (buf_write_zlen _ _ _ _ Hw3) as Hz3.
  pose proof (buf_write_byte _ _ _ _ Hw3) as Hterm.
  pose proof (same_shape_trans _ _ _ Hs2 Hs3) as Hs.
  exists h2, s2, h3, s3.
  split; [done|]. split; [done|]. split; [done|].
  split; [by apply (heap_frame_trans h h2 h3 s s2)|]. split.
  - destruct s as [sh|l], s3 as [sh3|l3]; simpl in *; try done.
    + injection Hc3 as Hc3. injection Hc as Hc. subst buf3 buf.
      assert (to_uint8 (s_len sh + zlen bytes) = s_len sh + zlen bytes) as ->.
      { unfold to_uint8. apply Z.mod_small. unfold ZSTR_SSO_CAP in *. lia. }
      destruct Hinv as (Hl & Hr & _).
      repeat split; try lia. congruence.
    + subst l3. destruct Hinv as (blk & Hblk & Hr & Hcap & Hsz & _).
      assert (buf = blk) as -> by congruence.
      exists buf3. repeat split; try done; try lia.
  - exists buf, buf3. repeat split; try done.
    + apply list_eq. intros i.
      destruct (decide (i < Z.to_nat (zstr_len s))%nat) as [Hi|Hi].
      * rewrite !lookup_take_lt by done.
        rewrite (buf_write_lookup_lt _ _ _ _ _ Hw3) by lia.
        rewrite (buf_write_lookup_lt _ _ _ _ _ Hw2) by lia. done.
      * rewrite !lookup_take_ge by lia. done.
    + pose proof (buf_read_write _ _ _ _ Hw2) as Hrd.
      destruct (buf_read_inv _ _ _ _ Hrd) as [Hin Heq].
      rewrite buf_read_Some by (unfold in_range in *; lia).
      f_equal. etrans; [|symmetry; exact Heq]. apply list_eq. intros i.
      destruct (decide (i < Z.to_nat (zlen bytes))%nat) as [Hi|Hi].
      * rewrite !lookup_take_lt by done. rewrite !lookup_drop.
        apply (buf_write_lookup_lt _ _ _ _ _ Hw3). lia.
      * rewrite !lookup_take_ge by lia. done.
Qed.

Lemma buf_read_ex buf off n :
  in_range buf off n → ∃ r, buf_read buf off n = Some r.
Proof. intros H. eexists. by apply buf_read_Some. Qed.

Lemma buf_write_ex buf off src :
  in_range buf off (zlen src) → ∃ buf', buf_write buf off src = Some buf'.
Proof. intros H. eexists. by apply buf_write_Some. Qed.

(** ** The allocator *)

Lemma alloc_ok_dec h : {alloc_ok h} + {¬ alloc_ok h}.
Proof.
  unfold alloc_ok. destruct (oracle h) as [|[] ?]; auto.
Qed.

Lemma fresh_block_None (m : gmap nat (list Z)) : m !! fresh (dom m) = None.
Proof. apply not_elem_of_dom, is_fresh. Qed.

Lemma malloc_granted h sz :
  alloc_ok h →
  malloc h sz =
    (Heap (<[fresh (dom (blocks h)) := replicate (Z.to_nat sz) (fill h)]> (blocks h))
          (tail (oracle h)) (fill h),
     Some (fresh (dom (blocks h)))).
Proof. unfold alloc_ok, malloc. destruct (oracle h) as [|[] ?]; done. Qed.

Lemma malloc_refused h sz :
  ¬ alloc_ok h →
  malloc h sz = (Heap (blocks h) (tail (oracle h)) (fill h), None).
Proof.
  unfold alloc_ok, malloc. destruct (oracle h) as [|[] ?]; try done; tauto.
Qed.

Lemma realloc_granted h p sz old :
  blocks h !! p = Some old → alloc_ok h → sz ≠ 0 →
  realloc h p sz =
    Some (Heap (<[fresh (dom (blocks h)) :=
                   take (Z.to_nat sz) (old ++ replicate (Z.to_nat sz) (fill h))]>
                  (delete p (blocks h)))
               (tail (oracle h)) (fill h),
          Some (fresh (dom (blocks h)))).
Proof.
  intros Hp Hok Hsz. unfold alloc_ok, realloc in *. rewrite Hp. simpl.
  rewrite decide_False by done.
  destruct (oracle h) as [|[] ?]; done.
Qed.

Lemma realloc_refused h p sz old :
  blocks h !! p = Some old → ¬ alloc_ok h → sz ≠ 0 →
  realloc h p sz = Some (Heap (blocks h) (tail (oracle h)) (fill h), None).
Proof.
  intros Hp Hno Hsz. unfold alloc_ok, realloc in *. rewrite Hp. simpl.
  rewrite decide_False by done.
  destruct (oracle h) as [|[] ?]; try done; tauto.
Qed.

Lemma to_size_t_small x : 0 ≤ x < SIZE_MOD → to_size_t x = x.
Proof. intros H. unfold to_size_t. by apply Z.mod_small. Qed.

Lemma size_add_small a b : 0 ≤ a + b < SIZE_MOD → size_add a b = a + b.
Proof. apply to_size_t_small. Qed.

Lemma heap_write_insert m o f p blk off src blk' :
  buf_write blk off src = Some blk' →
  heap_write (Heap (<[p := blk]> m) o f) p off src =
    Some (Heap (<[p := blk']> m) o f).
Proof.
  intros H. unfold heap_write. simpl. rewrite lookup_insert_eq. simpl.
  rewrite H. simpl. by rewrite insert_insert_eq.
Qed.

(** ** [zstr_reserve] *)

Lemma zstr_init_inv h : zstr_inv h zstr_init.
Proof. repeat split; done. Qed.

(** Moving the inline content (with its terminator) into a fresh block. *)
Lemma promote_block (buf : list Z) (len n : Z) (fillb : Z) :
  length buf = Z.to_nat ZSTR_SSO_CAP → 0 ≤ len < ZSTR_SSO_CAP →
  buf !! Z.to_nat len = Some 0 → ZSTR_SSO_CAP < n →
  ∀ slen, ∃ bytes b1 b2,
    buf_read (buf ++ [slen]) 0 len = Some bytes ∧
    buf_write (replicate (Z.to_nat n) fillb) 0 bytes = Some b1 ∧
    buf_write b1 len [0] = Some b2 ∧
    zlen b2 = n ∧ b2 !! Z.to_nat len = Some 0 ∧
    take (S (Z.to_nat len)) b2 = take (S (Z.to_nat len)) buf.
Proof.
  intros Hlen Hr Hterm Hn slen. unfold ZSTR_SSO_CAP in *.
  assert (Hz : zlen buf = 23) by (unfold zlen; rewrite Hlen; done).
  assert (Hrd : in_range (buf ++ [slen]) 0 len).
  { unfold in_range. rewrite zlen_app. change (zlen [slen]) with 1. lia. }
  destruct (buf_read_ex _ _ _ Hrd) as (bytes & Hbytes).
  pose proof (buf_read_length _ _ _ _ Hbytes) as Hbl.
  assert (Hw1 : in_range (replicate (Z.to_nat n) fillb) 0 (zlen bytes)).
  { unfold in_range. rewrite zlen_replicate. lia. }
  destruct (buf_write_ex _ _ _ Hw1) as (b1 & Hb1).
  pose proof (buf_write_zlen _ _ _ _ Hb1) as Hz1. rewrite zlen_replicate in Hz1.
  assert (Hw2 : in_range b1 len (zlen [0])).
  { unfold in_range. change (zlen [0]) with 1. lia. }
  destruct (buf_write_ex _ _ _ Hw2) as (b2 & Hb2).
  pose proof (buf_write_zlen _ _ _ _ Hb2) as Hz2.
  exists bytes, b1, b2. repeat split; try done; try lia.
  - by apply (buf_write_byte _ _ _ _ Hb2).
  - apply list_eq. intros i.
    destruct (decide (i < S (Z.to_nat len))%nat) as [Hi|Hi].
    + rewrite !lookup_take_lt by done.
      destruct (decide (i = Z.to_nat len)) as [->|Hne].
      * rewrite Hterm. by apply (buf_write_byte _ _ _ _ Hb2).
      * rewrite (buf_write_lookup_lt _ _ _ _ _ Hb2) by lia.
        pose proof (buf_write_lookup_in _ _ _ _ i Hb1) as Hin.
        change (Z.to_nat 0 + i)%nat with i in Hin. rewrite Hin
          by (unfold zlen in Hbl; lia).
        destruct (buf_read_inv _ _ _ _ Hbytes) as [_ ->].
        rewrite lookup_take_lt by lia.
        change (Z.to_nat 0) with 0%nat. rewrite drop_0.
        apply lookup_app_l. unfold zlen in Hz. lia.
    + rewrite !lookup_take_ge by lia. done.
Qed.

Lemma keep_self h s :
  zstr_is_long s = false →
  (∀ q, is_Some (blocks h !! q) → blocks h !! q = blocks h !! q) ∧
  (∀ l', s = Long l' → blocks h !! l_ptr l' = None).
Proof. intros H. split; [done|]. by intros l' ->. Qed.

Lemma zstr_reserve_spec h s new_cap :
  zstr_inv h s → 0 ≤ new_cap < SIZE_MAX →
  ∃ h' s' rc, zstr_reserve h s new_cap = Some (h', s', rc) ∧
    zstr_inv h' s' ∧ zstr_len s' = zstr_len s ∧
    (zstr_is_long s = true → zstr_is_long s' = true) ∧
    (∃ old new, zstr_chars h s = Some old ∧ zstr_chars h' s' = Some new ∧
       take (S (Z.to_nat (zstr_len s))) new = take (S (Z.to_nat (zstr_len s))) old) ∧
    (zstr_is_long s = false →
       (∀ q, is_Some (blocks h !! q) → blocks h' !! q = blocks h !! q) ∧
       (∀ l', s' = Long l' → blocks h !! l_ptr l' = None)) ∧
    ((rc = Z_OK ∧
      (ZSTR_SSO_CAP ≤ new_cap → zstr_is_long s' = true ∧ new_cap ≤ zstr_cap s') ∧
      (new_cap < ZSTR_SSO_CAP → h' = h ∧ s' = s))
     ∨ (rc = Z_ERR ∧ s' = s ∧ blocks h' = blocks h ∧ ¬ alloc_ok h)).
Proof.
  intros Hinv Hcap. unfold zstr_reserve, SIZE_MAX, SIZE_MOD in *.
  assert (Hchars : ∃ old, zstr_chars h s = Some old).
  { destruct s as [sh|l]; simpl in *; [eauto|].
    destruct Hinv as (blk & -> & _). eauto. }
  destruct Hchars as (old & Hold).
  case_decide as Hsmall.
  { exists h, s, Z_OK. split_and!; try done; try lia.
    - exists old, old. done.
    - apply keep_self.
    - left. split_and!; try done; unfold ZSTR_SSO_CAP in *; lia. }
  assert (Hsz : size_add new_cap 1 = new_cap + 1)
    by (apply size_add_small; unfold SIZE_MOD, ZSTR_SSO_CAP in *; lia).
  destruct s as [sh|l].
  - (* inline: malloc *)
    simpl in Hinv. destruct Hinv as (Hlen & Hr & Hterm).
    destruct (alloc_ok_dec h) as [Hok|Hno].
    + rewrite (malloc_granted _ _ Hok), Hsz. simpl.
      set (p := fresh (dom (blocks h))).
      destruct (promote_block (s_buf sh) (s_len sh) (new_cap + 1) (fill h)
                  Hlen Hr Hterm ltac:(lia) (s_len sh))
        as (bytes & b1 & b2 & Hrd & Hw1 & Hw2 & Hz2 & Ht2 & Hpre).
      unfold short_raw. rewrite Hrd. simpl.
      rewrite (heap_write_insert _ _ _ _ _ _ _ _ Hw1). simpl.
      rewrite (heap_write_insert _ _ _ _ _ _ _ _ Hw2). simpl.
      eexists _, _, _. split; [reflexivity|]. simpl.
      split; [|split; [done|split; [done|split; [|split]]]].
      * exists b2. rewrite lookup_insert_eq.
        split_and!; try done; try lia.
      * exists (s_buf sh), b2. rewrite lookup_insert_eq. done.
      * intros _. split.
        -- intros q [x Hq]. rewrite lookup_insert_ne; [done|].
           intros <-. unfold p in Hq. by rewrite fresh_block_None in Hq.
        -- intros l' [= <-]. simpl. apply fresh_block_None.
      * left. split; [done|]. split.
        -- intros _. split; [done|lia].
        -- intros ?. lia.
    + rewrite (malloc_refused _ _ Hno). simpl.
      eexists _, _, _. split; [reflexivity|]. simpl.
      split_and!; try done; try lia.
      * exists (s_buf sh), (s_buf sh). done.
      * right. done.
  - (* heap-backed *)
    simpl in Hinv. destruct Hinv as (blk & Hblk & Hr & Hc23 & Hbsz & Hterm).
    case_decide as Hfits.
    { exists h, (Long l), Z_OK. split_and!; try done; try lia.
      - by exists blk.
      - exists old, old. done.
      - left. split_and!; try done; unfold ZSTR_SSO_CAP in *; simpl; lia. }
    destruct (alloc_ok_dec h) as [Hok|Hno].
    + rewrite Hsz, (realloc_granted _ _ _ _ Hblk Hok) by lia. simpl.
      set (p := fresh (dom (blocks h))).
      set (blk' := take _ _).
      assert (Hz' : zlen blk' = new_cap + 1).
      { unfold blk', zlen. rewrite length_take, length_app, length_replicate. lia. }
      assert (Hpre : ∀ i, (i < Z.to_nat (new_cap + 1))%nat →
                (i < length blk)%nat → blk' !! i = blk !! i).
      { intros i Hi Hi'. unfold blk'. rewrite lookup_take_lt by done.
        by apply lookup_app_l. }
      eexists _, _, _. split; [reflexivity|]. simpl.
      split; [|split; [done|split; [done|split; [|split]]]].
      * exists blk'. rewrite lookup_insert_eq.
        split_and!; try done; try lia.
        rewrite Hpre; [done| |]; unfold zlen in *; lia.
      * exists blk, blk'. rewrite lookup_insert_eq.
        simpl in Hold. split_and!; try done; try lia.
        apply list_eq. intros i.
        destruct (decide (i < S (Z.to_nat (l_len l)))%nat) as [Hi|Hi].
        -- rewrite !lookup_take_lt by done.
           apply Hpre; unfold zlen in *; lia.
        -- rewrite !lookup_take_ge by lia. done.
      * done.
      * left. split; [done|]. split.
        -- intros _. split; [done|lia].
        -- intros ?. lia.
    + rewrite Hsz, (realloc_refused _ _ _ _ Hblk Hno) by lia. simpl.
      eexists _, _, _. split; [reflexivity|]. simpl.
      split_and!; try done; try lia.
      * by exists blk.
      * exists blk, blk. done.
      * right. done.
Qed.

(** ** [zstr_from_len] *)

#[local] Arguments data_write : simpl never.
#[local] Arguments zstr_reserve : simpl never.
#[local] Arguments buf_read : simpl never.
#[local] Arguments buf_write : simpl never.

Lemma set_len_long s n :
  zstr_is_long s = true → set_l_len s n = Some (set_len s n).
Proof. by destruct s. Qed.

Lemma set_len_short s n :
  zstr_is_long s = false → set_s_len s (to_uint8 n) = Some (set_len s n).
Proof. by destruct s. Qed.

Lemma zstr_init_chars h :
  zstr_chars h zstr_init = Some (replicate (Z.to_nat ZSTR_SSO_CAP) 0).
Proof. done. Qed.

Lemma zstr_from_bytes_spec h b :
  zlen b < SIZE_MAX →
  ∃ h' s', zstr_from_bytes h b = Some (h', s') ∧ zstr_inv h' s' ∧
    (∀ q, is_Some (blocks h !! q) → blocks h' !! q = blocks h !! q) ∧
    (zlen b < ZSTR_SSO_CAP → h' = h ∧ zstr_is_long s' = false) ∧
    ((zstr_len s' = zlen b ∧
      (ZSTR_SSO_CAP ≤ zlen b → zstr_is_long s' = true ∧ zlen b ≤ zstr_cap s') ∧
      ∃ chars, zstr_chars h' s' = Some chars ∧
               buf_read chars 0 (zlen b) = Some b)
     ∨ (ZSTR_SSO_CAP ≤ zlen b ∧ ¬ alloc_ok h ∧ s' = zstr_init)).
Proof.
  intros Hsz. pose proof (zlen_nonneg b) as Hb0.
  unfold zstr_from_bytes, zstr_from_len.
  case_decide as Hbig.
  - destruct (zstr_reserve_spec h zstr_init (zlen b) (zstr_init_inv h))
      as (h1 & s1 & rc & Hres & Hinv1 & Hlen1 & _ & _ & Hfr & Hcase); [lia|].
    rewrite Hres. simpl.
    destruct Hcase as [(-> & Hlong & _)|(-> & -> & Hblk & Hno)].
    + destruct (Hlong Hbig) as [Hl1 Hcap1].
      rewrite decide_False by (unfold Z_OK; lia).
      rewrite buf_read_all. simpl.
      destruct (append_write h1 s1 b Hinv1)
        as (h2 & s2 & h3 & s3 & Hw1 & Hw2 & Hs & Hf & Hinv3 & Hcont).
      { destruct s1 as [|l1]; [done|]. simpl in *. lia. }
      rewrite Hlen1 in *. change (zstr_len zstr_init) with 0 in *.
      rewrite Z.add_0_l in *. rewrite Hw1. simpl. rewrite Hw2. simpl.
      rewrite set_len_long by (by rewrite (same_shape_is_long _ _ Hs)).
      simpl. eexists _, _. split; [reflexivity|].
      destruct Hf as (_ & _ & _ & Hf).
      destruct s1 as [|l1]; [done|]. destruct s3 as [|l3]; [done|].
      simpl in Hs. subst l3.
      split_and!; try done; try lia.
      * destruct (Hfr eq_refl) as [Hkeep Hfresh].
        intros q Hq. rewrite <- (Hkeep q Hq).
        simpl in Hf. apply Hf. intros ->. rewrite (Hfresh l1 eq_refl) in Hq.
        by destruct Hq.
      * left. split_and!; try done.
        destruct Hcont as (old & new & _ & Hnew & _ & Hrd). eauto.
    + rewrite decide_True by done.
      eexists _, _. split; [reflexivity|].
      split_and!; try done; try lia.
      * intros q _. by rewrite Hblk.
      * right. done.
  - rewrite buf_read_all. simpl.
    destruct (append_write h zstr_init b (zstr_init_inv h))
      as (h2 & s2 & h3 & s3 & Hw1 & Hw2 & Hs & Hf & Hinv3 & Hcont).
    { simpl. lia. }
    change (zstr_len zstr_init) with 0 in *.
    rewrite Z.add_0_l in *. rewrite Hw1. simpl. rewrite Hw2. simpl.
    rewrite set_len_short by (by rewrite (same_shape_is_long _ _ Hs)).
    simpl. eexists _, _. split; [reflexivity|].
    destruct Hf as (_ & _ & _ & Hf). simpl in Hf. subst h3.
    destruct s3 as [sh3|]; [|done].
    split_and!; try done; try lia.
    left. split_and!.
    + simpl. unfold to_uint8. apply Z.mod_small. unfold ZSTR_SSO_CAP in *. lia.
    + lia.
    + destruct Hcont as (old & new & _ & Hnew & _ & Hrd). eauto.
Qed.

(** ** Round trip through bytes *)

Lemma buf_read_app_l buf k off n :
  in_range buf off n → buf_read (buf ++ k) off n = buf_read buf off n.
Proof.
  intros Hr. pose proof (zlen_nonneg k).
  rewrite !buf_read_Some; [|done|unfold in_range in *; rewrite zlen_app; lia].
  f_equal. destruct Hr as (H0 & Hn & Hle). unfold zlen in *.
  rewrite drop_app_le by lia. rewrite take_app_le; [done|].
  rewrite length_drop. lia.
Qed.

(** Reading the content through [zstr_as_view] is reading the character
    buffer. *)
Lemma zstr_as_bytes_chars h s chars :
  zstr_chars h s = Some chars → in_range chars 0 (zstr_len s) →
  zstr_as_bytes h s = buf_read chars 0 (zstr_len s).
Proof.
  intros Hc Hr. unfold zstr_as_bytes, zstr_as_view, view_bytes.
  destruct s as [sh|l]; simpl in *.
  - injection Hc as <-. unfold short_raw. by apply buf_read_app_l.
  - by rewrite Hc.
Qed.

(** C9.  For every byte sequence [b] (NUL bytes included), the bytes of
    [from_bytes b] read back through the view are [b], provided the
    allocation that a sequence of [ZSTR_SSO_CAP] bytes or more needs is
    granted.  A sequence held in memory is shorter than [SIZE_MAX]. *)
Theorem from_bytes_as_bytes (h : heap) (b : list Z) :
  zlen b < SIZE_MAX →
  (ZSTR_SSO_CAP ≤ zlen b → alloc_ok h) →
  ∃ h' s', zstr_from_bytes h b = Some (h', s') ∧
           zstr_len s' = zlen b ∧
           zstr_as_bytes h' s' = Some b.
Proof.
  intros Hsz Hok.
  destruct (zstr_from_bytes_spec h b Hsz)
    as (h' & s' & Hfrom & Hinv & _ & _ & [(Hlen & _ & chars & Hc & Hrd)|(Hbig & Hno & _)]).
  - exists h', s'. split_and!; try done.
    rewrite (zstr_as_bytes_chars _ _ chars Hc); rewrite Hlen; [done|].
    by destruct (buf_read_inv _ _ _ _ Hrd).
  - destruct Hno. auto.
Qed.

Lemma from_bytes_as_bytes_witness :
  let b := [104; 0; 105] in
  zlen b < SIZE_MAX ∧ (ZSTR_SSO_CAP ≤ zlen b → alloc_ok heap_empty) ∧
  ∃ h' s', zstr_from_bytes heap_empty b = Some (h', s') ∧
           zstr_len s' = zlen b ∧
           zstr_as_bytes h' s' = Some b.
Proof.
  intros b.
  assert (H1 : zlen b < SIZE_MAX) by (vm_compute; reflexivity).
  assert (H2 : ZSTR_SSO_CAP ≤ zlen b → alloc_ok heap_empty) by (intros _; exact I).
  split; [exact H1|]. split; [exact H2|].
  exact (from_bytes_as_bytes heap_empty b H1 H2).
Defined.

(** ** Growth *)

Lemma Z_GROWTH_FACTOR_double c :
  1 ≤ c → 2 * c < SIZE_MOD → Z_GROWTH_FACTOR c = 2 * c.
Proof.
  intros H1 H2. unfold Z_GROWTH_FACTOR, size_mul.
  rewrite decide_False by lia. rewrite to_size_t_small; lia.
Qed.

(** The doubling loop of [zstr_cat_len] ends within its fuel and returns
    a capacity above the request. *)
Lemma grow_cap_spec req fuel c :
  req < 2 ^ 62 → 1 ≤ c → req < c * 2 ^ Z.of_nat fuel →
  ∃ c', grow_cap fuel c req = Some c' ∧ req < c' ∧ c ≤ c' ∧
        c' ≤ Z.max c (2 * req).
Proof.
  intros Hreq. revert c. induction fuel as [|f IH]; intros c H1 Hf.
  - simpl in *. rewrite decide_False by lia. exists c. split_and!; [done|lia..].
  - simpl. case_decide as Hle.
    + rewrite Z_GROWTH_FACTOR_double by (unfold SIZE_MOD; lia).
      destruct (IH (2 * c)) as (c' & Hg & ? & ? & ?); try lia.
      * rewrite Nat2Z.inj_succ, Z.pow_succ_r in Hf by lia. lia.
      * exists c'. split_and!; try done; lia.
    + exists c. split_and!; [done|lia..].
Qed.

(** ** [zstr_push_char] and [zstr_cat_len] *)

Lemma zstr_inv_bounds h s :
  zstr_inv h s → 0 ≤ zstr_len s ≤ zstr_cap s ∧ ZSTR_SSO_CAP ≤ zstr_cap s.
Proof.
  destruct s as [sh|l]; simpl.
  - intros (_ & ? & _). lia.
  - intros (blk & _ & ? & ? & _). lia.
Qed.

Lemma set_len_len s n :
  0 ≤ n < ZSTR_SSO_CAP ∨ zstr_is_long s = true → zstr_len (set_len s n) = n.
Proof.
  destruct s as [sh|l]; simpl; [|done]. intros [H|H]; [|done].
  unfold to_uint8. apply Z.mod_small. unfold ZSTR_SSO_CAP in *. lia.
Qed.

Lemma set_len_is_long s n : zstr_is_long (set_len s n) = zstr_is_long s.
Proof. by destruct s. Qed.

(** The tail shared by the append operations: the value [s1] has room
    for [bytes] and the terminator. *)
Lemma append_tail h s h1 s1 bytes (upd : zstr → zstr) :
  zstr_inv h1 s1 → zstr_len s1 = zstr_len s →
  match s1 with
  | Short sh => s_len sh + zlen bytes < ZSTR_SSO_CAP
  | Long l => l_len l + zlen bytes ≤ l_cap l
  end →
  (∀ s3, same_shape s1 s3 → upd s3 = set_len s3 (zstr_len s + zlen bytes)) →
  (zstr_is_long s = true → zstr_is_long s1 = true) →
  (zstr_is_long s = false → zstr_len s + zlen bytes < ZSTR_SSO_CAP →
     h1 = h ∧ zstr_is_long s1 = false) →
  append_post h s (zlen bytes)
    ('(h2, s2) ← data_write h1 s1 (zstr_len s) bytes;
     '(h3, s3) ← data_write h2 s2 (zstr_len s + zlen bytes) [0];
     Some (h3, upd s3, Z_OK)).
Proof.
  intros Hinv Hlen Hroom Hupd Hlong Hshort.
  destruct (append_write h1 s1 bytes Hinv Hroom)
    as (h2 & s2 & h3 & s3 & Hw1 & Hw2 & Hs & Hf & Hinv3 & _).
  rewrite Hlen in *. rewrite Hw1. simpl. rewrite Hw2. simpl.
  rewrite (Hupd _ Hs).
  pose proof (same_shape_is_long _ _ Hs) as Hl3.
  pose proof (zlen_nonneg bytes) as Hb.
  exists h3, (set_len s3 (zstr_len s + zlen bytes)), Z_OK.
  split_and!; try done.
  - left. split; [done|]. apply set_len_len.
    destruct s1 as [sh1|l1]; simpl in *.
    + left. destruct Hinv as (_ & ? & _). lia.
    + right. congruence.
  - intros H. rewrite set_len_is_long, Hl3. auto.
  - intros H1 H2. destruct (Hshort H1 H2) as [-> Hs1].
    rewrite set_len_is_long, Hl3. split_and!; try done.
    destruct Hf as (_ & _ & _ & Hf). destruct s1; [done|done].
Qed.

Lemma zstr_push_char_spec h s c :
  zstr_inv h s → zstr_cap s < 2 ^ 62 →
  append_post h s 1 (zstr_push_char h s c).
Proof.
  intros Hinv Hbound. destruct (zstr_inv_bounds _ _ Hinv) as [Hlen Hcap].
  unfold ZSTR_SSO_CAP in Hcap.
  unfold zstr_push_char.
  rewrite (size_add_small (zstr_len s) 1) by (unfold SIZE_MOD; lia).
  case_decide as Hgrow.
  - rewrite Z_GROWTH_FACTOR_double by (unfold SIZE_MOD; lia).
    destruct (zstr_reserve_spec h s (2 * zstr_cap s) Hinv)
      as (h1 & s1 & rc & Hres & Hinv1 & Hlen1 & Hkeep & _ & _ & Hcase);
      [unfold SIZE_MAX, SIZE_MOD; lia|].
    rewrite Hres. simpl.
    destruct Hcase as [(-> & Hlong & _)|(-> & -> & Hblk & Hno)].
    + rewrite decide_False by (unfold Z_OK; lia).
      destruct Hlong as [Hl1 Hcap1]; [unfold ZSTR_SSO_CAP; lia|].
      apply (append_tail h s h1 s1 [c] incr_len); try done.
      * destruct s1 as [|l1]; [done|]. simpl in *. change (zlen [c]) with 1. lia.
      * intros s3 Hs3. destruct s1 as [|l1]; [done|].
        destruct s3 as [|l3]; [done|]. simpl in *. subst l3.
        rewrite Hlen1. change (zlen [c]) with 1.
        by rewrite size_add_small by (unfold SIZE_MOD; lia).
      * change (zlen [c]) with 1. intros Hsh Hlt.
        destruct s as [sh|]; [|done]. simpl in *. unfold ZSTR_SSO_CAP in *. lia.
    + rewrite decide_True by done.
      exists h1, s, Z_ERR. split_and!; try done.
      * right. done.
      * intros Hsh Hlt. destruct s as [sh|]; [|done].
        simpl in *. unfold ZSTR_SSO_CAP in *. lia.
  - simpl. rewrite ?decide_False by (unfold Z_OK; lia).
    apply (append_tail h s h s [c] incr_len); try done.
    + change (zlen [c]) with 1. destruct s as [sh|l]; simpl in *;
        unfold ZSTR_SSO_CAP in *; lia.
    + intros s3 Hs3. change (zlen [c]) with 1.
      destruct s as [sh|l], s3 as [sh3|l3]; simpl in *; try done.
      * by rewrite Hs3.
      * subst l3. by rewrite size_add_small by (unfold SIZE_MOD; lia).
Qed.

Lemma zstr_cat_len_spec h s src :
  zstr_inv h s → zstr_cap s + zlen src < 2 ^ 62 →
  append_post h s (zlen src) (zstr_cat_len h s src (zlen src)).
Proof.
  intros Hinv Hbound. destruct (zstr_inv_bounds _ _ Hinv) as [Hlen Hcap].
  pose proof (zlen_nonneg src) as Hsrc.
  unfold ZSTR_SSO_CAP in Hcap.
  unfold zstr_cat_len.
  rewrite (size_add_small (zstr_len s) (zlen src)) by (unfold SIZE_MOD; lia).
  case_decide as Hgrow.
  - rewrite (decide_False (P := zstr_cap s = 0)) by lia.
    destruct (grow_cap_spec (zstr_len s + zlen src) grow_fuel (zstr_cap s))
      as (c' & Hg & Hc1 & Hc2 & Hc3); [lia|lia| |].
    { unfold grow_fuel. change (2 ^ Z.of_nat 64) with (2 ^ 64). lia. }
    rewrite Hg. clear Hg. simpl.
    destruct (zstr_reserve_spec h s c' Hinv)
      as (h1 & s1 & rc & Hres & Hinv1 & Hlen1 & Hkeep & _ & _ & Hcase);
      [unfold SIZE_MAX, SIZE_MOD; lia|].
    rewrite Hres. simpl.
    destruct Hcase as [(-> & Hlong & _)|(-> & -> & Hblk & Hno)].
    + rewrite decide_False by (unfold Z_OK; lia).
      destruct Hlong as [Hl1 Hcap1]; [unfold ZSTR_SSO_CAP; lia|].
      rewrite buf_read_all. simpl.
      apply (append_tail h s h1 s1 src (λ s3, add_len s3 (zlen src))); try done.
      * destruct s1 as [|l1]; [done|]. simpl in *. lia.
      * intros s3 Hs3. destruct s1 as [|l1]; [done|].
        destruct s3 as [|l3]; [done|]. simpl in *. subst l3.
        rewrite Hlen1.
        by rewrite size_add_small by (unfold SIZE_MOD; lia).
      * intros Hsh Hlt.
        destruct s as [sh|]; [|done]. simpl in *. unfold ZSTR_SSO_CAP in *. lia.
    + rewrite decide_True by done.
      exists h1, s, Z_ERR. split_and!; try done.
      * right. done.
      * intros Hsh Hlt. destruct s as [sh|]; [|done].
        simpl in *. unfold ZSTR_SSO_CAP in *. lia.
  - simpl. rewrite ?decide_False by (unfold Z_OK; lia).
    rewrite buf_read_all. simpl.
    apply (append_tail h s h s src (λ s3, add_len s3 (zlen src))); try done.
    + destruct s as [sh|l]; simpl in *; unfold ZSTR_SSO_CAP in *; lia.
    + intros s3 Hs3.
      destruct s as [sh|l], s3 as [sh3|l3]; simpl in *; try done.
      * rewrite Hs3. do 2 f_equal. unfold to_uint8.
        rewrite (Z.mod_small (zlen src)) by (unfold ZSTR_SSO_CAP in *; lia). done.
      * subst l3. by rewrite size_add_small by (unfold SIZE_MOD; lia).
Qed.

(** C2 (as amended).  A value built by [from_bytes] from fewer than
    [ZSTR_SSO_CAP] bytes is inline and no allocation request is made; an
    inline value that [push_char] or [cat_len] grows to a length below
    [ZSTR_SSO_CAP] stays inline, again without any allocation request.
    A value these operations return with length [ZSTR_SSO_CAP] or more is
    heap-backed with capacity at least its length (the invariant they
    maintain), and a heap-backed value stays heap-backed.  Sizes are
    below 2^62, where the size arithmetic does not wrap. *)
Theorem sso_threshold :
  (∀ h b, zlen b < SIZE_MAX →
     ∃ h' s', zstr_from_bytes h b = Some (h', s') ∧ zstr_inv h' s' ∧
       (zlen b < ZSTR_SSO_CAP →
          h' = h ∧ zstr_is_long s' = false ∧ zstr_len s' = zlen b) ∧
       (ZSTR_SSO_CAP ≤ zlen b → alloc_ok h →
          zstr_is_long s' = true ∧ zstr_len s' = zlen b ∧
          zstr_len s' ≤ zstr_cap s')) ∧
  (∀ h s op, zstr_inv h s → zstr_cap s + zlen (op_bytes op) < 2 ^ 62 →
     append_post h s (zlen (op_bytes op)) (run_op h s op)) ∧
  (∀ h s, zstr_inv h s →
     (zstr_len s < ZSTR_SSO_CAP ∨ zstr_is_long s = true) ∧
     (zstr_is_long s = true → zstr_len s ≤ zstr_cap s)).
Proof.
  split_and!.
  - intros h b Hsz.
    destruct (zstr_from_bytes_spec h b Hsz)
      as (h' & s' & Hfrom & Hinv & _ & Hsmall & Hcase).
    exists h', s'. split_and!; try done.
    + intros Hlt. destruct (Hsmall Hlt) as [-> Hsh]. split_and!; try done.
      destruct Hcase as [(? & _)|(? & _)]; [done|lia].
    + intros Hbig Hok.
      destruct Hcase as [(Hlen & Hl & _)|(_ & Hno & _)]; [|done].
      destruct (Hl Hbig). split_and!; try done. lia.
  - intros h s [c|src] Hinv Hb; simpl in *.
    + apply zstr_push_char_spec; [done|]. change (zlen [c]) with 1 in Hb. lia.
    + by apply zstr_cat_len_spec.
  - intros h s Hinv. destruct s as [sh|l]; simpl in *.
    + destruct Hinv as (_ & ? & _). split; [left; lia|done].
    + destruct Hinv as (blk & _ & ? & _). split; [by right|lia].
Qed.

(** ** [zstr_own] *)

(** A store at [s.buf[ZSTR_SSO_CAP]] lands on the [len] byte. *)
Lemma data_write_short_len h buf n c :
  length buf = Z.to_nat ZSTR_SSO_CAP →
  data_write h (Short (ZShort buf n)) ZSTR_SSO_CAP [c] =
    Some (h, Short (ZShort buf c)).
Proof.
  intros Hlen. unfold data_write, short_raw. simpl.
  assert (Hz : zlen buf = 23) by (unfold zlen; rewrite Hlen; done).
  assert (in_range (buf ++ [n]) 23 (zlen [c])).
  { unfold in_range. rewrite zlen_app.
    change (zlen [n]) with 1; change (zlen [c]) with 1. lia. }
  rewrite buf_write_Some by done.
  simpl. do 3 f_equal.
  change (Z.to_nat ZSTR_SSO_CAP) with 23%nat in *.
  change (Z.to_nat 23) with 23%nat.
  rewrite take_app_length' by done.
  rewrite drop_ge by (rewrite length_app, Hlen; simpl; lia).
  apply short_of_raw_app. done.
Qed.

(** C1.  Adopting a buffer with [len = cap = ZSTR_SSO_CAP] (what
    [zstr_take] hands out for a 23-byte heap value) takes the inline
    branch of [zstr_own]: the 23 bytes fill [buf], the terminator store
    [s.buf[23]] lands on the [len] byte, which is then set to 23.  The
    value returned is inline with length 23 and no terminator: the
    invariant of the data model does not hold for it. *)
Theorem zstr_own_full_inline (h : heap) (ptr : nat) (blk : list Z) :
  blocks h !! ptr = Some blk → ZSTR_SSO_CAP ≤ zlen blk →
  ∃ h', zstr_own h ptr ZSTR_SSO_CAP ZSTR_SSO_CAP =
          Some (h', Short (ZShort (take (Z.to_nat ZSTR_SSO_CAP) blk) ZSTR_SSO_CAP)) ∧
    ¬ sso_inv h' (Short (ZShort (take (Z.to_nat ZSTR_SSO_CAP) blk) ZSTR_SSO_CAP)) ∧
    ¬ terminated h' (Short (ZShort (take (Z.to_nat ZSTR_SSO_CAP) blk) ZSTR_SSO_CAP)).
Proof.
  intros Hblk Hsz. unfold zstr_own.
  rewrite decide_True by done.
  unfold heap_read. rewrite Hblk. simpl.
  rewrite buf_read_Some by (unfold in_range, ZSTR_SSO_CAP in *; lia).
  simpl. change (Z.to_nat 0) with 0%nat. rewrite drop_0.
  set (bytes := take (Z.to_nat ZSTR_SSO_CAP) blk).
  assert (Hbl : length bytes = Z.to_nat ZSTR_SSO_CAP).
  { unfold bytes. rewrite length_take. unfold zlen, ZSTR_SSO_CAP in *. lia. }
  destruct (data_write_short h (ZShort (replicate (Z.to_nat ZSTR_SSO_CAP) 0) 0)
              0 bytes) as (buf' & Hw & Hd).
  { reflexivity. }
  { lia. }
  { unfold zlen. rewrite Hbl. unfold ZSTR_SSO_CAP. lia. }
  assert (buf' = bytes) as ->.
  { destruct (buf_write_inv _ _ _ _ Hw) as [_ ->]. cbn [s_buf].
    change (Z.to_nat 0) with 0%nat. rewrite take_0.
    rewrite drop_ge by (rewrite length_replicate; lia).
    by rewrite app_nil_r. }
  unfold zstr_init. rewrite Hd. simpl.
  rewrite (data_write_short_len h bytes 0 0 Hbl). simpl.
  unfold free. rewrite Hblk. simpl.
  eexists. split; [reflexivity|]. split.
  - intros [_ Hr]. simpl in Hr. lia.
  - intros (obj & Hobj & Hnul). simpl in Hobj. injection Hobj as <-.
    unfold short_raw in Hnul. simpl in Hnul.
    rewrite lookup_app_r in Hnul by (rewrite Hbl; unfold ZSTR_SSO_CAP; lia).
    rewrite Hbl in Hnul. by vm_compute in Hnul.
Qed.

(** The buffer that [zstr_take] hands out for [from_bytes abc23], adopted
    back with its length and capacity. *)
Lemma zstr_own_full_inline_witness :
  let h := Heap {[ 0%nat := abc23 ++ [0] ]} [] 0xCD in
  let s := Long (ZLong 0 ZSTR_SSO_CAP ZSTR_SSO_CAP) in
  zstr_from_bytes heap_empty abc23 = Some (h, s) ∧
  zstr_take h s = Some (h, zstr_init, Some 0%nat) ∧
  blocks h !! 0%nat = Some (abc23 ++ [0]) ∧
  ZSTR_SSO_CAP ≤ zlen (abc23 ++ [0]) ∧
  ∃ h', zstr_own h 0%nat ZSTR_SSO_CAP ZSTR_SSO_CAP =
          Some (h', Short (ZShort abc23 ZSTR_SSO_CAP)) ∧
        ¬ sso_inv h' (Short (ZShort abc23 ZSTR_SSO_CAP)).
Proof.
  intros h s.
  assert (H1 : blocks h !! 0%nat = Some (abc23 ++ [0])) by reflexivity.
  assert (H2 : ZSTR_SSO_CAP ≤ zlen (abc23 ++ [0])) by (vm_compute; discriminate).
  split; [vm_compute; reflexivity|]. split; [reflexivity|].
  split; [exact H1|]. split; [exact H2|].
  destruct (zstr_own_full_inline h 0%nat (abc23 ++ [0]) H1 H2)
    as (h' & Hown & Hinv & _).
  exists h'. split; [exact Hown|exact Hinv].
Defined.

(** ** [zstr_shrink_to_fit] *)

(** Copying [len] bytes of [src] to the start of [dst] and terminating
    them there. *)
Lemma copy_terminated (src dst : list Z) (len : Z) :
  0 ≤ len → len ≤ zlen src → len < zlen dst →
  ∃ bytes b1 b2,
    buf_read src 0 len = Some bytes ∧
    buf_write dst 0 bytes = Some b1 ∧
    buf_write b1 len [0] = Some b2 ∧
    zlen b2 = zlen dst ∧ b2 !! Z.to_nat len = Some 0 ∧
    take (Z.to_nat len) b2 = take (Z.to_nat len) src.
Proof.
  intros H0 Hsrc Hdst.
  destruct (buf_read_ex src 0 len) as (bytes & Hrd); [unfold in_range; lia|].
  pose proof (buf_read_length _ _ _ _ Hrd) as Hbl.
  destruct (buf_write_ex dst 0 bytes) as (b1 & Hw1); [unfold in_range; lia|].
  pose proof (buf_write_zlen _ _ _ _ Hw1) as Hz1.
  destruct (buf_write_ex b1 len [0]) as (b2 & Hw2);
    [unfold in_range; change (zlen [0]) with 1; lia|].
  pose proof (buf_write_zlen _ _ _ _ Hw2) as Hz2.
  exists bytes, b1, b2. split_and!; try done; try lia.
  - by apply (buf_write_byte _ _ _ _ Hw2).
  - apply list_eq. intros i.
    destruct (decide (i < Z.to_nat len)%nat) as [Hi|Hi].
    + rewrite !lookup_take_lt by done.
      rewrite (buf_write_lookup_lt _ _ _ _ _ Hw2) by lia.
      pose proof (buf_write_lookup_in _ _ _ _ i Hw1) as Hin.
      change (Z.to_nat 0 + i)%nat with i in Hin.
      rewrite Hin by (unfold zlen in Hbl; lia).
      destruct (buf_read_inv _ _ _ _ Hrd) as [_ ->].
      rewrite lookup_take_lt by lia.
      change (Z.to_nat 0) with 0%nat. by rewrite drop_0.
    + rewrite !lookup_take_ge by lia. done.
Qed.

(** C3.  What [zstr_shrink_to_fit] does, case by case.  An inline value
    is returned as it is.  A heap-backed value of length below
    [ZSTR_SSO_CAP] is demoted: the block is freed, length and content are
    kept.  At length [ZSTR_SSO_CAP] exactly the guard
    [l.len <= ZSTR_SSO_CAP] still selects the demotion branch, whose
    store [temp[l.len]] is then one past the 23-byte [temp]: the
    operation is undefined there.  Above [ZSTR_SSO_CAP], a value with
    spare capacity is reallocated to [len + 1] bytes, or left as it was
    when the reallocation is refused; a value without spare capacity is
    left as it is.  The capacity never grows. *)
Theorem zstr_shrink_to_fit_cases (h : heap) (s : zstr) :
  zstr_inv h s → zstr_len s < SIZE_MAX →
  match s with
  | Short _ => zstr_shrink_to_fit h s = Some (h, s)
  | Long l =>
      if decide (l_len l < ZSTR_SSO_CAP) then
        ∃ h' sh, zstr_shrink_to_fit h s = Some (h', Short sh) ∧
          zstr_inv h' (Short sh) ∧ s_len sh = l_len l ∧
          zstr_as_bytes h' (Short sh) = zstr_as_bytes h s ∧
          zstr_cap (Short sh) ≤ l_cap l ∧
          blocks h' = delete (l_ptr l) (blocks h)
      else if decide (l_len l = ZSTR_SSO_CAP) then
        zstr_shrink_to_fit h s = None
      else if decide (l_len l < l_cap l) then
        ∃ h' s', zstr_shrink_to_fit h s = Some (h', s') ∧
          zstr_inv h' s' ∧ zstr_len s' = l_len l ∧
          zstr_as_bytes h' s' = zstr_as_bytes h s ∧
          zstr_cap s' ≤ l_cap l ∧
          ((alloc_ok h ∧
            ∃ q blk', s' = Long (ZLong q (l_len l) (l_len l)) ∧
                      blocks h' !! q = Some blk' ∧ zlen blk' = l_len l + 1)
           ∨ (¬ alloc_ok h ∧ s' = s ∧ blocks h' = blocks h))
      else zstr_shrink_to_fit h s = Some (h, s)
  end.
Proof.
  intros Hinv Hmax. destruct s as [sh|l]; [done|].
  simpl in Hinv, Hmax. destruct Hinv as (blk & Hblk & Hr & Hc23 & Hbsz & Hterm).
  unfold SIZE_MAX, SIZE_MOD, ZSTR_SSO_CAP in *.
  assert (Hbytes : zstr_as_bytes h (Long l) = buf_read blk 0 (l_len l)).
  { apply zstr_as_bytes_chars; [done|]. unfold in_range. simpl. lia. }
  unfold zstr_shrink_to_fit.
  case_decide as Hlt; [|case_decide as Heq; [|case_decide as Hspare]].
  - (* demotion *)
    rewrite decide_True by (unfold ZSTR_SSO_CAP; lia).
    destruct (copy_terminated blk (replicate (Z.to_nat ZSTR_SSO_CAP) (fill h))
                (l_len l)) as (bytes & t1 & t2 & Hrd & Hw1 & Hw2 & Hz2 & Ht2 & Hpre);
      [lia|lia|rewrite zlen_replicate; unfold ZSTR_SSO_CAP; lia|].
    rewrite zlen_replicate in Hz2.
    unfold heap_read. rewrite Hblk. mstep. rewrite Hrd. mstep.
    rewrite Hw1. mstep. rewrite Hw2. mstep.
    unfold free. rewrite Hblk. mstep.
    assert (Hu8 : to_uint8 (l_len l) = l_len l)
      by (unfold to_uint8; apply Z.mod_small; lia).
    rewrite Hu8.
    destruct (buf_read_ex t2 0 (l_len l + 1)) as (cp & Hcp);
      [unfold in_range, ZSTR_SSO_CAP in *; lia|].
    rewrite Hcp. mstep.
    pose proof (buf_read_length _ _ _ _ Hcp) as Hcpl.
    unfold union_residue.
    destruct (data_write_short
                (Heap (delete (l_ptr l) (blocks h)) (oracle h) (fill h))
                (ZShort (replicate (Z.to_nat ZSTR_SSO_CAP) (fill h)) (fill h))
                0 cp) as (buf' & Hw & Hd);
      [reflexivity|lia|unfold ZSTR_SSO_CAP; lia|].
    cbn [s_buf s_len] in Hw, Hd.
    rewrite Hd. mstep.
    pose proof (buf_write_length _ _ _ _ Hw) as Hbl'.
    rewrite length_replicate in Hbl'.
    assert (Hsame : ∀ i, (i < Z.to_nat (l_len l + 1))%nat → buf' !! i = t2 !! i).
    { intros i Hi.
      pose proof (buf_write_lookup_in _ _ _ _ i Hw) as Hin.
      change (Z.to_nat 0 + i)%nat with i in Hin.
      rewrite Hin by (unfold zlen in Hcpl; lia).
      destruct (buf_read_inv _ _ _ _ Hcp) as [_ ->].
      rewrite lookup_take_lt by lia.
      change (Z.to_nat 0) with 0%nat. by rewrite drop_0. }
    eexists _, _. split; [reflexivity|]. simpl.
    split_and!; try done; try lia.
    + rewrite Hsame by lia. done.
    + rewrite Hbytes.
      rewrite (zstr_as_bytes_chars _ _ buf') by
        (try done; unfold in_range, zlen; simpl; rewrite Hbl';
         unfold ZSTR_SSO_CAP; lia).
      simpl.
      rewrite !buf_read_Some
        by (unfold in_range, zlen in *; rewrite ?Hbl'; unfold ZSTR_SSO_CAP; lia).
      f_equal. change (Z.to_nat 0) with 0%nat. rewrite !drop_0.
      rewrite <- Hpre. apply list_eq. intros i.
      destruct (decide (i < Z.to_nat (l_len l))%nat) as [Hi|Hi].
      * rewrite !lookup_take_lt by done. apply Hsame. lia.
      * rewrite !lookup_take_ge by lia. done.
  - (* length 23: the store into [temp] is out of range *)
    rewrite decide_True by (unfold ZSTR_SSO_CAP; lia).
    unfold heap_read. rewrite Hblk. mstep.
    destruct (buf_read_ex blk 0 (l_len l)) as (bytes & Hrd);
      [unfold in_range; lia|].
    rewrite Hrd. mstep.
    pose proof (buf_read_length _ _ _ _ Hrd) as Hbl.
    destruct (buf_write_ex (replicate (Z.to_nat ZSTR_SSO_CAP) (fill h)) 0 bytes)
      as (t1 & Hw1);
      [unfold in_range; rewrite zlen_replicate; unfold ZSTR_SSO_CAP; lia|].
    rewrite Hw1. mstep.
    pose proof (buf_write_zlen _ _ _ _ Hw1) as Hz1. rewrite zlen_replicate in Hz1.
    unfold buf_write.
    rewrite decide_False; [done|].
    unfold in_range. change (zlen [0]) with 1. unfold ZSTR_SSO_CAP in *. lia.
  - (* reallocation *)
    rewrite decide_False by (unfold ZSTR_SSO_CAP; lia).
    rewrite size_add_small by (unfold SIZE_MOD; lia).
    destruct (alloc_ok_dec h) as [Hok|Hno].
    + rewrite (realloc_granted _ _ _ _ Hblk Hok) by lia. simpl.
      set (blk' := take _ _).
      assert (Hz' : zlen blk' = l_len l + 1).
      { unfold blk', zlen in *. rewrite length_take, length_app. lia. }
      assert (Hpre : ∀ i, (i < Z.to_nat (l_len l + 1))%nat → blk' !! i = blk !! i).
      { intros i Hi. unfold blk'. rewrite lookup_take_lt by done.
        apply lookup_app_l. unfold zlen in *. lia. }
      eexists _, _. split; [reflexivity|]. simpl.
      split_and!; try done; try lia.
      * exists blk'. rewrite lookup_insert_eq.
        split_and!; try done; try lia.
        -- unfold ZSTR_SSO_CAP. lia.
        -- rewrite Hpre by lia. done.
      * rewrite Hbytes. rewrite (zstr_as_bytes_chars _ _ blk');
          [|simpl; by rewrite lookup_insert_eq|unfold in_range; simpl; lia].
        simpl.
        rewrite !buf_read_Some by (unfold in_range; lia).
        f_equal. change (Z.to_nat 0) with 0%nat. rewrite !drop_0.
        apply list_eq. intros i.
        destruct (decide (i < Z.to_nat (l_len l))%nat) as [Hi|Hi].
        -- rewrite !lookup_take_lt by done. apply Hpre. lia.
        -- rewrite !lookup_take_ge by lia. done.
      * left. split; [done|]. eexists _, blk'.
        split; [reflexivity|]. simpl. by rewrite lookup_insert_eq.
    + rewrite (realloc_refused _ _ _ _ Hblk Hno) by lia. simpl.
      eexists _, _. split; [reflexivity|]. simpl.
      split_and!; try done; try lia.
      * exists blk. split_and!; try done; lia.
      * right. done.
  - rewrite decide_False by (unfold ZSTR_SSO_CAP; lia). done.
Qed.

(** The heap value that [from_bytes] builds from 23 bytes. *)
Lemma zstr_shrink_to_fit_cases_witness :
  let h := Heap {[ 0%nat := abc23 ++ [0] ]} [] 0xCD in
  let s := Long (ZLong 0 ZSTR_SSO_CAP ZSTR_SSO_CAP) in
  zstr_from_bytes heap_empty abc23 = Some (h, s) ∧
  zstr_inv h s ∧ zstr_len s < SIZE_MAX ∧
  zstr_shrink_to_fit h s = None.
Proof.
  intros h s.
  assert (H1 : zstr_inv h s).
  { exists (abc23 ++ [0]). split_and!; try reflexivity; vm_compute; congruence. }
  assert (H2 : zstr_len s < SIZE_MAX) by reflexivity.
  split; [vm_compute; reflexivity|]. split; [exact H1|]. split; [exact H2|].
  exact (zstr_shrink_to_fit_cases h s H1 H2).
Defined.

(** ** [zstr_sub] *)

(** As long as [start + len] does not wrap, [zstr_sub] clamps: the view
    returned starts at [start] and has [len] bytes, or what is left of
    the view if that is less. *)
Lemma zstr_sub_clamped (v : zstr_view) (start len : Z) :
  0 ≤ start → 0 ≤ len → start + len < SIZE_MOD → 0 ≤ v_len v < SIZE_MOD →
  zstr_sub v start len =
    if decide (v_len v ≤ start) then ZView [0] 0 0
    else ZView (v_obj v) (v_off v + start) (Z.min len (v_len v - start)).
Proof.
  intros H0 Hl Hsum Hv. unfold zstr_sub.
  case_decide as Hs; [done|]. f_equal.
  rewrite size_add_small by lia.
  case_decide as Hc.
  - unfold size_sub. rewrite to_size_t_small by lia. lia.
  - lia.
Qed.

(** C5.  On the view of "abc", [zstr_sub (v, 1, SIZE_MAX)] is not
    clamped: [start + len] wraps to 0, the test [start + len > v.len]
    fails, and the view returned has length [SIZE_MAX], beyond the two
    bytes left. *)
Theorem zstr_sub_wraps :
  let obj := bytes_of "abc" ++ [0] in
  zstr_view_from (bytes_of "abc") = Some (ZView obj 0 3) ∧
  zstr_sub (ZView obj 0 3) 1 SIZE_MAX = ZView obj 1 SIZE_MAX ∧
  ¬ (v_len (zstr_sub (ZView obj 0 3) 1 SIZE_MAX) ≤ 3 - 1) ∧
  view_bytes (zstr_sub (ZView obj 0 3) 1 SIZE_MAX) = None.
Proof.
  intros obj. split_and!.
  - vm_compute. reflexivity.
  - vm_compute. reflexivity.
  - vm_compute. intros H. apply H. reflexivity.
  - vm_compute. reflexivity.
Qed.

(** ** [zstr_split_next] *)

(** C6.  Splitting "a,,b" at "," yields "a", "" and "b" and then
    nothing; splitting "abc" at "," yields "abc" and then nothing; and a
    finished iterator yields nothing and stays as it is, so that every
    further call yields nothing either. *)
Theorem zstr_split_examples :
  (let o := bytes_of "a,,b" ++ [0] in
   split_parts 4 (bytes_of "a,,b") (bytes_of ",") =
     Some [ZView o 0 1; ZView o 2 0; ZView o 3 1] ∧
   view_bytes <$> [ZView o 0 1; ZView o 2 0; ZView o 3 1] =
     [Some (bytes_of "a"); Some []; Some (bytes_of "b")]) ∧
  (let o := bytes_of "abc" ++ [0] in
   split_parts 2 (bytes_of "abc") (bytes_of ",") = Some [ZView o 0 3] ∧
   view_bytes (ZView o 0 3) = Some (bytes_of "abc")) ∧
  (∀ it, finished it = true → zstr_split_next it = Some (it, None)) ∧
  (∀ it n, finished it = true → split_all n it = Some []).
Proof.
  split_and!.
  - split; vm_compute; reflexivity.
  - split; vm_compute; reflexivity.
  - intros it Hf. unfold zstr_split_next. by rewrite Hf.
  - intros it [|n] Hf; [done|]. simpl. unfold zstr_split_next. by rewrite Hf.
Qed.

(** ** [zstr_is_valid_utf8] *)

(** C8.  The validator accepts "hello", "héllo", "日本語" and a four-byte
    emoji, and rejects a lone continuation byte, the overlong encoding
    C0 AF of '/', and the encoded surrogate ED A0 80. *)
Theorem zstr_is_valid_utf8_examples :
  valid_utf8_of (bytes_of "hello") = Some true ∧
  valid_utf8_of hello_acute = Some true ∧
  valid_utf8_of nihongo = Some true ∧
  valid_utf8_of emoji = Some true ∧
  valid_utf8_of [0x80] = Some false ∧
  valid_utf8_of [0xC0; 0xAF] = Some false ∧
  valid_utf8_of [0xED; 0xA0; 0x80] = Some false.
Proof. split_and!; vm_compute; reflexivity. Qed.

(** ** [zstr_next_rune] and [zstr_count_runes] *)

Lemma buf_load_Some obj p c :
  buf_load obj p = Some c → 0 ≤ p ∧ obj !! Z.to_nat p = Some c.
Proof. unfold buf_load. case_decide; [|done]. auto. Qed.

Lemma buf_load_below obj p q c :
  buf_load obj q = Some c → 0 ≤ p ≤ q → is_Some (buf_load obj p).
Proof.
  intros [H0 Hq]%buf_load_Some Hp. unfold buf_load.
  rewrite decide_True by lia. apply lookup_lt_is_Some.
  apply lookup_lt_Some in Hq. lia.
Qed.

(** The NUL byte is no continuation byte. *)
Lemma continuation_nonzero b : Z.land b 0xC0 = 0x80 → b ≠ 0.
Proof. intros H ->. done. Qed.

(** A continuation byte that lacks the pattern [10xxxxxx] stops the
    loop with the early return. *)
Lemma rune_tail_bad n obj p j rune i b :
  0 ≤ p → 0 ≤ j → j ≤ i < j + Z.of_nat n →
  buf_load obj (p + i) = Some b → Z.land b 0xC0 ≠ 0x80 →
  rune_tail n obj p j rune = Some None.
Proof.
  intros Hp. revert j rune. induction n as [|n IH]; intros j rune Hj Hi Hb Hbad.
  - lia.
  - simpl. destruct (buf_load_below obj (p + j) (p + i) b Hb) as [bj Hbj]; [lia|].
    rewrite Hbj. simpl. case_decide as Hc; [done|].
    apply IH; try done; try lia.
    destruct (decide (i = j)) as [->|]; [|lia]. congruence.
Qed.

(** In a NUL-terminated object the loop never reads past the
    terminator; when it runs to its end, the bytes it has read are all
    continuation bytes, and the terminator lies beyond them. *)
Lemma rune_tail_terminated n obj p j rune (z : nat) :
  0 ≤ p → 0 ≤ j → p + j ≤ Z.of_nat z → obj !! z = Some 0 →
  ∃ r, rune_tail n obj p j rune = Some r ∧
       (is_Some r → p + j + Z.of_nat n ≤ Z.of_nat z).
Proof.
  intros Hp. revert j rune. induction n as [|n IH]; intros j rune Hj Hz Hnul.
  - simpl. eexists. split; [done|]. lia.
  - simpl.
    assert (Hload : is_Some (buf_load obj (p + j))).
    { apply (buf_load_below obj (p + j) (Z.of_nat z) 0); [|lia].
      unfold buf_load. rewrite decide_True by lia. by rewrite Nat2Z.id. }
    destruct Hload as [bj Hbj]. rewrite Hbj. simpl.
    case_decide as Hc.
    + eexists. split; [done|]. by intros [? ?].
    + assert (bj ≠ 0) by (apply continuation_nonzero; tauto).
      assert (p + j ≠ Z.of_nat z).
      { intros Heq. rewrite Heq in Hbj. unfold buf_load in Hbj.
        rewrite decide_True, Nat2Z.id in Hbj by lia. congruence. }
      destruct (IH (j + 1) (Z.lor (Z.shiftl rune 6) (Z.land bj 0x3F)))
        as (r & Hr & Hrz); try done; try lia.
      exists r. split; [done|]. intros Hs. specialize (Hrz Hs). lia.
Qed.

Lemma rune_lead_len c rune len :
  rune_lead c = Some (rune, len) → len = 2 ∨ len = 3 ∨ len = 4.
Proof.
  unfold rune_lead. repeat case_decide; intros [= <- <-] || done; auto.
Qed.

(** Every decode step at a byte other than NUL moves the cursor forward,
    by four bytes at most, and not past the terminator. *)
Lemma zstr_next_rune_progress obj p c (z : nat) :
  buf_load obj p = Some c → c ≠ 0 → p ≤ Z.of_nat z → obj !! z = Some 0 →
  ∃ r p', zstr_next_rune obj p = Some (r, p') ∧
          p + 1 ≤ p' ≤ p + 4 ∧ p' ≤ Z.of_nat z.
Proof.
  intros Hc Hc0 Hz Hnul. destruct (buf_load_Some _ _ _ Hc) as [Hp Hlk].
  assert (Hne : p ≠ Z.of_nat z).
  { intros ->. rewrite Nat2Z.id in Hlk. congruence. }
  unfold zstr_next_rune. rewrite Hc. simpl.
  rewrite decide_False by done.
  case_decide as Hascii.
  { eexists _, _. split; [done|]. lia. }
  destruct (rune_lead c) as [[rune len]|] eqn:Hlead.
  - assert (Hlen : 2 ≤ len ≤ 4)
      by (destruct (rune_lead_len _ _ _ Hlead) as [->|[->| ->]]; lia).
    destruct (rune_tail_terminated (Z.to_nat (len - 1)) obj p 1 rune z)
      as (r & Hr & Hrz); [lia|lia|lia|done|].
    rewrite Hr. simpl. destruct r as [r|].
    + specialize (Hrz (mk_is_Some _ _ eq_refl)).
      eexists _, _. split; [done|]. lia.
    + eexists _, _. split; [done|]. lia.
  - eexists _, _. split; [done|]. lia.
Qed.

(** The counting loop ends, within a fuel of the distance to the
    terminator, having taken between a quarter of that distance and that
    distance in decode steps. *)
Lemma count_runes_from_terminated (z : nat) obj :
  obj !! z = Some 0 →
  ∀ fuel p k, 0 ≤ p ≤ Z.of_nat z → Z.of_nat z - p ≤ Z.of_nat fuel →
    0 ≤ k → k + (Z.of_nat z - p) < SIZE_MOD →
    ∃ n, count_runes_from fuel obj p k = Some n ∧
         k ≤ n ≤ k + (Z.of_nat z - p).
Proof.
  intros Hnul. induction fuel as [|f IH]; intros p k Hp Hfuel Hk Hwrap.
  - assert (p = Z.of_nat z) as -> by lia.
    simpl. unfold buf_load. rewrite decide_True, Nat2Z.id, Hnul by lia. simpl.
    exists k. split; [done|lia].
  - assert (Hload : is_Some (buf_load obj p)).
    { apply (buf_load_below obj p (Z.of_nat z) 0); [|lia].
      unfold buf_load. rewrite decide_True by lia. by rewrite Nat2Z.id. }
    destruct Hload as [c Hc].
    cbn [count_runes_from]. rewrite Hc. simpl.
    case_decide as Hc0.
    + exists k. split; [done|lia].
    + destruct (zstr_next_rune_progress obj p c z Hc Hc0 ltac:(lia) Hnul)
        as (r & p' & Hnext & Hp' & Hz').
      rewrite Hnext. simpl.
      rewrite size_add_small by lia.
      destruct (IH p' (k + 1)) as (n & Hn & Hbound); try lia.
      exists n. split; [done|lia].
Qed.

(** ** Occurrences of a substring *)

Lemma find_sub_Some hay t (i : nat) :
  find_sub hay t = Some i →
  (i + length t ≤ length hay)%nat ∧ t `prefix_of` drop i hay.
Proof.
  revert i. induction hay as [|c hay IH]; intros i; simpl.
  - case_decide as Hp; [|done]. intros [= <-].
    split; [|done]. apply prefix_length in Hp. simpl in *. lia.
  - case_decide as Hp.
    + intros [= <-]. split; [|done]. apply prefix_length in Hp. simpl in *. lia.
    + destruct (find_sub hay t) as [j|] eqn:Hj; [|done].
      intros [= <-]. destruct (IH j eq_refl) as [Hl Hpre].
      split; [simpl; lia|done].
Qed.

Lemma spec_replace_drop k hay t r :
  spec_replace k hay t r = spec_replace 0 (drop k hay) t r.
Proof.
  revert k. induction hay as [|c hay IH]; intros [|k]; simpl; done.
Qed.

Lemma spec_count_drop k hay t :
  spec_count k hay t = spec_count 0 (drop k hay) t.
Proof.
  revert k. induction hay as [|c hay IH]; intros [|k]; simpl; done.
Qed.

(** The structural definition unfolds along the first occurrence. *)
Lemma spec_replace_find hay t r :
  t ≠ [] →
  spec_replace 0 hay t r =
    match find_sub hay t with
    | None => hay
    | Some i => take i hay ++ r ++ spec_replace 0 (drop (i + length t) hay) t r
    end.
Proof.
  intros Ht. induction hay as [|c hay IH]; simpl.
  - rewrite decide_False; [done|].
    intros Hp. apply prefix_nil_inv in Hp. done.
  - case_decide as Hp.
    + simpl. rewrite spec_replace_drop. do 2 f_equal.
      destruct t as [|x t]; [done|]. simpl. by rewrite Nat.sub_0_r.
    + rewrite IH. destruct (find_sub hay t) as [i|]; simpl; done.
Qed.

Lemma spec_count_find hay t :
  t ≠ [] →
  spec_count 0 hay t =
    match find_sub hay t with
    | None => O
    | Some i => S (spec_count 0 (drop (i + length t) hay) t)
    end.
Proof.
  intros Ht. induction hay as [|c hay IH]; simpl.
  - rewrite decide_False; [done|].
    intros Hp. apply prefix_nil_inv in Hp. done.
  - case_decide as Hp.
    + simpl. rewrite spec_count_drop. do 2 f_equal.
      destruct t as [|x t]; [done|]. simpl. by rewrite Nat.sub_0_r.
    + rewrite IH. destruct (find_sub hay t) as [i|]; simpl; done.
Qed.

(** The exact length of the result. *)
Lemma spec_replace_length hay t r :
  t ≠ [] →
  zlen (spec_replace 0 hay t r) =
    zlen hay + Z.of_nat (spec_count 0 hay t) * (zlen r - zlen t).
Proof.
  intros Ht.
  remember (length hay) as n eqn:Hn. revert hay Hn.
  induction (lt_wf n) as [n _ IH]. intros hay ->.
  rewrite spec_replace_find, spec_count_find by done.
  destruct (find_sub hay t) as [i|] eqn:Hf; [|lia].
  destruct (find_sub_Some _ _ _ Hf) as [Hle _].
  assert (Htl : (0 < length t)%nat) by (destruct t; [done|simpl; lia]).
  rewrite !zlen_app.
  rewrite (IH (length (drop (i + length t) hay))); [|rewrite length_drop; lia|done].
  unfold zlen. rewrite length_take, length_drop. nia.
Qed.

Lemma spec_count_le hay t : t ≠ [] → (spec_count 0 hay t ≤ length hay)%nat.
Proof.
  intros Ht.
  remember (length hay) as n eqn:Hn. revert hay Hn.
  induction (lt_wf n) as [n _ IH]. intros hay ->.
  rewrite spec_count_find by done.
  destruct (find_sub hay t) as [i|] eqn:Hf; [|lia].
  destruct (find_sub_Some _ _ _ Hf) as [Hle _].
  assert (Htl : (0 < length t)%nat) by (destruct t; [done|simpl; lia]).
  specialize (IH (length (drop (i + length t) hay))).
  rewrite length_drop in IH.
  specialize (IH ltac:(lia) (drop (i + length t) hay)).
  rewrite length_drop in IH. specialize (IH eq_refl). lia.
Qed.

(** ** C strings inside a buffer *)

Lemma until_nul_app a b :
  Forall (λ c, c ≠ 0) a → until_nul (a ++ 0 :: b) = Some a.
Proof.
  induction 1 as [|c a Hc _ IH]; simpl.
  - done.
  - rewrite decide_False by done. by rewrite IH.
Qed.

Lemma cstr_at_content c rest off :
  Forall (λ x, x ≠ 0) c → 0 ≤ off ≤ zlen c →
  cstr_at (c ++ 0 :: rest) off = Some (drop (Z.to_nat off) c).
Proof.
  intros Hnf Hoff. unfold cstr_at.
  rewrite decide_True
    by (rewrite zlen_app; pose proof (zlen_nonneg (0 :: rest)); lia).
  rewrite drop_app_le by (unfold zlen in *; lia).
  apply until_nul_app. by apply Forall_drop.
Qed.

Lemma c_strstr_content c rest off t :
  Forall (λ x, x ≠ 0) c → 0 ≤ off ≤ zlen c →
  c_strstr (c ++ 0 :: rest) off t =
    Some ((λ i : nat, off + Z.of_nat i) <$> find_sub (drop (Z.to_nat off) c) t).
Proof.
  intros Hnf Hoff. unfold c_strstr. by rewrite cstr_at_content.
Qed.

(** ** Consecutive writes *)

Lemma buf_write_decomp pre mid post src :
  length mid = length src →
  buf_write (pre ++ mid ++ post) (zlen pre) src = Some (pre ++ src ++ post).
Proof.
  intros Hl. unfold zlen.
  rewrite buf_write_Some
    by (unfold in_range, zlen; rewrite !length_app; lia).
  rewrite Nat2Z.id. f_equal.
  rewrite take_app_length. do 2 f_equal.
  rewrite drop_app_ge by lia.
  replace (length pre + length src - length pre)%nat with (length mid) by lia.
  by rewrite drop_app_length.
Qed.

Lemma in_range_decomp buf off n :
  in_range buf off n →
  ∃ pre mid post, buf = pre ++ mid ++ post ∧
                  zlen pre = off ∧ zlen mid = n.
Proof.
  intros (H0 & Hn & Hle). unfold zlen in *.
  exists (take (Z.to_nat off) buf),
         (take (Z.to_nat n) (drop (Z.to_nat off) buf)),
         (drop (Z.to_nat n) (drop (Z.to_nat off) buf)).
  rewrite !take_drop. rewrite !length_take, length_drop.
  split_and!; [done|lia|lia].
Qed.

(** Writing [a] and then [b] right after it is writing [a ++ b]. *)
Lemma buf_write_app buf off a b b1 b2 :
  buf_write buf off a = Some b1 →
  buf_write b1 (off + zlen a) b = Some b2 →
  buf_write buf off (a ++ b) = Some b2.
Proof.
  intros Ha Hb.
  pose proof (buf_write_zlen _ _ _ _ Ha) as Hz1.
  destruct (buf_write_inv _ _ _ _ Ha) as [(H0 & Hna & Hra) _].
  destruct (buf_write_inv _ _ _ _ Hb) as [(_ & Hnb & Hrb) _].
  destruct (in_range_decomp buf off (zlen (a ++ b)))
    as (pre & mid & post & -> & Hpre & Hmid);
    [unfold in_range; rewrite zlen_app; lia|].
  rewrite zlen_app in Hmid.
  assert (Hsplit : mid = take (length a) mid ++ drop (length a) mid)
    by (by rewrite take_drop).
  set (ma := take (length a) mid) in *. set (mb := drop (length a) mid) in *.
  assert (Hma : length ma = length a)
    by (unfold ma, zlen in *; rewrite length_take; lia).
  assert (Hmb : length mb = length b)
    by (unfold mb, zlen in *; rewrite length_drop; lia).
  subst off.
  rewrite Hsplit in Ha. rewrite <- app_assoc in Ha.
  rewrite buf_write_decomp in Ha by done. injection Ha as <-.
  replace (zlen pre + zlen a) with (zlen (pre ++ a)) in Hb by apply zlen_app.
  rewrite app_assoc in Hb.
  rewrite buf_write_decomp in Hb by done. injection Hb as <-.
  rewrite buf_write_decomp by (rewrite Hsplit, !length_app; lia).
  by rewrite <- !app_assoc.
Qed.

Lemma data_write_app h s off a b h1 s1 h2 s2 buf :
  zstr_chars h s = Some buf →
  (zstr_is_long s = false → length buf = Z.to_nat ZSTR_SSO_CAP) →
  in_range buf off (zlen (a ++ b)) →
  data_write h s off a = Some (h1, s1) →
  data_write h1 s1 (off + zlen a) b = Some (h2, s2) →
  data_write h s off (a ++ b) = Some (h2, s2).
Proof.
  intros Hc Hlen Hr Ha Hb.
  pose proof (zlen_nonneg a) as Hza. pose proof (zlen_nonneg b) as Hzb.
  rewrite zlen_app in Hr. destruct Hr as (H0 & _ & Hle).
  destruct (data_write_chars h s off a buf Hc Hlen)
    as (b1 & h1' & s1' & Hw1 & Hd1 & Hc1 & Hs1 & Hf1); [unfold in_range; lia|].
  rewrite Ha in Hd1. injection Hd1 as <- <-.
  pose proof (buf_write_length _ _ _ _ Hw1) as Hl1.
  pose proof (buf_write_zlen _ _ _ _ Hw1) as Hz1.
  destruct (data_write_chars h1 s1 (off + zlen a) b b1 Hc1)
    as (b2 & h2' & s2' & Hw2 & Hd2 & Hc2 & Hs2 & Hf2);
    [rewrite (same_shape_is_long _ _ Hs1), Hl1; done|unfold in_range; lia|].
  rewrite Hb in Hd2. injection Hd2 as <- <-.
  pose proof (buf_write_app _ _ _ _ _ _ Hw1 Hw2) as Hw.
  destruct s as [sh|l]; simpl in Hc.
  - injection Hc as <-. specialize (Hlen eq_refl).
    destruct (data_write_short h sh off (a ++ b)) as (buf' & Hw' & Hd');
      [done|lia|rewrite zlen_app; unfold zlen, ZSTR_SSO_CAP in *; lia|].
    rewrite Hd'. rewrite Hw in Hw'. injection Hw' as <-.
    destruct s1 as [sh1|]; [|done]. destruct s2 as [sh2|]; [|done].
    simpl in Hs1, Hs2, Hc2.
    destruct Hf1 as (_ & _ & _ & ->). destruct Hf2 as (_ & _ & _ & ->).
    injection Hc2 as Hc2. destruct sh2 as [bf2 ln2]. simpl in *.
    subst bf2. do 4 f_equal. congruence.
  - destruct (data_write_long h l off (a ++ b) buf) as (blk' & Hw' & Hd');
      [done|unfold in_range; rewrite zlen_app; lia|].
    rewrite Hd'. rewrite Hw in Hw'. injection Hw' as <-.
    destruct (data_write_long h l off a buf) as (x1 & Hx1 & Hy1);
      [done|unfold in_range; lia|].
    rewrite Ha in Hy1. injection Hy1 as -> ->.
    rewrite Hw1 in Hx1. injection Hx1 as <-.
    destruct (data_write_long
                (Heap (<[l_ptr l:=b1]> (blocks h)) (oracle h) (fill h))
                l (off + zlen a) b b1) as (x2 & Hx2 & Hy2);
      [simpl; by rewrite lookup_insert_eq|unfold in_range; lia|].
    rewrite Hb in Hy2. injection Hy2 as -> ->.
    rewrite Hw2 in Hx2. injection Hx2 as <-.
    simpl. by rewrite insert_insert_eq.
Qed.

(** Writing into [res] does not disturb the bytes of [s]. *)
Lemma data_buffer_frame h h' s res res' :
  independent s res → same_shape res res' → heap_frame h h' res →
  data_buffer h' s = data_buffer h s ∧ independent s res'.
Proof.
  intros Hi Hs (_ & _ & _ & Hf).
  destruct s as [sh|ls]; simpl.
  - split; [done|]. by destruct res'.
  - destruct res as [a|lr], res' as [b|lr']; simpl in *; try done.
    + by subst h'.
    + subst lr'. split; [|done]. by apply Hf.
Qed.

(** ** The loops of [zstr_replace]

    Throughout, the value [s] being read has the content [c], free of NUL
    bytes, followed in its buffer by the terminator and a rest. *)

Section ReplaceLoops.

Variables (c rest t r : list Z).
Hypothesis Hnf : Forall (λ x, x ≠ 0) c.
Hypothesis Ht : t ≠ [].

Lemma target_len_pos : 0 < zlen t.
Proof using Ht. destruct t; [done|unfold zlen; simpl; lia]. Qed.

(** The counting loop counts [spec_count]. *)
Lemma replace_count_spec fuel scan count :
  0 ≤ scan ≤ zlen c → zlen c - scan < Z.of_nat fuel →
  0 ≤ count → count + (zlen c - scan) < SIZE_MOD →
  replace_count fuel (c ++ 0 :: rest) t scan count =
    Some (count + Z.of_nat (spec_count 0 (drop (Z.to_nat scan) c) t)).
Proof using Hnf Ht.
  pose proof target_len_pos as Htl.
  revert scan count.
  induction fuel as [|f IH]; intros scan count Hscan Hfuel Hc Hwrap; [lia|].
  cbn [replace_count]. rewrite c_strstr_content by done. simpl.
  rewrite spec_count_find by done.
  destruct (find_sub (drop (Z.to_nat scan) c) t) as [i|] eqn:Hf; simpl.
  - destruct (find_sub_Some _ _ _ Hf) as [Hle _].
    rewrite length_drop in Hle. unfold zlen in *.
    rewrite size_add_small by lia.
    rewrite IH by lia.
    f_equal. rewrite drop_drop.
    replace (Z.to_nat (scan + Z.of_nat i + Z.of_nat (length t)))
      with (Z.to_nat scan + (i + length t))%nat by lia.
    lia.
  - f_equal. lia.
Qed.

(** The rewriting loop writes into [res], from [curr_dest] on, a block
    [W] of bytes, and stops at a [curr_src] from which [target] no longer
    occurs; [W] followed by the rest of [c] is the replacement of [c]
    from [curr_src] on. *)
Lemma replace_copy_spec fuel h s res cs cd dst :
  data_buffer h s = Some (c ++ 0 :: rest) →
  zstr_chars h res = Some dst →
  (zstr_is_long res = false → length dst = Z.to_nat ZSTR_SSO_CAP) →
  independent s res →
  0 ≤ cs ≤ zlen c → zlen c - cs < Z.of_nat fuel → 0 ≤ cd →
  cd + zlen (spec_replace 0 (drop (Z.to_nat cs) c) t r) ≤ zlen dst →
  ∃ W cs' h' res',
    spec_replace 0 (drop (Z.to_nat cs) c) t r = W ++ drop (Z.to_nat cs') c ∧
    cs ≤ cs' ≤ zlen c ∧
    replace_copy fuel h s res t r cs cd = Some (h', res', cs', cd + zlen W) ∧
    data_write h res cd W = Some (h', res').
Proof using Hnf Ht.
  pose proof target_len_pos as Htl.
  revert h s res cs cd dst.
  induction fuel as [|f IH];
    intros h s res cs cd dst Hsrc Hdst Hlen Hind Hcs Hfuel Hcd Hroom; [lia|].
  cbn [replace_copy]. rewrite Hsrc. mstep.
  rewrite c_strstr_content by done. mstep.
  rewrite spec_replace_find in Hroom |- * by done.
  destruct (find_sub (drop (Z.to_nat cs) c) t) as [i|] eqn:Hf; cbn [fmap option_fmap option_map].
  - destruct (find_sub_Some _ _ _ Hf) as [Hle _].
    rewrite length_drop in Hle.
    set (seg := take i (drop (Z.to_nat cs) c)) in *.
    assert (Hseg : zlen seg = Z.of_nat i).
    { unfold seg, zlen in *. rewrite length_take, length_drop. lia. }
    replace (cs + Z.of_nat i - cs) with (Z.of_nat i) by lia.
    assert (Hrd : buf_read (c ++ 0 :: rest) cs (Z.of_nat i) = Some seg).
    { rewrite buf_read_app_l by (unfold in_range, zlen in *; lia).
      rewrite buf_read_Some by (unfold in_range, zlen in *; lia).
      by rewrite Nat2Z.id. }
    rewrite Hrd. mstep.
    rewrite !zlen_app in Hroom. rewrite Hseg in Hroom.
    pose proof (zlen_nonneg r) as Hzr.
    pose proof (zlen_nonneg
      (spec_replace 0 (drop (i + length t) (drop (Z.to_nat cs) c)) t r)) as Hzw.
    (* the segment *)
    destruct (data_write_chars h res cd seg dst Hdst Hlen)
      as (d1 & h1 & res1 & Hw1 & Hd1 & Hc1 & Hs1 & Hf1);
      [unfold in_range; lia|].
    rewrite Hd1. mstep.
    pose proof (buf_write_length _ _ _ _ Hw1) as Hl1.
    pose proof (buf_write_zlen _ _ _ _ Hw1) as Hz1.
    destruct (data_buffer_frame h h1 s res res1 Hind Hs1 Hf1) as [Hb1 Hi1].
    (* the replacement *)
    destruct (data_write_chars h1 res1 (cd + Z.of_nat i) r d1 Hc1)
      as (d2 & h2 & res2 & Hw2 & Hd2 & Hc2 & Hs2 & Hf2);
      [rewrite (same_shape_is_long _ _ Hs1), Hl1; done|unfold in_range; lia|].
    rewrite Hd2. mstep.
    pose proof (buf_write_length _ _ _ _ Hw2) as Hl2.
    pose proof (buf_write_zlen _ _ _ _ Hw2) as Hz2.
    destruct (data_buffer_frame h1 h2 s res1 res2 Hi1 Hs2 Hf2) as [Hb2 Hi2].
    (* the rest of the loop *)
    assert (Hdrop : drop (i + length t) (drop (Z.to_nat cs) c) =
                    drop (Z.to_nat (cs + Z.of_nat i + zlen t)) c).
    { rewrite drop_drop. f_equal. unfold zlen. lia. }
    rewrite Hdrop in *.
    destruct (IH h2 s res2 (cs + Z.of_nat i + zlen t)
                (cd + Z.of_nat i + zlen r) d2)
      as (W' & cs' & h' & res' & Hspec & Hcs' & Hloop & Hwr);
      try done; try (unfold zlen in *; lia).
    { congruence. }
    { rewrite (same_shape_is_long _ _ Hs2), (same_shape_is_long _ _ Hs1).
      rewrite Hl2, Hl1. done. }
    rewrite Hloop.
    exists (seg ++ r ++ W'), cs', h', res'.
    split_and!.
    + rewrite Hspec. by rewrite <- !app_assoc.
    + lia.
    + lia.
    + f_equal. rewrite !zlen_app. rewrite Hseg. f_equal. lia.
    + pose proof (zlen_nonneg W') as HzW.
      assert (HW : zlen W' ≤ zlen (spec_replace 0
                 (drop (Z.to_nat (cs + Z.of_nat i + zlen t)) c) t r)).
      { rewrite Hspec, zlen_app.
        pose proof (zlen_nonneg (drop (Z.to_nat cs') c)). lia. }
      apply (data_write_app h res cd seg (r ++ W') h1 res1 h' res' dst);
        try done.
      { unfold in_range. rewrite !zlen_app, Hseg. lia. }
      rewrite Hseg.
      apply (data_write_app h1 res1 (cd + Z.of_nat i) r W' h2 res2 h' res' d1);
        try done.
      { rewrite (same_shape_is_long _ _ Hs1), Hl1. done. }
      { unfold in_range. rewrite !zlen_app. lia. }
  - exists [], cs, h, res. split_and!; try done; try lia.
    + f_equal. f_equal. change (zlen []) with 0. lia.
    + destruct (data_write_chars h res cd [] dst Hdst Hlen)
        as (d1 & h1 & res1 & Hw1 & Hd1 & Hc1 & Hs1 & Hf1).
      { unfold in_range. change (zlen []) with 0.
        pose proof (zlen_nonneg (drop (Z.to_nat cs) c)). lia. }
      rewrite Hd1. f_equal.
      destruct (buf_write_inv _ _ _ _ Hw1) as [_ Hd].
      simpl in Hd. rewrite Nat.add_0_r, take_drop in Hd. subst d1.
      destruct res as [sh|l], res1 as [sh1|l1]; simpl in *; try done.
      * destruct Hf1 as (_ & _ & _ & ->). destruct sh, sh1. simpl in *.
        congruence.
      * subst l1. destruct Hf1 as (Ho & Hfl & _ & Hf1).
        destruct h as [bl o fl], h1 as [bl1 o1 fl1]. simpl in *. subst.
        f_equal. f_equal. apply map_eq. intros q.
        destruct (decide (q = l_ptr l)) as [->|Hne]; [congruence|].
        by rewrite Hf1.
Qed.

End ReplaceLoops.

(** ** [zstr_replace] *)

(** The buffer of a value is its content, the terminator, and a rest. *)
Lemma data_buffer_content h s content :
  zstr_inv h s → zstr_as_bytes h s = Some content →
  ∃ rest, data_buffer h s = Some (content ++ 0 :: rest) ∧
          zstr_len s = zlen content.
Proof.
  intros Hinv Hbytes.
  assert (∃ chars, zstr_chars h s = Some chars ∧
            chars !! Z.to_nat (zstr_len s) = Some 0 ∧ 0 ≤ zstr_len s)
    as (chars & Hc & Hnul & Hl0).
  { destruct s as [sh|l]; simpl in *.
    - destruct Hinv as (_ & ? & ?). eexists. split_and!; try done. lia.
    - destruct Hinv as (blk & ? & ? & _ & _ & ?). exists blk.
      split_and!; try done. lia. }
  pose proof (lookup_lt_Some _ _ _ Hnul) as Hlt.
  rewrite (zstr_as_bytes_chars _ _ chars Hc) in Hbytes
    by (unfold in_range, zlen; lia).
  pose proof (buf_read_length _ _ _ _ Hbytes) as Hlen.
  destruct (buf_read_inv _ _ _ _ Hbytes) as [_ Hcont].
  change (Z.to_nat 0) with 0%nat in Hcont. rewrite drop_0 in Hcont.
  pose proof (take_drop_middle _ _ _ Hnul) as Hmid.
  rewrite <- Hcont in Hmid.
  destruct s as [sh|l]; simpl in *.
  - injection Hc as <-.
    exists (drop (S (Z.to_nat (s_len sh))) (s_buf sh) ++ [s_len sh]).
    split; [|done].
    unfold short_raw. rewrite <- Hmid at 1. by rewrite <- app_assoc.
  - exists (drop (S (Z.to_nat (l_len l))) chars). split; [|done].
    by rewrite Hc, Hmid.
Qed.

(** The computation of [new_len] in [size_t] arithmetic. *)
Lemma new_len_exact old count rl tl :
  0 ≤ old + count * (rl - tl) < SIZE_MOD →
  size_add old (size_mul count (size_sub rl tl)) = old + count * (rl - tl).
Proof.
  intros H. unfold size_add, size_mul, size_sub, to_size_t.
  rewrite Z.mul_mod_idemp_r by (unfold SIZE_MOD; lia).
  rewrite Z.add_mod_idemp_r by (unfold SIZE_MOD; lia).
  by apply Z.mod_small.
Qed.

(** What a terminated write at the start of a buffer leaves there. *)
Lemma buf_write_terminated dst w d :
  buf_write dst 0 (w ++ [0]) = Some d →
  length d = length dst ∧ d !! length w = Some 0 ∧
  buf_read d 0 (zlen w) = Some w.
Proof.
  intros Hw. pose proof (buf_write_length _ _ _ _ Hw) as Hl.
  destruct (buf_write_inv _ _ _ _ Hw) as [(_ & _ & Hr) ->].
  rewrite zlen_app in Hr. change (zlen [0]) with 1 in Hr.
  change (Z.to_nat 0) with 0%nat. rewrite take_0. simpl.
  split_and!.
  - rewrite !length_app, length_drop in *. simpl in *. unfold zlen in *. lia.
  - rewrite <- app_assoc. rewrite lookup_app_r by lia.
    by rewrite Nat.sub_diag.
  - rewrite buf_read_Some
      by (unfold in_range, zlen in *; rewrite !length_app; simpl; lia).
    change (Z.to_nat 0) with 0%nat. rewrite drop_0. unfold zlen.
    rewrite Nat2Z.id. rewrite <- app_assoc. by rewrite take_app_length.
Qed.

Lemma zstr_replace_found h s target repl content :
  zstr_inv h s →
  zstr_as_bytes h s = Some content →
  Forall (λ x, x ≠ 0) content →
  zlen content < SIZE_MOD →
  zlen (spec_replace 0 content target repl) < SIZE_MAX →
  target ≠ [] →
  ∃ h' s' rc, zstr_replace h s target repl = Some (h', s', rc) ∧
    ((rc = Z_OK ∧ zstr_inv h' s' ∧
      zstr_as_bytes h' s' = Some (spec_replace 0 content target repl) ∧
      zstr_len s' =
        zlen content +
        Z.of_nat (spec_count 0 content target) * (zlen repl - zlen target))
     ∨ (rc = Z_ERR ∧ s' = s ∧ blocks h' = blocks h ∧ ¬ alloc_ok h)).
Proof.
  intros Hinv Hbytes Hnf Hcmax Hnmax Ht.
  destruct (data_buffer_content h s content Hinv Hbytes) as (rest & Hsrc & Hlen).
  pose proof (zlen_nonneg content) as Hc0.
  pose proof (spec_replace_length content target repl Ht) as HN.
  pose proof (zlen_nonneg (spec_replace 0 content target repl)) as HN0.
  pose proof (spec_count_le content target Ht) as Hcnt.
  set (N := zlen (spec_replace 0 content target repl)) in *.
  unfold zstr_replace. rewrite decide_False by done.
  rewrite Hsrc. mstep.
  rewrite c_strstr_content by (try done; lia). mstep.
  change (Z.to_nat 0) with 0%nat. rewrite drop_0.
  destruct (find_sub content target) as [i|] eqn:Hfind;
    cbn [fmap option_fmap option_map].
  2:{ (* no occurrence *)
    rewrite decide_True by done.
    exists h, s, Z_OK. split; [done|]. left.
    assert (spec_replace 0 content target repl = content) as Hsame
      by (rewrite spec_replace_find by done; by rewrite Hfind).
    assert (spec_count 0 content target = 0%nat) as Hzero
      by (rewrite spec_count_find by done; by rewrite Hfind).
    rewrite Hsame, Hzero. split_and!; try done. lia. }
  rewrite decide_False by done.
  rewrite (replace_count_spec content rest target Hnf Ht)
    by (try lia; rewrite length_app; unfold zlen in *; simpl; lia).
  mstep. change (Z.to_nat 0) with 0%nat. rewrite drop_0, Z.add_0_l.
  rewrite Hlen.
  rewrite new_len_exact by (unfold SIZE_MAX in *; lia).
  rewrite <- HN.
  destruct (zstr_reserve_spec h zstr_init N (zstr_init_inv h))
    as (h1 & res & rc & Hres & Hinv1 & Hlen1 & _ & _ & Hfr & Hcase); [lia|].
  rewrite Hres. mstep.
  destruct (Hfr eq_refl) as [Hkeep Hfresh]. clear Hfr.
  destruct Hcase as [(-> & Hbig & Hsmall)|(-> & -> & Hblk & Hno)].
  2:{ rewrite decide_True by done.
      exists h1, s, Z_ERR. split; [done|]. right. done. }
  rewrite decide_False by (unfold Z_OK; lia).
  (* the buffer of [res] *)
  assert (∃ dst, zstr_chars h1 res = Some dst ∧
            (zstr_is_long res = false → length dst = Z.to_nat ZSTR_SSO_CAP) ∧
            N + 1 ≤ zlen dst) as (dst & Hdst & Hdlen & Hroom).
  { destruct (decide (N < ZSTR_SSO_CAP)) as [Hlt|Hge].
    - destruct (Hsmall Hlt) as [-> ->].
      exists (replicate (Z.to_nat ZSTR_SSO_CAP) 0). split_and!; try done.
      rewrite zlen_replicate. unfold ZSTR_SSO_CAP in *. lia.
    - destruct Hbig as [Hl Hcap]; [lia|].
      destruct res as [|lr]; [done|]. simpl in *.
      destruct Hinv1 as (blk & Hb & _ & _ & Hsz & _). exists blk.
      split_and!; try done. lia. }
  assert (Hsrc1 : data_buffer h1 s = Some (content ++ 0 :: rest)).
  { destruct s as [sh|ls]; simpl in *; [done|].
    rewrite Hkeep; [done|]. by rewrite Hsrc. }
  assert (Hind : independent s res).
  { destruct s as [sh|ls], res as [a|lr]; simpl; try done.
    intros Heq. simpl in Hsrc. rewrite Heq in Hsrc.
    rewrite (Hfresh lr eq_refl) in Hsrc. done. }
  destruct (replace_copy_spec content rest target repl Hnf Ht
              (S (length (content ++ 0 :: rest))) h1 s res 0 0 dst)
    as (W & cs' & h2 & res2 & Hspec & Hcs' & Hloop & Hwr); try done; try lia.
  { rewrite length_app. unfold zlen. simpl. lia. }
  { change (Z.to_nat 0) with 0%nat. rewrite drop_0. fold N. lia. }
  change (Z.to_nat 0) with 0%nat in Hspec. rewrite drop_0 in Hspec.
  rewrite Hloop. mstep. rewrite Z.add_0_l.
  pose proof (zlen_nonneg W) as HW0.
  pose proof (zlen_nonneg (drop (Z.to_nat cs') content)) as HD0.
  assert (HNW : N = zlen W + zlen (drop (Z.to_nat cs') content))
    by (unfold N; by rewrite Hspec, zlen_app).
  destruct (data_write_chars h1 res 0 W dst Hdst Hdlen)
    as (d2 & h2' & res2' & Hw2 & Hd2 & Hc2 & Hs2 & Hf2);
    [unfold in_range; lia|].
  rewrite Hwr in Hd2. injection Hd2 as <- <-.
  pose proof (buf_write_length _ _ _ _ Hw2) as Hl2.
  pose proof (buf_write_zlen _ _ _ _ Hw2) as Hz2.
  destruct (data_buffer_frame h1 h2 s res res2 Hind Hs2 Hf2) as [Hb2 Hi2].
  rewrite Hb2, Hsrc1. mstep.
  rewrite cstr_at_content by done. mstep.
  set (tl := drop (Z.to_nat cs') content) in *.
  destruct (data_write_chars h2 res2 (zlen W) (tl ++ [0]) d2 Hc2)
    as (d3 & h3 & res3 & Hw3 & Hd3 & Hc3 & Hs3 & Hf3).
  { rewrite (same_shape_is_long _ _ Hs2), Hl2. done. }
  { unfold in_range. rewrite zlen_app. change (zlen [0]) with 1. lia. }
  rewrite Hd3. mstep.
  destruct (data_buffer_frame h2 h3 s res2 res3 Hi2 Hs3 Hf3) as [Hb3 Hi3].
  (* the two writes as one *)
  assert (Hone : data_write h1 res 0
                   (spec_replace 0 content target repl ++ [0]) = Some (h3, res3)).
  { rewrite Hspec, <- app_assoc.
    apply (data_write_app h1 res 0 W (tl ++ [0]) h2 res2 h3 res3 dst); try done.
    unfold in_range. rewrite !zlen_app. change (zlen [0]) with 1. lia. }
  destruct (data_write_chars h1 res 0
              (spec_replace 0 content target repl ++ [0]) dst Hdst Hdlen)
    as (d & h3' & res3' & Hw & Hd & Hc & _ & _).
  { unfold in_range. rewrite zlen_app. change (zlen [0]) with 1. fold N. lia. }
  rewrite Hone in Hd. injection Hd as <- <-.
  destruct (buf_write_terminated _ _ _ Hw) as (Hdl & Hterm & Hread).
  fold N in Hread. unfold zlen in Hterm.
  assert (Hshape : same_shape res res3) by (by eapply same_shape_trans).
  pose proof (same_shape_is_long _ _ Hshape) as Hl3.
  (* releasing the old value *)
  assert (Hfree : ∃ h4, zstr_free h3 s = Some (h4, zstr_init) ∧
            ∀ q, independent s (Long (ZLong q 0 0)) →
                 blocks h4 !! q = blocks h3 !! q).
  { destruct s as [sh|ls]; simpl.
    - exists h3. done.
    - unfold free. simpl in Hb3, Hb2, Hsrc1.
      rewrite Hb3, Hb2, Hsrc1. mstep. eexists. split; [done|].
      intros q Hq. simpl in *. by rewrite lookup_delete_ne. }
  destruct Hfree as (h4 & Hfree & Hkeep4). rewrite Hfree. mstep.
  exists h4, (set_len res3 N), Z_OK. split; [done|]. left.
  assert (Hc4 : zstr_chars h4 (set_len res3 N) = Some d).
  { destruct res3 as [sh3|l3]; simpl in *; [done|].
    rewrite Hkeep4; [done|]. destruct s; simpl in *; done. }
  assert (HlenN : zstr_len (set_len res3 N) = N).
  { apply set_len_len. destruct (decide (N < ZSTR_SSO_CAP)); [left; lia|].
    right. rewrite Hl3. apply Hbig. lia. }
  split_and!; try done.
  - destruct res3 as [sh3|l3]; simpl in *.
    + injection Hc4 as Hc4. destruct res as [a|]; [|done].
      specialize (Hdlen eq_refl).
      assert (N < ZSTR_SSO_CAP).
      { unfold zlen in Hroom. rewrite Hdlen in Hroom.
        unfold ZSTR_SSO_CAP in *. lia. }
      rewrite HlenN. subst d. split_and!; try lia; try congruence.
      unfold N, zlen. by rewrite Nat2Z.id.
    + destruct res as [|lr]; [done|]. simpl in Hshape. subst l3.
      simpl in Hinv1. destruct Hinv1 as (blk & Hb & _ & Hc23 & Hsz & _).
      simpl in Hdst. assert (dst = blk) as -> by congruence.
      exists d. split_and!; try done; try lia.
      * destruct Hbig as [_ Hcap]; [|simpl in Hcap; lia].
        destruct (decide (N < ZSTR_SSO_CAP)) as [Hlt|]; [|lia].
        by destruct (Hsmall Hlt) as [_ ?].
      * unfold zlen in *. lia.
      * unfold N, zlen. by rewrite Nat2Z.id.
  - rewrite (zstr_as_bytes_chars _ _ d Hc4); rewrite HlenN; [done|].
    by destruct (buf_read_inv _ _ _ _ Hread).
Qed.




(** A heap-backed value stays heap-backed when its length drops below
    [ZSTR_SSO_CAP]: after [zstr_pop_char] on a 23-byte value, and after
    [zstr_clear]. *)
Lemma short_content_on_heap :
  (∃ h s c, ('(h, s) ← zstr_from_bytes heap_empty abc23; zstr_pop_char h s)
              = Some (h, s, c) ∧
            zstr_len s = 22 ∧ zstr_len s < ZSTR_SSO_CAP ∧
            zstr_is_long s = true ∧ zstr_inv h s) ∧
  (∃ h s, ('(h, s) ← zstr_from_bytes heap_empty abc23; zstr_clear h s)
            = Some (h, s) ∧
          zstr_len s = 0 ∧ zstr_is_long s = true ∧ zstr_inv h s).
Proof.
  split.
  - eexists _, _, _. split; [vm_compute; reflexivity|].
    split_and!; try reflexivity.
    eexists. split_and!; try reflexivity; vm_compute; congruence.
  - eexists _, _. split; [vm_compute; reflexivity|].
    split_and!; try reflexivity.
    eexists. split_and!; try reflexivity; vm_compute; congruence.
Qed.

Lemma sso_threshold_witness :
  let op := OpCat (bytes_of " and then some more") in
  ∃ h s, zstr_from_bytes heap_empty (bytes_of "hello") = Some (h, s) ∧
         zstr_is_long s = false ∧
         append_post h s (zlen (op_bytes op)) (run_op h s op).
Proof.
  intros op.
  destruct (proj1 sso_threshold heap_empty (bytes_of "hello"))
    as (h & s & Hfrom & Hinv & Hsmall & _); [vm_compute; reflexivity|].
  exists h, s. split; [exact Hfrom|].
  split; [apply Hsmall; vm_compute; reflexivity|].
  apply (proj1 (proj2 sso_threshold) h s op Hinv).
  destruct (Hsmall ltac:(vm_compute; reflexivity)) as (_ & Hl & _).
  destruct s; [|discriminate]. vm_compute. reflexivity.
Defined.

Lemma zstr_split_examples_witness :
  let it := ZSplit (ZView [97; 0] 0 1) (ZView [44; 0] 0 1) 1 true in
  finished it = true ∧ zstr_split_next it = Some (it, None).
Proof.
  intros it. split; [reflexivity|].
  apply (proj1 (proj2 (proj2 zstr_split_examples)) it). reflexivity.
Defined.

(** ** The invariant under the remaining operations *)

Lemma zstr_inv_backed h s : zstr_inv h s → zstr_backed h s.
Proof.
  destruct s as [sh|l]; simpl.
  - by intros (? & _).
  - intros (blk & ? & ? & ? & ? & _). exists blk. split; [done|].
    unfold ZSTR_SSO_CAP in *. lia.
Qed.

Lemma zstr_inv_sso_inv h s : zstr_inv h s → sso_inv h s.
Proof.
  destruct s as [sh|l]; simpl.
  - intros (Hlen & Hr & Hterm). split; [|done].
    exists (short_raw sh). split; [done|]. simpl. unfold short_raw.
    rewrite lookup_app_l; [done|]. by apply lookup_lt_Some in Hterm.
  - intros (blk & Hblk & Hr & _ & _ & Hterm). split; [|done].
    by exists blk.
Qed.

Lemma zstr_clear_inv h s :
  zstr_inv h s →
  ∃ h' s', zstr_clear h s = Some (h', s') ∧ zstr_inv h' s' ∧ zstr_len s' = 0.
Proof.
  intros Hinv. unfold zstr_clear. destruct s as [sh|l]; simpl in Hinv.
  - destruct Hinv as (Hl & Hr & _).
    destruct (data_write_short h (ZShort (s_buf sh) 0) 0 [0])
      as (buf' & Hw & Hd); [done|done|done|].
    cbn [s_buf s_len] in Hw, Hd.
    rewrite buf_write_byte_insert in Hw
      by (unfold zlen; rewrite Hl; done).
    injection Hw as <-. rewrite Hd. eexists _, _. split; [done|].
    simpl. rewrite length_insert. split_and!; try done.
    apply list_lookup_insert_eq. rewrite Hl. unfold ZSTR_SSO_CAP. lia.
  - destruct Hinv as (blk & Hblk & Hr & Hc & Hsz & _).
    destruct (data_write_long h (ZLong (l_ptr l) 0 (l_cap l)) 0 [0] blk)
      as (blk' & Hw & Hd);
      [done|unfold in_range, ZSTR_SSO_CAP in *; change (zlen [0]) with 1; lia|].
    rewrite buf_write_byte_insert in Hw by (unfold ZSTR_SSO_CAP in *; lia).
    injection Hw as <-. rewrite Hd. eexists _, _. split; [done|].
    split; [|done]. exists (<[0%nat := 0]> blk). simpl.
    rewrite lookup_insert_eq. unfold zlen in *. rewrite length_insert.
    split_and!; try done; try lia.
    apply list_lookup_insert_eq. unfold ZSTR_SSO_CAP in *. lia.
Qed.

Lemma zstr_pop_char_inv h s :
  zstr_inv h s → zstr_len s < SIZE_MOD →
  ∃ h' s' c, zstr_pop_char h s = Some (h', s', c) ∧ zstr_inv h' s' ∧
    zstr_is_long s' = zstr_is_long s ∧
    (zstr_len s = 0 → s' = s ∧ h' = h ∧ c = 0) ∧
    (0 < zstr_len s → zstr_len s' = zstr_len s - 1).
Proof.
  intros Hinv Hmax. unfold zstr_pop_char.
  case_decide as Hz.
  { exists h, s, 0. split_and!; try done. lia. }
  assert (∃ chars, zstr_chars h s = Some chars ∧
            (zstr_is_long s = false → length chars = Z.to_nat ZSTR_SSO_CAP) ∧
            0 < zstr_len s ∧ zstr_len s < zlen chars)
    as (chars & Hc & Hlen & Hpos & Hlt).
  { destruct s as [sh|l]; simpl in *.
    - destruct Hinv as (Hl & Hr & _). exists (s_buf sh).
      split_and!; try done; try lia.
      unfold zlen. rewrite Hl. unfold ZSTR_SSO_CAP in *. lia.
    - destruct Hinv as (blk & Hblk & Hr & _ & Hsz & _). exists blk.
      split_and!; try done; lia. }
  assert (Hrd : ∃ c, data_read h s (zstr_len s - 1) 1 = Some [c]).
  { assert (∃ obj, data_buffer h s = Some obj ∧ zstr_len s < zlen obj)
      as (obj & Hobj & Hol).
    { destruct s as [sh|l]; simpl in *.
      - injection Hc as <-. eexists. split; [done|].
        unfold short_raw. rewrite zlen_app.
        change (zlen [s_len sh]) with 1. lia.
      - by exists chars. }
    unfold data_read. rewrite Hobj. mstep.
    rewrite buf_read_Some by (unfold in_range; lia).
    destruct (lookup_lt_is_Some_2 obj (Z.to_nat (zstr_len s - 1))) as [c Hcl];
      [unfold zlen in *; lia|].
    exists c. f_equal. change (Z.to_nat 1) with 1%nat.
    rewrite (drop_S _ c) by done. simpl. by rewrite take_0. }
  destruct Hrd as (c & Hrd). rewrite Hrd. mstep. simpl.
  destruct (data_write_chars h s (zstr_len s - 1) [0] chars Hc Hlen)
    as (d & h1 & s1 & Hw & Hd & Hc1 & Hs1 & Hf1);
    [unfold in_range; change (zlen [0]) with 1; lia|].
  rewrite Hd. mstep.
  pose proof (buf_write_length _ _ _ _ Hw) as Hdl.
  pose proof (buf_write_byte _ _ _ _ Hw) as Hterm.
  exists h1, (decr_len s1), c. split; [done|].
  destruct s as [sh|l], s1 as [sh1|l1]; simpl in *; try done.
  - injection Hc as <-. injection Hc1 as ->.
    destruct Hinv as (Hl & Hr & _).
    assert (Hu : to_uint8 (s_len sh1 - 1) = s_len sh - 1).
    { rewrite <- Hs1. unfold to_uint8. apply Z.mod_small.
      unfold ZSTR_SSO_CAP in *. lia. }
    rewrite Hu. split_and!; try done; try lia; congruence.
  - subst l1. simpl.
    destruct Hinv as (blk & Hblk & Hr & Hc23 & Hsz & _).
    assert (chars = blk) as -> by congruence.
    assert (Hs : size_sub (l_len l) 1 = l_len l - 1)
      by (unfold size_sub; apply to_size_t_small; lia).
    rewrite Hs. split_and!; try done; try lia.
    exists d. unfold zlen in *. split_and!; try done; lia.
Qed.

(** Adopting a terminated buffer whose capacity exceeds [ZSTR_SSO_CAP]. *)
Lemma zstr_own_long_inv h ptr len cap blk :
  blocks h !! ptr = Some blk → ZSTR_SSO_CAP < cap → 0 ≤ len ≤ cap →
  cap < zlen blk → blk !! Z.to_nat len = Some 0 →
  zstr_own h ptr len cap = Some (h, Long (ZLong ptr len cap)) ∧
  zstr_inv h (Long (ZLong ptr len cap)).
Proof.
  intros Hblk Hcap Hlen Hsz Hterm. unfold zstr_own.
  rewrite decide_False by lia. split; [done|].
  exists blk. simpl. split_and!; try done; lia.
Qed.

(** Adopting a short buffer: fewer than [ZSTR_SSO_CAP] bytes are copied
    inline and the buffer is released. *)
Lemma zstr_own_inline_inv h ptr len cap blk :
  blocks h !! ptr = Some blk → cap ≤ ZSTR_SSO_CAP →
  0 ≤ len < ZSTR_SSO_CAP → len ≤ zlen blk →
  ∃ h' s', zstr_own h ptr len cap = Some (h', s') ∧ zstr_inv h' s' ∧
    zstr_is_long s' = false ∧ zstr_len s' = len ∧
    blocks h' = delete ptr (blocks h) ∧
    zstr_as_bytes h' s' = buf_read blk 0 len.
Proof.
  intros Hblk Hcap Hlen Hsz. unfold zstr_own.
  rewrite decide_True by done.
  unfold heap_read. rewrite Hblk. mstep.
  destruct (buf_read_ex blk 0 len) as (bytes & Hrd); [unfold in_range; lia|].
  rewrite Hrd. mstep.
  pose proof (buf_read_length _ _ _ _ Hrd) as Hbl.
  destruct (append_write h zstr_init bytes (zstr_init_inv h))
    as (h2 & s2 & h3 & s3 & Hw1 & Hw2 & Hs & Hf & Hinv3 & Hcont).
  { simpl. lia. }
  change (zstr_len zstr_init) with 0 in *. rewrite Z.add_0_l, Hbl in *.
  rewrite Hw1. mstep. rewrite Hw2. mstep.
  rewrite set_len_short by (by rewrite (same_shape_is_long _ _ Hs)). mstep.
  destruct Hf as (_ & _ & _ & Hf). simpl in Hf. subst h3.
  unfold free. rewrite Hblk. mstep.
  eexists _, _. split; [reflexivity|].
  destruct s3 as [sh3|]; [|done]. simpl in Hinv3 |- *.
  assert (Hu : to_uint8 len = len)
    by (unfold to_uint8; apply Z.mod_small; unfold ZSTR_SSO_CAP in *; lia).
  rewrite Hu in *. split_and!; try done; try apply Hinv3.
  destruct Hcont as (old & new & _ & Hnew & _ & Hread).
  simpl in Hnew. injection Hnew as <-.
  rewrite (zstr_as_bytes_chars _ _ (s_buf sh3)); simpl; try done;
    first [congruence|by destruct (buf_read_inv _ _ _ _ Hread)].
Qed.

(** [zstr_take] leaves the empty inline value behind. *)
Lemma zstr_take_inv h s :
  zstr_inv h s →
  ∃ h' p, zstr_take h s = Some (h', zstr_init, p) ∧ zstr_inv h' zstr_init.
Proof.
  intros Hinv. destruct s as [sh|l]; simpl.
  - destruct Hinv as (Hlen & Hr & Hterm).
    destruct (alloc_ok_dec h) as [Hok|Hno].
    + rewrite (malloc_granted _ _ Hok).
      destruct (promote_block (s_buf sh) (s_len sh) (ZSTR_SSO_CAP + 1) 0
                  Hlen Hr Hterm ltac:(lia) (s_len sh)) as (bytes & _ & _ & Hrd & _).
      unfold short_raw. rewrite Hrd. mstep.
      destruct (buf_write_ex (replicate (Z.to_nat (s_len sh + 1)) (fill h)) 0 bytes)
        as (b1 & Hw1).
      { pose proof (buf_read_length _ _ _ _ Hrd).
        unfold in_range. rewrite zlen_replicate. lia. }
      rewrite (heap_write_insert _ _ _ _ _ _ _ _ Hw1). mstep.
      pose proof (buf_write_zlen _ _ _ _ Hw1) as Hz1.
      rewrite zlen_replicate in Hz1.
      destruct (buf_write_ex b1 (s_len sh) [0]) as (b2 & Hw2).
      { unfold in_range. change (zlen [0]) with 1. lia. }
      rewrite (heap_write_insert _ _ _ _ _ _ _ _ Hw2). mstep.
      eexists _, _. split; [reflexivity|]. by split_and!.
    + rewrite (malloc_refused _ _ Hno).
      eexists _, _. split; [reflexivity|]. by split_and!.
  - eexists _, _. split; [reflexivity|]. by split_and!.
Qed.

(** * The rest of the header: proofs *)

(** ** Heap steps *)

Lemma owns_same_shape s s' q : same_shape s s' → owns s' q ↔ owns s q.
Proof. destruct s, s'; simpl; try done. by intros ->. Qed.

Lemma heap_step_refl h s : heap_step h h s s.
Proof. unfold heap_step. split_and!; try done. Qed.

Lemma heap_step_trans h h1 h2 s s1 s2 :
  heap_step h h1 s s1 → heap_step h1 h2 s1 s2 → heap_step h h2 s s2.
Proof.
  intros (A1 & A2 & A3 & A4 & A5) (B1 & B2 & B3 & B4 & B5).
  unfold heap_step. split_and!.
  - intros q Hs Hs2. destruct (decide (owns s1 q)) as [H1|H1].
    + rewrite (B2 q H1 Hs2). symmetry. by apply A3.
    + rewrite (B1 q H1 Hs2). by apply A1.
  - intros q Hs Hs2. destruct (decide (owns s1 q)) as [H1|H1].
    + by apply B2.
    + rewrite (B1 q H1 Hs2). by apply A2.
  - intros q Hs2 Hs. destruct (decide (owns s1 q)) as [H1|H1].
    + by apply A3.
    + rewrite <- (A1 q Hs H1). by apply B3.
  - congruence.
  - by etrans.
Qed.

Lemma heap_frame_step h h' s s' :
  same_shape s s' → heap_frame h h' s → heap_step h h' s s'.
Proof.
  intros Hs (Ho & Hf & _ & Hb). unfold heap_step. split_and!.
  - intros q Hq _. destruct s as [sh|l]; [by subst|].
    apply Hb. simpl in Hq. congruence.
  - intros q H1 H2. destruct H2. by apply (owns_same_shape _ _ q Hs).
  - intros q H1 H2. destruct H2. by apply (owns_same_shape _ _ q Hs).
  - done.
  - by rewrite Ho.
Qed.

Lemma grants_all_step h h' s s' :
  heap_step h h' s s' → grants_all h → grants_all h'.
Proof.
  intros (_ & _ & _ & _ & [k Hk]) Hg. unfold grants_all in *.
  rewrite Hk in Hg. by apply Forall_app in Hg as [_ ?].
Qed.

Lemma grants_all_alloc_ok h : grants_all h → alloc_ok h.
Proof.
  unfold grants_all, alloc_ok. destruct (oracle h) as [|[] ?]; try done.
  by intros [? _]%Forall_cons.
Qed.

(** A value depends on the heap through its own block only. *)
Lemma zstr_holds_ext h h' t c :
  (∀ q, owns t q → blocks h' !! q = blocks h !! q) →
  zstr_holds h t c → zstr_holds h' t c.
Proof.
  intros Hq [Hinv Hb]. destruct t as [sh|l].
  - done.
  - specialize (Hq (l_ptr l) eq_refl). split.
    + simpl in *. by rewrite Hq.
    + unfold zstr_as_bytes, zstr_as_view in *. simpl in *. by rewrite Hq.
Qed.

(** A value that shares no block with [s] is not affected by a step
    of [s], and shares no block with the outcome. *)
Lemma zstr_holds_other h h' s s' t c :
  zstr_holds h t c → heap_step h h' s s' →
  (∀ q, owns t q → ¬ owns s q) →
  zstr_holds h' t c ∧ (∀ q, owns t q → ¬ owns s' q).
Proof.
  intros Ht (A1 & A2 & A3 & _) Hd.
  assert (Hlive : ∀ q, owns t q → is_Some (blocks h !! q)).
  { intros q Hq. destruct t as [sh|l]; [done|]. simpl in Hq. subst q.
    destruct Ht as [(blk & Hblk & _) _]. by exists blk. }
  assert (Hn : ∀ q, owns t q → ¬ owns s' q).
  { intros q Hq Hs'. destruct (Hlive q Hq) as [blk Hblk].
    rewrite (A3 q Hs' (Hd q Hq)) in Hblk. done. }
  split; [|done]. eapply zstr_holds_ext; [|done].
  intros q Hq. apply A1; auto.
Qed.

(** ** [zstr_reserve] *)

Lemma heap_write_inv h p off src h' :
  heap_write h p off src = Some h' →
  ∃ blk blk', blocks h !! p = Some blk ∧ buf_write blk off src = Some blk' ∧
    h' = Heap (<[p := blk']> (blocks h)) (oracle h) (fill h).
Proof.
  unfold heap_write. intros H.
  destruct (blocks h !! p) as [blk|] eqn:Hb; [|done]. simpl in H.
  destruct (buf_write blk off src) as [blk'|] eqn:Hw; [|done]. simpl in H.
  injection H as <-. by exists blk, blk'.
Qed.

Lemma suffix_tail {A} (l : list A) : tail l `suffix_of` l.
Proof. destruct l as [|x l]; [done|]. by exists [x]. Qed.

Lemma zstr_reserve_step h s n h' s' rc :
  zstr_reserve h s n = Some (h', s', rc) →
  heap_step h h' s s' ∧ zstr_cap s ≤ zstr_cap s' ∧
  (zstr_cap s' = zstr_cap s ∨ zstr_cap s' = n).
Proof.
  unfold zstr_reserve. case_decide as Hn.
  { intros [= <- <- <-]. split_and!; [apply heap_step_refl|lia|by left]. }
  destruct s as [sh|l].
  - destruct (malloc h (size_add n 1)) as [h1 [p|]] eqn:Hm.
    + unfold malloc in Hm.
      assert (p = fresh (dom (blocks h)) ∧
              blocks h1 = <[p := replicate (Z.to_nat (size_add n 1)) (fill h)]> (blocks h) ∧
              oracle h1 = tail (oracle h) ∧ fill h1 = fill h) as (-> & Hb1 & Ho1 & Hf1).
      { destruct (oracle h) as [|[] o]; simplify_eq; done. }
      intros H.
      destruct (buf_read (short_raw sh) 0 (s_len sh)) as [bytes|]; [|done].
      simpl in H.
      destruct (heap_write h1 _ 0 bytes) as [h2|] eqn:Hw2; [|done]. simpl in H.
      destruct (heap_write h2 _ (s_len sh) [0]) as [h3|] eqn:Hw3; [|done].
      simpl in H. injection H as <- <- <-.
      apply heap_write_inv in Hw2 as (b1 & b1' & _ & _ & ->).
      apply heap_write_inv in Hw3 as (b2 & b2' & _ & _ & ->).
      simpl. split_and!; [|lia|by right]. unfold heap_step. simpl. split_and!.
      * intros q _ Hq. rewrite !lookup_insert_ne by done. rewrite Hb1.
        by rewrite lookup_insert_ne.
      * done.
      * intros q <- _. apply fresh_block_None.
      * done.
      * rewrite Ho1. apply suffix_tail.
    + intros [= <- <- <-]. split_and!; [|done|by left]. unfold malloc in Hm.
      unfold heap_step. split_and!; try done.
      * intros q _ _. destruct (oracle h) as [|[] o]; simplify_eq; done.
      * destruct (oracle h) as [|[] o]; simplify_eq; done.
      * destruct (oracle h) as [|[] o] eqn:Ho; simplify_eq.
        simpl. by exists [false].
  - case_decide as Hc.
    { intros [= <- <- <-]. split_and!; [apply heap_step_refl|lia|by left]. }
    unfold realloc.
    destruct (blocks h !! l_ptr l) as [old|] eqn:Hold; [|done]. simpl.
    case_decide as Hzero.
    { simpl. intros [= <- <- <-]. split; [|split; [simpl; lia|by left]].
      unfold heap_step. simpl. split_and!; try done.
      intros q H1 _. apply lookup_delete_ne. intros E. by apply H1. }
    destruct (oracle h) as [|[] o] eqn:Ho; simpl; intros [= <- <- <-];
      simpl; (split_and!; [|lia|auto]); unfold heap_step; simpl.
    + assert (Hne : fresh (dom (blocks h)) ≠ l_ptr l).
      { intros E. pose proof (fresh_block_None (blocks h)). congruence. }
      split_and!; try done.
      * intros q H1 H2. rewrite lookup_insert_ne by done.
        by rewrite lookup_delete_ne.
      * intros q <- H2. rewrite lookup_insert_ne by done.
        by rewrite lookup_delete_eq.
      * intros q <- _. apply fresh_block_None.
      * by rewrite Ho.
    + assert (Hne : fresh (dom (blocks h)) ≠ l_ptr l).
      { intros E. pose proof (fresh_block_None (blocks h)). congruence. }
      split_and!; try done.
      * intros q H1 H2. rewrite lookup_insert_ne by done.
        by rewrite lookup_delete_ne.
      * intros q <- H2. rewrite lookup_insert_ne by done.
        by rewrite lookup_delete_eq.
      * intros q <- _. apply fresh_block_None.
      * rewrite Ho. by exists [true].
    + split_and!; try done. rewrite Ho. by exists [false].
Qed.

(** ** Values and their character buffers *)

Lemma holds_chars h s c :
  zstr_holds h s c →
  ∃ chars, zstr_chars h s = Some chars ∧
    take (Z.to_nat (zstr_len s)) chars = c ∧
    zstr_len s = zlen c ∧ 0 ≤ zstr_len s < zlen chars ∧
    chars !! Z.to_nat (zstr_len s) = Some 0 ∧
    (zstr_is_long s = false → length chars = Z.to_nat ZSTR_SSO_CAP).
Proof.
  intros [Hinv Hb].
  assert (∃ chars, zstr_chars h s = Some chars ∧
            chars !! Z.to_nat (zstr_len s) = Some 0 ∧ 0 ≤ zstr_len s ∧
            (zstr_is_long s = false → length chars = Z.to_nat ZSTR_SSO_CAP))
    as (chars & Hc & Hnul & Hl0 & Hsh).
  { destruct s as [sh|l]; simpl in *.
    - destruct Hinv as (? & ? & ?). eexists. split_and!; try done. lia.
    - destruct Hinv as (blk & ? & ? & _ & _ & ?). exists blk.
      split_and!; try done. lia. }
  pose proof (lookup_lt_Some _ _ _ Hnul) as Hlt.
  rewrite (zstr_as_bytes_chars _ _ chars Hc) in Hb
    by (unfold in_range, zlen; lia).
  pose proof (buf_read_length _ _ _ _ Hb) as Hlen.
  destruct (buf_read_inv _ _ _ _ Hb) as [_ Hcont].
  change (Z.to_nat 0) with 0%nat in Hcont. rewrite drop_0 in Hcont.
  exists chars. split_and!; try done. unfold zlen. lia.
Qed.

Lemma holds_intro h s chars c :
  zstr_inv h s → zstr_chars h s = Some chars →
  take (Z.to_nat (zstr_len s)) chars = c → zstr_holds h s c.
Proof.
  intros Hinv Hc Ht. split; [done|].
  assert (0 ≤ zstr_len s < zlen chars) as Hr.
  { destruct s as [sh|l]; simpl in *.
    - destruct Hinv as (Hl & ? & ?). injection Hc as <-.
      unfold zlen. rewrite Hl. unfold ZSTR_SSO_CAP in *. lia.
    - destruct Hinv as (blk & ? & ? & ? & ? & ?).
      assert (chars = blk) as -> by congruence. lia. }
  rewrite (zstr_as_bytes_chars _ _ chars Hc) by (unfold in_range; lia).
  rewrite buf_read_Some by (unfold in_range; lia).
  change (Z.to_nat 0) with 0%nat. rewrite drop_0. by rewrite Ht.
Qed.

Lemma holds_len h s c : zstr_holds h s c → zstr_len s = zlen c.
Proof. intros H. by destruct (holds_chars _ _ _ H) as (? & _ & _ & ? & _). Qed.

Lemma holds_inj h s c c' : zstr_holds h s c → zstr_holds h s c' → c = c'.
Proof. intros [_ H] [_ H']. congruence. Qed.

Lemma heap_step_owns h h' s s' s'' :
  (∀ q, owns s'' q ↔ owns s' q) → heap_step h h' s s' → heap_step h h' s s''.
Proof.
  intros Ho (A1 & A2 & A3 & A4 & A5). unfold heap_step. split_and!; try done.
  - intros q H1 H2. apply A1; [done|]. by rewrite <- Ho.
  - intros q H1 H2. apply A2; [done|]. by rewrite <- Ho.
  - intros q H1 H2. apply A3; [|done]. by rewrite <- Ho.
Qed.

Lemma owns_set_len s n q : owns (set_len s n) q ↔ owns s q.
Proof. by destruct s. Qed.

Lemma zstr_chars_set_len h s n : zstr_chars h (set_len s n) = zstr_chars h s.
Proof. by destruct s. Qed.

Lemma zstr_cap_set_len s n : zstr_cap (set_len s n) = zstr_cap s.
Proof. by destruct s. Qed.

(** [zstr_reserve] keeps the bytes. *)
Lemma zstr_reserve_holds h s c n :
  zstr_holds h s c → 0 ≤ n < SIZE_MAX →
  ∃ h' s' rc, zstr_reserve h s n = Some (h', s', rc) ∧
    zstr_holds h' s' c ∧ heap_step h h' s s' ∧
    zstr_cap s ≤ zstr_cap s' ∧
    (zstr_cap s' = zstr_cap s ∨ zstr_cap s' = n) ∧
    (zstr_is_long s = true → zstr_is_long s' = true) ∧
    ((rc = Z_OK ∧
      (ZSTR_SSO_CAP ≤ n → zstr_is_long s' = true ∧ n ≤ zstr_cap s') ∧
      (n < ZSTR_SSO_CAP → h' = h ∧ s' = s))
     ∨ (rc = Z_ERR ∧ s' = s ∧ blocks h' = blocks h ∧ ¬ alloc_ok h)).
Proof.
  intros Hh Hn. pose proof Hh as [Hinv Hb].
  destruct (zstr_reserve_spec h s n Hinv Hn)
    as (h' & s' & rc & Hres & Hinv' & Hlen & Hlong & Hkeep & _ & Hcase).
  destruct (zstr_reserve_step _ _ _ _ _ _ Hres) as (Hstep & Hcap & Hexact).
  exists h', s', rc. split_and!; try done.
  destruct Hkeep as (old & new & Ho & Hnew & Htake).
  destruct (holds_chars _ _ _ Hh) as (chars & Hc & Hcont & _ & Hr & _).
  assert (chars = old) as -> by congruence.
  apply (holds_intro _ _ new); [done|done|].
  rewrite Hlen, <- Hcont.
  replace (Z.to_nat (zstr_len s))
    with (Z.to_nat (zstr_len s) `min` S (Z.to_nat (zstr_len s)))%nat by lia.
  rewrite <- !take_take. by rewrite Htake.
Qed.

(** The tail of the append operations, with the bytes. *)
Lemma append_tail_holds h1 s1 c bytes (upd : zstr → zstr) :
  zstr_holds h1 s1 c →
  match s1 with
  | Short sh => s_len sh + zlen bytes < ZSTR_SSO_CAP
  | Long l => l_len l + zlen bytes ≤ l_cap l
  end →
  (∀ s3, same_shape s1 s3 → upd s3 = set_len s3 (zstr_len s1 + zlen bytes)) →
  ∃ h2 s2 h3 s3,
    data_write h1 s1 (zstr_len s1) bytes = Some (h2, s2) ∧
    data_write h2 s2 (zstr_len s1 + zlen bytes) [0] = Some (h3, s3) ∧
    zstr_holds h3 (upd s3) (c ++ bytes) ∧
    heap_step h1 h3 s1 (upd s3) ∧
    zstr_is_long (upd s3) = zstr_is_long s1 ∧
    zstr_cap (upd s3) = zstr_cap s1 ∧
    oracle h3 = oracle h1.
Proof.
  intros Hh Hroom Hupd. pose proof Hh as [Hinv Hb].
  pose proof (zlen_nonneg bytes) as Hb0.
  destruct (append_write h1 s1 bytes Hinv Hroom)
    as (h2 & s2 & h3 & s3 & Hw1 & Hw2 & Hs & Hf & Hinv3 & old & new & Ho & Hn & Htake & Hrd).
  destruct (holds_chars _ _ _ Hh) as (chars & Hc & Hcont & Hlen & Hr & _).
  assert (chars = old) as -> by congruence.
  exists h2, s2, h3, s3. rewrite (Hupd _ Hs).
  assert (Hl3 : zstr_len (set_len s3 (zstr_len s1 + zlen bytes))
                = zstr_len s1 + zlen bytes).
  { apply set_len_len. destruct s1 as [sh|l], s3 as [sh3|l3]; simpl in *;
      try done; [left; lia|by right]. }
  split_and!; try done.
  - apply (holds_intro _ _ new); [done|by rewrite zstr_chars_set_len|].
    rewrite Hl3. rewrite Z2Nat.inj_add by lia. rewrite <- take_take_drop.
    rewrite Htake, Hcont. f_equal.
    destruct (buf_read_inv _ _ _ _ Hrd) as [_ Heq]. symmetry. exact Heq.
  - apply (heap_step_owns _ _ _ s3); [apply owns_set_len|].
    by apply heap_frame_step.
  - rewrite set_len_is_long. by apply same_shape_is_long.
  - rewrite zstr_cap_set_len. by apply same_shape_cap.
  - by destruct Hf as (? & _).
Qed.

(** ** Appending *)

Lemma zlen_take {A} (l : list A) n :
  0 ≤ n ≤ zlen l → zlen (take (Z.to_nat n) l) = n.
Proof. intros H. unfold zlen in *. rewrite length_take. lia. Qed.

Lemma zstr_cat_len_holds h s c obj n :
  zstr_holds h s c → 0 ≤ n ≤ zlen obj → zstr_cap s + n < 2 ^ 62 →
  ∃ h' s' rc, zstr_cat_len h s obj n = Some (h', s', rc) ∧
    heap_step h h' s s' ∧
    zstr_cap s ≤ zstr_cap s' ∧
    zstr_cap s' ≤ Z.max (zstr_cap s) (2 * (zstr_len s + n)) ∧
    (zstr_is_long s = true → zstr_is_long s' = true) ∧
    ((rc = Z_OK ∧ zstr_holds h' s' (c ++ take (Z.to_nat n) obj)) ∨
     (rc = Z_ERR ∧ s' = s ∧ zstr_holds h' s' c ∧ ¬ alloc_ok h)) ∧
    (zstr_len s + n < zstr_cap s →
       rc = Z_OK ∧ oracle h' = oracle h ∧
       zstr_is_long s' = zstr_is_long s ∧ zstr_cap s' = zstr_cap s).
Proof.
  intros Hh Hn Hbound. pose proof Hh as [Hinv _].
  destruct (zstr_inv_bounds _ _ Hinv) as [Hlen Hcap].
  unfold ZSTR_SSO_CAP in Hcap.
  set (bytes := take (Z.to_nat n) obj).
  assert (Hbl : zlen bytes = n) by by apply zlen_take.
  assert (Hrd : buf_read obj 0 n = Some bytes).
  { rewrite buf_read_Some by (unfold in_range; lia).
    change (Z.to_nat 0) with 0%nat. by rewrite drop_0. }
  assert (Hupd : ∀ s1 s3, zstr_len s1 = zstr_len s →
            match s1 with
            | Short sh => s_len sh + zlen bytes < ZSTR_SSO_CAP
            | Long l => True
            end →
            same_shape s1 s3 →
            add_len s3 n = set_len s3 (zstr_len s1 + zlen bytes)).
  { intros s1 s3 Hl1 Hroom Hs3. rewrite Hbl in *.
    destruct s1 as [sh1|l1], s3 as [sh3|l3]; simpl in *; try done.
    - rewrite Hs3. do 2 f_equal. unfold to_uint8.
      rewrite (Z.mod_small n) by (unfold ZSTR_SSO_CAP in *; lia). done.
    - subst l3. by rewrite size_add_small by (unfold SIZE_MOD; lia). }
  unfold zstr_cat_len.
  rewrite (size_add_small (zstr_len s) n) by (unfold SIZE_MOD; lia).
  case_decide as Hgrow.
  - rewrite (decide_False (P := zstr_cap s = 0)) by lia.
    destruct (grow_cap_spec (zstr_len s + n) grow_fuel (zstr_cap s))
      as (c' & Hg & Hc1 & Hc2 & Hc3); [lia|lia| |].
    { unfold grow_fuel. change (2 ^ Z.of_nat 64) with (2 ^ 64). lia. }
    rewrite Hg. clear Hg. mstep.
    destruct (zstr_reserve_holds h s c c' Hh)
      as (h1 & s1 & rc & Hres & Hh1 & Hstep1 & Hcap1 & Hex1 & Hkeep & Hcase);
      [unfold SIZE_MAX, SIZE_MOD; lia|].
    rewrite Hres. mstep.
    destruct Hcase as [(-> & Hlong & _)|(-> & -> & Hblk & Hno)].
    + rewrite decide_False by (unfold Z_OK; lia).
      destruct Hlong as [Hl1 Hc1']; [unfold ZSTR_SSO_CAP; lia|].
      rewrite Hrd. mstep.
      assert (Hlen1 : zstr_len s1 = zstr_len s)
        by (rewrite (holds_len _ _ _ Hh1), (holds_len _ _ _ Hh); done).
      destruct (append_tail_holds h1 s1 c bytes (λ s3, add_len s3 n) Hh1)
        as (h2 & s2 & h3 & s3 & Hw1 & Hw2 & Hh3 & Hstep3 & Hl3 & Hc3' & Ho3).
      { destruct s1 as [|l1]; [done|]. simpl in *. lia. }
      { intros s3 Hs3. apply Hupd; try done. by destruct s1. }
      rewrite Hlen1, Hbl in *. rewrite Hw1. mstep. rewrite Hw2. mstep.
      eexists _, _, _. split; [done|]. split_and!.
      * by eapply heap_step_trans.
      * lia.
      * lia.
      * intros _. congruence.
      * left. done.
      * lia.
    + rewrite decide_True by done.
      exists h1, s, Z_ERR. split_and!; try done.
      * lia.
      * right. done.
      * lia.
  - mstep. rewrite decide_False by (unfold Z_OK; lia).
    rewrite Hrd. mstep.
    destruct (append_tail_holds h s c bytes (λ s3, add_len s3 n) Hh)
      as (h2 & s2 & h3 & s3 & Hw1 & Hw2 & Hh3 & Hstep3 & Hl3 & Hc3' & Ho3).
    { destruct s as [sh|l]; simpl in *; unfold ZSTR_SSO_CAP in *; lia. }
    { intros s3 Hs3. apply Hupd; try done.
      destruct s as [sh|l]; simpl in *; unfold ZSTR_SSO_CAP in *; [lia|done]. }
    rewrite Hbl in *. rewrite Hw1. mstep. rewrite Hw2. mstep.
    eexists _, _, _. split; [done|]. split_and!; try done.
    + lia.
    + lia.
    + intros H. congruence.
    + by left.
Qed.

Lemma zstr_push_char_holds h s c x :
  zstr_holds h s c → zstr_cap s < 2 ^ 62 →
  ∃ h' s' rc, zstr_push_char h s x = Some (h', s', rc) ∧
    heap_step h h' s s' ∧
    zstr_cap s ≤ zstr_cap s' ∧
    zstr_cap s' ≤ Z.max (zstr_cap s) (2 * zstr_cap s) ∧
    (zstr_is_long s = true → zstr_is_long s' = true) ∧
    ((rc = Z_OK ∧ zstr_holds h' s' (c ++ [x])) ∨
     (rc = Z_ERR ∧ s' = s ∧ zstr_holds h' s' c ∧ ¬ alloc_ok h)) ∧
    (zstr_len s + 1 < zstr_cap s →
       rc = Z_OK ∧ oracle h' = oracle h ∧
       zstr_is_long s' = zstr_is_long s ∧ zstr_cap s' = zstr_cap s).
Proof.
  intros Hh Hbound. pose proof Hh as [Hinv _].
  destruct (zstr_inv_bounds _ _ Hinv) as [Hlen Hcap].
  unfold ZSTR_SSO_CAP in Hcap.
  assert (Hupd : ∀ s1 s3, zstr_len s1 = zstr_len s →
            match s1 with
            | Short sh => s_len sh + zlen [x] < ZSTR_SSO_CAP
            | Long l => True
            end →
            same_shape s1 s3 →
            incr_len s3 = set_len s3 (zstr_len s1 + zlen [x])).
  { intros s1 s3 Hl1 Hroom Hs3. change (zlen [x]) with 1 in *.
    destruct s1 as [sh1|l1], s3 as [sh3|l3]; simpl in *; try done.
    - by rewrite Hs3.
    - subst l3. by rewrite size_add_small by (unfold SIZE_MOD; lia). }
  unfold zstr_push_char.
  rewrite (size_add_small (zstr_len s) 1) by (unfold SIZE_MOD; lia).
  case_decide as Hgrow.
  - rewrite Z_GROWTH_FACTOR_double by (unfold SIZE_MOD; lia).
    destruct (zstr_reserve_holds h s c (2 * zstr_cap s) Hh)
      as (h1 & s1 & rc & Hres & Hh1 & Hstep1 & Hcap1 & Hex1 & Hkeep & Hcase);
      [unfold SIZE_MAX, SIZE_MOD; lia|].
    rewrite Hres. mstep.
    destruct Hcase as [(-> & Hlong & _)|(-> & -> & Hblk & Hno)].
    + rewrite decide_False by (unfold Z_OK; lia).
      destruct Hlong as [Hl1 Hc1']; [unfold ZSTR_SSO_CAP; lia|].
      assert (Hlen1 : zstr_len s1 = zstr_len s)
        by (rewrite (holds_len _ _ _ Hh1), (holds_len _ _ _ Hh); done).
      destruct (append_tail_holds h1 s1 c [x] incr_len Hh1)
        as (h2 & s2 & h3 & s3 & Hw1 & Hw2 & Hh3 & Hstep3 & Hl3 & Hc3' & Ho3).
      { destruct s1 as [|l1]; [done|]. simpl in *. change (zlen [x]) with 1. lia. }
      { intros s3 Hs3. apply Hupd; try done. by destruct s1. }
      rewrite Hlen1 in *. change (zlen [x]) with 1 in *.
      rewrite Hw1. mstep. rewrite Hw2. mstep.
      eexists _, _, _. split; [done|]. split_and!.
      * by eapply heap_step_trans.
      * lia.
      * lia.
      * intros _. congruence.
      * left. done.
      * lia.
    + rewrite decide_True by done.
      exists h1, s, Z_ERR. split_and!; try done.
      * lia.
      * right. done.
      * lia.
  - mstep. rewrite decide_False by (unfold Z_OK; lia).
    destruct (append_tail_holds h s c [x] incr_len Hh)
      as (h2 & s2 & h3 & s3 & Hw1 & Hw2 & Hh3 & Hstep3 & Hl3 & Hc3' & Ho3).
    { change (zlen [x]) with 1.
      destruct s as [sh|l]; simpl in *; unfold ZSTR_SSO_CAP in *; lia. }
    { intros s3 Hs3. apply Hupd; try done. change (zlen [x]) with 1.
      destruct s as [sh|l]; simpl in *; unfold ZSTR_SSO_CAP in *; [lia|done]. }
    change (zlen [x]) with 1 in *. rewrite Hw1. mstep. rewrite Hw2. mstep.
    eexists _, _, _. split; [done|]. split_and!; try done.
    + lia.
    + lia.
    + intros H. congruence.
    + by left.
Qed.

(** ** Removing the last byte *)

Lemma zstr_pop_char_holds h s c :
  zstr_holds h s c → zlen c < SIZE_MOD →
  ∃ h' s' x, zstr_pop_char h s = Some (h', s', x) ∧
    heap_step h h' s s' ∧
    zstr_is_long s' = zstr_is_long s ∧ zstr_cap s' = zstr_cap s ∧
    oracle h' = oracle h ∧
    (c = [] → x = 0 ∧ s' = s ∧ h' = h) ∧
    (∀ c0 y, c = c0 ++ [y] → x = y ∧ zstr_holds h' s' c0).
Proof.
  intros Hh Hmax. pose proof Hh as [Hinv _].
  pose proof (holds_len _ _ _ Hh) as Hlen.
  destruct (zstr_pop_char_inv h s Hinv) as (h' & s' & x & Hpop & Hinv' & Hl & He & Hne);
    [lia|].
  exists h', s', x. split; [done|].
  destruct (decide (zstr_len s = 0)) as [Hz|Hz].
  { destruct (He Hz) as (-> & -> & ->).
    split_and!; [apply heap_step_refl|done..|].
    intros c0 y ->. rewrite zlen_app in Hlen. change (zlen [y]) with 1 in Hlen.
    pose proof (zlen_nonneg c0). lia. }
  destruct (holds_chars _ _ _ Hh) as (chars & Hc & Hcont & _ & Hr & Hterm & Hsh).
  unfold zstr_pop_char in Hpop. rewrite decide_False in Hpop by done.
  destruct (data_read h s (zstr_len s - 1) 1) as [cs|] eqn:Hrd; [|done].
  cbn [mbind option_bind fst snd] in Hpop. destruct (head cs) as [x'|] eqn:Hhd; [|done]. cbn [mbind option_bind fst snd] in Hpop.
  destruct (data_write_chars h s (zstr_len s - 1) [0] chars Hc Hsh)
    as (d & h1 & s1 & Hw & Hd & Hc1 & Hs1 & Hf1);
    [unfold in_range; change (zlen [0]) with 1; lia|].
  rewrite Hd in Hpop. cbn [mbind option_bind fst snd] in Hpop. injection Hpop as <- <- <-.
  assert (Hown : ∀ q, owns (decr_len s1) q ↔ owns s1 q) by (by destruct s1).
  split_and!.
  - apply (heap_step_owns _ _ _ s1); [done|]. by apply heap_frame_step.
  - done.
  - destruct s as [sh|l], s1 as [sh1|l1]; simpl in *; try done. by subst.
  - by destruct Hf1.
  - intros ->. unfold zlen in Hlen. simpl in Hlen. lia.
  - intros c0 y ->. rewrite zlen_app in Hlen. change (zlen [y]) with 1 in Hlen.
    pose proof (zlen_nonneg c0) as H0.
    assert (Hlen' : zstr_len (decr_len s1) = zlen c0).
    { rewrite Hne by lia. lia. }
    split.
    + assert (Hy : chars !! Z.to_nat (zstr_len s - 1) = Some y).
      { rewrite <- (take_drop (Z.to_nat (zstr_len s)) chars), Hcont.
        rewrite lookup_app_l by (rewrite length_app; simpl; unfold zlen in *; lia).
        rewrite lookup_app_r by (unfold zlen in *; lia).
        replace (Z.to_nat (zstr_len s - 1) - length c0)%nat with 0%nat
          by (unfold zlen in *; lia). done. }
      assert (∃ obj, data_buffer h s = Some obj ∧
                obj !! Z.to_nat (zstr_len s - 1) = Some y ∧ zstr_len s < zlen obj)
        as (obj & Hobj & Hoy & Hol).
      { destruct s as [sh|l]; simpl in *.
        - injection Hc as <-. eexists. split; [done|]. unfold short_raw.
          rewrite zlen_app. change (zlen [s_len sh]) with 1.
          split; [|lia]. rewrite lookup_app_l; [done|].
          by apply lookup_lt_Some in Hy.
        - exists chars. split_and!; [done|done|lia]. }
      unfold data_read in Hrd. rewrite Hobj in Hrd. cbn [mbind option_bind fst snd] in Hrd.
      rewrite buf_read_Some in Hrd by (unfold in_range; lia).
      injection Hrd as <-. change (Z.to_nat 1) with 1%nat in Hhd.
      rewrite (drop_S _ y) in Hhd by done. simpl in Hhd. congruence.
    + apply (holds_intro _ _ d); [done| |].
      * destruct s1; done.
      * rewrite Hlen'.
        replace (Z.to_nat (zlen c0)) with (length c0) by (unfold zlen; lia).
        apply list_eq. intros i.
        destruct (decide (i < length c0)%nat) as [Hi|Hi].
        -- rewrite lookup_take_lt by done.
           rewrite (buf_write_lookup_lt _ _ _ _ _ Hw) by (unfold zlen in *; lia).
           rewrite <- (take_drop (Z.to_nat (zstr_len s)) chars), Hcont.
           rewrite <- app_assoc. by rewrite lookup_app_l by done.
        -- rewrite lookup_take_ge by lia. symmetry. apply lookup_ge_None. lia.
Qed.

(** ** Construction *)

Lemma data_write_step h s off src h' s' :
  data_write h s off src = Some (h', s') →
  heap_step h h' s s' ∧ (∀ q, owns s' q ↔ owns s q) ∧ oracle h' = oracle h.
Proof.
  unfold data_write. destruct s as [sh|l].
  - destruct (buf_write _ _ _); [|done]. simpl. intros [= <- <-].
    split_and!; try done; unfold heap_step; split_and!; done.
  - destruct (heap_write h (l_ptr l) off src) as [h1|] eqn:Hw; [|done].
    simpl. intros [= <- <-].
    apply heap_write_inv in Hw as (blk & blk' & Hb & _ & ->).
    split_and!; try done; unfold heap_step; simpl; split_and!; try done.
    intros q Hq _. by rewrite lookup_insert_ne.
Qed.

Lemma set_l_len_owns s n s' q : set_l_len s n = Some s' → owns s' q ↔ owns s q.
Proof. destruct s; simpl; [done|]. by intros [= <-]. Qed.

Lemma set_s_len_owns s n s' q : set_s_len s n = Some s' → owns s' q ↔ owns s q.
Proof. destruct s; simpl; [|done]. by intros [= <-]. Qed.

Lemma zstr_from_len_step h obj n h' s' :
  zstr_from_len h obj n = Some (h', s') → heap_step h h' zstr_init s'.
Proof.
  unfold zstr_from_len. case_decide as Hbig.
  - destruct (zstr_reserve h zstr_init n) as [[[h1 s1] rc]|] eqn:Hres; [|done].
    mstep. destruct (zstr_reserve_step _ _ _ _ _ _ Hres) as [Hstep _].
    case_decide as Hrc; [by intros [= <- <-]|].
    destruct (buf_read obj 0 n) as [bytes|]; [|done]. mstep.
    destruct (data_write h1 s1 0 bytes) as [[h2 s2]|] eqn:Hw2; [|done]. mstep.
    destruct (data_write h2 s2 n [0]) as [[h3 s3]|] eqn:Hw3; [|done]. mstep.
    destruct (set_l_len s3 n) as [s4|] eqn:Hs4; [|done]. mstep.
    intros [= <- <-].
    destruct (data_write_step _ _ _ _ _ _ Hw2) as (S2 & _ & _).
    destruct (data_write_step _ _ _ _ _ _ Hw3) as (S3 & _ & _).
    apply (heap_step_owns _ _ _ s3); [intros q; by eapply set_l_len_owns|].
    eapply heap_step_trans; [exact Hstep|].
    eapply heap_step_trans; [exact S2|exact S3].
  - destruct (buf_read obj 0 n) as [bytes|]; [|done]. mstep.
    destruct (data_write h zstr_init 0 bytes) as [[h2 s2]|] eqn:Hw2; [|done]. mstep.
    destruct (data_write h2 s2 n [0]) as [[h3 s3]|] eqn:Hw3; [|done]. mstep.
    destruct (set_s_len s3 _) as [s4|] eqn:Hs4; [|done]. mstep.
    intros [= <- <-].
    destruct (data_write_step _ _ _ _ _ _ Hw2) as (S2 & _ & _).
    destruct (data_write_step _ _ _ _ _ _ Hw3) as (S3 & _ & _).
    apply (heap_step_owns _ _ _ s3); [intros q; by eapply set_s_len_owns|].
    eapply heap_step_trans; [exact S2|exact S3].
Qed.

Lemma zstr_from_len_take h obj n :
  0 ≤ n ≤ zlen obj →
  zstr_from_len h obj n = zstr_from_bytes h (take (Z.to_nat n) obj).
Proof.
  intros Hn. unfold zstr_from_bytes. rewrite zlen_take by done.
  assert (Hrd : buf_read obj 0 n = buf_read (take (Z.to_nat n) obj) 0 n).
  { rewrite !buf_read_Some by (unfold in_range; rewrite ?zlen_take; lia).
    change (Z.to_nat 0) with 0%nat. rewrite !drop_0. by rewrite take_idemp. }
  unfold zstr_from_len. by rewrite Hrd.
Qed.

(** [zstr_from_len] copies the first [n] bytes of the object. *)
Lemma zstr_from_len_holds h obj n :
  0 ≤ n ≤ zlen obj → n < SIZE_MAX →
  ∃ h' s', zstr_from_len h obj n = Some (h', s') ∧
    heap_step h h' zstr_init s' ∧
    (n < ZSTR_SSO_CAP → h' = h ∧ zstr_is_long s' = false) ∧
    ((zstr_holds h' s' (take (Z.to_nat n) obj) ∧
      (ZSTR_SSO_CAP ≤ n → zstr_is_long s' = true ∧ n ≤ zstr_cap s'))
     ∨ (ZSTR_SSO_CAP ≤ n ∧ ¬ alloc_ok h ∧ s' = zstr_init)).
Proof.
  intros Hn Hmax.
  pose proof (zstr_from_len_take h obj n Hn) as Heq.
  destruct (zstr_from_bytes_spec h (take (Z.to_nat n) obj))
    as (h' & s' & Hfrom & Hinv & _ & Hsmall & Hcase);
    [by rewrite zlen_take|].
  rewrite zlen_take in * by done.
  rewrite <- Heq in Hfrom.
  exists h', s'. split_and!; try done.
  - by eapply zstr_from_len_step.
  - destruct Hcase as [(Hlen & Hbig & chars & Hc & Hrd)|?]; [left|by right].
    split; [|done]. apply (holds_intro _ _ chars); [done|done|].
    destruct (buf_read_inv _ _ _ _ Hrd) as [_ Ht].
    change (Z.to_nat 0) with 0%nat in Ht. rewrite drop_0 in Ht.
    by rewrite Hlen.
Qed.

Lemma zstr_init_holds h : zstr_holds h zstr_init [].
Proof. split; [apply zstr_init_inv|done]. Qed.

(** ** Memory management *)

(** The request [SIZE_MAX]: [new_cap + 1] wraps around to 0. *)
Lemma size_add_max : size_add SIZE_MAX 1 = 0.
Proof. reflexivity. Qed.

Lemma zstr_reserve_max_long h l blk :
  blocks h !! l_ptr l = Some blk → l_cap l < SIZE_MAX →
  zstr_reserve h (Long l) SIZE_MAX
  = Some (Heap (delete (l_ptr l) (blocks h)) (oracle h) (fill h), Long l, Z_ERR).
Proof.
  intros Hblk Hcap. unfold zstr_reserve.
  rewrite decide_False by (vm_compute; discriminate).
  rewrite decide_False by lia.
  rewrite size_add_max. unfold realloc. rewrite Hblk. done.
Qed.

Lemma zstr_reserve_max_short h sh :
  alloc_ok h → zstr_reserve h (Short sh) SIZE_MAX = None.
Proof.
  intros Hok. unfold zstr_reserve.
  rewrite decide_False by (vm_compute; discriminate).
  rewrite size_add_max, (malloc_granted _ _ Hok).
  change (replicate (Z.to_nat 0) (fill h)) with (@nil Z).
  destruct (buf_read (short_raw sh) 0 (s_len sh)) as [bytes|]; [|done].
  cbn [mbind option_bind].
  destruct (heap_write _ _ 0 bytes) as [h2|] eqn:Hw; [|done].
  cbn [mbind option_bind].
  apply heap_write_inv in Hw as (b & b' & Hb & Hbw & ->).
  simpl in Hb. rewrite lookup_insert_eq in Hb. injection Hb as <-.
  pose proof (buf_write_length _ _ _ _ Hbw) as Hl.
  unfold heap_write. simpl. rewrite lookup_insert_eq. cbn [mbind option_bind].
  unfold buf_write. rewrite decide_False; [done|].
  unfold in_range, zlen. rewrite Hl. simpl.
  destruct (decide (0 ≤ s_len sh)); lia.
Qed.

(** X1.  For a request below [SIZE_MAX], [zstr_reserve] returns on every
    well-formed value and keeps its bytes; the capacity never decreases
    and a heap-backed value stays heap-backed.  A request below
    [ZSTR_SSO_CAP] changes nothing.  On [Z_OK] with a request of
    [ZSTR_SSO_CAP] or more the value is heap-backed with at least the
    requested capacity; on [Z_ERR] the value is as before.  The blocks
    of other values are never touched, and the block given up by a
    reallocation is released.

    For the request [SIZE_MAX] the size [new_cap + 1] wraps around to
    0.  On a heap-backed value (of a capacity below [SIZE_MAX]) the
    block goes to [realloc] with the size 0, which releases it: [Z_ERR]
    is returned and the value still points to the released block.  On an inline value whose allocation
    is granted, the terminator is stored into a block of 0 bytes. *)
Theorem zstr_reserve_keeps_bytes (h : heap) (s : zstr) (c : list Z) :
  zstr_holds h s c →
  (∀ n, 0 ≤ n < SIZE_MAX →
     ∃ h' s' rc, zstr_reserve h s n = Some (h', s', rc) ∧
       zstr_holds h' s' c ∧ heap_step h h' s s' ∧
       zstr_cap s ≤ zstr_cap s' ∧
       (zstr_is_long s = true → zstr_is_long s' = true) ∧
       (n < ZSTR_SSO_CAP → rc = Z_OK ∧ h' = h ∧ s' = s) ∧
       (rc = Z_OK → ZSTR_SSO_CAP ≤ n → zstr_is_long s' = true ∧ n ≤ zstr_cap s') ∧
       (rc = Z_ERR → s' = s ∧ blocks h' = blocks h) ∧
       (alloc_ok h → rc = Z_OK)) ∧
  (zstr_is_long s = true → zstr_cap s < SIZE_MAX →
     ∃ h', zstr_reserve h s SIZE_MAX = Some (h', s, Z_ERR) ∧
       (∀ q, owns s q → blocks h' !! q = None) ∧ ¬ zstr_inv h' s) ∧
  (zstr_is_long s = false → alloc_ok h → zstr_reserve h s SIZE_MAX = None).
Proof.
  intros Hh. split_and!.
  - intros n Hn.
    destruct (zstr_reserve_holds h s c n Hh Hn)
      as (h' & s' & rc & Hres & Hh' & Hstep & Hcap & _ & Hlong & Hcase).
    exists h', s', rc. split_and!; try done.
    + intros Hsmall. destruct Hcase as [(-> & _ & H)|(-> & _ & _ & _)].
      * by destruct (H Hsmall).
      * unfold zstr_reserve in Hres. rewrite decide_True in Hres by done.
        by injection Hres.
    + intros -> Hbig. destruct Hcase as [(_ & H & _)|(? & _)]; [auto|done].
    + intros ->. destruct Hcase as [(? & _)|(_ & ? & ? & _)]; done.
    + intros Hok. destruct Hcase as [(? & _)|(_ & _ & _ & ?)]; done.
  - intros Hlong Hcap. destruct s as [sh|l]; [done|].
    destruct Hh as [(blk & Hblk & _) _]. simpl in Hcap.
    rewrite (zstr_reserve_max_long h l blk Hblk Hcap).
    eexists. split; [done|]. simpl. split.
    + intros q <-. apply lookup_delete_eq.
    + intros (blk' & Hb' & _). by rewrite lookup_delete_eq in Hb'.
  - intros Hshort Hok. destruct s as [sh|l]; [|done].
    by apply zstr_reserve_max_short.
Qed.

Lemma zstr_reserve_keeps_bytes_witness :
  let c := bytes_of "hello" in
  (∃ h' s' rc, zstr_reserve heap_empty (sample_short c) 100 = Some (h', s', rc) ∧
    zstr_holds h' s' c ∧ heap_step heap_empty h' (sample_short c) s' ∧
    zstr_cap (sample_short c) ≤ zstr_cap s' ∧
    (zstr_is_long (sample_short c) = true → zstr_is_long s' = true) ∧
    (100 < ZSTR_SSO_CAP → rc = Z_OK ∧ h' = heap_empty ∧ s' = sample_short c) ∧
    (rc = Z_OK → ZSTR_SSO_CAP ≤ 100 → zstr_is_long s' = true ∧ 100 ≤ zstr_cap s') ∧
    (rc = Z_ERR → s' = sample_short c ∧ blocks h' = blocks heap_empty) ∧
    (alloc_ok heap_empty → rc = Z_OK)) ∧
  (∃ h', zstr_reserve (sample_heap abc23) (sample_long abc23) SIZE_MAX
           = Some (h', sample_long abc23, Z_ERR) ∧
     (∀ q, owns (sample_long abc23) q → blocks h' !! q = None) ∧
     ¬ zstr_inv h' (sample_long abc23)) ∧
  zstr_reserve heap_empty (sample_short c) SIZE_MAX = None.
Proof.
  intros c. split_and!.
  - apply (proj1 (zstr_reserve_keeps_bytes heap_empty (sample_short c) c
                    ltac:(holds_closed)) 100).
    vm_compute. split; [discriminate|reflexivity].
  - apply (proj1 (proj2 (zstr_reserve_keeps_bytes (sample_heap abc23)
                           (sample_long abc23) abc23 ltac:(holds_closed)))).
    + reflexivity.
    + vm_compute. reflexivity.
  - apply (proj2 (proj2 (zstr_reserve_keeps_bytes heap_empty (sample_short c) c
                           ltac:(holds_closed)))).
    + reflexivity.
    + vm_compute. exact I.
Defined.

(** X2.  For a capacity below [SIZE_MAX], [zstr_with_capacity] returns
    an empty well-formed value.  A capacity of [ZSTR_SSO_CAP] or less
    gives the inline value without any allocation request
    ([ZSTR_SSO_CAP] itself included, although the inline form holds
    [ZSTR_SSO_CAP - 1] bytes); a larger one gives a heap-backed value of
    at least that capacity when the allocation is granted, and the
    inline empty value when it is refused.

    For the capacity [SIZE_MAX] the size [new_cap + 1] of the request
    wraps around to 0: when the allocation is granted the terminator is
    stored into a block of 0 bytes; when it is refused the result is
    the inline empty value. *)
Theorem zstr_with_capacity_empty (h : heap) :
  (∀ cap, 0 ≤ cap < SIZE_MAX →
     ∃ h' s', zstr_with_capacity h cap = Some (h', s') ∧
       zstr_holds h' s' [] ∧ heap_step h h' zstr_init s' ∧
       (cap ≤ ZSTR_SSO_CAP → h' = h ∧ s' = zstr_init) ∧
       (ZSTR_SSO_CAP < cap → alloc_ok h →
          zstr_is_long s' = true ∧ cap ≤ zstr_cap s') ∧
       (ZSTR_SSO_CAP < cap → ¬ alloc_ok h → s' = zstr_init)) ∧
  (alloc_ok h → zstr_with_capacity h SIZE_MAX = None) ∧
  (¬ alloc_ok h →
     ∃ h', zstr_with_capacity h SIZE_MAX = Some (h', zstr_init) ∧
           blocks h' = blocks h).
Proof.
  split_and!.
  - intros cap Hcap. unfold zstr_with_capacity. case_decide as Hbig.
    + destruct (zstr_reserve_holds h zstr_init [] cap (zstr_init_holds h) Hcap)
        as (h' & s' & rc & Hres & Hh' & Hstep & _ & _ & _ & Hcase).
      rewrite Hres. mstep. exists h', s'. split_and!; try done.
      * lia.
      * intros _ Hok. destruct Hcase as [(_ & H & _)|(_ & _ & _ & ?)]; [|done].
        apply H. lia.
      * intros _ Hno. destruct Hcase as [(-> & _)|(_ & ? & _)]; [|done].
        unfold zstr_reserve in Hres.
        rewrite decide_False in Hres by lia. simpl in Hres.
        rewrite (malloc_refused _ _ Hno) in Hres. by injection Hres.
    + exists h, zstr_init.
      split_and!; first [done|lia|apply zstr_init_holds|apply heap_step_refl].
  - intros Hok. unfold zstr_with_capacity.
    rewrite decide_True by (vm_compute; reflexivity).
    unfold zstr_init. by rewrite (zstr_reserve_max_short h _ Hok).
  - intros Hno. unfold zstr_with_capacity.
    rewrite decide_True by (vm_compute; reflexivity).
    unfold zstr_reserve. rewrite decide_False by (vm_compute; discriminate).
    unfold zstr_init at 1. rewrite (malloc_refused _ _ Hno).
    cbn [mbind option_bind]. eexists. split; [done|]. done.
Qed.

Lemma zstr_with_capacity_empty_witness :
  (∃ h' s', zstr_with_capacity heap_empty 64 = Some (h', s') ∧
    zstr_holds h' s' [] ∧ heap_step heap_empty h' zstr_init s' ∧
    (64 ≤ ZSTR_SSO_CAP → h' = heap_empty ∧ s' = zstr_init) ∧
    (ZSTR_SSO_CAP < 64 → alloc_ok heap_empty →
       zstr_is_long s' = true ∧ 64 ≤ zstr_cap s') ∧
    (ZSTR_SSO_CAP < 64 → ¬ alloc_ok heap_empty → s' = zstr_init)) ∧
  zstr_with_capacity heap_empty SIZE_MAX = None.
Proof.
  split.
  - apply (proj1 (zstr_with_capacity_empty heap_empty) 64).
    vm_compute. split; [discriminate|reflexivity].
  - apply (proj1 (proj2 (zstr_with_capacity_empty heap_empty))).
    vm_compute. exact I.
Defined.

(** X3.  [zstr_free] resets the value to the empty inline value and
    releases the block of a heap-backed value, leaving every other
    block alone; freeing the value a second time does nothing (no
    double free). *)
Theorem zstr_free_releases (h : heap) (s : zstr) (c : list Z) :
  zstr_holds h s c →
  ∃ h', zstr_free h s = Some (h', zstr_init) ∧
    zstr_holds h' zstr_init [] ∧
    heap_step h h' s zstr_init ∧ oracle h' = oracle h ∧
    (zstr_is_long s = false → h' = h) ∧
    zstr_free h' zstr_init = Some (h', zstr_init).
Proof.
  intros [Hinv _]. destruct s as [sh|l]; simpl.
  - exists h. split_and!; done.
  - destruct Hinv as (blk & Hblk & _). unfold free. rewrite Hblk. mstep.
    eexists. split_and!; try done.
    unfold heap_step. simpl. split_and!; try done.
    + intros q Hq _. by rewrite lookup_delete_ne.
    + intros q <- _. by rewrite lookup_delete_eq.
Qed.

Lemma zstr_free_releases_witness :
  ∃ h', zstr_free (sample_heap abc23) (sample_long abc23) = Some (h', zstr_init) ∧
    zstr_holds h' zstr_init [] ∧
    heap_step (sample_heap abc23) h' (sample_long abc23) zstr_init ∧
    oracle h' = oracle (sample_heap abc23) ∧
    (zstr_is_long (sample_long abc23) = false → h' = sample_heap abc23) ∧
    zstr_free h' zstr_init = Some (h', zstr_init).
Proof.
  apply (zstr_free_releases (sample_heap abc23) (sample_long abc23) abc23).
  holds_closed.
Defined.

(** ** Appending and removing bytes *)

(** X4.  For a source [src] that is an object of its own, outside the
    buffer of [s]: [zstr_cat_len (s, src, n)] appends the first [n]
    bytes of [src] (NUL bytes included) to the bytes of [s] and keeps
    the value well formed; when the allocation it needs is refused it
    returns [Z_ERR] and the value is as before.  A heap-backed value
    stays heap-backed, the capacity never decreases, and when [len + n]
    is below the capacity no allocation request is made.  Blocks of
    other values are untouched.  Sizes are below 2^62.  A source inside
    the buffer of [s] itself is not covered: the code reads it after
    [zstr_reserve] may have released that buffer. *)
Theorem zstr_cat_len_appends (h : heap) (s : zstr) (c src : list Z) (n : Z) :
  zstr_holds h s c → 0 ≤ n ≤ zlen src → zstr_cap s + n < 2 ^ 62 →
  ∃ h' s' rc, zstr_cat_len h s src n = Some (h', s', rc) ∧
    heap_step h h' s s' ∧
    zstr_cap s ≤ zstr_cap s' ∧
    zstr_cap s' ≤ Z.max (zstr_cap s) (2 * (zstr_len s + n)) ∧
    (zstr_is_long s = true → zstr_is_long s' = true) ∧
    ((rc = Z_OK ∧ zstr_holds h' s' (c ++ take (Z.to_nat n) src)) ∨
     (rc = Z_ERR ∧ s' = s ∧ zstr_holds h' s' c ∧ ¬ alloc_ok h)) ∧
    (zstr_len s + n < zstr_cap s →
       rc = Z_OK ∧ oracle h' = oracle h ∧
       zstr_is_long s' = zstr_is_long s ∧ zstr_cap s' = zstr_cap s).
Proof. apply zstr_cat_len_holds. Qed.

Lemma zstr_cat_len_appends_witness :
  let c := bytes_of "hello" in
  let src := bytes_of ", world; and a good deal more" in
  ∃ h' s' rc, zstr_cat_len heap_empty (sample_short c) src 7 = Some (h', s', rc) ∧
    heap_step heap_empty h' (sample_short c) s' ∧
    zstr_cap (sample_short c) ≤ zstr_cap s' ∧
    zstr_cap s' ≤ Z.max (zstr_cap (sample_short c))
                        (2 * (zstr_len (sample_short c) + 7)) ∧
    (zstr_is_long (sample_short c) = true → zstr_is_long s' = true) ∧
    ((rc = Z_OK ∧ zstr_holds h' s' (c ++ take (Z.to_nat 7) src)) ∨
     (rc = Z_ERR ∧ s' = sample_short c ∧ zstr_holds h' s' c ∧
      ¬ alloc_ok heap_empty)) ∧
    (zstr_len (sample_short c) + 7 < zstr_cap (sample_short c) →
       rc = Z_OK ∧ oracle h' = oracle heap_empty ∧
       zstr_is_long s' = zstr_is_long (sample_short c) ∧
       zstr_cap s' = zstr_cap (sample_short c)).
Proof.
  intros c src.
  apply (zstr_cat_len_appends heap_empty (sample_short c) c src 7).
  - holds_closed.
  - vm_compute. split; discriminate.
  - vm_compute. reflexivity.
Defined.

(** X5.  [zstr_pop_char] on a non-empty value returns its last byte and
    leaves the bytes before it; on the empty value it returns the byte 0
    and changes nothing.  It never allocates, frees or demotes: form and
    capacity are kept. *)
Theorem zstr_pop_char_last (h : heap) (s : zstr) (c : list Z) :
  zstr_holds h s c → zlen c < SIZE_MOD →
  ∃ h' s' x, zstr_pop_char h s = Some (h', s', x) ∧
    heap_step h h' s s' ∧
    zstr_is_long s' = zstr_is_long s ∧ zstr_cap s' = zstr_cap s ∧
    oracle h' = oracle h ∧
    (c = [] → x = 0 ∧ s' = s ∧ h' = h) ∧
    (∀ c0 y, c = c0 ++ [y] → x = y ∧ zstr_holds h' s' c0).
Proof. apply zstr_pop_char_holds. Qed.

Lemma zstr_pop_char_last_witness :
  ∃ h' s' x, zstr_pop_char (sample_heap abc23) (sample_long abc23) = Some (h', s', x) ∧
    heap_step (sample_heap abc23) h' (sample_long abc23) s' ∧
    zstr_is_long s' = zstr_is_long (sample_long abc23) ∧
    zstr_cap s' = zstr_cap (sample_long abc23) ∧
    oracle h' = oracle (sample_heap abc23) ∧
    (abc23 = [] → x = 0 ∧ s' = sample_long abc23 ∧ h' = sample_heap abc23) ∧
    (∀ c0 y, abc23 = c0 ++ [y] → x = y ∧ zstr_holds h' s' c0).
Proof.
  apply (zstr_pop_char_last (sample_heap abc23) (sample_long abc23) abc23).
  - holds_closed.
  - vm_compute. reflexivity.
Defined.

(** X6.  [zstr_push_char] followed by [zstr_pop_char] gives back the
    byte pushed and the bytes the value had; the push appends the byte
    (the byte 0 included) unless the allocation it needs is refused. *)
Theorem zstr_push_pop_round_trip (h : heap) (s : zstr) (c : list Z) (x : Z) :
  zstr_holds h s c → zstr_cap s < 2 ^ 62 → alloc_ok h →
  ∃ h1 s1, zstr_push_char h s x = Some (h1, s1, Z_OK) ∧
    zstr_holds h1 s1 (c ++ [x]) ∧
    ∃ h2 s2, zstr_pop_char h1 s1 = Some (h2, s2, x) ∧
      zstr_holds h2 s2 c ∧ heap_step h h2 s s2.
Proof.
  intros Hh Hcap Hok.
  destruct (zstr_push_char_holds h s c x Hh Hcap)
    as (h1 & s1 & rc & Hpush & Hstep1 & _ & _ & _ & Hcase & _).
  destruct Hcase as [(-> & Hh1)|(_ & _ & _ & Hno)]; [|done].
  exists h1, s1. split_and!; try done.
  pose proof (holds_len _ _ _ Hh) as Hlen.
  destruct (zstr_inv_bounds _ _ (proj1 Hh)) as [Hl _].
  destruct (zstr_pop_char_holds h1 s1 (c ++ [x]) Hh1)
    as (h2 & s2 & y & Hpop & Hstep2 & _ & _ & _ & _ & Hlast).
  { rewrite zlen_app. change (zlen [x]) with 1. unfold SIZE_MOD. lia. }
  destruct (Hlast c x eq_refl) as [-> Hh2].
  exists h2, s2. split_and!; try done. by eapply heap_step_trans.
Qed.

Lemma zstr_push_pop_round_trip_witness :
  ∃ h1 s1, zstr_push_char (sample_heap abc23) (sample_long abc23) 0x21
             = Some (h1, s1, Z_OK) ∧
    zstr_holds h1 s1 (abc23 ++ [0x21]) ∧
    ∃ h2 s2, zstr_pop_char h1 s1 = Some (h2, s2, 0x21) ∧
      zstr_holds h2 s2 abc23 ∧
      heap_step (sample_heap abc23) h2 (sample_long abc23) s2.
Proof.
  apply (zstr_push_pop_round_trip (sample_heap abc23) (sample_long abc23) abc23).
  - holds_closed.
  - vm_compute. reflexivity.
  - vm_compute. exact I.
Defined.

(** ** C strings as arguments *)

Lemma c_strlen_nulfree a :
  Forall (λ x, x ≠ 0) a → c_strlen (a ++ [0]) 0 = Some (zlen a).
Proof.
  intros Ha. unfold c_strlen.
  rewrite (cstr_at_content a [] 0 Ha) by (pose proof (zlen_nonneg a); lia).
  change (Z.to_nat 0) with 0%nat. by rewrite drop_0.
Qed.

Lemma take_zlen_app {A} (a b : list A) : take (Z.to_nat (zlen a)) (a ++ b) = a.
Proof. unfold zlen. rewrite Nat2Z.id. by rewrite take_app_length. Qed.

(** [zstr_cat] on a well-formed value. *)
Lemma zstr_cat_holds h s c a :
  zstr_holds h s c → Forall (λ x, x ≠ 0) a → zstr_cap s + zlen a < 2 ^ 62 →
  ∃ h' s' rc, zstr_cat h s a = Some (h', s', rc) ∧
    heap_step h h' s s' ∧
    zstr_cap s ≤ zstr_cap s' ∧
    zstr_cap s' ≤ Z.max (zstr_cap s) (2 * (zstr_len s + zlen a)) ∧
    (zstr_is_long s = true → zstr_is_long s' = true) ∧
    ((rc = Z_OK ∧ zstr_holds h' s' (c ++ a)) ∨
     (rc = Z_ERR ∧ s' = s ∧ zstr_holds h' s' c ∧ ¬ alloc_ok h)).
Proof.
  intros Hh Ha Hb. unfold zstr_cat. rewrite (c_strlen_nulfree a Ha). mstep.
  destruct (zstr_cat_len_holds h s c (a ++ [0]) (zlen a) Hh)
    as (h' & s' & rc & Hcat & Hstep & Hc1 & Hc2 & Hl & Hcase & _).
  { rewrite zlen_app. change (zlen [0]) with 1. pose proof (zlen_nonneg a). lia. }
  { done. }
  rewrite take_zlen_app in Hcase.
  exists h', s', rc. split_and!; done.
Qed.

(** ** Construction *)

(** X7.  [zstr_from] on a C string gives a well-formed value with the
    bytes of the string: inline and without any allocation request when
    the string is shorter than [ZSTR_SSO_CAP], heap-backed otherwise.
    When the allocation is refused the result is the empty value, as
    for the empty string. *)
Theorem zstr_from_copies (h : heap) (a : list Z) :
  Forall (λ x, x ≠ 0) a → zlen a < SIZE_MAX →
  ∃ h' s', zstr_from h a = Some (h', s') ∧
    heap_step h h' zstr_init s' ∧
    (zlen a < ZSTR_SSO_CAP → h' = h ∧ zstr_is_long s' = false) ∧
    ((zstr_holds h' s' a ∧
      (ZSTR_SSO_CAP ≤ zlen a → zstr_is_long s' = true ∧ zlen a ≤ zstr_cap s'))
     ∨ (ZSTR_SSO_CAP ≤ zlen a ∧ ¬ alloc_ok h ∧ s' = zstr_init)).
Proof.
  intros Ha Hmax. unfold zstr_from. rewrite (c_strlen_nulfree a Ha). mstep.
  destruct (zstr_from_len_holds h (a ++ [0]) (zlen a))
    as (h' & s' & Hfrom & Hstep & Hsmall & Hcase); [|done|].
  { rewrite zlen_app. change (zlen [0]) with 1. pose proof (zlen_nonneg a). lia. }
  rewrite take_zlen_app in Hcase. exists h', s'. split_and!; done.
Qed.

Lemma zstr_from_copies_witness :
  let a := bytes_of "a string of more than twenty-three bytes" in
  ∃ h' s', zstr_from heap_empty a = Some (h', s') ∧
    heap_step heap_empty h' zstr_init s' ∧
    (zlen a < ZSTR_SSO_CAP → h' = heap_empty ∧ zstr_is_long s' = false) ∧
    ((zstr_holds h' s' a ∧
      (ZSTR_SSO_CAP ≤ zlen a → zstr_is_long s' = true ∧ zlen a ≤ zstr_cap s'))
     ∨ (ZSTR_SSO_CAP ≤ zlen a ∧ ¬ alloc_ok heap_empty ∧ s' = zstr_init)).
Proof.
  intros a. apply (zstr_from_copies heap_empty a).
  - vm_compute. repeat constructor; discriminate.
  - vm_compute. reflexivity.
Defined.

(** X8.  [zstr_dup] is a deep copy: the copy holds the same bytes (NUL
    bytes included), the original is untouched, and the two share no
    block.  The copy is inline exactly when it has fewer than
    [ZSTR_SSO_CAP] bytes, whatever the form of the original.  When the
    allocation is refused the copy is the empty value. *)
Theorem zstr_dup_independent (h : heap) (s : zstr) (c : list Z) :
  zstr_holds h s c → zlen c < SIZE_MAX →
  ∃ h' s', zstr_dup h s = Some (h', s') ∧
    heap_step h h' zstr_init s' ∧
    zstr_holds h' s c ∧ (∀ q, owns s q → ¬ owns s' q) ∧
    (zlen c < ZSTR_SSO_CAP → h' = h ∧ zstr_is_long s' = false) ∧
    ((zstr_holds h' s' c ∧ (ZSTR_SSO_CAP ≤ zlen c → zstr_is_long s' = true))
     ∨ (ZSTR_SSO_CAP ≤ zlen c ∧ ¬ alloc_ok h ∧ s' = zstr_init)).
Proof.
  intros Hh Hmax. pose proof Hh as [Hinv Hb].
  destruct (data_buffer_content h s c Hinv Hb) as (rest & Hobj & Hlen).
  unfold zstr_dup. rewrite Hobj. mstep. rewrite Hlen.
  destruct (zstr_from_len_holds h (c ++ 0 :: rest) (zlen c))
    as (h' & s' & Hfrom & Hstep & Hsmall & Hcase); [|done|].
  { rewrite zlen_app. pose proof (zlen_nonneg c). pose proof (zlen_nonneg (0 :: rest)). lia. }
  rewrite take_zlen_app in Hcase. exists h', s'.
  destruct (zstr_holds_other h h' zstr_init s' s c Hh Hstep) as [Hs Hd]; [intros q _ Hf; exact Hf|].
  split_and!; try done.
  destruct Hcase as [[? H]|?]; [left|by right]. split; [done|].
  intros Hbig. by destruct (H Hbig).
Qed.

Lemma zstr_dup_independent_witness :
  ∃ h' s', zstr_dup (sample_heap abc23) (sample_long abc23) = Some (h', s') ∧
    heap_step (sample_heap abc23) h' zstr_init s' ∧
    zstr_holds h' (sample_long abc23) abc23 ∧
    (∀ q, owns (sample_long abc23) q → ¬ owns s' q) ∧
    (zlen abc23 < ZSTR_SSO_CAP →
       h' = sample_heap abc23 ∧ zstr_is_long s' = false) ∧
    ((zstr_holds h' s' abc23 ∧
      (ZSTR_SSO_CAP ≤ zlen abc23 → zstr_is_long s' = true))
     ∨ (ZSTR_SSO_CAP ≤ zlen abc23 ∧ ¬ alloc_ok (sample_heap abc23) ∧
        s' = zstr_init)).
Proof.
  apply (zstr_dup_independent (sample_heap abc23) (sample_long abc23) abc23).
  - holds_closed.
  - vm_compute. reflexivity.
Defined.

(** X9.  [zstr_from_view] gives a well-formed value holding exactly the
    bytes the view denotes; on the view of a whole value it is
    [zstr_dup].  When the allocation is refused the result is the empty
    value. *)
Theorem zstr_from_view_bytes (h : heap) (v : zstr_view) (bs : list Z) :
  view_bytes v = Some bs → v_len v < SIZE_MAX →
  (∃ h' s', zstr_from_view h v = Some (h', s') ∧
     heap_step h h' zstr_init s' ∧
     (zstr_holds h' s' bs ∨
      (ZSTR_SSO_CAP ≤ v_len v ∧ ¬ alloc_ok h ∧ s' = zstr_init))) ∧
  (∀ s v', zstr_as_view h s = Some v' → zstr_from_view h v' = zstr_dup h s).
Proof.
  intros Hv Hmax. split.
  - destruct (buf_read_inv _ _ _ _ Hv) as [(H0 & Hn & Hr) ->].
    unfold zstr_from_view, obj_from.
    rewrite decide_True by lia. mstep.
    destruct (zstr_from_len_holds h (drop (Z.to_nat (v_off v)) (v_obj v)) (v_len v))
      as (h' & s' & Hfrom & Hstep & _ & Hcase); [|done|].
    { unfold zlen in *. rewrite length_drop. lia. }
    exists h', s'. split_and!; try done.
    destruct Hcase as [[? _]|?]; [by left|by right].
  - intros s v' Hv'. unfold zstr_as_view in Hv'. unfold zstr_dup, zstr_from_view.
    destruct (data_buffer h s) as [obj|]; [|done]. simpl in Hv'.
    injection Hv' as <-. simpl. unfold obj_from.
    rewrite decide_True by (pose proof (zlen_nonneg obj); lia). done.
Qed.

Lemma zstr_from_view_bytes_witness :
  let v := ZView (bytes_of "key=value") 4 5 in
  (∃ h' s', zstr_from_view heap_empty v = Some (h', s') ∧
     heap_step heap_empty h' zstr_init s' ∧
     (zstr_holds h' s' (bytes_of "value") ∨
      (ZSTR_SSO_CAP ≤ v_len v ∧ ¬ alloc_ok heap_empty ∧ s' = zstr_init))) ∧
  (∀ s v', zstr_as_view heap_empty s = Some v' →
           zstr_from_view heap_empty v' = zstr_dup heap_empty s).
Proof.
  intros v. apply (zstr_from_view_bytes heap_empty v (bytes_of "value")).
  - vm_compute. reflexivity.
  - vm_compute. reflexivity.
Defined.

(** ** Releasing and adopting buffers *)

Lemma zstr_take_holds h s c :
  zstr_holds h s c →
  ∃ h' p, zstr_take h s = Some (h', zstr_init, p) ∧
    match p with
    | Some q =>
        ∃ rest, blocks h' !! q = Some (c ++ 0 :: rest) ∧
          (∀ q', q' ≠ q → blocks h' !! q' = blocks h !! q') ∧
          (zstr_is_long s = true → h' = h ∧ owns s q) ∧
          (zstr_is_long s = false → blocks h !! q = None ∧ rest = [])
    | None => zstr_is_long s = false ∧ ¬ alloc_ok h ∧ blocks h' = blocks h
    end.
Proof.
  intros Hh. pose proof Hh as [Hinv Hb].
  destruct (data_buffer_content h s c Hinv Hb) as (rest & Hobj & Hlen).
  pose proof (zlen_nonneg c) as Hc0.
  destruct s as [sh|l]; simpl in *.
  - destruct (alloc_ok_dec h) as [Hok|Hno].
    + rewrite (malloc_granted _ _ Hok).
      unfold zstr_as_bytes, zstr_as_view, view_bytes in Hb. simpl in Hb.
      rewrite Hb. mstep.
      set (p := fresh (dom (blocks h))).
      assert (Hrep : replicate (Z.to_nat (s_len sh + 1)) (fill h)
                     = [] ++ replicate (length c) (fill h) ++ [fill h]).
      { rewrite Hlen. unfold zlen. simpl.
        replace (Z.to_nat (Z.of_nat (length c) + 1)) with (length c + 1)%nat by lia.
        by rewrite replicate_add. }
      rewrite Hrep.
      erewrite heap_write_insert;
        [|apply (buf_write_decomp [] (replicate (length c) (fill h)) [fill h] c);
          by rewrite length_replicate].
      mstep. rewrite Hlen.
      erewrite heap_write_insert;
        [|apply (buf_write_decomp c [fill h] [] [0]); done].
      mstep. eexists _, (Some p). split; [done|].
      exists []. simpl. rewrite lookup_insert_eq. split_and!; try done.
      * intros q' Hq'. by rewrite lookup_insert_ne.
      * intros _. split; [|done]. apply fresh_block_None.
    + rewrite (malloc_refused _ _ Hno). eexists _, None. by split_and!.
  - exists h, (Some (l_ptr l)). split; [done|].
    exists rest. split_and!; try done.
Qed.

(** X10.  [zstr_take] resets the value to the empty inline value and
    returns a buffer holding its bytes and their terminator: the block
    of a heap-backed value as it is, for an inline value a fresh block
    of [len + 1] bytes.  When that allocation is refused it returns
    NULL and the value is reset all the same: its bytes are lost. *)
Theorem zstr_take_buffer (h : heap) (s : zstr) (c : list Z) :
  zstr_holds h s c →
  ∃ h' p, zstr_take h s = Some (h', zstr_init, p) ∧
    match p with
    | Some q =>
        ∃ rest, blocks h' !! q = Some (c ++ 0 :: rest) ∧
          (∀ q', q' ≠ q → blocks h' !! q' = blocks h !! q') ∧
          (zstr_is_long s = true → h' = h ∧ owns s q) ∧
          (zstr_is_long s = false → blocks h !! q = None ∧ rest = [])
    | None => zstr_is_long s = false ∧ ¬ alloc_ok h ∧ blocks h' = blocks h
    end.
Proof. apply zstr_take_holds. Qed.

Lemma zstr_take_buffer_witness :
  let c := bytes_of "hello" in
  ∃ h' p, zstr_take heap_empty (sample_short c) = Some (h', zstr_init, p) ∧
    match p with
    | Some q =>
        ∃ rest, blocks h' !! q = Some (c ++ 0 :: rest) ∧
          (∀ q', q' ≠ q → blocks h' !! q' = blocks heap_empty !! q') ∧
          (zstr_is_long (sample_short c) = true →
             h' = heap_empty ∧ owns (sample_short c) q) ∧
          (zstr_is_long (sample_short c) = false →
             blocks heap_empty !! q = None ∧ rest = [])
    | None => zstr_is_long (sample_short c) = false ∧ ¬ alloc_ok heap_empty ∧
              blocks h' = blocks heap_empty
    end.
Proof.
  intros c. apply (zstr_take_buffer heap_empty (sample_short c) c).
  holds_closed.
Defined.

(** X11.  Handing the buffer of [zstr_take] back to [zstr_own], with the
    length and capacity the value had, gives a value with the same
    bytes, provided the value is not a heap-backed value of length and
    capacity exactly [ZSTR_SSO_CAP].  For an inline value the heap ends
    as it started: the intermediate buffer is released. *)
Theorem zstr_take_own_round_trip (h : heap) (s : zstr) (c : list Z) :
  zstr_holds h s c →
  zlen c < ZSTR_SSO_CAP ∨ ZSTR_SSO_CAP < zstr_cap s →
  (zstr_is_long s = false → alloc_ok h) →
  ∃ h1 p, zstr_take h s = Some (h1, zstr_init, Some p) ∧
    ∃ h2 s2, zstr_own h1 p (zstr_len s) (zstr_cap s) = Some (h2, s2) ∧
      zstr_holds h2 s2 c ∧
      (zstr_is_long s = false → blocks h2 = blocks h) ∧
      (ZSTR_SSO_CAP < zstr_cap s → h2 = h ∧ s2 = s).
Proof.
  intros Hh Hsize Hok. pose proof Hh as [Hinv Hb].
  pose proof (holds_len _ _ _ Hh) as Hlen.
  pose proof (zlen_nonneg c) as Hc0.
  destruct (zstr_take_holds h s c Hh) as (h1 & p & Htake & Hp).
  destruct p as [p|]; [|destruct Hp as (Hs & Hno & _); by destruct Hno; auto].
  destruct Hp as (rest & Hblk & Hother & Hl & Hsh).
  exists h1, p. split; [done|].
  assert (Hsmall : zlen c < ZSTR_SSO_CAP → zstr_cap s ≤ ZSTR_SSO_CAP →
    ∃ h2 s2, zstr_own h1 p (zstr_len s) (zstr_cap s) = Some (h2, s2) ∧
      zstr_holds h2 s2 c ∧ blocks h2 = delete p (blocks h1)).
  { intros H1 H2.
    destruct (zstr_own_inline_inv h1 p (zstr_len s) (zstr_cap s) _ Hblk)
      as (h2 & s2 & Hown & Hinv2 & _ & _ & Hbl & Hbytes); [done|lia| |].
    { rewrite zlen_app. pose proof (zlen_nonneg (0 :: rest)). lia. }
    exists h2, s2. split_and!; try done. split; [done|].
    rewrite Hbytes, Hlen.
    rewrite buf_read_Some
      by (unfold in_range; rewrite zlen_app; pose proof (zlen_nonneg (0 :: rest)); lia).
    change (Z.to_nat 0) with 0%nat. rewrite drop_0. by rewrite take_zlen_app. }
  destruct s as [sh|l].
  - destruct (Hsh eq_refl) as [Hfresh ->].
    destruct Hsmall as (h2 & s2 & Hown & Hh2 & Hbl);
      [destruct Hinv as (_ & ? & _); simpl in *; lia|simpl; lia|].
    exists h2, s2. split_and!; try done.
    intros _. rewrite Hbl. apply map_eq. intros q.
    destruct (decide (q = p)) as [->|Hne].
    + by rewrite lookup_delete_eq.
    + rewrite lookup_delete_ne by done. by apply Hother.
  - destruct (Hl eq_refl) as [-> Hq]. simpl in Hq. subst p.
    destruct (decide (ZSTR_SSO_CAP < l_cap l)) as [Hbig|Hnb].
    + unfold zstr_own. simpl. rewrite decide_False by lia.
      exists h, (Long l). destruct l. split_and!; done.
    + destruct Hsmall as (h2 & s2 & Hown & Hh2 & Hbl); [simpl in *; lia..|].
      exists h2, s2. split_and!; done.
Qed.

Lemma zstr_take_own_round_trip_witness :
  let c := bytes_of "hello" in
  ∃ h1 p, zstr_take heap_empty (sample_short c) = Some (h1, zstr_init, Some p) ∧
    ∃ h2 s2, zstr_own h1 p (zstr_len (sample_short c)) (zstr_cap (sample_short c))
               = Some (h2, s2) ∧
      zstr_holds h2 s2 c ∧
      (zstr_is_long (sample_short c) = false → blocks h2 = blocks heap_empty) ∧
      (ZSTR_SSO_CAP < zstr_cap (sample_short c) →
         h2 = heap_empty ∧ s2 = sample_short c).
Proof.
  intros c. apply (zstr_take_own_round_trip heap_empty (sample_short c) c).
  - holds_closed.
  - left. vm_compute. reflexivity.
  - intros _. vm_compute. exact I.
Defined.

#[local] Arguments zstr_cat : simpl never.

(** ** [zstr_join] *)

Lemma spec_join_cons x y rest delim :
  spec_join (x :: y :: rest) delim = x ++ delim ++ spec_join (y :: rest) delim.
Proof. done. Qed.

Lemma lookup_middle_zlen {A} (done todo : list A) x :
  (done ++ x :: todo) !! Z.to_nat (zlen done) = Some x.
Proof.
  unfold zlen. rewrite Nat2Z.id. rewrite lookup_app_r by lia.
  by rewrite Nat.sub_diag.
Qed.

Lemma join_total_spec delim : ∀ todo done total fuel,
  Forall (Forall (λ x, x ≠ 0)) todo → (length todo ≤ fuel)%nat →
  0 ≤ total → total + zlen (spec_join todo delim) < SIZE_MOD →
  zlen (done ++ todo) < SIZE_MOD →
  join_total fuel (done ++ todo) (zlen (done ++ todo)) (zlen delim)
             (zlen done) total
  = Some (total + zlen (spec_join todo delim)).
Proof.
  induction todo as [|x todo IH]; intros done total fuel Hnf Hfuel Ht Hsum Hcount.
  - rewrite app_nil_r. destruct fuel; simpl; rewrite decide_False by lia;
      f_equal; unfold zlen; simpl; lia.
  - apply Forall_cons in Hnf as [Hx Hnf].
    destruct fuel as [|fuel]; [simpl in Hfuel; lia|]. simpl in Hfuel.
    pose proof (zlen_nonneg done) as Hd0. pose proof (zlen_nonneg todo) as Ht0.
    pose proof (zlen_nonneg x) as Hx0. pose proof (zlen_nonneg delim) as Hdl0.
    assert (Hc : zlen (done ++ x :: todo) = zlen done + 1 + zlen todo).
    { rewrite zlen_app. unfold zlen. simpl. lia. }
    cbn [join_total]. rewrite decide_True by lia.
    rewrite lookup_middle_zlen. mstep.
    rewrite (c_strlen_nulfree x Hx). mstep.
    assert (Hnext : size_add (zlen done) 1 = zlen (done ++ [x])).
    { rewrite zlen_app. change (zlen [x]) with 1.
      apply size_add_small. lia. }
    assert (Hsub : size_sub (zlen (done ++ x :: todo)) 1 = zlen done + zlen todo).
    { unfold size_sub. rewrite to_size_t_small by lia. lia. }
    rewrite Hnext, Hsub.
    assert (Hlist : done ++ x :: todo = (done ++ [x]) ++ todo)
      by (by rewrite <- app_assoc).
    pose proof (λ t, IH (done ++ [x]) t fuel Hnf ltac:(lia)) as HIH.
    rewrite <- Hlist in HIH. clear IH Hlist.
    destruct todo as [|y todo].
    + rewrite decide_False by (unfold zlen; simpl; lia).
      simpl in Hsum. rewrite size_add_small by lia.
      rewrite HIH; try done; try lia.
      * f_equal. simpl. unfold zlen. simpl. lia.
      * simpl. unfold zlen at 2. simpl. lia.
    + rewrite decide_True by (unfold zlen at 3; simpl; lia).
      rewrite spec_join_cons, !zlen_app in Hsum.
      pose proof (zlen_nonneg (spec_join (y :: todo) delim)) as Hj0.
      rewrite (size_add_small total) by lia.
      rewrite size_add_small by lia.
      rewrite HIH; try done; try lia.
      f_equal. rewrite spec_join_cons, !zlen_app. lia.
Qed.

Lemma join_cat_spec delim B :
  Forall (λ x, x ≠ 0) delim → B + B < 2 ^ 62 →
  ∀ todo done h s acc fuel,
  Forall (Forall (λ x, x ≠ 0)) todo → (length todo ≤ fuel)%nat →
  zstr_holds h s acc → grants_all h → zstr_cap s ≤ B →
  2 * (zlen acc + zlen (spec_join todo delim)) ≤ B →
  zlen (done ++ todo) < SIZE_MOD →
  ∃ h' s', join_cat fuel h s (done ++ todo) (zlen (done ++ todo)) delim
                    (zlen done) = Some (h', s') ∧
    zstr_holds h' s' (acc ++ spec_join todo delim) ∧ heap_step h h' s s'.
Proof.
  intros Hdnf HB.
  induction todo as [|x todo IH];
    intros done h s acc fuel Hnf Hfuel Hh Hg Hcap Hsum Hcount.
  - rewrite !app_nil_r. exists h, s.
    split_and!; [|done|apply heap_step_refl].
    destruct fuel; simpl; by rewrite decide_False by lia.
  - apply Forall_cons in Hnf as [Hx Hnf].
    destruct fuel as [|fuel]; [simpl in Hfuel; lia|]. simpl in Hfuel.
    pose proof (zlen_nonneg done) as Hd0. pose proof (zlen_nonneg todo) as Ht0.
    pose proof (zlen_nonneg x) as Hx0. pose proof (zlen_nonneg delim) as Hdl0.
    pose proof (zlen_nonneg acc) as Ha0.
    pose proof (holds_len _ _ _ Hh) as Hlen.
    assert (Hc : zlen (done ++ x :: todo) = zlen done + 1 + zlen todo).
    { rewrite zlen_app. unfold zlen. simpl. lia. }
    cbn [join_cat]. rewrite decide_True by lia.
    rewrite lookup_middle_zlen. mstep.
    assert (Hnext : size_add (zlen done) 1 = zlen (done ++ [x])).
    { rewrite zlen_app. change (zlen [x]) with 1.
      apply size_add_small. lia. }
    assert (Hsub : size_sub (zlen (done ++ x :: todo)) 1 = zlen done + zlen todo).
    { unfold size_sub. rewrite to_size_t_small by lia. lia. }
    rewrite Hnext, Hsub.
    assert (Hlist : done ++ x :: todo = (done ++ [x]) ++ todo)
      by (by rewrite <- app_assoc).
    assert (Hxlen : zlen x ≤ zlen (spec_join (x :: todo) delim)).
    { destruct todo as [|z todo']; [simpl; lia|].
      rewrite spec_join_cons, !zlen_app.
      pose proof (zlen_nonneg (spec_join (z :: todo') delim)). lia. }
    destruct (zstr_cat_holds h s acc x Hh Hx)
      as (h1 & s1 & rc1 & Hcat1 & Hstep1 & _ & Hcap1 & _ & Hcase1); [lia|].
    destruct Hcase1 as [(-> & Hh1)|(_ & _ & _ & Hno)];
      [|destruct Hno; by apply grants_all_alloc_ok].
    rewrite Hcat1. mstep.
    pose proof (grants_all_step _ _ _ _ Hstep1 Hg) as Hg1.
    pose proof (λ h s acc, IH (done ++ [x]) h s acc fuel Hnf ltac:(lia)) as HIH.
    rewrite <- Hlist in HIH. clear IH Hlist.
    destruct todo as [|y todo].
    + rewrite decide_False by (unfold zlen; simpl; lia). mstep.
      destruct (HIH h1 s1 (acc ++ x))
        as (h' & s' & Hj & Hh' & Hstep'); try done.
      * lia.
      * rewrite zlen_app. simpl in *. unfold zlen at 3. simpl. lia.
      * exists h', s'. simpl in Hh'. rewrite app_nil_r in Hh'.
        split_and!; try done. by eapply heap_step_trans.
    + rewrite decide_True by (unfold zlen at 3; simpl; lia).
      rewrite spec_join_cons, !zlen_app in Hsum, Hxlen.
      pose proof (zlen_nonneg (spec_join (y :: todo) delim)) as Hj0.
      pose proof (holds_len _ _ _ Hh1) as Hlen1. rewrite zlen_app in Hlen1.
      destruct (zstr_cat_holds h1 s1 (acc ++ x) delim Hh1 Hdnf)
        as (h2 & s2 & rc2 & Hcat2 & Hstep2 & _ & Hcap2 & _ & Hcase2); [lia|].
      destruct Hcase2 as [(-> & Hh2)|(_ & _ & _ & Hno)];
        [|destruct Hno; by apply grants_all_alloc_ok].
      rewrite Hcat2. mstep.
      pose proof (grants_all_step _ _ _ _ Hstep2 Hg1) as Hg2.
      destruct (HIH h2 s2 ((acc ++ x) ++ delim))
        as (h' & s' & Hj & Hh' & Hstep'); try done.
      * lia.
      * rewrite !zlen_app. lia.
      * exists h', s'. rewrite spec_join_cons.
        rewrite <- !app_assoc in Hh'. split_and!; try done.
        eapply heap_step_trans; [exact Hstep1|].
        eapply heap_step_trans; [exact Hstep2|exact Hstep'].
Qed.

(** X12.  [zstr_join] of [count] C strings gives a well-formed value
    holding the strings separated by the delimiter (the empty value for
    [count = 0], no delimiter after the last string), when every
    allocation request is granted.  When the first reservation, of the
    exact final length, is refused the result is the empty value.
    Sizes are below 2^59. *)
Theorem zstr_join_separates (h : heap) (strings : list (list Z)) (delim : list Z) :
  Forall (Forall (λ x, x ≠ 0)) strings → Forall (λ x, x ≠ 0) delim →
  zlen strings < 2 ^ 59 → zlen (spec_join strings delim) < 2 ^ 59 →
  (grants_all h →
   ∃ h' s', zstr_join h strings (zlen strings) delim = Some (h', s') ∧
     zstr_holds h' s' (spec_join strings delim) ∧
     heap_step h h' zstr_init s') ∧
  (¬ alloc_ok h → ZSTR_SSO_CAP ≤ zlen (spec_join strings delim) →
   ∃ h', zstr_join h strings (zlen strings) delim = Some (h', zstr_init)).
Proof.
  intros Hnf Hdnf Hcount Hsum.
  pose proof (zlen_nonneg strings) as Hs0.
  pose proof (zlen_nonneg (spec_join strings delim)) as Hj0.
  assert (Htotal : join_total (Z.to_nat (zlen strings)) strings (zlen strings)
                     (zlen delim) 0 0 = Some (zlen (spec_join strings delim))).
  { pose proof (join_total_spec delim strings [] 0 (Z.to_nat (zlen strings))) as H.
    simpl in H. change (zlen (@nil (list Z))) with 0 in H.
    rewrite H; try done.
    - unfold zlen. lia.
    - unfold SIZE_MOD. lia.
    - unfold SIZE_MOD. lia. }
  split.
  - intros Hg. unfold zstr_join. case_decide as Hz.
    { destruct strings; [|unfold zlen in Hz; simpl in Hz; lia].
      exists h, zstr_init. split_and!; [done|apply zstr_init_holds|apply heap_step_refl]. }
    rewrite (c_strlen_nulfree delim Hdnf). mstep. rewrite Htotal. mstep.
    destruct (zstr_reserve_holds h zstr_init [] (zlen (spec_join strings delim))
                (zstr_init_holds h))
      as (h1 & s1 & rc & Hres & Hh1 & Hstep1 & _ & Hex & _ & Hcase);
      [unfold SIZE_MAX, SIZE_MOD; lia|].
    rewrite Hres. mstep.
    destruct Hcase as [(-> & _)|(_ & _ & _ & Hno)];
      [|destruct Hno; by apply grants_all_alloc_ok].
    rewrite decide_False by (unfold Z_OK; lia).
    pose proof (grants_all_step _ _ _ _ Hstep1 Hg) as Hg1.
    destruct (join_cat_spec delim
                (Z.max ZSTR_SSO_CAP (2 * zlen (spec_join strings delim)))
                Hdnf ltac:(unfold ZSTR_SSO_CAP; lia)
                strings [] h1 s1 [] (Z.to_nat (zlen strings)))
      as (h' & s' & Hj & Hh' & Hstep'); try done.
    + unfold zlen. lia.
    + change (zstr_cap zstr_init) with ZSTR_SSO_CAP in Hex. lia.
    + change (zlen []) with 0. lia.
    + simpl. unfold SIZE_MOD. lia.
    + simpl in Hj. exists h', s'. split_and!; try done.
      by eapply heap_step_trans.
  - intros Hno Hbig. unfold zstr_join.
    rewrite decide_False
      by (intros Hz; destruct strings; [unfold ZSTR_SSO_CAP, zlen in *; simpl in *; lia
                                       |unfold zlen in Hz; simpl in Hz; lia]).
    rewrite (c_strlen_nulfree delim Hdnf). mstep. rewrite Htotal. mstep.
    unfold zstr_reserve. rewrite decide_False by lia. simpl.
    rewrite (malloc_refused _ _ Hno). mstep.
    rewrite decide_True by done. by eexists.
Qed.

Lemma zstr_join_separates_witness :
  let strings := [bytes_of "alpha"; bytes_of "beta"; bytes_of "gamma and delta"] in
  let delim := bytes_of ", " in
  (grants_all heap_empty →
   ∃ h' s', zstr_join heap_empty strings (zlen strings) delim = Some (h', s') ∧
     zstr_holds h' s' (spec_join strings delim) ∧
     heap_step heap_empty h' zstr_init s') ∧
  (¬ alloc_ok heap_empty → ZSTR_SSO_CAP ≤ zlen (spec_join strings delim) →
   ∃ h', zstr_join heap_empty strings (zlen strings) delim = Some (h', zstr_init)).
Proof.
  intros strings delim.
  apply (zstr_join_separates heap_empty strings delim).
  - vm_compute. repeat constructor; discriminate.
  - vm_compute. repeat constructor; discriminate.
  - vm_compute. reflexivity.
  - vm_compute. reflexivity.
Defined.

(** ** Writes inside the content *)

(** A value keeps its invariant when its buffer is rewritten in place,
    as long as a terminator stands at the new length. *)
Lemma inv_transfer h s h' s' chars chars' n :
  zstr_inv h s → same_shape s s' →
  zstr_chars h s = Some chars → zstr_chars h' s' = Some chars' →
  length chars' = length chars →
  0 ≤ n ≤ zstr_len s → chars' !! Z.to_nat n = Some 0 →
  zstr_inv h' (set_len s' n).
Proof.
  intros Hinv Hs Hc Hc' Hl Hn Hterm.
  destruct s as [sh|l], s' as [sh'|l']; simpl in *; try done.
  - injection Hc as <-. injection Hc' as <-.
    destruct Hinv as (Hlen & Hr & _).
    assert (to_uint8 n = n) as ->
      by (unfold to_uint8; apply Z.mod_small; unfold ZSTR_SSO_CAP in *; lia).
    split_and!; try done; try lia; congruence.
  - subst l'. destruct Hinv as (blk & Hblk & Hr & Hcap & Hsz & _).
    assert (chars = blk) as -> by congruence.
    exists chars'. unfold zlen in *. split_and!; try done; lia.
Qed.

Lemma holds_buffer h s c :
  zstr_holds h s c →
  ∃ rest, zstr_chars h s = Some (c ++ 0 :: rest) ∧ zstr_len s = zlen c ∧
    (zstr_is_long s = false → length (c ++ 0 :: rest) = Z.to_nat ZSTR_SSO_CAP).
Proof.
  intros Hh.
  destruct (holds_chars _ _ _ Hh) as (chars & Hc & Hcont & Hlen & Hr & Hterm & Hsh).
  exists (drop (S (Z.to_nat (zstr_len s))) chars).
  assert (Heq : c ++ 0 :: drop (S (Z.to_nat (zstr_len s))) chars = chars).
  { rewrite <- Hcont. by apply take_drop_middle. }
  rewrite Heq. done.
Qed.

(** Overwriting a part of the content. *)
Lemma write_holds h s pre mid post src :
  zstr_holds h s (pre ++ mid ++ post) → length src = length mid →
  ∃ h' s', data_write h s (zlen pre) src = Some (h', s') ∧
    zstr_holds h' s' (pre ++ src ++ post) ∧
    same_shape s s' ∧ heap_frame h h' s.
Proof.
  intros Hh Hl. pose proof Hh as [Hinv _].
  destruct (holds_buffer _ _ _ Hh) as (rest & Hc & Hlen & Hsh).
  assert (Hw : buf_write ((pre ++ mid ++ post) ++ 0 :: rest) (zlen pre) src
               = Some ((pre ++ src ++ post) ++ 0 :: rest)).
  { rewrite <- !app_assoc. by apply buf_write_decomp. }
  destruct (data_write_chars h s (zlen pre) src _ Hc Hsh)
    as (buf' & h' & s' & Hw' & Hd & Hc' & Hs & Hf).
  { by destruct (buf_write_inv _ _ _ _ Hw). }
  rewrite Hw in Hw'. injection Hw' as <-.
  exists h', s'. split_and!; try done.
  assert (Hz : zlen (pre ++ src ++ post) = zlen (pre ++ mid ++ post)).
  { rewrite !zlen_app. unfold zlen. lia. }
  assert (Hset : set_len s' (zstr_len s) = s').
  { rewrite <- (same_shape_len _ _ Hs).
    destruct s' as [sh'|l']; simpl.
    - destruct s as [sh|?]; [|done]. simpl in *.
      destruct Hinv as (_ & ? & _).
      unfold to_uint8. rewrite Z.mod_small by (unfold ZSTR_SSO_CAP in *; lia).
      by destruct sh'.
    - by destruct l'. }
  assert (Hinv' : zstr_inv h' s').
  { rewrite <- Hset.
    apply (inv_transfer h s h' s' _ _ (zstr_len s) Hinv Hs Hc Hc').
    - unfold zlen in Hz. rewrite !(length_app _ (0 :: rest)). lia.
    - destruct (zstr_inv_bounds _ _ Hinv). lia.
    - rewrite Hlen, <- Hz. unfold zlen. rewrite Nat2Z.id.
      rewrite lookup_app_r by lia. by rewrite Nat.sub_diag. }
  apply (holds_intro _ _ _ _ Hinv' Hc').
  rewrite (same_shape_len _ _ Hs), Hlen, <- Hz. apply take_zlen_app.
Qed.

Lemma buffer_load h s c i x :
  zstr_holds h s c → c !! i = Some x →
  ∃ obj, data_buffer h s = Some obj ∧ buf_load obj (Z.of_nat i) = Some x.
Proof.
  intros [Hinv Hb] Hi.
  destruct (data_buffer_content h s c Hinv Hb) as (rest & Hobj & _).
  eexists. split; [done|]. unfold buf_load. rewrite decide_True by lia.
  rewrite Nat2Z.id. rewrite lookup_app_l; [done|]. by apply lookup_lt_Some in Hi.
Qed.

(** ** Case conversion *)

Lemma map_in_place_spec f : ∀ todo done h s fuel len,
  zstr_holds h s (done ++ todo) → (length todo ≤ fuel)%nat →
  len = zlen (done ++ todo) → len < SIZE_MOD →
  ∃ h' s', map_in_place f fuel h s len (zlen done) = Some (h', s') ∧
    zstr_holds h' s' (done ++ (f <$> todo)) ∧
    same_shape s s' ∧ heap_frame h h' s.
Proof.
  induction todo as [|x todo IH]; intros done h s fuel len Hh Hfuel Hlen Hmax.
  - exists h, s. rewrite app_nil_r in *. subst len.
    split_and!; [|done|apply same_shape_refl|apply heap_frame_refl].
    destruct fuel; simpl; by rewrite decide_False by lia.
  - destruct fuel as [|fuel]; [simpl in Hfuel; lia|]. simpl in Hfuel.
    pose proof (zlen_nonneg done) as Hd0. pose proof (zlen_nonneg todo) as Ht0.
    assert (Hc : zlen (done ++ x :: todo) = zlen done + 1 + zlen todo).
    { rewrite zlen_app. unfold zlen. simpl. lia. }
    cbn [map_in_place]. rewrite decide_True by lia.
    destruct (buffer_load h s _ (length done) x Hh) as (obj & Hobj & Hld).
    { rewrite lookup_app_r by lia. by rewrite Nat.sub_diag. }
    rewrite Hobj. mstep. fold (zlen done) in Hld. rewrite Hld. mstep.
    destruct (write_holds h s done [x] todo [f x] Hh eq_refl)
      as (h1 & s1 & Hw & Hh1 & Hs1 & Hf1).
    rewrite Hw. mstep.
    assert (Hnext : size_add (zlen done) 1 = zlen (done ++ [f x])).
    { rewrite zlen_app. change (zlen [f x]) with 1.
      apply size_add_small. lia. }
    rewrite Hnext.
    destruct (IH (done ++ [f x]) h1 s1 fuel len) as (h' & s' & Hm & Hh' & Hs' & Hf').
    + by rewrite <- app_assoc.
    + lia.
    + rewrite <- app_assoc. simpl. rewrite Hlen, !zlen_app. unfold zlen. simpl. lia.
    + done.
    + exists h', s'. rewrite <- app_assoc in Hh'. split_and!; try done.
      * by eapply same_shape_trans.
      * by eapply heap_frame_trans.
Qed.

(** X13.  [zstr_to_lower] and [zstr_to_upper] replace every byte of the
    value by its image under [tolower] / [toupper] (ASCII letters only:
    every other byte, NUL and bytes above 0x7F included, is kept), in
    place: length, form, capacity and pointer are kept and no block is
    allocated or freed. *)
Theorem zstr_case_maps (h : heap) (s : zstr) (c : list Z) :
  zstr_holds h s c → zlen c < SIZE_MOD →
  (∃ h' s', zstr_to_lower h s = Some (h', s') ∧
     zstr_holds h' s' (c_tolower <$> c) ∧ same_shape s s' ∧ heap_frame h h' s) ∧
  (∃ h' s', zstr_to_upper h s = Some (h', s') ∧
     zstr_holds h' s' (c_toupper <$> c) ∧ same_shape s s' ∧ heap_frame h h' s).
Proof.
  intros Hh Hmax. pose proof (holds_len _ _ _ Hh) as Hlen.
  unfold zstr_to_lower, zstr_to_upper. rewrite Hlen.
  split.
  - apply (map_in_place_spec c_tolower c [] h s); try done. unfold zlen. lia.
  - apply (map_in_place_spec c_toupper c [] h s); try done. unfold zlen. lia.
Qed.

Lemma zstr_case_maps_witness :
  let c := bytes_of "Hello, World 42!" in
  let s := sample_short c in
  (∃ h' s', zstr_to_lower heap_empty s = Some (h', s') ∧
     zstr_holds h' s' (c_tolower <$> c) ∧ same_shape s s' ∧
     heap_frame heap_empty h' s) ∧
  (∃ h' s', zstr_to_upper heap_empty s = Some (h', s') ∧
     zstr_holds h' s' (c_toupper <$> c) ∧ same_shape s s' ∧
     heap_frame heap_empty h' s).
Proof.
  intros c s. apply (zstr_case_maps heap_empty s c).
  - holds_closed.
  - vm_compute. reflexivity.
Defined.

(** ** Comparison *)

Lemma holds_data_buffer h s c :
  zstr_holds h s c →
  ∃ rest, data_buffer h s = Some (c ++ 0 :: rest) ∧ zstr_len s = zlen c.
Proof. intros [Hinv Hb]. by apply data_buffer_content. Qed.

Lemma buf_read_prefix c rest :
  buf_read (c ++ rest) 0 (zlen c) = Some c.
Proof.
  rewrite buf_read_Some
    by (unfold in_range; rewrite zlen_app;
        pose proof (zlen_nonneg c); pose proof (zlen_nonneg rest); lia).
  change (Z.to_nat 0) with 0%nat. rewrite drop_0. by rewrite take_zlen_app.
Qed.

Lemma zstr_eq_holds (h : heap) (a b : zstr) (ca cb : list Z) :
  zstr_holds h a ca → zstr_holds h b cb →
  zstr_eq h a b = Some (bool_decide (ca = cb)).
Proof.
  intros Ha Hb.
  destruct (holds_data_buffer _ _ _ Ha) as (ra & Hoa & Hla).
  destruct (holds_data_buffer _ _ _ Hb) as (rb & Hob & Hlb).
  unfold zstr_eq. rewrite Hla, Hlb. case_decide as Hne.
  - f_equal. symmetry. apply bool_decide_eq_false. congruence.
  - rewrite Hoa, Hob. mstep. unfold memcmp_eq.
    rewrite buf_read_prefix. mstep.
    assert (zlen ca = zlen cb) as -> by (destruct (decide (zlen ca = zlen cb)); done).
    rewrite buf_read_prefix. done.
Qed.

(** X14.  [zstr_eq] is equality of the bytes of the two values, NUL
    bytes included, whatever their forms; in particular it is
    symmetric, and a value equals itself. *)
Theorem zstr_eq_bytes (h : heap) (a b : zstr) (ca cb : list Z) :
  zstr_holds h a ca → zstr_holds h b cb →
  zstr_eq h a b = Some (bool_decide (ca = cb)) ∧
  zstr_eq h b a = zstr_eq h a b ∧
  zstr_eq h a a = Some true.
Proof.
  intros Ha Hb.
  rewrite (zstr_eq_holds h a b ca cb Ha Hb), (zstr_eq_holds h b a cb ca Hb Ha),
    (zstr_eq_holds h a a ca ca Ha Ha).
  split_and!; [done| |by rewrite bool_decide_eq_true_2].
  f_equal. apply bool_decide_ext. split; congruence.
Qed.

Lemma zstr_eq_bytes_witness :
  let ca := abc23 in
  let cb := bytes_of "hello" in
  let h := sample_heap ca in
  zstr_eq h (sample_long ca) (sample_short cb) = Some (bool_decide (ca = cb)) ∧
  zstr_eq h (sample_short cb) (sample_long ca)
  = zstr_eq h (sample_long ca) (sample_short cb) ∧
  zstr_eq h (sample_long ca) (sample_long ca) = Some true.
Proof.
  intros ca cb h.
  apply (zstr_eq_bytes h (sample_long ca) (sample_short cb) ca cb); holds_closed.
Defined.

Lemma eq_ignore_case_from_spec r1 r2 : ∀ t1 t2 d1 d2 fuel len,
  length t1 = length t2 → length d1 = length d2 →
  (length t1 ≤ fuel)%nat → len = zlen (d1 ++ t1) → len < SIZE_MOD →
  eq_ignore_case_from fuel ((d1 ++ t1) ++ r1) ((d2 ++ t2) ++ r2) len (zlen d1)
  = Some (bool_decide (c_tolower <$> t1 = c_tolower <$> t2)).
Proof.
  induction t1 as [|x t1 IH]; intros t2 d1 d2 fuel len Ht Hd Hfuel Hlen Hmax.
  - destruct t2; [|done]. rewrite app_nil_r in Hlen. subst len.
    destruct fuel; simpl; by rewrite decide_False by lia.
  - destruct t2 as [|y t2]; [done|]. simpl in Ht.
    destruct fuel as [|fuel]; [simpl in Hfuel; lia|]. simpl in Hfuel.
    pose proof (zlen_nonneg d1) as Hd0. pose proof (zlen_nonneg t1) as Ht0.
    assert (Hc : zlen (d1 ++ x :: t1) = zlen d1 + 1 + zlen t1).
    { rewrite zlen_app. unfold zlen. simpl. lia. }
    cbn [eq_ignore_case_from]. rewrite decide_True by lia.
    assert (H1 : buf_load ((d1 ++ x :: t1) ++ r1) (zlen d1) = Some x).
    { unfold buf_load. rewrite decide_True by lia.
      rewrite <- app_assoc, <- app_comm_cons. apply lookup_middle_zlen. }
    assert (H2 : buf_load ((d2 ++ y :: t2) ++ r2) (zlen d1) = Some y).
    { unfold buf_load. rewrite decide_True by lia.
      replace (zlen d1) with (zlen d2) by (unfold zlen; lia).
      rewrite <- app_assoc, <- app_comm_cons. apply lookup_middle_zlen. }
    rewrite H1, H2. mstep.
    case_decide as Hxy.
    + f_equal. symmetry. apply bool_decide_eq_false. rewrite !fmap_cons.
      congruence.
    + assert (Hnext : size_add (zlen d1) 1 = zlen (d1 ++ [x])).
      { rewrite zlen_app. change (zlen [x]) with 1. apply size_add_small. lia. }
      rewrite Hnext.
      pose proof (IH t2 (d1 ++ [x]) (d2 ++ [y]) fuel len) as H.
      assert (E1 : (d1 ++ [x]) ++ t1 = d1 ++ x :: t1) by by rewrite <- app_assoc.
      assert (E2 : (d2 ++ [y]) ++ t2 = d2 ++ y :: t2) by by rewrite <- app_assoc.
      rewrite E1, E2 in H.
      rewrite H;
        [|first [lia|rewrite !length_app; simpl; lia
                |rewrite Hlen, !zlen_app; unfold zlen; simpl; lia]..].
      assert (Hxy' : c_tolower x = c_tolower y)
        by (destruct (decide (c_tolower x = c_tolower y)); done).
      f_equal. apply bool_decide_ext. rewrite !fmap_cons, Hxy'.
      split; [congruence|]. intros [= ?]. done.
Qed.

(** X15.  [zstr_eq_ignore_case] is equality of the bytes after
    [tolower] on each: values of different lengths are different, and
    only the ASCII letters are folded. *)
Theorem zstr_eq_ignore_case_folds (h : heap) (a b : zstr) (ca cb : list Z) :
  zstr_holds h a ca → zstr_holds h b cb → zlen ca < SIZE_MOD →
  zstr_eq_ignore_case h a b
  = Some (bool_decide (c_tolower <$> ca = c_tolower <$> cb)).
Proof.
  intros Ha Hb Hmax.
  destruct (holds_data_buffer _ _ _ Ha) as (ra & Hoa & Hla).
  destruct (holds_data_buffer _ _ _ Hb) as (rb & Hob & Hlb).
  unfold zstr_eq_ignore_case. rewrite Hla, Hlb. case_decide as Hne.
  - f_equal. symmetry. apply bool_decide_eq_false. intros Heq.
    apply (f_equal length) in Heq. rewrite !length_fmap in Heq.
    unfold zlen in Hne. lia.
  - rewrite Hoa, Hob. mstep.
    assert (Heq : zlen ca = zlen cb)
      by (destruct (decide (zlen ca = zlen cb)); done).
    apply (eq_ignore_case_from_spec _ _ ca cb [] []); try done.
    + unfold zlen in Heq. lia.
    + unfold zlen. lia.
Qed.

Lemma zstr_eq_ignore_case_folds_witness :
  let ca := bytes_of "Hello, World" in
  let cb := bytes_of "hELLO, wORLD" in
  zstr_eq_ignore_case heap_empty (sample_short ca) (sample_short cb)
  = Some (bool_decide (c_tolower <$> ca = c_tolower <$> cb)).
Proof.
  intros ca cb.
  apply (zstr_eq_ignore_case_folds heap_empty (sample_short ca) (sample_short cb) ca cb).
  - holds_closed.
  - holds_closed.
  - vm_compute. reflexivity.
Defined.

(** ** [zstr_cmp] *)

Lemma buf_load_middle pre x post :
  buf_load (pre ++ x :: post) (zlen pre) = Some x.
Proof.
  unfold buf_load. rewrite decide_True by apply zlen_nonneg.
  apply lookup_middle_zlen.
Qed.

Lemma zlen_snoc {A} (l : list A) x : zlen (l ++ [x]) = zlen l + 1.
Proof. rewrite zlen_app. done. Qed.

Lemma spec_cstr_length c : (length (spec_cstr c) ≤ length c)%nat.
Proof.
  induction c as [|x c IH]; simpl; [done|]. case_decide; simpl; lia.
Qed.

Lemma spec_cstr_nulfree c : Forall (λ x, x ≠ 0) c → spec_cstr c = c.
Proof.
  induction 1 as [|x c Hx _ IH]; simpl; [done|].
  rewrite decide_False by done. by rewrite IH.
Qed.

Lemma c_strcmp_spec ra rb : ∀ ca cb pa pb fuel,
  Forall (λ x, 0 ≤ x) ca → Forall (λ x, 0 ≤ x) cb →
  (length (spec_cstr ca) < fuel)%nat →
  c_strcmp fuel (pa ++ ca ++ 0 :: ra) (zlen pa) (pb ++ cb ++ 0 :: rb) (zlen pb)
  = Some (spec_lex (spec_cstr ca) (spec_cstr cb)).
Proof.
  induction ca as [|x ca IH]; intros cb pb' pb fuel Ha Hb Hfuel.
  - destruct fuel as [|fuel]; [lia|]. cbn [c_strcmp].
    change ([] ++ 0 :: ra) with (0 :: ra). rewrite buf_load_middle. mstep.
    destruct cb as [|y cb].
    + change ([] ++ 0 :: rb) with (0 :: rb). rewrite buf_load_middle. mstep. done.
    + rewrite <- app_comm_cons, buf_load_middle. mstep.
      apply Forall_cons in Hb as [Hy _]. simpl.
      destruct (decide (y = 0)) as [->|Hy0]; [done|].
      rewrite decide_True by lia. rewrite decide_True by lia. done.
  - apply Forall_cons in Ha as [Hx Ha].
    destruct fuel as [|fuel]; [lia|]. cbn [c_strcmp].
    rewrite <- app_comm_cons, buf_load_middle. mstep.
    assert (Hy : ∃ y cb', cb ++ 0 :: rb = y :: cb' ∧ 0 ≤ y ∧
              spec_cstr cb = (if decide (y = 0) then [] else y :: spec_cstr (tail cb)) ∧
              (y ≠ 0 → ∃ cbt, cb = y :: cbt ∧ cb' = cbt ++ 0 :: rb)).
    { destruct cb as [|y cb].
      - exists 0, rb. split_and!; try done.
      - apply Forall_cons in Hb as [Hy _].
        exists y, (cb ++ 0 :: rb). split_and!; try done.
        intros _. by exists cb. }
    destruct Hy as (y & cb' & Hcb & Hy0 & Hspec & Hrest).
    rewrite Hcb, buf_load_middle. mstep. rewrite Hspec.
    simpl in Hfuel. simpl.
    destruct (decide (x = 0)) as [->|Hx0].
    + destruct (decide (y = 0)) as [->|Hyn]; [done|].
      rewrite decide_True by lia. rewrite decide_True by lia. done.
    + simpl in Hfuel. destruct (decide (y = 0)) as [->|Hyn].
      * rewrite decide_True by done. rewrite decide_False by lia. done.
      * destruct (Hrest Hyn) as (cbt & -> & ->). simpl.
        apply Forall_cons in Hb as [_ Hb].
        destruct (decide (x ≠ y)) as [Hne|He].
        -- destruct (decide (x < y)); [done|]. rewrite decide_True by lia. done.
        -- assert (x = y) as <- by (destruct (decide (x = y)); done).
           rewrite !(decide_False (P := x < x)) by lia.
           pose proof (IH cbt (pb' ++ [x]) (pb ++ [x]) fuel Ha Hb) as H.
           rewrite !zlen_snoc, <- !app_assoc in H. simpl in H.
           apply H. lia.
Qed.

(** X16.  [zstr_cmp] compares, byte by byte as unsigned values, what
    each value holds before its first NUL byte, and returns the sign of
    the lexicographic order.  On values without NUL bytes it is 0
    exactly when [zstr_eq] is true; bytes after a NUL take no part in
    the comparison. *)
Theorem zstr_cmp_lex (h : heap) (a b : zstr) (ca cb : list Z) :
  zstr_holds h a ca → zstr_holds h b cb →
  Forall (λ x, 0 ≤ x) ca → Forall (λ x, 0 ≤ x) cb →
  zstr_cmp h a b = Some (spec_lex (spec_cstr ca) (spec_cstr cb)) ∧
  (Forall (λ x, x ≠ 0) ca → Forall (λ x, x ≠ 0) cb →
   (zstr_cmp h a b = Some 0 ↔ zstr_eq h a b = Some true)).
Proof.
  intros Ha Hb Hpa Hpb.
  destruct (holds_data_buffer _ _ _ Ha) as (ra & Hoa & Hla).
  destruct (holds_data_buffer _ _ _ Hb) as (rb & Hob & Hlb).
  assert (Hcmp : zstr_cmp h a b = Some (spec_lex (spec_cstr ca) (spec_cstr cb))).
  { unfold zstr_cmp. rewrite Hoa, Hob. mstep.
    apply (c_strcmp_spec ra rb ca cb [] []); try done.
    pose proof (spec_cstr_length ca). rewrite length_app. lia. }
  split; [done|]. intros Hna Hnb.
  rewrite Hcmp, (zstr_eq_holds h a b ca cb Ha Hb).
  rewrite (spec_cstr_nulfree _ Hna), (spec_cstr_nulfree _ Hnb).
  assert (Hlex : ∀ x y : list Z, spec_lex x y = 0 ↔ x = y).
  { induction x as [|u x IH]; intros [|v y]; simpl; try done.
    destruct (decide (u < v)); [split; [done|intros [= -> _]; lia]|].
    destruct (decide (v < u)); [split; [done|intros [= -> _]; lia]|].
    rewrite IH. split; [intros ->; f_equal; lia|by intros [= _ ->]]. }
  split.
  - intros [= H0]. apply Hlex in H0. subst. by rewrite bool_decide_eq_true_2.
  - intros [= H0]. apply bool_decide_eq_true in H0. f_equal. by apply Hlex.
Qed.

Lemma zstr_cmp_lex_witness :
  let ca := bytes_of "apple" in
  let cb := bytes_of "apricot" in
  zstr_cmp heap_empty (sample_short ca) (sample_short cb)
    = Some (spec_lex (spec_cstr ca) (spec_cstr cb)) ∧
  (Forall (λ x, x ≠ 0) ca → Forall (λ x, x ≠ 0) cb →
   (zstr_cmp heap_empty (sample_short ca) (sample_short cb) = Some 0 ↔
    zstr_eq heap_empty (sample_short ca) (sample_short cb) = Some true)).
Proof.
  intros ca cb.
  apply (zstr_cmp_lex heap_empty (sample_short ca) (sample_short cb) ca cb).
  - holds_closed.
  - holds_closed.
  - vm_compute. repeat constructor; discriminate.
  - vm_compute. repeat constructor; discriminate.
Defined.

(** ** Search *)

Lemma until_nul_spec_cstr c rest :
  until_nul (c ++ 0 :: rest) = Some (spec_cstr c).
Proof.
  induction c as [|x c IH]; simpl.
  - done.
  - case_decide; [done|]. by rewrite IH.
Qed.

Lemma find_sub_first hay t (i : nat) :
  find_sub hay t = Some i →
  ∀ j, (j < i)%nat → ¬ t `prefix_of` drop j hay.
Proof.
  revert i. induction hay as [|c hay IH]; intros i; simpl.
  - case_decide; [|done]. intros [= <-] j Hj. lia.
  - case_decide as Hp.
    + intros [= <-] j Hj. lia.
    + destruct (find_sub hay t) as [k|] eqn:Hk; [|done].
      intros [= <-] j Hj. destruct j as [|j]; [done|].
      simpl. apply (IH k eq_refl). lia.
Qed.

Lemma find_sub_None hay t :
  find_sub hay t = None → ∀ j, ¬ t `prefix_of` drop j hay.
Proof.
  induction hay as [|c hay IH]; simpl.
  - case_decide as Hp; [done|]. intros _ j. by rewrite drop_nil.
  - case_decide as Hp; [done|].
    destruct (find_sub hay t) as [k|] eqn:Hk; [done|].
    intros _ [|j]; [done|]. simpl. by apply IH.
Qed.

Lemma find_sub_nil hay : find_sub hay [] = Some 0%nat.
Proof.
  destruct hay; simpl; first [done|by rewrite decide_True by apply prefix_nil].
Qed.

(** X17.  [zstr_find] returns the offset of the first occurrence of the
    needle in what the value holds before its first NUL byte, and -1
    when there is none; the empty needle is found at offset 0.
    [zstr_contains] is true exactly when [zstr_find] is not -1. *)
Theorem zstr_find_first (h : heap) (s : zstr) (c needle : list Z) :
  zstr_holds h s c →
  ∃ r, zstr_find h s needle = Some r ∧
    zstr_contains h s needle = Some (bool_decide (r ≠ -1)) ∧
    (r = -1 ∨ 0 ≤ r) ∧
    (r = -1 → ∀ j, ¬ needle `prefix_of` drop j (spec_cstr c)) ∧
    (0 ≤ r →
       needle `prefix_of` drop (Z.to_nat r) (spec_cstr c) ∧
       r + zlen needle ≤ zlen c ∧
       ∀ j, (j < Z.to_nat r)%nat → ¬ needle `prefix_of` drop j (spec_cstr c)) ∧
    (needle = [] → r = 0).
Proof.
  intros Hh. destruct (holds_data_buffer _ _ _ Hh) as (rest & Hobj & Hlen).
  assert (Hstr : c_strstr (c ++ 0 :: rest) 0 needle
                 = Some ((λ i : nat, 0 + Z.of_nat i) <$> find_sub (spec_cstr c) needle)).
  { unfold c_strstr, cstr_at.
    rewrite decide_True by (pose proof (zlen_nonneg (c ++ 0 :: rest)); lia).
    change (Z.to_nat 0) with 0%nat. rewrite drop_0.
    by rewrite until_nul_spec_cstr. }
  unfold zstr_contains, zstr_find. rewrite Hobj. mstep. rewrite Hstr. mstep.
  destruct (find_sub (spec_cstr c) needle) as [i|] eqn:Hf; simpl.
  - exists (Z.of_nat i). rewrite Z.sub_0_r.
    destruct (find_sub_Some _ _ _ Hf) as [Hle Hpre].
    pose proof (find_sub_first _ _ _ Hf) as Hfirst.
    pose proof (spec_cstr_length c) as Hcl.
    split_and!; try done.
    + right. lia.
    + lia.
    + intros _. rewrite Nat2Z.id. split_and!; try done. unfold zlen. lia.
    + intros ->. rewrite find_sub_nil in Hf. by injection Hf as <-.
  - exists (-1). split_and!; try done.
    + by left.
    + intros _. by apply find_sub_None.
    + intros ->. by rewrite find_sub_nil in Hf.
Qed.

Lemma zstr_find_first_witness :
  let c := bytes_of "the cat sat on the mat" in
  let needle := bytes_of "at" in
  ∃ r, zstr_find heap_empty (sample_short c) needle = Some r ∧
    zstr_contains heap_empty (sample_short c) needle = Some (bool_decide (r ≠ -1)) ∧
    (r = -1 ∨ 0 ≤ r) ∧
    (r = -1 → ∀ j, ¬ needle `prefix_of` drop j (spec_cstr c)) ∧
    (0 ≤ r →
       needle `prefix_of` drop (Z.to_nat r) (spec_cstr c) ∧
       r + zlen needle ≤ zlen c ∧
       ∀ j, (j < Z.to_nat r)%nat → ¬ needle `prefix_of` drop j (spec_cstr c)) ∧
    (needle = [] → r = 0).
Proof.
  intros c needle.
  apply (zstr_find_first heap_empty (sample_short c) c needle).
  holds_closed.
Defined.

(** ** White space at the ends *)

Lemma lstrip_decomp c :
  ∃ ws, c = ws ++ spec_lstrip c ∧ Forall (λ x, c_isspace x = true) ws ∧
    match spec_lstrip c with y :: _ => c_isspace y = false | [] => True end.
Proof.
  induction c as [|x c (ws & Heq & Hws & Hhd)]; simpl.
  - by exists [].
  - destruct (c_isspace x) eqn:Hx.
    + exists (x :: ws). split_and!; [by rewrite <- app_comm_cons, <- Heq| |done].
      by constructor.
    + exists []. by rewrite Hx.
Qed.

Lemma rstrip_decomp c :
  ∃ w, c = spec_rstrip c ++ w ∧ Forall (λ x, c_isspace x = true) w ∧
    (spec_rstrip c = [] ∨
     ∃ r y, spec_rstrip c = r ++ [y] ∧ c_isspace y = false).
Proof.
  destruct (lstrip_decomp (reverse c)) as (ws & Heq & Hws & Hhd).
  exists (reverse ws). unfold spec_rstrip. split_and!.
  - rewrite <- reverse_app, <- Heq. by rewrite reverse_involutive.
  - by apply Forall_reverse.
  - destruct (spec_lstrip (reverse c)) as [|y t]; [by left|right].
    exists (reverse t), y. by rewrite reverse_cons.
Qed.

(** ** [zstr_trim] *)

Lemma holds_set_len_same h s c : zstr_holds h s c → set_len s (zlen c) = s.
Proof.
  intros Hh. pose proof (holds_len _ _ _ Hh) as Hlen. rewrite <- Hlen.
  destruct Hh as [Hinv _]. destruct s as [sh|l]; simpl in *.
  - destruct Hinv as (_ & ? & _).
    unfold to_uint8. rewrite Z.mod_small by (unfold ZSTR_SSO_CAP in *; lia).
    by destruct sh.
  - by destruct l.
Qed.

(** Cutting the content at a NUL byte. *)
Lemma holds_truncate h s pre post :
  zstr_holds h s (pre ++ 0 :: post) →
  zstr_holds h (set_len s (zlen pre)) pre.
Proof.
  intros Hh. pose proof Hh as [Hinv _].
  destruct (holds_buffer _ _ _ Hh) as (rest & Hc & Hlen & Hsh).
  pose proof (zlen_nonneg pre) as H0. pose proof (zlen_nonneg post) as H1.
  assert (Hz : zlen (pre ++ 0 :: post) = zlen pre + 1 + zlen post).
  { rewrite zlen_app. unfold zlen. simpl. lia. }
  assert (Hinv' : zstr_inv h (set_len s (zlen pre))).
  { apply (inv_transfer h s h s _ _ (zlen pre) Hinv (same_shape_refl s) Hc Hc);
      [done|lia|].
    rewrite <- app_assoc, <- app_comm_cons. apply lookup_middle_zlen. }
  apply (holds_intro _ _ ((pre ++ 0 :: post) ++ 0 :: rest) _ Hinv').
  - by rewrite zstr_chars_set_len.
  - rewrite set_len_len.
    + rewrite <- app_assoc. apply take_zlen_app.
    + destruct s as [sh|l]; [left|by right]. simpl in *.
      destruct Hinv as (_ & ? & _). lia.
Qed.

Lemma trim_right_spec : ∀ w r z h s fuel,
  zstr_holds h s (r ++ w ++ z) →
  Forall (λ x, c_isspace x = true) w →
  (r = [] ∨ ∃ r' y, r = r' ++ [y] ∧ c_isspace y = false) →
  (length w ≤ fuel)%nat →
  ∃ h' s', trim_right fuel h s (zlen (r ++ w) - 1) = Some (h', s', zlen r - 1) ∧
    zstr_holds h' s' (r ++ replicate (length w) 0 ++ z) ∧
    same_shape s s' ∧ heap_frame h h' s.
Proof.
  induction w as [|x w IH] using rev_ind; intros r z h s fuel Hh Hw Hr Hfuel.
  - rewrite app_nil_r. exists h, s.
    split_and!; [|done|apply same_shape_refl|apply heap_frame_refl].
    destruct Hr as [->|(r' & y & -> & Hy)].
    + change (zlen [] - 1) with (-1). by destruct fuel.
    + rewrite zlen_snoc. replace (zlen r' + 1 - 1) with (zlen r') by lia.
      destruct (buffer_load h s _ (length r') y Hh) as (obj & Hobj & Hld).
      { rewrite <- !app_assoc. apply list_lookup_middle. done. }
      fold (zlen r') in Hld.
      destruct fuel; simpl; rewrite decide_True by apply zlen_nonneg;
        rewrite Hobj; mstep; rewrite Hld; mstep; by rewrite Hy.
  - apply Forall_app in Hw as [Hw Hx]. rewrite Forall_singleton in Hx.
    cbv beta in Hx.
    rewrite length_app in Hfuel. simpl in Hfuel.
    destruct fuel as [|fuel]; [lia|].
    rewrite app_assoc, zlen_snoc.
    replace (zlen (r ++ w) + 1 - 1) with (zlen (r ++ w)) by lia.
    assert (Hh0 : zstr_holds h s ((r ++ w) ++ [x] ++ z)).
    { by rewrite <- !app_assoc in *. }
    destruct (buffer_load h s _ (length (r ++ w)) x Hh0) as (obj & Hobj & Hld).
    { apply list_lookup_middle. done. }
    fold (zlen (r ++ w)) in Hld.
    cbn [trim_right]. rewrite decide_True by apply zlen_nonneg.
    rewrite Hobj. mstep. rewrite Hld. mstep. rewrite Hx.
    destruct (write_holds h s (r ++ w) [x] z [0] Hh0 eq_refl)
      as (h1 & s1 & Hwr & Hh1 & Hs1 & Hf1).
    rewrite Hwr. mstep.
    destruct (IH r (0 :: z) h1 s1 fuel) as (h' & s' & Htr & Hh' & Hs' & Hf');
      [by rewrite <- app_assoc in Hh1|done|done|lia|].
    rewrite Htr. exists h', s'. split_and!; try done.
    + rewrite length_app. simpl. rewrite replicate_add. simpl.
      by rewrite <- !app_assoc.
    + by eapply same_shape_trans.
    + by eapply heap_frame_trans.
Qed.

Lemma trim_left_spec rest : ∀ ws pre t fuel,
  Forall (λ x, c_isspace x = true) ws →
  match t with y :: _ => c_isspace y = false | [] => ws = [] end →
  (length ws ≤ fuel)%nat →
  trim_left fuel (pre ++ ws ++ t ++ rest) (zlen pre) (zlen (pre ++ ws ++ t) - 1)
  = Some (zlen (pre ++ ws)).
Proof.
  induction ws as [|x ws IH]; intros pre t fuel Hws Ht Hfuel.
  - rewrite app_nil_r. simpl app. destruct t as [|y t].
    + rewrite app_nil_r. destruct fuel; simpl; by rewrite decide_False by lia.
    + assert (Hle : zlen pre ≤ zlen (pre ++ y :: t) - 1).
      { rewrite zlen_app. unfold zlen. simpl. lia. }
      destruct fuel; simpl; rewrite decide_True by done;
        rewrite buf_load_middle; mstep; by rewrite Ht.
  - apply Forall_cons in Hws as [Hx Hws]. cbv beta in Hx.
    destruct t as [|y t]; [done|].
    destruct fuel as [|fuel]; [simpl in Hfuel; lia|]. simpl in Hfuel.
    assert (Hle : zlen pre ≤ zlen (pre ++ (x :: ws) ++ y :: t) - 1).
    { rewrite !zlen_app. unfold zlen. simpl. lia. }
    cbn [trim_left]. rewrite decide_True by done.
    rewrite <- !app_comm_cons, buf_load_middle. mstep. rewrite Hx.
    pose proof (IH (pre ++ [x]) (y :: t) fuel Hws Ht ltac:(lia)) as H.
    rewrite zlen_snoc, <- !app_assoc in H. simpl in H.
    rewrite H. done.
Qed.

Lemma zstr_trim_holds h s c :
  zstr_holds h s c → zlen c < SIZE_MOD →
  ∃ h' s', zstr_trim h s = Some (h', s') ∧
    zstr_holds h' s' (spec_trim c) ∧
    zstr_is_long s' = zstr_is_long s ∧ zstr_cap s' = zstr_cap s ∧
    heap_frame h h' s.
Proof.
  intros Hh Hmax. pose proof (holds_len _ _ _ Hh) as Hlen.
  unfold zstr_trim. case_decide as Hz.
  { assert (c = []) as -> by (destruct c; [done|unfold zlen in *; simpl in *; lia]).
    exists h, s. split_and!; try done. apply heap_frame_refl. }
  destruct (rstrip_decomp c) as (w & Hcw & Hw & Hr).
  destruct (lstrip_decomp (spec_rstrip c)) as (ws & Hrw & Hws & Hhd).
  unfold spec_trim.
  remember (spec_rstrip c) as r eqn:Er.
  remember (spec_lstrip r) as t eqn:Et.
  clear Er Et. subst r c.
  rewrite !zlen_app in *.
  pose proof (zlen_nonneg ws) as Hws0. pose proof (zlen_nonneg t) as Ht0.
  pose proof (zlen_nonneg w) as Hw0.
  assert (Htw : match t with y :: _ => c_isspace y = false | [] => ws = [] end).
  { destruct t as [|y t]; [|done]. rewrite app_nil_r in Hr.
    destruct Hr as [->|(r' & y & -> & Hy)]; [done|].
    apply Forall_app in Hws as [_ Hy']. rewrite Forall_singleton in Hy'.
    congruence. }
  (* the right end *)
  destruct (trim_right_spec w (ws ++ t) [] h s (Z.to_nat (zstr_len s)))
    as (h1 & s1 & Htr & Hh1 & Hs1 & Hf1);
    [by rewrite app_nil_r|done|done|unfold zlen in *; lia|].
  rewrite !zlen_app in Htr. rewrite Hlen in Htr |- *. rewrite Htr. mstep.
  rewrite app_nil_r in Hh1.
  destruct (holds_data_buffer _ _ _ Hh1) as (rest1 & Hobj1 & Hlen1).
  rewrite <- !app_assoc in Hobj1. rewrite Hobj1. mstep.
  (* the left end *)
  pose proof (trim_left_spec (replicate (length w) 0 ++ 0 :: rest1) ws [] t
                (Z.to_nat (zlen ws + zlen t + zlen w)) Hws Htw) as Htl.
  rewrite !zlen_app in Htl. change (zlen []) with 0 in Htl. simpl in Htl.
  rewrite !Z.add_0_l in Htl.
  rewrite Htl by (unfold zlen; lia). mstep.
  assert (Hfinal : (if decide (zlen ws ≤ zlen ws + zlen t - 1)
                    then to_size_t (zlen ws + zlen t - 1 - zlen ws + 1) else 0)
                   = zlen t).
  { case_decide.
    - rewrite to_size_t_small by lia. lia.
    - lia. }
  rewrite Hfinal. clear Hfinal.
  assert (Hshape : ∀ s2, same_shape s1 s2 →
            zstr_is_long (set_len s2 (zlen t)) = zstr_is_long s ∧
            zstr_cap (set_len s2 (zlen t)) = zstr_cap s).
  { intros s2 Hs2. rewrite set_len_is_long, zstr_cap_set_len.
    rewrite (same_shape_is_long _ _ Hs2), (same_shape_is_long _ _ Hs1).
    by rewrite (same_shape_cap _ _ Hs2), (same_shape_cap _ _ Hs1). }
  case_decide as Hmove.
  - (* something to move *)
    destruct ws as [|x ws]; [unfold zlen in Hmove; simpl in Hmove; lia|].
    unfold data_read. rewrite Hobj1. mstep.
    assert (Hrd : buf_read ((x :: ws) ++ t ++ replicate (length w) 0 ++ 0 :: rest1)
                    (zlen (x :: ws)) (zlen t) = Some t).
    { rewrite buf_read_Some.
      - unfold zlen. rewrite !Nat2Z.id. rewrite drop_app_length.
        by rewrite take_app_length.
      - unfold in_range, zlen. rewrite !length_app. lia. }
    rewrite Hrd. mstep. rewrite <- app_assoc in Hh1.
    set (content := (x :: ws) ++ t ++ replicate (length w) 0) in *.
    assert (Hclen : (length t < length content)%nat).
    { unfold content. rewrite !length_app. simpl. lia. }
    assert (Hh1' : zstr_holds h1 s1 ([] ++ take (length t) content
                                        ++ drop (length t) content)).
    { simpl. by rewrite take_drop. }
    destruct (write_holds h1 s1 [] _ _ t Hh1') as (h2 & s2 & Hw2 & Hh2 & Hs2 & Hf2).
    { rewrite length_take_le by lia. done. }
    change (zlen []) with 0 in Hw2. rewrite Hw2. mstep.
    destruct (drop (length t) content) as [|d post] eqn:Hpost.
    { apply (f_equal length) in Hpost. rewrite length_drop in Hpost.
      change (@length Z []) with 0%nat in Hpost. lia. }
    simpl in Hh2.
    destruct (write_holds h2 s2 t [d] post [0] Hh2 eq_refl)
      as (h3 & s3 & Hw3 & Hh3 & Hs3 & Hf3).
    rewrite Hw3. mstep.
    pose proof (same_shape_trans _ _ _ Hs2 Hs3) as Hs13.
    exists h3, (set_len s3 (zlen t)). split_and!; try done.
    + by apply (holds_truncate h3 s3 t post).
    + by apply Hshape.
    + by apply Hshape.
    + eapply heap_frame_trans; [exact Hs1|exact Hf1|].
      eapply heap_frame_trans; [exact Hs2|exact Hf2|exact Hf3].
  - (* nothing to move *)
    assert (ws = []) as ->
      by (destruct ws; [done|unfold zlen in Hmove; simpl in Hmove; lia]).
    simpl in *. exists h1, (set_len s1 (zlen t)). split_and!; try done.
    + destruct w as [|x w].
      * simpl in Hh1. rewrite app_nil_r in Hh1.
        by rewrite (holds_set_len_same _ _ _ Hh1).
      * simpl in Hh1. by apply (holds_truncate h1 s1 t (replicate (length w) 0)).
    + by apply Hshape, same_shape_refl.
    + by apply Hshape, same_shape_refl.
Qed.

(** X18.  [zstr_trim] removes the white space ([isspace]: space, tab,
    line feed, vertical tab, form feed, carriage return) at both ends
    of the bytes of the value and nothing else; a value of white space
    only becomes empty.  It works in place: form, capacity and pointer
    are kept and no block is allocated or freed. *)
Theorem zstr_trim_strips (h : heap) (s : zstr) (c : list Z) :
  zstr_holds h s c → zlen c < SIZE_MOD →
  ∃ h' s', zstr_trim h s = Some (h', s') ∧
    zstr_holds h' s' (spec_trim c) ∧
    zstr_is_long s' = zstr_is_long s ∧ zstr_cap s' = zstr_cap s ∧
    heap_frame h h' s.
Proof. apply zstr_trim_holds. Qed.

Lemma zstr_trim_strips_witness :
  let c := bytes_of "  hello, world   " in
  ∃ h' s', zstr_trim heap_empty (sample_short c) = Some (h', s') ∧
    zstr_holds h' s' (spec_trim c) ∧
    zstr_is_long s' = zstr_is_long (sample_short c) ∧
    zstr_cap s' = zstr_cap (sample_short c) ∧
    heap_frame heap_empty h' (sample_short c).
Proof.
  intros c. apply (zstr_trim_strips heap_empty (sample_short c) c).
  - holds_closed.
  - vm_compute. reflexivity.
Defined.

(** ** Views *)

Lemma buf_read_middle pre mid post :
  buf_read (pre ++ mid ++ post) (zlen pre) (zlen mid) = Some mid.
Proof.
  rewrite buf_read_Some.
  - unfold zlen. rewrite !Nat2Z.id. rewrite drop_app_length.
    by rewrite take_app_length.
  - unfold in_range, zlen. rewrite !length_app. lia.
Qed.

Lemma view_decomp v bs :
  view_bytes v = Some bs →
  ∃ pre post, v_obj v = pre ++ bs ++ post ∧
    zlen pre = v_off v ∧ zlen bs = v_len v.
Proof.
  intros Hv. unfold view_bytes in Hv.
  destruct (buf_read_inv _ _ _ _ Hv) as [Hr _].
  destruct (in_range_decomp _ _ _ Hr) as (pre & mid & post & Hobj & Hp & Hm).
  exists pre, post. rewrite Hobj, <- Hp, <- Hm, buf_read_middle in Hv.
  injection Hv as <-. done.
Qed.

Lemma view_decomp_bytes pre bs post :
  view_bytes (ZView (pre ++ bs ++ post) (zlen pre) (zlen bs)) = Some bs.
Proof. apply buf_read_middle. Qed.

Lemma take_prefix {A} (p bs : list A) :
  take (length p) bs = p ↔ p `prefix_of` bs.
Proof.
  split.
  - intros <-. apply prefix_take.
  - intros [k ->]. by rewrite take_app_length.
Qed.

Lemma drop_suffix {A} (p bs : list A) :
  (length p ≤ length bs)%nat →
  drop (length bs - length p) bs = p ↔ p `suffix_of` bs.
Proof.
  intros Hl. split.
  - intros <-. apply suffix_drop.
  - intros [k ->]. rewrite length_app.
    replace (length k + length p - length p)%nat with (length k) by lia.
    by rewrite drop_app_length.
Qed.

(** X19.  On a view that lies inside its object, [zstr_view_eq] is
    equality of the bytes of the view with the C string,
    [zstr_view_eq_view] equality of the bytes of two views,
    [zstr_view_starts_with] and [zstr_view_ends_with] are the prefix
    and suffix relations (true for the empty string); [zstr_starts_with]
    and [zstr_ends_with] are the same on the bytes of a value. *)
Theorem zstr_view_predicates (v : zstr_view) (bs cstr : list Z) :
  view_bytes v = Some bs → Forall (λ x, x ≠ 0) cstr →
  zstr_view_eq v cstr = Some (bool_decide (bs = cstr)) ∧
  zstr_view_starts_with v cstr = Some (bool_decide (cstr `prefix_of` bs)) ∧
  zstr_view_ends_with v cstr = Some (bool_decide (cstr `suffix_of` bs)) ∧
  (∀ w bw, view_bytes w = Some bw →
     zstr_view_eq_view v w = Some (bool_decide (bs = bw))) ∧
  (∀ h s, zstr_holds h s bs →
     zstr_starts_with h s cstr = Some (bool_decide (cstr `prefix_of` bs)) ∧
     zstr_ends_with h s cstr = Some (bool_decide (cstr `suffix_of` bs))).
Proof.
  intros Hv Hnf.
  assert (Hstarts : ∀ v, view_bytes v = Some bs →
    zstr_view_starts_with v cstr = Some (bool_decide (cstr `prefix_of` bs))).
  { clear v Hv. intros v Hv.
    destruct (view_decomp _ _ Hv) as (pre & post & Hobj & Hoff & Hlen).
    unfold zstr_view_starts_with. rewrite (c_strlen_nulfree _ Hnf). mstep.
    rewrite <- Hlen. destruct (decide (zlen bs < zlen cstr)) as [Hlt|Hlt].
    - f_equal. symmetry. apply bool_decide_eq_false.
      intros Hp%prefix_length. unfold zlen in Hlt. lia.
    - unfold memcmp_eq. rewrite buf_read_prefix.
      pose proof (zlen_nonneg pre). pose proof (zlen_nonneg post).
      pose proof (zlen_nonneg cstr).
      rewrite buf_read_Some
        by (unfold in_range; rewrite Hobj, !zlen_app; lia).
      mstep. f_equal. apply bool_decide_ext.
      rewrite Hobj, <- Hoff. unfold zlen in *. rewrite !Nat2Z.id.
      rewrite drop_app_length. rewrite take_app_le by lia.
      apply take_prefix. }
  assert (Hends : ∀ v, view_bytes v = Some bs →
    zstr_view_ends_with v cstr = Some (bool_decide (cstr `suffix_of` bs))).
  { clear v Hv. intros v Hv.
    destruct (view_decomp _ _ Hv) as (pre & post & Hobj & Hoff & Hlen).
    unfold zstr_view_ends_with. rewrite (c_strlen_nulfree _ Hnf). mstep.
    rewrite <- Hlen. destruct (decide (zlen bs < zlen cstr)) as [Hlt|Hlt].
    - f_equal. symmetry. apply bool_decide_eq_false.
      intros Hp%suffix_length. unfold zlen in Hlt. lia.
    - unfold memcmp_eq. rewrite buf_read_prefix.
      pose proof (zlen_nonneg pre). pose proof (zlen_nonneg post).
      pose proof (zlen_nonneg cstr).
      rewrite buf_read_Some
        by (unfold in_range; rewrite Hobj, !zlen_app; lia).
      mstep. f_equal. apply bool_decide_ext.
      rewrite Hobj, <- Hoff.
      replace (Z.to_nat (zlen pre + zlen bs - zlen cstr))
        with (length pre + (length bs - length cstr))%nat by (unfold zlen in *; lia).
      rewrite <- drop_drop, drop_app_length.
      rewrite drop_app_le by lia.
      unfold zlen. rewrite Nat2Z.id.
      rewrite take_app_length'
        by (rewrite length_drop; unfold zlen in *; lia).
      apply drop_suffix. unfold zlen in *. lia. }
  split_and!.
  - destruct (view_decomp _ _ Hv) as (pre & post & Hobj & Hoff & Hlen).
    unfold zstr_view_eq. rewrite (c_strlen_nulfree _ Hnf). mstep.
    rewrite <- Hlen. destruct (decide (zlen cstr ≠ zlen bs)) as [Hne|Hne].
    + f_equal. symmetry. apply bool_decide_eq_false. congruence.
    + assert (Heq : zlen cstr = zlen bs)
        by (destruct (decide (zlen cstr = zlen bs)); done).
      unfold memcmp_eq. rewrite Hobj, <- Hoff, buf_read_middle. mstep.
      rewrite <- Heq, buf_read_prefix. done.
  - by apply Hstarts.
  - by apply Hends.
  - intros w bw Hw.
    destruct (view_decomp _ _ Hv) as (pre & post & Hobj & Hoff & Hlen).
    destruct (view_decomp _ _ Hw) as (pre' & post' & Hobj' & Hoff' & Hlen').
    unfold zstr_view_eq_view. rewrite <- Hlen, <- Hlen'. destruct (decide (zlen bs ≠ zlen bw)) as [Hne|Hne].
    + f_equal. symmetry. apply bool_decide_eq_false. congruence.
    + assert (Heq : zlen bs = zlen bw)
        by (destruct (decide (zlen bs = zlen bw)); done).
      unfold memcmp_eq. rewrite Hobj, <- Hoff, buf_read_middle. mstep.
      rewrite Heq, Hobj', <- Hoff', buf_read_middle. done.
  - intros h s Hh. destruct Hh as [_ Hb].
    unfold zstr_as_bytes in Hb. unfold zstr_starts_with, zstr_ends_with.
    destruct (zstr_as_view h s) as [v'|]; [|done]. simpl in Hb. mstep.
    split; [by apply Hstarts|by apply Hends].
Qed.

Lemma zstr_view_predicates_witness :
  let v := ZView (bytes_of "key=value") 4 5 in
  let bs := bytes_of "value" in
  let cstr := bytes_of "val" in
  zstr_view_eq v cstr = Some (bool_decide (bs = cstr)) ∧
  zstr_view_starts_with v cstr = Some (bool_decide (cstr `prefix_of` bs)) ∧
  zstr_view_ends_with v cstr = Some (bool_decide (cstr `suffix_of` bs)) ∧
  (∀ w bw, view_bytes w = Some bw →
     zstr_view_eq_view v w = Some (bool_decide (bs = bw))) ∧
  (∀ h s, zstr_holds h s bs →
     zstr_starts_with h s cstr = Some (bool_decide (cstr `prefix_of` bs)) ∧
     zstr_ends_with h s cstr = Some (bool_decide (cstr `suffix_of` bs))).
Proof.
  intros v bs cstr. apply (zstr_view_predicates v bs cstr).
  - vm_compute. reflexivity.
  - vm_compute. repeat constructor; discriminate.
Defined.

(** ** Stripping views *)

Lemma lstrip_from_spec post : ∀ ws pre t fuel,
  Forall (λ x, c_isspace x = true) ws →
  match t with y :: _ => c_isspace y = false | [] => True end →
  (length ws ≤ fuel)%nat →
  lstrip_from fuel (pre ++ ws ++ t ++ post) (zlen pre) (zlen (pre ++ ws ++ t))
  = Some (zlen (pre ++ ws)).
Proof.
  induction ws as [|x ws IH]; intros pre t fuel Hws Ht Hfuel.
  - rewrite app_nil_r. simpl app. destruct t as [|y t].
    + rewrite app_nil_r. destruct fuel; simpl; by rewrite decide_False by lia.
    + assert (Hle : zlen pre < zlen (pre ++ y :: t)).
      { rewrite zlen_app. unfold zlen. simpl. lia. }
      destruct fuel; simpl; rewrite decide_True by done;
        rewrite buf_load_middle; mstep; by rewrite Ht.
  - apply Forall_cons in Hws as [Hx Hws]. cbv beta in Hx.
    destruct fuel as [|fuel]; [simpl in Hfuel; lia|]. simpl in Hfuel.
    assert (Hle : zlen pre < zlen (pre ++ (x :: ws) ++ t)).
    { rewrite !zlen_app. unfold zlen. simpl. lia. }
    cbn [lstrip_from]. rewrite decide_True by done.
    rewrite <- !app_comm_cons, buf_load_middle. mstep. rewrite Hx.
    pose proof (IH (pre ++ [x]) t fuel Hws Ht ltac:(lia)) as H.
    rewrite zlen_snoc, <- !app_assoc in H. simpl in H.
    rewrite H. done.
Qed.

Lemma rstrip_from_spec pre : ∀ w post r fuel,
  Forall (λ x, c_isspace x = true) w →
  (r = [] ∨ ∃ r' y, r = r' ++ [y] ∧ c_isspace y = false) →
  (length w ≤ fuel)%nat →
  rstrip_from fuel (pre ++ r ++ w ++ post) (zlen pre) (zlen (pre ++ r ++ w))
  = Some (zlen (pre ++ r)).
Proof.
  induction w as [|x w IH] using rev_ind; intros post r fuel Hw Hr Hfuel.
  - rewrite app_nil_r. simpl app. destruct Hr as [->|(r' & y & -> & Hy)].
    + rewrite app_nil_r. destruct fuel; simpl; by rewrite decide_False by lia.
    + assert (Hle : zlen pre < zlen (pre ++ r' ++ [y])).
      { rewrite !zlen_app. unfold zlen. simpl. lia. }
      assert (Hld : buf_load (pre ++ (r' ++ [y]) ++ post)
                      (zlen (pre ++ r' ++ [y]) - 1) = Some y).
      { assert (E : pre ++ (r' ++ [y]) ++ post = (pre ++ r') ++ y :: post)
          by (by rewrite <- !app_assoc).
        assert (Hi : zlen (pre ++ r' ++ [y]) - 1 = zlen (pre ++ r'))
          by (rewrite !zlen_app; change (zlen [y]) with 1; lia).
        rewrite E, Hi. apply buf_load_middle. }
      destruct fuel; simpl; rewrite decide_True by done;
        rewrite Hld; mstep; by rewrite Hy.
  - apply Forall_app in Hw as [Hw Hx]. rewrite Forall_singleton in Hx.
    rewrite length_app in Hfuel. simpl in Hfuel.
    destruct fuel as [|fuel]; [lia|].
    assert (Hle : zlen pre < zlen (pre ++ r ++ w ++ [x])).
    { rewrite !zlen_app. unfold zlen. simpl. lia. }
    assert (He : zlen (pre ++ r ++ w ++ [x]) - 1 = zlen (pre ++ r ++ w)).
    { rewrite !zlen_app. change (zlen [x]) with 1. lia. }
    assert (Hld : buf_load (pre ++ r ++ (w ++ [x]) ++ post)
                    (zlen (pre ++ r ++ w)) = Some x).
    { assert (E : pre ++ r ++ (w ++ [x]) ++ post = (pre ++ r ++ w) ++ x :: post)
        by (by rewrite <- !app_assoc).
      rewrite E. apply buf_load_middle. }
    cbn [rstrip_from]. rewrite decide_True by done.
    rewrite He, Hld. mstep. rewrite Hx.
    pose proof (IH (x :: post) r fuel Hw Hr ltac:(lia)) as H.
    assert (E : pre ++ r ++ (w ++ [x]) ++ post = pre ++ r ++ w ++ x :: post)
      by (by rewrite <- !app_assoc).
    rewrite E. exact H.
Qed.

Lemma view_lstrip_spec v bs :
  view_bytes v = Some bs → v_len v < SIZE_MOD →
  ∃ v', zstr_view_lstrip v = Some v' ∧
    view_bytes v' = Some (spec_lstrip bs) ∧ v_obj v' = v_obj v ∧
    v_off v ≤ v_off v' ∧ v_off v' + v_len v' = v_off v + v_len v.
Proof.
  intros Hv Hmax.
  destruct (view_decomp _ _ Hv) as (pre & post & Hobj & Hoff & Hlen).
  destruct (lstrip_decomp bs) as (ws & Hbs & Hws & Hhd).
  remember (spec_lstrip bs) as t eqn:Et. clear Et. subst bs.
  pose proof (zlen_nonneg pre). pose proof (zlen_nonneg ws).
  pose proof (zlen_nonneg t).
  unfold zstr_view_lstrip. rewrite Hobj, <- Hoff, <- Hlen.
  pose proof (lstrip_from_spec post ws pre t (Z.to_nat (zlen (ws ++ t))) Hws Hhd) as Hloop.
  rewrite <- !app_assoc. rewrite !zlen_app in *.
  rewrite Hloop by (unfold zlen; lia). mstep.
  replace (zlen pre + (zlen ws + zlen t) - (zlen pre + zlen ws)) with (zlen t) by lia.
  rewrite to_size_t_small by lia.
  eexists. split; [done|]. simpl. split_and!; try lia; try done.
  unfold view_bytes. simpl. rewrite <- zlen_app, app_assoc.
  apply buf_read_middle.
Qed.

Lemma view_rstrip_spec v bs :
  view_bytes v = Some bs → v_len v < SIZE_MOD →
  ∃ v', zstr_view_rstrip v = Some v' ∧
    view_bytes v' = Some (spec_rstrip bs) ∧ v_obj v' = v_obj v ∧
    v_off v' = v_off v ∧ v_len v' ≤ v_len v.
Proof.
  intros Hv Hmax.
  destruct (view_decomp _ _ Hv) as (pre & post & Hobj & Hoff & Hlen).
  destruct (rstrip_decomp bs) as (w & Hbs & Hw & Hr).
  remember (spec_rstrip bs) as r eqn:Er. clear Er. subst bs.
  pose proof (zlen_nonneg pre). pose proof (zlen_nonneg w).
  pose proof (zlen_nonneg r).
  unfold zstr_view_rstrip. rewrite Hobj, <- Hoff, <- Hlen.
  pose proof (rstrip_from_spec pre w post r (Z.to_nat (zlen (r ++ w))) Hw Hr) as Hloop.
  rewrite <- !app_assoc. rewrite !zlen_app in *.
  rewrite Hloop by (unfold zlen; lia). mstep.
  replace (zlen pre + zlen r - zlen pre) with (zlen r) by lia.
  rewrite to_size_t_small by lia.
  eexists. split; [done|]. simpl. split_and!; try lia; try done.
  unfold view_bytes. simpl. apply buf_read_middle.
Qed.

(** X20.  On a view that lies inside its object, [zstr_view_lstrip],
    [zstr_view_rstrip] and [zstr_view_trim] return the view of the same
    object whose bytes are those of the argument without the white
    space at the start, at the end, at both ends; the result never
    reaches outside the argument, and a view of white space only gives
    an empty view. *)
Theorem zstr_view_strips (v : zstr_view) (bs : list Z) :
  view_bytes v = Some bs → v_len v < SIZE_MOD →
  (∃ v', zstr_view_lstrip v = Some v' ∧
     view_bytes v' = Some (spec_lstrip bs) ∧ v_obj v' = v_obj v ∧
     v_off v ≤ v_off v' ∧ v_off v' + v_len v' = v_off v + v_len v) ∧
  (∃ v', zstr_view_rstrip v = Some v' ∧
     view_bytes v' = Some (spec_rstrip bs) ∧ v_obj v' = v_obj v ∧
     v_off v' = v_off v ∧ v_len v' ≤ v_len v) ∧
  (∃ v', zstr_view_trim v = Some v' ∧
     view_bytes v' = Some (spec_trim bs) ∧ v_obj v' = v_obj v ∧
     v_off v ≤ v_off v' ∧ v_off v' + v_len v' ≤ v_off v + v_len v).
Proof.
  intros Hv Hmax. split_and!.
  - by apply view_lstrip_spec.
  - by apply view_rstrip_spec.
  - destruct (view_rstrip_spec v bs Hv Hmax) as (v1 & Hr & Hb1 & Ho1 & Hoff1 & Hl1).
    destruct (view_lstrip_spec v1 _ Hb1) as (v2 & Hl & Hb2 & Ho2 & Hoff2 & He2); [lia|].
    exists v2. unfold zstr_view_trim. rewrite Hr. mstep.
    split_and!; try done; try congruence; lia.
Qed.

Lemma zstr_view_strips_witness :
  let v := ZView (bytes_of "key =  value  ; next") 5 9 in
  let bs := bytes_of "  value  " in
  (∃ v', zstr_view_lstrip v = Some v' ∧
     view_bytes v' = Some (spec_lstrip bs) ∧ v_obj v' = v_obj v ∧
     v_off v ≤ v_off v' ∧ v_off v' + v_len v' = v_off v + v_len v) ∧
  (∃ v', zstr_view_rstrip v = Some v' ∧
     view_bytes v' = Some (spec_rstrip bs) ∧ v_obj v' = v_obj v ∧
     v_off v' = v_off v ∧ v_len v' ≤ v_len v) ∧
  (∃ v', zstr_view_trim v = Some v' ∧
     view_bytes v' = Some (spec_trim bs) ∧ v_obj v' = v_obj v ∧
     v_off v ≤ v_off v' ∧ v_off v' + v_len v' ≤ v_off v + v_len v).
Proof.
  intros v bs. apply (zstr_view_strips v bs).
  - vm_compute. reflexivity.
  - vm_compute. reflexivity.
Defined.

(** ** [zstr_view_to_int] *)

Lemma decimal_mono ds acc :
  Forall is_digit ds → 0 ≤ acc →
  acc ≤ fold_left (λ a c, a * 10 + digit_of c) ds acc.
Proof.
  revert acc. induction ds as [|c ds IH]; intros acc Hds Hacc; simpl; [lia|].
  apply Forall_cons in Hds as [Hc Hds]. unfold is_digit, digit_of in *.
  etrans; [|apply IH; [done|lia]]. lia.
Qed.

Section ToInt.
Variables (pre post : list Z).

Let view_of (bs : list Z) : zstr_view :=
  ZView (pre ++ bs ++ post) (zlen pre) (zlen bs).

Lemma view_of_load front c todo :
  buf_load (v_obj (view_of (front ++ c :: todo)))
           (v_off (view_of (front ++ c :: todo)) + zlen front) = Some c.
Proof.
  simpl. rewrite <- zlen_app.
  assert (E : pre ++ (front ++ c :: todo) ++ post
              = (pre ++ front) ++ c :: todo ++ post)
    by (by rewrite <- !app_assoc).
  rewrite E. apply buf_load_middle.
Qed.

Lemma to_int_from_digits : ∀ todo front acc fuel,
  Forall is_digit todo → 0 ≤ acc ≤ INT_MAX → (length todo ≤ fuel)%nat →
  zlen (front ++ todo) < SIZE_MOD →
  to_int_from fuel (view_of (front ++ todo)) (zlen front) acc =
    if decide (fold_left (λ a c, a * 10 + digit_of c) todo acc ≤ INT_MAX)
    then Some (Some (fold_left (λ a c, a * 10 + digit_of c) todo acc))
    else None.
Proof using Type.
  induction todo as [|c todo IH]; intros front acc fuel Hds Hacc Hfuel Hmax.
  - rewrite app_nil_r. simpl fold_left. rewrite decide_True by lia.
    destruct fuel; simpl; by rewrite decide_False by lia.
  - apply Forall_cons in Hds as [Hc Hds].
    destruct fuel as [|fuel]; [simpl in Hfuel; lia|]. simpl in Hfuel.
    pose proof (zlen_nonneg front) as Hf0. pose proof (zlen_nonneg todo) as Ht0.
    assert (Hlen : zlen (front ++ c :: todo) = zlen front + 1 + zlen todo).
    { rewrite zlen_app. unfold zlen. simpl. lia. }
    cbn [to_int_from].
    rewrite (decide_True (P := zlen front < v_len _)) by (simpl; lia).
    rewrite view_of_load. mstep.
    unfold is_digit in Hc. rewrite decide_False by lia.
    simpl fold_left.
    pose proof (decimal_mono todo (acc * 10 + digit_of c) Hds) as Hmono.
    unfold digit_of in *. unfold int_of, INT_MIN, INT_MAX in *.
    destruct (decide (- 2 ^ 31 ≤ acc * 10 ≤ 2 ^ 31 - 1)) as [Hm|Hm]; mstep.
    + destruct (decide (- 2 ^ 31 ≤ acc * 10 + (c - 48) ≤ 2 ^ 31 - 1)) as [Hr|Hr]; mstep.
      * assert (Hnext : size_add (zlen front) 1 = zlen (front ++ [c])).
        { rewrite zlen_snoc. apply size_add_small. lia. }
        rewrite Hnext.
        pose proof (IH (front ++ [c]) (acc * 10 + (c - 48)) fuel Hds) as H.
        rewrite <- !app_assoc in H. simpl in H. apply H; [lia|lia|done].
      * rewrite decide_False by lia. done.
    + rewrite decide_False by lia. done.
Qed.

Lemma to_int_from_reject : ∀ ds front acc fuel x rest,
  Forall is_digit ds → ¬ is_digit x → 0 ≤ acc →
  fold_left (λ a c, a * 10 + digit_of c) ds acc ≤ INT_MAX →
  (length ds < fuel)%nat →
  zlen (front ++ ds ++ x :: rest) < SIZE_MOD →
  to_int_from fuel (view_of (front ++ ds ++ x :: rest)) (zlen front) acc
  = Some None.
Proof using Type.
  induction ds as [|c ds IH]; intros front acc fuel x rest Hds Hx Hacc Hv Hfuel Hmax.
  - destruct fuel as [|fuel]; [simpl in Hfuel; lia|].
    pose proof (zlen_nonneg front) as Hf0. pose proof (zlen_nonneg rest) as Ht0.
    assert (Hlen : zlen (front ++ x :: rest) = zlen front + 1 + zlen rest).
    { rewrite zlen_app. unfold zlen. simpl. lia. }
    simpl app. cbn [to_int_from].
    rewrite (decide_True (P := zlen front < v_len _)) by (simpl; lia).
    rewrite view_of_load. mstep.
    unfold is_digit in Hx. rewrite decide_True by lia. done.
  - apply Forall_cons in Hds as [Hc Hds].
    destruct fuel as [|fuel]; [simpl in Hfuel; lia|]. simpl in Hfuel.
    change ((c :: ds) ++ x :: rest) with (c :: (ds ++ x :: rest)) in *.
    pose proof (zlen_nonneg front) as Hf0.
    pose proof (zlen_nonneg (ds ++ x :: rest)) as Ht0.
    assert (Hlen : zlen (front ++ c :: (ds ++ x :: rest))
                   = zlen front + 1 + zlen (ds ++ x :: rest)).
    { rewrite zlen_app. unfold zlen. simpl. lia. }
    cbn [to_int_from].
    rewrite (decide_True (P := zlen front < v_len _))
      by (unfold view_of; cbn [v_len]; lia).
    rewrite view_of_load. mstep.
    unfold is_digit in Hc. rewrite decide_False by lia.
    simpl fold_left in Hv.
    pose proof (decimal_mono ds (acc * 10 + digit_of c) Hds) as Hmono.
    unfold digit_of in *. unfold int_of, INT_MIN, INT_MAX in *.
    rewrite decide_True by lia. mstep. rewrite decide_True by lia. mstep.
    assert (Hnext : size_add (zlen front) 1 = zlen (front ++ [c])).
    { rewrite zlen_snoc. apply size_add_small. lia. }
    rewrite Hnext.
    pose proof (IH (front ++ [c]) (acc * 10 + (c - 48)) fuel x rest Hds Hx) as H.
    rewrite <- !app_assoc in H. simpl in H. apply H; first [lia|done].
Qed.

End ToInt.

Lemma view_as_decomp v bs :
  view_bytes v = Some bs →
  ∃ pre post, v = ZView (pre ++ bs ++ post) (zlen pre) (zlen bs).
Proof.
  intros Hv. destruct (view_decomp _ _ Hv) as (pre & post & Hobj & Hoff & Hlen).
  exists pre, post. destruct v as [obj off len]. simpl in *. congruence.
Qed.



(** ** Splitting *)

Lemma zstr_view_from_nulfree d :
  Forall (λ x, x ≠ 0) d → zstr_view_from d = Some (ZView (d ++ [0]) 0 (zlen d)).
Proof. intros Hd. unfold zstr_view_from. by rewrite (c_strlen_nulfree d Hd). Qed.

Lemma find_sub_short todo d :
  (length todo < length d)%nat → find_sub todo d = None.
Proof.
  revert d. induction todo as [|x todo IH]; intros d Hl; simpl.
  - rewrite decide_False; [done|]. intros Hp%prefix_length. lia.
  - rewrite decide_False by (intros Hp%prefix_length; simpl in *; lia).
    rewrite IH; [done|simpl in *; lia].
Qed.

Lemma split_scan_spec it P post d : ∀ todo front fuel,
  v_obj (source it) = P ++ (front ++ todo) ++ post →
  delim it = ZView (d ++ [0]) 0 (zlen d) →
  d ≠ [] → zlen d ≤ zlen (front ++ todo) → zlen (front ++ todo) < SIZE_MOD →
  (length todo ≤ fuel)%nat →
  split_scan fuel it (zlen P) (zlen (front ++ todo)) (zlen front) =
    Some (match find_sub todo d with
          | Some j => zlen front + Z.of_nat j
          | None => zlen (front ++ todo)
          end).
Proof.
  intros todo. induction todo as [|x todo IH]; intros front fuel Hobj Hd Hne Hdl Hmax Hfuel.
  - assert (0 < zlen d) by (destruct d; [done|unfold zlen; simpl; lia]).
    rewrite app_nil_r in *.
    rewrite find_sub_short by (destruct d; [done|simpl; lia]).
    destruct fuel; simpl; rewrite Hd; simpl;
      rewrite decide_False; try done;
      unfold size_sub; rewrite to_size_t_small by lia; lia.
  - assert (Hd0 : 0 < zlen d) by (destruct d; [done|unfold zlen; simpl; lia]).
    pose proof (zlen_nonneg front) as Hf0. pose proof (zlen_nonneg todo) as Ht0.
    assert (Hlen : zlen (front ++ x :: todo) = zlen front + 1 + zlen todo).
    { rewrite zlen_app. unfold zlen. simpl. lia. }
    destruct (decide (zlen d ≤ 1 + zlen todo)) as [Hfit|Hshort].
    + destruct fuel as [|fuel]; [simpl in Hfuel; lia|]. simpl in Hfuel.
      cbn [split_scan]. rewrite Hd. cbn [v_len v_obj v_off].
      rewrite decide_True
        by (unfold size_sub; rewrite to_size_t_small by lia; lia).
      unfold memcmp_eq. rewrite Hobj.
      assert (Hrd1 : buf_read (P ++ (front ++ x :: todo) ++ post)
                       (zlen P + zlen front) (zlen d)
                     = Some (take (length d) (x :: todo))).
      { rewrite buf_read_Some.
        - f_equal. rewrite <- zlen_app. rewrite <- !app_assoc, (app_assoc P front).
          unfold zlen. rewrite !Nat2Z.id. rewrite drop_app_length.
          rewrite take_app_le; [done|]. unfold zlen in *. simpl. lia.
        - unfold in_range. rewrite !zlen_app.
          pose proof (zlen_nonneg P). pose proof (zlen_nonneg post).
          unfold zlen in *. simpl in *. lia. }
      rewrite Hrd1. mstep. rewrite buf_read_prefix. mstep.
      simpl find_sub. 
      destruct (decide (d `prefix_of` x :: todo)) as [Hp|Hnp].
      * rewrite bool_decide_eq_true_2 by (by apply take_prefix).
        f_equal. lia.
      * rewrite bool_decide_eq_false_2 by (by rewrite take_prefix).
        assert (Hnext : size_add (zlen front) 1 = zlen (front ++ [x])).
        { rewrite zlen_snoc. apply size_add_small. lia. }
        rewrite Hnext.
        pose proof (IH (front ++ [x]) fuel) as H.
        rewrite <- !app_assoc in H. simpl in H.
        rewrite H; [|first [done|lia|by rewrite Hobj, <- !app_assoc]..].
        destruct (find_sub todo d) as [j|]; simpl; f_equal.
        rewrite zlen_snoc. lia.
    + rewrite find_sub_short
        by (unfold zlen in *; simpl in *; lia).
      destruct fuel; simpl; rewrite Hd; simpl;
        rewrite decide_False; try done;
        unfold size_sub; rewrite to_size_t_small by lia; lia.
Qed.

Lemma zstr_split_next_spec src bs d pos :
  view_bytes src = Some bs → d ≠ [] →
  0 ≤ pos → pos + zlen d ≤ zlen bs → zlen bs < SIZE_MOD →
  ∃ it' part,
    zstr_split_next (ZSplit src (ZView (d ++ [0]) 0 (zlen d)) pos false)
      = Some (it', Some part) ∧
    source it' = src ∧ delim it' = ZView (d ++ [0]) 0 (zlen d) ∧
    match find_sub (drop (Z.to_nat pos) bs) d with
    | Some j =>
        view_bytes part = Some (take j (drop (Z.to_nat pos) bs)) ∧
        finished it' = false ∧
        current_pos it' = pos + Z.of_nat j + zlen d
    | None =>
        view_bytes part = Some (drop (Z.to_nat pos) bs) ∧
        finished it' = true ∧ current_pos it' = pos
    end.
Proof.
  intros Hv Hne Hpos Hfit Hmax.
  destruct (view_as_decomp _ _ Hv) as (pre & post & ->). clear Hv.
  pose proof (zlen_nonneg d) as Hd0.
  assert (Hd1 : 0 < zlen d) by (destruct d; [done|unfold zlen; simpl; lia]).
  set (seen := take (Z.to_nat pos) bs).
  set (rest := drop (Z.to_nat pos) bs).
  assert (Hbs : bs = seen ++ rest) by (unfold seen, rest; by rewrite take_drop).
  assert (Hdone : zlen seen = pos).
  { unfold seen. apply zlen_take. lia. }
  assert (Hrest : zlen rest = zlen bs - pos).
  { unfold rest, zlen in *. rewrite length_drop. lia. }
  pose proof (split_scan_spec
                (ZSplit (ZView (pre ++ bs ++ post) (zlen pre) (zlen bs))
                        (ZView (d ++ [0]) 0 (zlen d)) pos false)
                (pre ++ seen) post d rest []
                (S (length (pre ++ bs ++ post)))) as Hscan.
  cbn [source delim v_obj] in Hscan.
  change ([] ++ rest) with rest in Hscan. change (zlen []) with 0 in Hscan.
  rewrite zlen_app, Hdone, Hrest in Hscan.
  unfold zstr_split_next. cbn [finished source current_pos v_off v_len v_obj delim].
  assert (Hrem : size_sub (zlen bs) pos = zlen bs - pos).
  { unfold size_sub. apply to_size_t_small. lia. }
  rewrite Hrem. rewrite Hscan; first last.
  { rewrite !length_app. unfold rest. rewrite length_drop. lia. }
  { lia. }
  { lia. }
  { done. }
  { done. }
  { simpl. rewrite Hbs at 1. by rewrite <- !app_assoc. }
  mstep.
  assert (Hobj : pre ++ bs ++ post = (pre ++ seen) ++ rest ++ post).
  { rewrite Hbs at 1. by rewrite <- !app_assoc. }
  destruct (find_sub rest d) as [j|] eqn:Hfind.
  - destruct (find_sub_Some _ _ _ Hfind) as [Hj _].
    assert (Hjr : Z.of_nat j + zlen d ≤ zlen rest) by (unfold zlen; lia).
    rewrite decide_False by lia.
    eexists _, _. split; [done|]. cbn [source delim finished current_pos].
    split_and!; try done.
    + unfold view_bytes. cbn [v_obj v_off v_len]. rewrite Hobj.
      rewrite <- Hdone, <- zlen_app.
      rewrite buf_read_Some.
      * f_equal. unfold zlen. rewrite !Nat2Z.id. rewrite drop_app_length.
        rewrite Z.add_0_l, Nat2Z.id. rewrite take_app_le; [done|].
        unfold zlen in *. lia.
      * unfold in_range. rewrite !zlen_app.
        pose proof (zlen_nonneg pre). pose proof (zlen_nonneg post). lia.
    + rewrite Z.add_0_l. unfold size_add.
      rewrite (to_size_t_small (Z.of_nat j + zlen d)) by lia.
      rewrite to_size_t_small by lia. lia.
  - rewrite decide_True by done.
    eexists _, _. split; [done|]. cbn [source delim finished current_pos].
    split_and!; try done.
    unfold view_bytes. cbn [v_obj v_off v_len]. rewrite Hobj.
    rewrite <- Hrest, <- Hdone, <- zlen_app. apply buf_read_middle.
Qed.

(** X22.  One step of the split iterator, when at least as many bytes
    remain as the (non-empty) delimiter has: the part returned is what
    lies before the first occurrence of the delimiter in the remaining
    bytes, and the position moves past that occurrence; when the
    delimiter does not occur the part is all that remains and the
    iterator is finished.  Source and delimiter are never changed. *)
Theorem zstr_split_next_first (src : zstr_view) (bs d : list Z) (pos : Z) :
  view_bytes src = Some bs → Forall (λ x, x ≠ 0) d → d ≠ [] →
  0 ≤ pos → pos + zlen d ≤ zlen bs → zlen bs < SIZE_MOD →
  zstr_split_init src d = Some (ZSplit src (ZView (d ++ [0]) 0 (zlen d)) 0 false) ∧
  ∃ it' part,
    zstr_split_next (ZSplit src (ZView (d ++ [0]) 0 (zlen d)) pos false)
      = Some (it', Some part) ∧
    source it' = src ∧ delim it' = ZView (d ++ [0]) 0 (zlen d) ∧
    match find_sub (drop (Z.to_nat pos) bs) d with
    | Some j =>
        view_bytes part = Some (take j (drop (Z.to_nat pos) bs)) ∧
        finished it' = false ∧
        current_pos it' = pos + Z.of_nat j + zlen d
    | None =>
        view_bytes part = Some (drop (Z.to_nat pos) bs) ∧
        finished it' = true ∧ current_pos it' = pos
    end.
Proof.
  intros Hv Hnf Hne Hpos Hfit Hmax. split.
  - unfold zstr_split_init. by rewrite (zstr_view_from_nulfree d Hnf).
  - by apply zstr_split_next_spec.
Qed.

Lemma zstr_split_next_first_witness :
  let src := ZView (bytes_of "<<alpha::beta::gamma>>") 2 18 in
  let bs := bytes_of "alpha::beta::gamma" in
  let d := bytes_of "::" in
  zstr_split_init src d = Some (ZSplit src (ZView (d ++ [0]) 0 (zlen d)) 0 false) ∧
  ∃ it' part,
    zstr_split_next (ZSplit src (ZView (d ++ [0]) 0 (zlen d)) 7 false)
      = Some (it', Some part) ∧
    source it' = src ∧ delim it' = ZView (d ++ [0]) 0 (zlen d) ∧
    match find_sub (drop (Z.to_nat 7) bs) d with
    | Some j =>
        view_bytes part = Some (take j (drop (Z.to_nat 7) bs)) ∧
        finished it' = false ∧
        current_pos it' = 7 + Z.of_nat j + zlen d
    | None =>
        view_bytes part = Some (drop (Z.to_nat 7) bs) ∧
        finished it' = true ∧ current_pos it' = 7
    end.
Proof.
  intros src bs d. apply (zstr_split_next_first src bs d 7).
  - vm_compute. reflexivity.
  - vm_compute. repeat constructor; discriminate.
  - discriminate.
  - lia.
  - vm_compute. discriminate.
  - vm_compute. reflexivity.
Defined.

(** X23.  With the empty delimiter the iterator makes no progress: on a
    source with at least one byte every call of [zstr_split_next]
    returns an empty part and leaves the iterator as it was, so that a
    loop over the parts never ends; on the empty source the first call
    returns the empty part and finishes. *)
Theorem zstr_split_empty_delimiter (src : zstr_view) (bs : list Z) :
  view_bytes src = Some bs → v_len src < SIZE_MOD →
  ∃ it, zstr_split_init src [] = Some it ∧
    (bs ≠ [] →
       zstr_split_next it = Some (it, Some (ZView (v_obj src) (v_off src) 0)) ∧
       ∀ n, split_all n it = Some (replicate n (ZView (v_obj src) (v_off src) 0))) ∧
    (bs = [] →
       ∃ it', zstr_split_next it
                = Some (it', Some (ZView (v_obj src) (v_off src) 0)) ∧
              finished it' = true).
Proof.
  intros Hv Hmax.
  destruct (view_decomp _ _ Hv) as (pre & post & Hobj & Hoff & Hlen).
  pose proof (zlen_nonneg pre). pose proof (zlen_nonneg bs).
  pose proof (zlen_nonneg post).
  exists (ZSplit src (ZView [0] 0 0) 0 false). split; [reflexivity|].
  assert (Hrem : size_sub (v_len src) 0 = v_len src).
  { unfold size_sub. rewrite Z.sub_0_r. apply to_size_t_small. lia. }
  assert (Hscan : split_scan (S (length (v_obj src)))
                    (ZSplit src (ZView [0] 0 0) 0 false)
                    (v_off src + 0) (v_len src) 0 = Some 0).
  { cbn [split_scan delim v_len v_obj v_off source].
    rewrite Hrem. rewrite decide_True by lia.
    unfold memcmp_eq.
    rewrite !buf_read_Some
      by (unfold in_range; rewrite ?Hobj, ?zlen_app; change (zlen [0]) with 1; lia).
    mstep. done. }
  assert (Hstep : bs ≠ [] →
    zstr_split_next (ZSplit src (ZView [0] 0 0) 0 false)
    = Some (ZSplit src (ZView [0] 0 0) 0 false,
            Some (ZView (v_obj src) (v_off src) 0))).
  { intros Hne. unfold zstr_split_next.
    cbn [finished source current_pos delim v_len].
    rewrite Hrem, Hscan. mstep.
    rewrite decide_False
      by (destruct bs; [done|unfold zlen in Hlen; simpl in Hlen; lia]).
    by rewrite Z.add_0_r. }
  split.
  - intros Hne. split; [by apply Hstep|].
    induction n as [|n IH]; [done|].
    cbn [split_all]. rewrite (Hstep Hne). mstep. rewrite IH. done.
  - intros ->. change (zlen []) with 0 in Hlen.
    eexists. unfold zstr_split_next.
    cbn [finished source current_pos delim v_len].
    rewrite Hrem, Hscan. mstep. rewrite <- Hlen.
    rewrite decide_True by done. rewrite Z.add_0_r. done.
Qed.

Lemma zstr_split_empty_delimiter_witness :
  let src := ZView (bytes_of "a,b") 0 3 in
  ∃ it, zstr_split_init src [] = Some it ∧
    (bytes_of "a,b" ≠ [] →
       zstr_split_next it = Some (it, Some (ZView (v_obj src) (v_off src) 0)) ∧
       ∀ n, split_all n it = Some (replicate n (ZView (v_obj src) (v_off src) 0))) ∧
    (bytes_of "a,b" = [] →
       ∃ it', zstr_split_next it
                = Some (it', Some (ZView (v_obj src) (v_off src) 0)) ∧
              finished it' = true).
Proof.
  intros src. apply (zstr_split_empty_delimiter src (bytes_of "a,b")).
  - vm_compute. reflexivity.
  - vm_compute. reflexivity.
Defined.

(** X24.  A C string that ends with the delimiter, split from its
    start: once the iterator has passed that last delimiter, no byte
    remains, [remaining - delim.len] wraps around, and the next call
    compares the delimiter with the bytes after the terminator of the
    string, which is undefined; the final empty part is never
    returned. *)
Theorem zstr_split_trailing_delimiter (a d : list Z) :
  Forall (λ x, x ≠ 0) a → Forall (λ x, x ≠ 0) d → d ≠ [] →
  find_sub (a ++ d) d = Some (length a) →
  zlen (a ++ d) < SIZE_MOD →
  ∃ src it0 it1 part,
    zstr_view_from (a ++ d) = Some src ∧
    zstr_split_init src d = Some it0 ∧
    zstr_split_next it0 = Some (it1, Some part) ∧
    view_bytes part = Some a ∧ finished it1 = false ∧
    zstr_split_next it1 = None.
Proof.
  intros Ha Hd Hne Hfind Hmax.
  assert (Hnf : Forall (λ x, x ≠ 0) (a ++ d)) by (by apply Forall_app).
  pose proof (zlen_nonneg a) as Ha0. pose proof (zlen_nonneg d) as Hd0.
  assert (Hd1 : 0 < zlen d) by (destruct d; [done|unfold zlen; simpl; lia]).
  rewrite zlen_app in Hmax.
  set (src := ZView ((a ++ d) ++ [0]) 0 (zlen (a ++ d))).
  assert (Hv : view_bytes src = Some (a ++ d)).
  { unfold view_bytes, src. simpl. apply buf_read_prefix. }
  destruct (zstr_split_next_spec src (a ++ d) d 0 Hv Hne)
    as (it1 & part & Hnext & Hsrc & Hdel & Hcase);
    [lia|rewrite zlen_app; lia|rewrite zlen_app; lia|].
  change (Z.to_nat 0) with 0%nat in Hcase. rewrite drop_0, Hfind in Hcase.
  destruct Hcase as (Hpart & Hfin & Hpos).
  rewrite take_app_length in Hpart. fold (zlen a) in Hpos.
  exists src, (ZSplit src (ZView (d ++ [0]) 0 (zlen d)) 0 false), it1, part.
  split_and!; try done.
  - by apply zstr_view_from_nulfree.
  - unfold zstr_split_init. by rewrite (zstr_view_from_nulfree d Hd).
  - destruct it1 as [src1 del1 pos1 fin1]. simpl in *. subst. subst src.
    unfold zstr_split_next.
    cbn [finished source current_pos delim v_len v_obj v_off].
    rewrite zlen_app.
    assert (Hrem : size_sub (zlen a + zlen d) (0 + zlen a + zlen d) = 0).
    { unfold size_sub. replace (zlen a + zlen d - (0 + zlen a + zlen d)) with 0 by lia.
      done. }
    rewrite Hrem.
    assert (Hwrap : size_sub 0 (zlen d) = SIZE_MOD - zlen d).
    { unfold size_sub, to_size_t.
      replace (0 - zlen d) with (- zlen d) by lia.
      rewrite <- (Z.mod_add _ 1) by (unfold SIZE_MOD; lia).
      rewrite Z.mod_small by lia. lia. }
    assert (Hlen : zlen ((a ++ d) ++ [0]) = zlen a + zlen d + 1).
    { rewrite !zlen_app. done. }
    cbn [split_scan delim v_len v_obj v_off source].
    rewrite Hwrap. rewrite decide_True by lia.
    unfold memcmp_eq.
    destruct (decide (zlen d = 1)) as [H1|H1].
    + destruct d as [|x [|y d]]; try (unfold zlen in H1; simpl in H1; lia).
      apply Forall_cons in Hd as [Hx _].
      change (zlen [x]) with 1 in *.
      assert (Hr1 : buf_read ((a ++ [x]) ++ [0]) (0 + (0 + zlen a + 1) + 0) 1
                    = Some [0]).
      { replace (0 + (0 + zlen a + 1) + 0) with (zlen (a ++ [x]))
          by (rewrite zlen_snoc; lia).
        rewrite buf_read_Some by (unfold in_range; rewrite Hlen, zlen_snoc; lia).
        unfold zlen. rewrite Nat2Z.id, drop_app_length. done. }
      assert (Hr2 : buf_read ([x] ++ [0]) 0 1 = Some [x]) by done.
      rewrite Hr1. mstep. rewrite Hr2. mstep.
      rewrite bool_decide_eq_false_2 by congruence.
      assert (∃ n, length ((a ++ [x]) ++ [0]) = S n) as [n Hn]
        by (rewrite !length_app; simpl; exists (length a + 1)%nat; lia).
      rewrite Hn. cbn [split_scan delim v_len v_obj v_off source].
      rewrite Hwrap. change (size_add 0 1) with 1.
      rewrite decide_True by (unfold SIZE_MOD; lia).
      assert (Hr3 : buf_read ((a ++ [x]) ++ [0]) (0 + (0 + zlen a + 1) + 1) 1
                    = None).
      { unfold buf_read.
        rewrite decide_False by (unfold in_range; rewrite Hlen; lia). done. }
      unfold memcmp_eq. rewrite Hr3. done.
    + assert (Hr3 : buf_read ((a ++ d) ++ [0]) (0 + (0 + zlen a + zlen d) + 0)
                      (zlen d) = None).
      { unfold buf_read.
        rewrite decide_False by (unfold in_range; rewrite Hlen; lia). done. }
      rewrite Hr3. done.
Qed.

Lemma zstr_split_trailing_delimiter_witness :
  let a := bytes_of "alpha" in
  let d := bytes_of "," in
  ∃ src it0 it1 part,
    zstr_view_from (a ++ d) = Some src ∧
    zstr_split_init src d = Some it0 ∧
    zstr_split_next it0 = Some (it1, Some part) ∧
    view_bytes part = Some a ∧ finished it1 = false ∧
    zstr_split_next it1 = None.
Proof.
  intros a d. apply (zstr_split_trailing_delimiter a d).
  - vm_compute. repeat constructor; discriminate.
  - vm_compute. repeat constructor; discriminate.
  - discriminate.
  - vm_compute. reflexivity.
  - vm_compute. reflexivity.
Defined.

(** ** UTF-8: the validator and the decoder *)

(** A property of bytes that holds of the 256 of them. *)
Lemma byte_forall (P : Z → bool) :
  forallb P (Z.of_nat <$> seq 0 256) = true →
  ∀ c, 0 ≤ c < 256 → P c = true.
Proof.
  intros H c Hc. rewrite forallb_forall in H. apply H.
  apply list_elem_of_In, list_elem_of_fmap. exists (Z.to_nat c).
  split; [lia|]. apply elem_of_seq. lia.
Qed.

Lemma lead2_bits c :
  0 ≤ c < 256 → Z.land c 0xE0 = 0xC0 →
  0xC0 ≤ c ≤ 0xDF ∧ Z.land c 0x1F = c - 0xC0.
Proof.
  intros Hc Hl.
  pose proof (byte_forall
    (λ c, implb (Z.land c 0xE0 =? 0xC0)
            ((0xC0 <=? c) && (c <=? 0xDF) && (Z.land c 0x1F =? c - 0xC0)))
    ltac:(vm_compute; reflexivity) c Hc) as H.
  cbv beta in H. apply Z.eqb_eq in Hl. rewrite Hl in H. simpl in H.
  apply andb_true_iff in H as [H H3]. apply andb_true_iff in H as [H1 H2].
  lia.
Qed.

Lemma lead3_bits c :
  0 ≤ c < 256 → Z.land c 0xF0 = 0xE0 →
  0xE0 ≤ c ≤ 0xEF ∧ Z.land c 0x0F = c - 0xE0.
Proof.
  intros Hc Hl.
  pose proof (byte_forall
    (λ c, implb (Z.land c 0xF0 =? 0xE0)
            ((0xE0 <=? c) && (c <=? 0xEF) && (Z.land c 0x0F =? c - 0xE0)))
    ltac:(vm_compute; reflexivity) c Hc) as H.
  cbv beta in H. apply Z.eqb_eq in Hl. rewrite Hl in H. simpl in H.
  apply andb_true_iff in H as [H H3]. apply andb_true_iff in H as [H1 H2].
  lia.
Qed.

Lemma lead4_bits c :
  0 ≤ c < 256 → Z.land c 0xF8 = 0xF0 →
  0xF0 ≤ c ≤ 0xF7 ∧ Z.land c 0x07 = c - 0xF0.
Proof.
  intros Hc Hl.
  pose proof (byte_forall
    (λ c, implb (Z.land c 0xF8 =? 0xF0)
            ((0xF0 <=? c) && (c <=? 0xF7) && (Z.land c 0x07 =? c - 0xF0)))
    ltac:(vm_compute; reflexivity) c Hc) as H.
  cbv beta in H. apply Z.eqb_eq in Hl. rewrite Hl in H. simpl in H.
  apply andb_true_iff in H as [H H3]. apply andb_true_iff in H as [H1 H2].
  lia.
Qed.

Lemma cont_bits c :
  0 ≤ c < 256 → Z.land c 0xC0 = 0x80 →
  0x80 ≤ c ≤ 0xBF ∧ Z.land c 0x3F = c - 0x80.
Proof.
  intros Hc Hl.
  pose proof (byte_forall
    (λ c, implb (Z.land c 0xC0 =? 0x80)
            ((0x80 <=? c) && (c <=? 0xBF) && (Z.land c 0x3F =? c - 0x80)))
    ltac:(vm_compute; reflexivity) c Hc) as H.
  cbv beta in H. apply Z.eqb_eq in Hl. rewrite Hl in H. simpl in H.
  apply andb_true_iff in H as [H H3]. apply andb_true_iff in H as [H1 H2].
  lia.
Qed.

(** Appending six payload bits. *)
Lemma lor_shiftl_6 r x :
  0 ≤ r → 0 ≤ x < 64 → Z.lor (Z.shiftl r 6) x = r * 64 + x.
Proof.
  intros Hr Hx. rewrite Z.shiftl_mul_pow2 by lia.
  change (2 ^ 6) with 64. symmetry. apply Z.add_nocarry_lor.
  apply Z.bits_inj'. intros n Hn. rewrite Z.land_spec, Z.bits_0.
  destruct (decide (n < 6)) as [Hlt|Hge].
  - change 64 with (2 ^ 6). by rewrite Z.mul_pow2_bits_low.
  - destruct (decide (x = 0)) as [->|Hx0].
    + by rewrite Z.bits_0, andb_false_r.
    + rewrite (Z.bits_above_log2 x n); [by rewrite andb_false_r|lia|].
      apply Z.log2_lt_pow2; [lia|].
      assert (2 ^ 6 ≤ 2 ^ n) by (apply Z.pow_le_mono_r; lia).
      change (2 ^ 6) with 64 in *. lia.
Qed.

Lemma load_byte obj i b :
  Forall (λ b, 0 ≤ b < 256) obj → buf_load obj i = Some b → 0 ≤ b < 256.
Proof.
  intros Hobj Hl. unfold buf_load in Hl. case_decide; [|done].
  by apply (Forall_lookup_1 _ _ _ _ Hobj Hl).
Qed.

Ltac load_at H obj i b Hb Hr :=
  destruct (buf_load obj i) as [b|] eqn:Hb; [|done];
  cbn [mbind option_bind] in H;
  pose proof (load_byte _ _ _ ltac:(eassumption) Hb) as Hr.

Lemma valid_step_decodes obj p p' c :
  Forall (λ b, 0 ≤ b < 256) obj →
  buf_load obj p = Some c → c ≠ 0 →
  valid_step obj p = Some (Some p') →
  ∃ rune, zstr_next_rune obj p = Some (rune, p') ∧
    is_scalar rune ∧ rune ≠ 0 ∧ p' = p + utf8_len rune.
Proof.
  intros Hobj Hc Hc0 Hv.
  pose proof (load_byte _ _ _ Hobj Hc) as Hcr.
  unfold valid_step in Hv. rewrite Hc in Hv. cbn [mbind option_bind] in Hv.
  unfold zstr_next_rune. rewrite Hc. cbn [mbind option_bind].
  rewrite (decide_False (P := c = 0)) by done.
  destruct (decide (c < 0x80)) as [Hascii|Hhigh].
  { injection Hv as <-. exists c. split_and!; try done.
    - left. lia.
    - unfold utf8_len. by rewrite decide_True by lia. }
  unfold rune_lead.
  destruct (decide (Z.land c 0xE0 = 0xC0)) as [H2|Hn2].
  { destruct (lead2_bits c Hcr H2) as [Hr2 Hp2].
    destruct (decide (c < 0xC2)); [done|].
    load_at Hv obj (p + 1) c1 Hc1 Hc1r.
    destruct (decide (Z.land c1 0xC0 ≠ 0x80)) as [|Hk1]; [done|].
    apply dec_stable in Hk1. injection Hv as <-.
    destruct (cont_bits c1 Hc1r Hk1) as [Hr1 Hp1].
    change (Z.to_nat (2 - 1)) with 1%nat. cbn [rune_tail].
    rewrite Hc1. cbn [mbind option_bind].
    rewrite decide_False by (intros ?; done).
    eexists. split; [done|].
    rewrite Hp2, Hp1, lor_shiftl_6 by lia.
    unfold is_scalar, utf8_len.
    rewrite decide_False by lia. rewrite decide_True by lia.
    split_and!; lia. }
  destruct (decide (Z.land c 0xF0 = 0xE0)) as [H3|Hn3].
  { destruct (lead3_bits c Hcr H3) as [Hr3 Hp3].
    load_at Hv obj (p + 1) c1 Hc1 Hc1r.
    load_at Hv obj (p + 2) c2 Hc2 Hc2r.
    destruct (decide (Z.land c2 0xC0 ≠ 0x80)) as [|Hk2]; [done|].
    destruct (decide (c = 0xE0 ∧ c1 < 0xA0)) as [|Ho]; [done|].
    destruct (decide (c = 0xED ∧ 0xA0 ≤ c1)) as [|Hs]; [done|].
    destruct (decide (Z.land c1 0xC0 ≠ 0x80)) as [|Hk1]; [done|].
    apply dec_stable in Hk1. apply dec_stable in Hk2. injection Hv as <-.
    destruct (cont_bits c1 Hc1r Hk1) as [Hr1 Hp1].
    destruct (cont_bits c2 Hc2r Hk2) as [Hr2' Hp2'].
    change (Z.to_nat (3 - 1)) with 2%nat. cbn [rune_tail].
    rewrite Hc1. cbn [mbind option_bind].
    rewrite decide_False by (intros ?; done).
    replace (p + (1 + 1)) with (p + 2) by lia.
    rewrite Hc2. cbn [mbind option_bind].
    rewrite decide_False by (intros ?; done).
    eexists. split; [done|].
    rewrite Hp3, Hp1, Hp2'. rewrite (lor_shiftl_6 (c - 224)) by lia.
    rewrite lor_shiftl_6 by lia.
    unfold is_scalar, utf8_len.
    rewrite decide_False by lia. rewrite decide_False by lia.
    rewrite decide_True by lia.
    split_and!; lia. }
  destruct (decide (Z.land c 0xF8 = 0xF0)) as [H4|Hn4]; [|done].
  destruct (lead4_bits c Hcr H4) as [Hr4 Hp4].
  destruct (decide (0xF4 < c)) as [|Hmaxlead]; [done|].
  load_at Hv obj (p + 1) c1 Hc1 Hc1r.
  destruct (decide (c = 0xF0 ∧ c1 < 0x90)) as [|Ho]; [done|].
  destruct (decide (c = 0xF4 ∧ 0x90 ≤ c1)) as [|Hs]; [done|].
  destruct (decide (Z.land c1 0xC0 ≠ 0x80)) as [|Hk1]; [done|].
  load_at Hv obj (p + 2) c2 Hc2 Hc2r.
  destruct (decide (Z.land c2 0xC0 ≠ 0x80)) as [|Hk2]; [done|].
  load_at Hv obj (p + 3) c3 Hc3 Hc3r.
  destruct (decide (Z.land c3 0xC0 ≠ 0x80)) as [|Hk3]; [done|].
  apply dec_stable in Hk1. apply dec_stable in Hk2. apply dec_stable in Hk3.
  injection Hv as <-.
  destruct (cont_bits c1 Hc1r Hk1) as [Hr1 Hp1].
  destruct (cont_bits c2 Hc2r Hk2) as [Hr2' Hp2'].
  destruct (cont_bits c3 Hc3r Hk3) as [Hr3' Hp3'].
  change (Z.to_nat (4 - 1)) with 3%nat. cbn [rune_tail].
  rewrite Hc1. cbn [mbind option_bind].
  rewrite decide_False by (intros ?; done).
  replace (p + (1 + 1)) with (p + 2) by lia.
  rewrite Hc2. cbn [mbind option_bind].
  rewrite decide_False by (intros ?; done).
  replace (p + (1 + 1 + 1)) with (p + 3) by lia.
  rewrite Hc3. cbn [mbind option_bind].
  rewrite decide_False by (intros ?; done).
  eexists. split; [done|].
  rewrite Hp4, Hp1, Hp2', Hp3'. rewrite (lor_shiftl_6 (c - 240)) by lia.
  rewrite (lor_shiftl_6 ((c - 240) * 64 + (c1 - 128))) by lia.
  rewrite lor_shiftl_6 by lia.
  unfold is_scalar, utf8_len.
  rewrite decide_False by lia. rewrite decide_False by lia.
  rewrite decide_False by lia.
  split_and!; lia.
Qed.

Lemma valid_from_decodes obj : ∀ fuel p k,
  Forall (λ b, 0 ≤ b < 256) obj →
  valid_from fuel obj p = Some true →
  0 ≤ k → k + Z.of_nat fuel < SIZE_MOD →
  ∃ runes, runes_from fuel obj p = Some runes ∧
    Forall is_scalar runes ∧
    count_runes_from fuel obj p k = Some (k + zlen runes) ∧
    (length runes ≤ fuel)%nat.
Proof.
  induction fuel as [|fuel IH]; intros p k Hobj Hv Hk Hmax.
  - simpl in *. destruct (buf_load obj p) as [c|]; [|done]. simpl in *.
    case_decide; [|done]. exists []. split_and!; try done.
    f_equal. unfold zlen. simpl. lia.
  - cbn [valid_from runes_from count_runes_from] in *.
    destruct (buf_load obj p) as [c|] eqn:Hc; [|done].
    cbn [mbind option_bind] in *.
    destruct (decide (c = 0)) as [->|Hc0].
    { exists []. split_and!; try done; [|simpl; lia].
      f_equal. unfold zlen. simpl. lia. }
    destruct (valid_step obj p) as [[p'|]|] eqn:Hstep; try done.
    cbn [mbind option_bind] in Hv.
    destruct (valid_step_decodes obj p p' c Hobj Hc Hc0 Hstep)
      as (rune & Hdec & Hscalar & _ & _).
    rewrite Hdec. cbn [mbind option_bind].
    assert (Hk1 : size_add k 1 = k + 1) by (apply size_add_small; lia).
    rewrite Hk1.
    destruct (IH p' (k + 1) Hobj Hv) as (runes & Hr & Hs & Hcount & Hlen);
      [lia|lia|].
    rewrite Hr, Hcount. exists (rune :: runes). split_and!; try done.
    + by constructor.
    + f_equal. unfold zlen. simpl. lia.
    + simpl. lia.
Qed.

(** X25.  The strict validator and the lenient decoder agree on what
    the validator accepts.  Where a step of [zstr_is_valid_utf8]
    accepts a sequence, [zstr_next_rune] decodes it, advances by the
    same number of bytes, and the rune is a Unicode scalar value (no
    surrogate, at most 0x10FFFF) encoded in its shortest form.  Hence,
    when [zstr_is_valid_utf8] returns true, every rune decoded by the
    loop of [zstr_count_runes] is a scalar value, and
    [zstr_count_runes] is their number. *)
Theorem zstr_valid_utf8_decodes :
  (∀ obj p p' c,
     Forall (λ b, 0 ≤ b < 256) obj →
     buf_load obj p = Some c → c ≠ 0 →
     valid_step obj p = Some (Some p') →
     ∃ rune, zstr_next_rune obj p = Some (rune, p') ∧
       is_scalar rune ∧ rune ≠ 0 ∧ p' = p + utf8_len rune) ∧
  (∀ h s obj,
     data_buffer h s = Some obj →
     Forall (λ b, 0 ≤ b < 256) obj → zlen obj < SIZE_MOD →
     zstr_is_valid_utf8 h s = Some true →
     ∃ runes, zstr_runes h s = Some runes ∧
       Forall is_scalar runes ∧
       zstr_count_runes h s = Some (zlen runes)).
Proof.
  split; [apply valid_step_decodes|].
  intros h s obj Hobj Hbytes Hmax Hv.
  unfold zstr_is_valid_utf8, zstr_runes, zstr_count_runes in *.
  rewrite Hobj in *. cbn [mbind option_bind] in *.
  destruct (valid_from_decodes obj (length obj) 0 0 Hbytes Hv)
    as (runes & Hr & Hs & Hc & _); [lia|unfold zlen in Hmax; lia|].
  exists runes. rewrite Z.add_0_l in Hc. done.
Qed.

Lemma zstr_valid_utf8_decodes_witness :
  let c := nihongo ++ hello_acute ++ emoji in
  let h := sample_heap c in
  let s := sample_long c in
  ∃ runes, zstr_runes h s = Some runes ∧
    Forall is_scalar runes ∧
    zstr_count_runes h s = Some (zlen runes).
Proof.
  intros c h s.
  apply (proj2 zstr_valid_utf8_decodes h s (c ++ [0])).
  - reflexivity.
  - vm_compute. repeat constructor; discriminate.
  - vm_compute. reflexivity.
  - vm_compute. reflexivity.
Defined.

Lemma valid_from_ascii post : ∀ c pre fuel,
  Forall (λ x, 0 < x < 0x80) c →
  valid_from (fuel + length c) (pre ++ c ++ post) (zlen pre)
  = valid_from fuel (pre ++ c ++ post) (zlen (pre ++ c)).
Proof.
  induction c as [|x c IH]; intros pre fuel Hc.
  - rewrite app_nil_r. simpl. by rewrite Nat.add_0_r.
  - apply Forall_cons in Hc as [Hx Hc]. cbv beta in Hx.
    replace (fuel + length (x :: c))%nat with (S (fuel + length c)) by (simpl; lia).
    assert (Hl : buf_load (pre ++ (x :: c) ++ post) (zlen pre) = Some x)
      by apply (buf_load_middle pre x (c ++ post)).
    cbn [valid_from]. rewrite Hl. cbn [mbind option_bind].
    rewrite decide_False by lia.
    unfold valid_step. rewrite Hl. cbn [mbind option_bind].
    rewrite decide_True by lia.
    pose proof (IH (pre ++ [x]) fuel Hc) as H.
    assert (E : (pre ++ [x]) ++ c ++ post = pre ++ (x :: c) ++ post)
      by (by rewrite <- app_assoc).
    assert (E' : (pre ++ [x]) ++ c = pre ++ x :: c)
      by (by rewrite <- app_assoc).
    rewrite E, E', zlen_snoc in H. exact H.
Qed.

(** X26.  [zstr_is_valid_utf8] reads past the terminator when the last
    byte of the value is the lead of a three-byte sequence (0xE0 to
    0xEF): the second byte it fetches is the terminator, and the third
    is fetched before the second is checked.  On a value whose buffer
    ends with its terminator, as [zstr_from_len] allocates it, that is
    a read beyond the buffer.  [zstr_next_rune] on the same bytes stays
    inside and reports an invalid sequence of one byte. *)
Theorem zstr_is_valid_utf8_overread (h : heap) (s : zstr) (c : list Z) (b1 : Z) :
  data_buffer h s = Some (c ++ [b1; 0]) →
  Forall (λ x, 0 < x < 0x80) c → 0xE0 ≤ b1 ≤ 0xEF →
  zstr_is_valid_utf8 h s = None ∧
  zstr_next_rune (c ++ [b1; 0]) (zlen c) = Some (ZSTR_UTF8_INVALID, zlen c + 1).
Proof.
  intros Hobj Hc Hb1.
  assert (Hbits : Z.land b1 0xE0 ≠ 0xC0 ∧ Z.land b1 0xF0 = 0xE0).
  { pose proof (byte_forall
      (λ c, implb ((0xE0 <=? c) && (c <=? 0xEF))
              (negb (Z.land c 0xE0 =? 0xC0) && (Z.land c 0xF0 =? 0xE0)))
      ltac:(vm_compute; reflexivity) b1 ltac:(lia)) as H.
    cbv beta in H.
    rewrite (proj2 (Z.leb_le _ _)), (proj2 (Z.leb_le _ _)) in H by lia.
    simpl in H. apply andb_true_iff in H as [H1 H2].
    apply negb_true_iff, Z.eqb_neq in H1. apply Z.eqb_eq in H2. done. }
  destruct Hbits as [Hn2 H3].
  assert (Hl0 : buf_load (c ++ [b1; 0]) (zlen c) = Some b1)
    by apply buf_load_middle.
  assert (Hl1 : buf_load (c ++ [b1; 0]) (zlen c + 1) = Some 0).
  { rewrite <- (zlen_snoc c b1).
    replace (c ++ [b1; 0]) with ((c ++ [b1]) ++ [0]) by (by rewrite <- app_assoc).
    apply buf_load_middle. }
  assert (Hl2 : buf_load (c ++ [b1; 0]) (zlen c + 2) = None).
  { unfold buf_load. rewrite decide_True by (pose proof (zlen_nonneg c); lia).
    apply lookup_ge_None. rewrite length_app. unfold zlen. simpl. lia. }
  split.
  - unfold zstr_is_valid_utf8. rewrite Hobj. cbn [mbind option_bind].
    pose proof (valid_from_ascii [b1; 0] c [] 2 Hc) as H.
    change (zlen []) with 0 in H. change ([] ++ c ++ [b1; 0]) with (c ++ [b1; 0]) in H. change ([] ++ c) with c in H.
    replace (length (c ++ [b1; 0])) with (2 + length c)%nat
      by (rewrite length_app; simpl; lia).
    rewrite H. cbn [valid_from]. rewrite Hl0. cbn [mbind option_bind].
    rewrite decide_False by lia.
    unfold valid_step. rewrite Hl0. cbn [mbind option_bind].
    rewrite decide_False by lia. rewrite decide_False by done.
    rewrite decide_True by done. rewrite Hl1. cbn [mbind option_bind].
    rewrite Hl2. done.
  - unfold zstr_next_rune. rewrite Hl0. cbn [mbind option_bind].
    rewrite decide_False by lia. rewrite decide_False by lia.
    unfold rune_lead. rewrite decide_False by done. rewrite decide_True by done.
    change (Z.to_nat (3 - 1)) with 2%nat. cbn [rune_tail].
    rewrite Hl1. cbn [mbind option_bind]. done.
Qed.

Lemma zstr_is_valid_utf8_overread_witness :
  let c := bytes_of "a text of twenty-five bytes" in
  let h := sample_heap (c ++ [0xE3]) in
  let s := sample_long (c ++ [0xE3]) in
  zstr_from_bytes heap_empty (c ++ [0xE3]) = Some (h, s) ∧
  zstr_is_valid_utf8 h s = None ∧
  zstr_next_rune (c ++ [0xE3; 0]) (zlen c) = Some (ZSTR_UTF8_INVALID, zlen c + 1).
Proof.
  intros c h s. split; [vm_compute; reflexivity|].
  apply (zstr_is_valid_utf8_overread h s c 0xE3).
  - vm_compute. reflexivity.
  - vm_compute. repeat constructor; discriminate.
  - lia.
Defined.

(** ** Clearing and reuse *)

Lemma holds_empty h s : zstr_inv h s → zstr_len s = 0 → zstr_holds h s [].
Proof.
  intros Hinv Hlen. split; [done|].
  unfold zstr_as_bytes, zstr_as_view, view_bytes.
  destruct s as [sh|l]; simpl in *.
  - rewrite Hlen. rewrite buf_read_Some; [done|].
    unfold in_range. pose proof (zlen_nonneg (short_raw sh)). lia.
  - destruct Hinv as (blk & -> & _ & _ & Hb & _). simpl. rewrite Hlen.
    rewrite buf_read_Some; [done|].
    unfold in_range. pose proof (zlen_nonneg blk). lia.
Qed.

Lemma zstr_clear_holds h s c :
  zstr_holds h s c →
  ∃ h' s', zstr_clear h s = Some (h', s') ∧ zstr_holds h' s' [] ∧
    zstr_cap s' = zstr_cap s ∧ zstr_is_long s' = zstr_is_long s ∧
    oracle h' = oracle h ∧ heap_step h h' s s'.
Proof.
  intros [Hinv _].
  destruct (zstr_clear_inv h s Hinv) as (h' & s' & Hc & Hinv' & Hlen').
  exists h', s'. split; [done|]. split; [by apply holds_empty|].
  unfold zstr_clear in Hc. destruct s as [sh|l].
  - destruct (data_write_step _ _ _ _ _ _ Hc) as (Hstep & Hown & Hor).
    unfold data_write in Hc.
    destruct (buf_write _ _ _) as [raw|]; [|done]. simpl in Hc.
    injection Hc as <- <-. by split_and!.
  - destruct (data_write_step _ _ _ _ _ _ Hc) as (Hstep & Hown & Hor).
    unfold data_write in Hc.
    destruct (heap_write _ _ _ _) as [h1|]; [|done]. simpl in Hc.
    injection Hc as <- <-. by split_and!.
Qed.

(** X27.  [zstr_clear] keeps the capacity for reuse: after it the value
    holds no byte, and appending any [n] bytes with [n] below the
    capacity succeeds without any allocation request, in the same form
    and with the same capacity; a heap-backed value keeps its block. *)
Theorem zstr_clear_reuses_capacity (h : heap) (s : zstr) (c src : list Z) (n : Z) :
  zstr_holds h s c → 0 ≤ n ≤ zlen src → n < zstr_cap s → zstr_cap s < 2 ^ 61 →
  ∃ h1 s1 h2 s2,
    zstr_clear h s = Some (h1, s1) ∧ zstr_holds h1 s1 [] ∧
    zstr_cat_len h1 s1 src n = Some (h2, s2, Z_OK) ∧
    zstr_holds h2 s2 (take (Z.to_nat n) src) ∧
    oracle h2 = oracle h ∧
    zstr_is_long s2 = zstr_is_long s ∧ zstr_cap s2 = zstr_cap s ∧
    (∀ q, owns s2 q ↔ owns s q).
Proof.
  intros Hh Hn Hcap Hmax.
  destruct (zstr_clear_holds h s c Hh)
    as (h1 & s1 & Hclear & Hh1 & Hcap1 & Hlong1 & Hor1 & Hstep1).
  pose proof (holds_len _ _ _ Hh1) as Hlen1. change (zlen []) with 0 in Hlen1.
  destruct (zstr_cat_len_holds h1 s1 [] src n Hh1 Hn)
    as (h2 & s2 & rc & Hcat & Hstep2 & _ & _ & _ & Hcase & Hroom); [lia|].
  destruct Hroom as (-> & Hor2 & Hlong2 & Hcap2); [lia|].
  exists h1, s1, h2, s2.
  destruct Hcase as [[_ Hh2]|[Hrc _]]; [|done].
  split_and!; try done; try congruence.
  assert (Hsame : ∀ a b : zstr, zstr_is_long a = zstr_is_long b →
            (zstr_is_long a = true → ∀ q, owns a q ↔ owns b q) →
            ∀ q, owns a q ↔ owns b q).
  { intros a b Hab Hl q. destruct a, b; try done. by apply Hl. }
  assert (Ho1 : ∀ q, owns s1 q ↔ owns s q).
  { unfold zstr_clear in Hclear. destruct s as [sh|l].
    - destruct s1; [done|]. unfold data_write in Hclear.
      destruct (buf_write _ _ _); done.
    - unfold data_write in Hclear.
      destruct (heap_write _ _ _ _); [|done]. simpl in Hclear.
      by injection Hclear as <- <-. }
  assert (Ho2 : ∀ q, owns s2 q ↔ owns s1 q).
  { intros q. destruct s1 as [sh1|l1], s2 as [sh2|l2]; try done.
    simpl in Hcap, Hcap1, Hlen1.
    assert (Hp : l_ptr l2 = l_ptr l1).
    { unfold zstr_cat_len in Hcat. cbn [zstr_len zstr_cap] in Hcat.
      rewrite Hlen1 in Hcat.
      rewrite size_add_small in Hcat by (unfold SIZE_MOD; lia).
      rewrite decide_False in Hcat by lia.
      cbn [mbind option_bind fst snd] in Hcat.
      rewrite decide_False in Hcat by (intros H; by apply H).
      destruct (buf_read src 0 n) as [bytes|]; [|done].
      cbn [mbind option_bind fst snd] in Hcat.
      destruct (data_write h1 (Long l1) 0 bytes) as [[ha sa]|] eqn:Hw1; [|done].
      cbn [mbind option_bind fst snd] in Hcat.
      assert (sa = Long l1) as ->.
      { unfold data_write in Hw1. destruct (heap_write h1 _ _ _); [|done].
        simpl in Hw1. congruence. }
      destruct (data_write ha (Long l1) (0 + n) [0]) as [[hb sb]|] eqn:Hw2; [|done].
      cbn [mbind option_bind fst snd] in Hcat.
      assert (sb = Long l1) as ->.
      { unfold data_write in Hw2. destruct (heap_write ha _ _ _); [|done].
        simpl in Hw2. congruence. }
      simpl in Hcat. injection Hcat as _ Hs2. by rewrite <- Hs2. }
    unfold owns. by rewrite Hp. }
  intros q. by rewrite Ho2, Ho1.
Qed.

Lemma zstr_clear_reuses_capacity_witness :
  let src := bytes_of "fresh bytes" in
  ∃ h1 s1 h2 s2,
    zstr_clear (sample_heap abc23) (sample_long abc23) = Some (h1, s1) ∧
    zstr_holds h1 s1 [] ∧
    zstr_cat_len h1 s1 src 11 = Some (h2, s2, Z_OK) ∧
    zstr_holds h2 s2 (take (Z.to_nat 11) src) ∧
    oracle h2 = oracle (sample_heap abc23) ∧
    zstr_is_long s2 = zstr_is_long (sample_long abc23) ∧
    zstr_cap s2 = zstr_cap (sample_long abc23) ∧
    (∀ q, owns s2 q ↔ owns (sample_long abc23) q).
Proof.
  intros src.
  apply (zstr_clear_reuses_capacity (sample_heap abc23) (sample_long abc23) abc23 src 11).
  - holds_closed.
  - vm_compute. split; congruence.
  - vm_compute. reflexivity.
  - vm_compute. reflexivity.
Defined.

(** ** Slices *)

(** X28.  Where [start + len] does not wrap, [zstr_sub] denotes the
    slice of the bytes of the view that starts at [start] and has at
    most [len] bytes; it is empty when [start] is at or beyond the end. *)
Theorem zstr_sub_slice (v : zstr_view) (bs : list Z) (start len : Z) :
  view_bytes v = Some bs → 0 ≤ start → 0 ≤ len →
  start + len < SIZE_MOD → v_len v < SIZE_MOD →
  view_bytes (zstr_sub v start len)
  = Some (take (Z.to_nat len) (drop (Z.to_nat start) bs)).
Proof.
  intros Hv Hs Hl Hsum Hmax.
  destruct (view_decomp v bs Hv) as (pre & post & Hobj & Hoff & Hlen).
  pose proof (zlen_nonneg bs) as Hb0.
  rewrite zstr_sub_clamped by lia.
  case_decide as Hcase.
  - rewrite drop_ge by (unfold zlen in *; lia). by rewrite take_nil.
  - set (a := take (Z.to_nat start) bs).
    set (rest := drop (Z.to_nat start) bs).
    set (m := Z.min len (v_len v - start)).
    assert (Hbs : bs = a ++ take (Z.to_nat m) rest ++ drop (Z.to_nat m) rest)
      by (unfold a, rest; by rewrite !take_drop).
    assert (Hza : zlen a = start)
      by (unfold a, zlen in *; rewrite length_take; lia).
    assert (Hzr : zlen rest = v_len v - start)
      by (unfold rest, zlen in *; rewrite length_drop; lia).
    assert (Hzm : zlen (take (Z.to_nat m) rest) = m)
      by (unfold m, zlen in *; rewrite length_take; lia).
    assert (Htake : take (Z.to_nat len) rest = take (Z.to_nat m) rest).
    { unfold m. destruct (decide (len ≤ v_len v - start)).
      - by rewrite Z.min_l by lia.
      - rewrite Z.min_r by lia.
        rewrite !take_ge; [done|unfold zlen in *; lia..]. }
    rewrite Htake.
    assert (Eobj : v_obj v = (pre ++ a) ++ take (Z.to_nat m) rest
                             ++ (drop (Z.to_nat m) rest ++ post)).
    { rewrite Hobj. rewrite Hbs at 1. by rewrite <- !app_assoc. }
    rewrite Eobj.
    replace (v_off v + start) with (zlen (pre ++ a)) by (rewrite zlen_app; lia).
    fold m.
    pose proof (view_decomp_bytes (pre ++ a) (take (Z.to_nat m) rest)
                  (drop (Z.to_nat m) rest ++ post)) as H.
    by rewrite Hzm in H.
Qed.

Lemma zstr_sub_slice_witness :
  let v := ZView (bytes_of "hello world" ++ [0]) 0 11 in
  view_bytes (zstr_sub v 6 100)
  = Some (take (Z.to_nat 100) (drop (Z.to_nat 6) (bytes_of "hello world"))).
Proof.
  intros v. apply (zstr_sub_slice v (bytes_of "hello world") 6 100).
  - vm_compute. reflexivity.
  - lia.
  - lia.
  - vm_compute. reflexivity.
  - vm_compute. reflexivity.
Defined.

(** ** The Lua binding: [s:append] *)

Lemma lua_strings_some str args :
  lua_strings (Some str :: args) = str ++ lua_strings args.
Proof. done. Qed.

Lemma lua_strings_none args : lua_strings (None :: args) = lua_strings args.
Proof. done. Qed.

Lemma append_total_spec : ∀ args t,
  0 ≤ t → t + zlen (lua_strings args) < SIZE_MOD →
  append_total args t = t + zlen (lua_strings args).
Proof.
  induction args as [|[str|] args IH]; intros t Ht Hmax.
  - simpl. change (zlen (lua_strings [])) with 0. lia.
  - rewrite lua_strings_some, zlen_app in *. cbn [append_total].
    pose proof (zlen_nonneg str). pose proof (zlen_nonneg (lua_strings args)).
    rewrite size_add_small by lia. rewrite IH by lia. lia.
  - rewrite lua_strings_none in *. cbn [append_total]. by apply IH.
Qed.

(** [memcpy] of no byte. *)
Lemma data_write_nil h s off buf :
  zstr_chars h s = Some buf →
  (zstr_is_long s = false → length buf = Z.to_nat ZSTR_SSO_CAP) →
  0 ≤ off ≤ zlen buf →
  data_write h s off [] = Some (h, s).
Proof.
  intros Hc Hsh Hoff. unfold data_write. destruct s as [sh|l]; simpl in *.
  - injection Hc as <-. specialize (Hsh eq_refl).
    rewrite buf_write_Some.
    + simpl. rewrite Nat.add_0_r, take_drop.
      unfold short_raw. rewrite short_of_raw_app by done. by destruct sh.
    + unfold in_range, short_raw. rewrite zlen_app.
      change (zlen []) with 0. change (zlen [s_len sh]) with 1. lia.
  - unfold heap_write. rewrite Hc. simpl.
    rewrite buf_write_Some by (unfold in_range; change (zlen []) with 0; lia).
    simpl. rewrite Nat.add_0_r, take_drop.
    rewrite insert_id by done. by destruct h.
Qed.

(** The copy loop writes the bytes of the string arguments, one after
    the other. *)
Lemma append_copy_spec : ∀ args h s off buf h' s',
  zstr_chars h s = Some buf →
  (zstr_is_long s = false → length buf = Z.to_nat ZSTR_SSO_CAP) →
  in_range buf off (zlen (lua_strings args)) →
  data_write h s off (lua_strings args) = Some (h', s') →
  append_copy h s args off = Some (h', s', off + zlen (lua_strings args)).
Proof.
  induction args as [|[str|] args IH]; intros h s off buf h' s' Hc Hsh Hr Hw.
  - change (lua_strings []) with (@nil Z) in *. change (zlen []) with 0 in *.
    rewrite (data_write_nil h s off buf) in Hw by (try done; unfold in_range in Hr; lia).
    injection Hw as <- <-. simpl. by rewrite Z.add_0_r.
  - rewrite lua_strings_some in *. rewrite zlen_app in Hr.
    pose proof (zlen_nonneg str) as H0.
    pose proof (zlen_nonneg (lua_strings args)) as H1.
    destruct (data_write_chars h s off str buf Hc Hsh)
      as (buf1 & h1 & s1 & Hb1 & Hw1 & Hc1 & Hs1 & _);
      [unfold in_range in *; lia|].
    pose proof (buf_write_length _ _ _ _ Hb1) as Hl1.
    assert (Hsh1 : zstr_is_long s1 = false → length buf1 = Z.to_nat ZSTR_SSO_CAP).
    { rewrite (same_shape_is_long _ _ Hs1), Hl1. done. }
    assert (Hr1 : in_range buf1 (off + zlen str) (zlen (lua_strings args))).
    { unfold in_range, zlen in *. rewrite Hl1. lia. }
    destruct (data_write_chars h1 s1 (off + zlen str) (lua_strings args) buf1 Hc1 Hsh1 Hr1)
      as (buf2 & h2 & s2 & _ & Hw2 & _).
    assert (Hall : data_write h s off (str ++ lua_strings args) = Some (h2, s2)).
    { apply (data_write_app h s off str (lua_strings args) h1 s1 h2 s2 buf);
        try done. by rewrite zlen_app. }
    rewrite Hall in Hw. injection Hw as <- <-.
    cbn [append_copy]. rewrite Hw1. cbn [mbind option_bind].
    rewrite (IH h1 s1 (off + zlen str) buf1 h2 s2 Hc1 Hsh1 Hr1 Hw2).
    rewrite zlen_app. do 2 f_equal. lia.
  - rewrite lua_strings_none in *. cbn [append_copy]. by eapply IH.
Qed.

Lemma holds_chars_room h s c :
  zstr_holds h s c →
  ∃ buf, zstr_chars h s = Some buf ∧
    (zstr_is_long s = false → length buf = Z.to_nat ZSTR_SSO_CAP) ∧
    zstr_cap s ≤ zlen buf.
Proof.
  intros Hh. pose proof Hh as [Hinv _].
  destruct s as [sh|l]; simpl in *.
  - destruct Hinv as (Hl & _). exists (s_buf sh). split_and!; try done.
    unfold zlen. rewrite Hl. done.
  - destruct Hinv as (blk & Hb & _ & _ & Hcap & _). exists blk.
    split_and!; try done. lia.
Qed.

(** The part of [l_zstr_append] after the reservation. *)
Lemma append_args_holds h1 s1 c args :
  zstr_holds h1 s1 c →
  match s1 with
  | Short sh => zlen c + zlen (lua_strings args) < ZSTR_SSO_CAP
  | Long l => zlen c + zlen (lua_strings args) ≤ l_cap l
  end →
  zlen c + zlen (lua_strings args) < SIZE_MOD →
  ∃ h2 s2 h3 s3,
    append_copy h1 s1 args (zlen c)
      = Some (h2, s2, zlen c + zlen (lua_strings args)) ∧
    data_write h2 s2 (zlen c + zlen (lua_strings args)) [0] = Some (h3, s3) ∧
    zstr_holds h3 (add_len s3 (zlen (lua_strings args))) (c ++ lua_strings args) ∧
    heap_step h1 h3 s1 (add_len s3 (zlen (lua_strings args))).
Proof.
  intros Hh Hroom Hmax.
  pose proof (holds_len _ _ _ Hh) as Hlen.
  pose proof (zlen_nonneg c) as H0.
  pose proof (zlen_nonneg (lua_strings args)) as H1.
  destruct (append_tail_holds h1 s1 c (lua_strings args)
              (λ s3, add_len s3 (zlen (lua_strings args))) Hh)
    as (h2 & s2 & h3 & s3 & Hw1 & Hw2 & Hh3 & Hstep3 & _).
  { destruct s1 as [sh|l]; simpl in *; lia. }
  { intros s3 Hs3. destruct s1 as [sh1|l1], s3 as [sh3|l3]; simpl in *; try done.
    - rewrite <- Hs3. do 2 f_equal. unfold to_uint8.
      rewrite (Z.mod_small (zlen (lua_strings args)))
        by (unfold ZSTR_SSO_CAP in *; lia). done.
    - subst l3. by rewrite size_add_small by lia. }
  rewrite Hlen in Hw1, Hw2.
  destruct (holds_chars_room _ _ _ Hh) as (buf & Hc & Hsh & Hcap).
  exists h2, s2, h3, s3. split_and!; try done.
  apply (append_copy_spec args h1 s1 (zlen c) buf); try done.
  unfold in_range. destruct s1 as [sh|l]; simpl in *; unfold ZSTR_SSO_CAP in *; lia.
Qed.

(** X29.  [s:append (...)] and [s:append_table (t)] of the Lua binding
    append the bytes of their string arguments, in order, and skip the
    other arguments, when the allocation they may need is granted and
    the value is heap-backed or the new length is not exactly
    [ZSTR_SSO_CAP]. *)
Theorem l_zstr_append_concat (h : heap) (s : zstr) (c : list Z) (args : list lua_arg) :
  zstr_holds h s c → alloc_ok h →
  zstr_cap s + zlen (lua_strings args) < 2 ^ 62 →
  zstr_is_long s = true ∨ zlen c + zlen (lua_strings args) ≠ ZSTR_SSO_CAP →
  ∃ h' s', l_zstr_append h s args = Some (h', s') ∧
    l_zstr_append_table h s args = Some (h', s') ∧
    zstr_holds h' s' (c ++ lua_strings args) ∧
    heap_step h h' s s'.
Proof.
  intros Hh Hok Hmax Hcase. pose proof Hh as [Hinv _].
  destruct (zstr_inv_bounds _ _ Hinv) as [Hlen Hcap].
  pose proof (holds_len _ _ _ Hh) as Hl.
  pose proof (zlen_nonneg c) as H0.
  pose proof (zlen_nonneg (lua_strings args)) as H1.
  unfold ZSTR_SSO_CAP in Hcap.
  assert (Htotal : append_total args 0 = zlen (lua_strings args)).
  { rewrite append_total_spec; [lia|lia|unfold SIZE_MOD; lia]. }
  unfold l_zstr_append_table, l_zstr_append. rewrite Htotal.
  case_decide as Hpos.
  2:{ exists h, s. assert (lua_strings args = []) as ->.
      { apply length_zero_iff_nil. unfold zlen in *. lia. }
      rewrite app_nil_r. split_and!; first [done|apply heap_step_refl]. }
  rewrite Hl. rewrite size_add_small by (unfold SIZE_MOD; lia).
  case_decide as Hgrow.
  - destruct (zstr_reserve_holds h s c (zlen c + zlen (lua_strings args)) Hh)
      as (h1 & s1 & rc & Hres & Hh1 & Hstep1 & _ & _ & _ & Hrc);
      [unfold SIZE_MAX, SIZE_MOD; lia|].
    rewrite Hres. cbn [mbind option_bind].
    destruct Hrc as [(_ & Hlong & _)|(_ & _ & _ & Hno)]; [|done].
    destruct Hlong as [Hl1 Hc1]; [unfold ZSTR_SSO_CAP; lia|].
    destruct (append_args_holds h1 s1 c args Hh1)
      as (h2 & s2 & h3 & s3 & Hcopy & Hw & Hh3 & Hstep3).
    { destruct s1 as [|l1]; [done|]. simpl in *. lia. }
    { unfold SIZE_MOD; lia. }
    rewrite Hcopy. cbn [mbind option_bind]. rewrite Hw. cbn [mbind option_bind].
    eexists _, _. split_and!; try done. by eapply heap_step_trans.
  - cbn [mbind option_bind].
    destruct (append_args_holds h s c args Hh)
      as (h2 & s2 & h3 & s3 & Hcopy & Hw & Hh3 & Hstep3).
    { destruct s as [sh|l]; simpl in *; [|lia].
      destruct Hcase as [?|Hne]; [done|]. unfold ZSTR_SSO_CAP in *. lia. }
    { unfold SIZE_MOD; lia. }
    rewrite Hcopy. cbn [mbind option_bind]. rewrite Hw. cbn [mbind option_bind].
    eexists _, _. by split_and!.
Qed.

Lemma l_zstr_append_concat_witness :
  let c := bytes_of "log: " in
  let args := [Some (bytes_of "disk "); None; Some (bytes_of "usage at 93 percent")] in
  ∃ h' s', l_zstr_append heap_empty (sample_short c) args = Some (h', s') ∧
    l_zstr_append_table heap_empty (sample_short c) args = Some (h', s') ∧
    zstr_holds h' s' (c ++ lua_strings args) ∧
    heap_step heap_empty h' (sample_short c) s'.
Proof.
  intros c args.
  apply (l_zstr_append_concat heap_empty (sample_short c) c args).
  - holds_closed.
  - vm_compute. exact I.
  - vm_compute. reflexivity.
  - right. vm_compute. discriminate.
Defined.

(** X30.  On an inline value, when the new length is exactly
    [ZSTR_SSO_CAP], [s:append] does not reserve (it tests
    [required > cap]): the 23 bytes fill the inline buffer, the
    terminator is stored on the length byte, and the length that is then
    added to it is the number of bytes appended.  The value is left
    without terminator and with the length of the appended bytes instead
    of 23. *)
Theorem l_zstr_append_threshold (h : heap) (sh : zstr_short) (c : list Z)
    (args : list lua_arg) :
  zstr_holds h (Short sh) c →
  zlen c + zlen (lua_strings args) = ZSTR_SSO_CAP →
  0 < zlen (lua_strings args) →
  l_zstr_append h (Short sh) args
  = Some (h, Short (ZShort (c ++ lua_strings args) (zlen (lua_strings args)))).
Proof.
  intros Hh Hsum Hpos.
  destruct (holds_buffer _ _ _ Hh) as (rest & Hc & Hlen & Hsh).
  simpl in Hc, Hlen. injection Hc as Hbuf. specialize (Hsh eq_refl).
  pose proof (zlen_nonneg c) as H0.
  unfold ZSTR_SSO_CAP in Hsum.
  assert (Htotal : append_total args 0 = zlen (lua_strings args)).
  { rewrite append_total_spec; [lia|lia|unfold SIZE_MOD; lia]. }
  assert (Hmid : length (0 :: rest) = length (lua_strings args)).
  { rewrite length_app in Hsh. change (Z.to_nat ZSTR_SSO_CAP) with 23%nat in Hsh.
    unfold zlen in *. lia. }
  assert (Hfull : length (c ++ (lua_strings args)) = Z.to_nat ZSTR_SSO_CAP).
  { rewrite length_app. change (Z.to_nat ZSTR_SSO_CAP) with 23%nat.
    unfold zlen in *. lia. }
  unfold l_zstr_append. rewrite Htotal.
  rewrite decide_True by done.
  cbn [zstr_len zstr_cap]. rewrite Hlen.
  rewrite size_add_small by (unfold SIZE_MOD; lia).
  rewrite decide_False by (unfold ZSTR_SSO_CAP; lia).
  cbn [mbind option_bind].
  assert (Hw1 : data_write h (Short sh) (zlen c) (lua_strings args)
                = Some (h, Short (ZShort (c ++ (lua_strings args)) (s_len sh)))).
  { destruct (data_write_short h sh (zlen c) (lua_strings args)) as (buf' & Hb & Hw);
      [by rewrite Hbuf|lia|unfold ZSTR_SSO_CAP; lia|].
    rewrite Hw. do 4 f_equal.
    rewrite Hbuf in Hb.
    pose proof (buf_write_decomp c (0 :: rest) [] (lua_strings args) Hmid) as Hd.
    rewrite !app_nil_r in Hd. congruence. }
  assert (Hr : in_range (s_buf sh) (zlen c) (zlen (lua_strings args))).
  { unfold in_range. split_and!; [lia|lia|].
    unfold zlen in *. rewrite Hbuf, Hsh. change (Z.to_nat ZSTR_SSO_CAP) with 23%nat. lia. }
  rewrite (append_copy_spec args h (Short sh) (zlen c) (s_buf sh) _ _
             eq_refl ltac:(by rewrite Hbuf) Hr Hw1).
  cbn [mbind option_bind].
  assert (Hw2 : data_write h (Short (ZShort (c ++ (lua_strings args)) (s_len sh)))
                  (zlen c + zlen (lua_strings args)) [0]
                = Some (h, Short (ZShort (c ++ (lua_strings args)) 0))).
  { unfold data_write, short_raw. cbn [s_buf s_len].
    rewrite <- zlen_app.
    pose proof (buf_write_decomp (c ++ (lua_strings args)) [s_len sh] [] [0] eq_refl) as Hd.
    rewrite !app_nil_r in Hd. rewrite Hd. cbn [mbind option_bind].
    by rewrite short_of_raw_app. }
  rewrite Hw2. cbn [mbind option_bind add_len s_buf s_len].
  do 4 f_equal. unfold to_uint8.
  rewrite (Z.mod_small (zlen (lua_strings args))) by lia. rewrite Z.mod_small by lia. lia.
Qed.

Lemma l_zstr_append_threshold_witness :
  let c := bytes_of "0123456789" in
  let args := [Some (bytes_of "abcdef"); None; Some (bytes_of "ghijklm")] in
  l_zstr_append heap_empty (sample_short c) args
  = Some (heap_empty,
          Short (ZShort (c ++ lua_strings args) (zlen (lua_strings args)))).
Proof.
  intros c args.
  apply (l_zstr_append_threshold heap_empty _ c args).
  - holds_closed.
  - vm_compute. reflexivity.
  - vm_compute. reflexivity.
Defined.

(** ** Counting runes: the code against the specification *)

Lemma spec_runes_skip : ∀ bs k, spec_runes k bs = spec_runes 0 (drop k bs).
Proof.
  induction bs as [|x bs IH]; intros k.
  - by rewrite drop_nil.
  - destruct k as [|k]; [done|]. simpl. apply IH.
Qed.

Lemma spec_decode_next_len c rest :
  (1 ≤ (spec_decode_next (c :: rest)).2 ≤ 4)%nat ∧
  ((spec_decode_next (c :: rest)).2 ≤ S (length rest))%nat.
Proof.
  unfold spec_decode_next. case_decide; [simpl; lia|].
  unfold spec_lead.
  repeat case_decide; simpl; try lia;
    match goal with H : length _ = _ ∧ _ |- _ => destruct H as [H _] end;
    rewrite length_take in *; lia.
Qed.

Lemma spec_runes_step c rest :
  spec_runes 0 (c :: rest)
  = (spec_decode_next (c :: rest)).1
    :: spec_runes 0 (drop (spec_decode_next (c :: rest)).2 (c :: rest)).
Proof.
  pose proof (spec_decode_next_len c rest) as [[H1 _] _].
  cbn [spec_runes].
  destruct (spec_decode_next (c :: rest)) as [r n]. simpl in *.
  rewrite spec_runes_skip. destruct n as [|n]; [lia|].
  simpl. by rewrite Nat.sub_0_r.
Qed.

Lemma spec_runes_length : ∀ bs k, (length (spec_runes k bs) ≤ length bs)%nat.
Proof.
  induction bs as [|x bs IH]; intros k; [done|].
  cbn [spec_runes]. destruct k as [|k].
  - destruct (spec_decode_next (x :: bs)) as [r n]. simpl.
    specialize (IH (n - 1)%nat). lia.
  - specialize (IH k). simpl. lia.
Qed.

(** The bit tests of the code, on bytes, are the patterns of the
    specification. *)
Lemma rune_lead_spec c :
  0 ≤ c < 256 → 0x80 ≤ c →
  rune_lead c = match spec_lead c with
                | Some (bits, k) => Some (bits, Z.of_nat k + 1)
                | None => None
                end.
Proof.
  intros Hc H80.
  pose proof (byte_forall
    (λ c, implb (0x80 <=? c)
            match rune_lead c, spec_lead c with
            | Some (a, l), Some (b, k) => (a =? b) && (l =? Z.of_nat k + 1)
            | None, None => true
            | _, _ => false
            end)
    ltac:(vm_compute; reflexivity) c Hc) as H.
  cbv beta in H. rewrite (proj2 (Z.leb_le _ _)) in H by lia.
  simpl in H.
  destruct (rune_lead c) as [[a l]|], (spec_lead c) as [[b k]|]; try done.
  apply andb_true_iff in H as [H1 H2].
  apply Z.eqb_eq in H1, H2. by subst.
Qed.

Lemma cont_spec b :
  0 ≤ b < 256 → (Z.land b 0xC0 = 0x80 ↔ spec_cont b).
Proof.
  intros Hb.
  pose proof (byte_forall
    (λ b, Bool.eqb (Z.land b 0xC0 =? 0x80) ((0x80 <=? b) && (b <=? 0xBF)))
    ltac:(vm_compute; reflexivity) b Hb) as H.
  cbv beta in H. apply Bool.eqb_prop in H. unfold spec_cont.
  rewrite <- Z.eqb_eq, H, andb_true_iff, !Z.leb_le. done.
Qed.

Lemma spec_lead_nonneg c bits k : spec_lead c = Some (bits, k) → 0 ≤ bits.
Proof.
  unfold spec_lead. intros H. repeat case_decide; simplify_eq; lia.
Qed.

Lemma rune_tail_spec rest p : ∀ k front tail rune i,
  p + i = zlen front → Forall byte_ok tail → 0 ≤ rune →
  rune_tail k (front ++ tail ++ 0 :: rest) p i rune
  = Some (if decide (length (take k tail) = k ∧ Forall spec_cont (take k tail))
          then Some (foldl (λ r b, r * 64 + (b - 0x80)) rune (take k tail))
          else None).
Proof.
  induction k as [|k IH]; intros front tail rune i Hp Htail Hrune.
  - rewrite take_0. cbn [rune_tail foldl].
    rewrite decide_True; [done|]. split; [done|constructor].
  - cbn [rune_tail]. rewrite Hp. destruct tail as [|b tail'].
    + change ([] ++ 0 :: rest) with (0 :: rest). rewrite buf_load_middle.
      cbn [mbind option_bind]. rewrite decide_True by (vm_compute; discriminate).
      rewrite take_nil. rewrite decide_False; [done|]. simpl. lia.
    + apply Forall_cons in Htail as [[Hb Hb0] Htail'].
      change ((b :: tail') ++ 0 :: rest) with (b :: tail' ++ 0 :: rest).
      rewrite buf_load_middle. cbn [mbind option_bind].
      pose proof (cont_spec b Hb) as Hcont.
      rewrite firstn_cons.
      destruct (decide (Z.land b 0xC0 ≠ 0x80)) as [Hbad|Hgood].
      * rewrite decide_False; [done|].
        intros [_ HF]. apply Forall_cons in HF as [HF _]. apply Hbad. by apply Hcont.
      * assert (Hc : Z.land b 0xC0 = 0x80) by (destruct (decide (Z.land b 0xC0 = 0x80)); done).
        pose proof (proj1 Hcont Hc) as Hsc.
        destruct (cont_bits b Hb Hc) as [_ Hpay].
        rewrite Hpay, lor_shiftl_6 by (unfold spec_cont in Hsc; lia).
        assert (E : front ++ b :: tail' ++ 0 :: rest
                    = (front ++ [b]) ++ tail' ++ 0 :: rest)
          by (by rewrite <- app_assoc).
        rewrite E, (IH (front ++ [b]) tail' _ (i + 1));
          [|rewrite zlen_snoc; lia|done|unfold spec_cont in Hsc; lia].
        f_equal. cbn [foldl length].
        destruct (decide (length (take k tail') = k ∧ Forall spec_cont (take k tail')))
          as [[H1 H2]|Hn].
        -- rewrite decide_True; [done|]. split; [by rewrite H1|by constructor].
        -- rewrite decide_False; [done|]. intros [H1 H2]. apply Hn.
           apply Forall_cons in H2 as [_ H2]. split; [lia|done].
Qed.

(** One decode step of the code at the start of the bytes [c :: bs]
    that remain before the terminator. *)
Lemma zstr_next_rune_spec pre c bs rest :
  Forall byte_ok (c :: bs) →
  zstr_next_rune (pre ++ (c :: bs) ++ 0 :: rest) (zlen pre)
  = Some ((spec_decode_next (c :: bs)).1,
          zlen pre + Z.of_nat (spec_decode_next (c :: bs)).2).
Proof.
  intros Hall. apply Forall_cons in Hall as [[Hc Hc0] Hbs].
  unfold zstr_next_rune.
  change ((c :: bs) ++ 0 :: rest) with (c :: bs ++ 0 :: rest).
  rewrite buf_load_middle. cbn [mbind option_bind].
  rewrite decide_False by done. unfold spec_decode_next.
  destruct (decide (c < 0x80)) as [Hlow|Hhigh]; [done|].
  rewrite rune_lead_spec by lia.
  destruct (spec_lead c) as [[bits k]|] eqn:Hlead; [|done].
  replace (Z.to_nat (Z.of_nat k + 1 - 1)) with k by lia.
  assert (E : pre ++ c :: bs ++ 0 :: rest = (pre ++ [c]) ++ bs ++ 0 :: rest)
    by (by rewrite <- app_assoc).
  rewrite E, (rune_tail_spec rest (zlen pre) k (pre ++ [c]) bs bits 1);
    [|by rewrite zlen_snoc|done|by eapply spec_lead_nonneg].
  cbn [mbind option_bind].
  destruct (decide (length (take k bs) = k ∧ Forall spec_cont (take k bs)));
    simpl; do 2 f_equal; lia.
Qed.

(** The loop of [zstr_count_runes], and the runes it decodes. *)
Lemma count_runes_from_spec rest : ∀ fuel pre bs k,
  Forall byte_ok bs → (length bs ≤ fuel)%nat →
  0 ≤ k → k + zlen bs < SIZE_MOD →
  runes_from fuel (pre ++ bs ++ 0 :: rest) (zlen pre) = Some (spec_runes 0 bs) ∧
  count_runes_from fuel (pre ++ bs ++ 0 :: rest) (zlen pre) k
  = Some (k + zlen (spec_runes 0 bs)).
Proof.
  induction fuel as [|fuel IH]; intros pre bs k Hbs Hfuel Hk Hmax.
  - destruct bs; [|simpl in Hfuel; lia].
    change ([] ++ 0 :: rest) with (0 :: rest). simpl.
    rewrite buf_load_middle. simpl. split; [done|]. f_equal. unfold zlen. simpl. lia.
  - destruct bs as [|c bs].
    { change ([] ++ 0 :: rest) with (0 :: rest).
      cbn [runes_from count_runes_from]. rewrite buf_load_middle. simpl.
      split; [done|]. f_equal. unfold zlen. simpl. lia. }
    pose proof (zstr_next_rune_spec pre c bs rest Hbs) as Hnext.
    pose proof (spec_decode_next_len c bs) as [[Hn1 Hn4] Hnl].
    pose proof (spec_runes_step c bs) as Hstep.
    destruct (spec_decode_next (c :: bs)) as [r n]. cbn [fst snd] in *.
    pose proof Hbs as Hbs0. apply Forall_cons in Hbs0 as [[_ Hc0] _].
    cbn [runes_from count_runes_from].
    assert (Hload : buf_load (pre ++ (c :: bs) ++ 0 :: rest) (zlen pre) = Some c)
      by apply (buf_load_middle pre c (bs ++ 0 :: rest)).
    rewrite Hload. cbn [mbind option_bind].
    rewrite !(decide_False (P := c = 0)) by done.
    rewrite Hnext. cbn [mbind option_bind].
    assert (Hz : zlen (c :: bs) = 1 + zlen bs) by (unfold zlen; simpl; lia).
    pose proof (zlen_nonneg bs) as Hb0.
    rewrite size_add_small by lia.
    assert (E : pre ++ (c :: bs) ++ 0 :: rest
                = (pre ++ take n (c :: bs)) ++ drop n (c :: bs) ++ 0 :: rest).
    { rewrite <- app_assoc. f_equal. rewrite app_assoc. by rewrite take_drop. }
    assert (Ez : zlen pre + Z.of_nat n = zlen (pre ++ take n (c :: bs))).
    { rewrite zlen_app. unfold zlen. rewrite length_take. simpl. lia. }
    rewrite E, Ez.
    destruct (IH (pre ++ take n (c :: bs)) (drop n (c :: bs)) (k + 1)) as [Hr Hcnt].
    + by apply Forall_drop.
    + rewrite length_drop. simpl in *. lia.
    + lia.
    + unfold zlen in *. rewrite length_drop. simpl in *. lia.
    + rewrite Hr, Hcnt, Hstep. split; [done|]. f_equal.
      unfold zlen. rewrite length_cons. lia.
Qed.

Lemma spec_cstr_buffer : ∀ c rest,
  ∃ rest', c ++ 0 :: rest = spec_cstr c ++ 0 :: rest'.
Proof.
  induction c as [|x c IH]; intros rest; simpl.
  - by exists rest.
  - case_decide as Hx.
    + subst x. by exists (c ++ 0 :: rest).
    + destruct (IH rest) as [rest' ->]. by exists rest'.
Qed.

Lemma spec_cstr_byte_ok c :
  Forall (λ b, 0 ≤ b < 256) c → Forall byte_ok (spec_cstr c).
Proof.
  induction 1 as [|x c Hx _ IH]; simpl; [done|].
  case_decide; [done|]. by constructor.
Qed.

Lemma zstr_count_runes_spec h s c :
  zstr_holds h s c → Forall (λ b, 0 ≤ b < 256) c → zlen c < SIZE_MOD →
  zstr_runes h s = Some (spec_runes 0 (spec_cstr c)) ∧
  zstr_count_runes h s = Some (zlen (spec_runes 0 (spec_cstr c))).
Proof.
  intros Hh Hbytes Hmax.
  destruct (holds_data_buffer _ _ _ Hh) as (rest & Hobj & _).
  destruct (spec_cstr_buffer c rest) as [rest' E].
  unfold zstr_runes, zstr_count_runes. rewrite Hobj, E. cbn [mbind option_bind].
  pose proof (spec_cstr_length c) as Hl.
  destruct (count_runes_from_spec rest'
              (length (spec_cstr c ++ 0 :: rest')) [] (spec_cstr c) 0) as [Hr Hc].
  - by apply spec_cstr_byte_ok.
  - rewrite length_app. lia.
  - done.
  - unfold zlen in *. lia.
  - change (zlen []) with 0 in Hr, Hc. change ([] ++ ?x) with x in Hr, Hc.
    rewrite Hr, Hc. done.
Qed.

(** C7.  At a cursor whose byte is not NUL: a leading byte that starts
    no sequence, or a required continuation byte without the pattern
    [10xxxxxx], makes [zstr_next_rune] return 0xFFFD and advance by one
    byte; in a NUL-terminated object every decode step returns and
    advances by one to four bytes without passing the terminator; hence
    [zstr_count_runes] returns on every value that satisfies the
    invariant, with a count of at most the length.

    The count is the number of decode steps: on every value (of bytes
    0 to 255), the runes
    that the loop decodes are those of the successive [decode_next] of
    the specification on the bytes before the first NUL, each step
    starting where the one before stopped, and [zstr_count_runes] is
    the number of these runes.  A step consumes one to four bytes and
    gives one rune; a malformed leading byte, or a leading byte whose
    continuation bytes are not all there, gives the one rune 0xFFFD and
    decoding goes on at the next byte. *)
Theorem zstr_next_rune_recovers :
  (∀ obj p c, buf_load obj p = Some c → 0x80 ≤ c →
     Z.land c 0xE0 ≠ 0xC0 → Z.land c 0xF0 ≠ 0xE0 → Z.land c 0xF8 ≠ 0xF0 →
     zstr_next_rune obj p = Some (ZSTR_UTF8_INVALID, p + 1)) ∧
  (∀ obj p c rune len i b, buf_load obj p = Some c → 0x80 ≤ c →
     rune_lead c = Some (rune, len) → 1 ≤ i < len →
     buf_load obj (p + i) = Some b → Z.land b 0xC0 ≠ 0x80 →
     zstr_next_rune obj p = Some (ZSTR_UTF8_INVALID, p + 1)) ∧
  (∀ obj p c (z : nat), buf_load obj p = Some c → c ≠ 0 →
     p ≤ Z.of_nat z → obj !! z = Some 0 →
     ∃ r p', zstr_next_rune obj p = Some (r, p') ∧
             p + 1 ≤ p' ≤ p + 4 ∧ p' ≤ Z.of_nat z) ∧
  (∀ h s, zstr_inv h s → zstr_len s < SIZE_MOD →
     ∃ n, zstr_count_runes h s = Some n ∧ 0 ≤ n ≤ zstr_len s) ∧
  (∀ h s c, zstr_holds h s c → Forall (λ b, 0 ≤ b < 256) c →
     zlen c < SIZE_MOD →
     zstr_runes h s = Some (spec_runes 0 (spec_cstr c)) ∧
     zstr_count_runes h s = Some (zlen (spec_runes 0 (spec_cstr c)))) ∧
  (∀ b bs,
     spec_runes 0 (b :: bs)
     = (spec_decode_next (b :: bs)).1
       :: spec_runes 0 (drop (spec_decode_next (b :: bs)).2 (b :: bs)) ∧
     (1 ≤ (spec_decode_next (b :: bs)).2 ≤ 4)%nat) ∧
  (∀ b bs, 0x80 ≤ b →
     spec_lead b = None ∨
     (∃ bits k, spec_lead b = Some (bits, k) ∧
        ¬ (length (take k bs) = k ∧ Forall spec_cont (take k bs))) →
     spec_runes 0 (b :: bs) = ZSTR_UTF8_INVALID :: spec_runes 0 bs) ∧
  count_runes_of [0x80; 0xC3; 0x28; 0xE2; 0x82; 0xFF] = Some 6 ∧
  count_runes_of hello_acute = Some 5 ∧
  count_runes_of (nihongo ++ emoji) = Some 4 ∧
  count_runes_of (nihongo ++ emoji ++ [0xF0; 0x9F; 0x41; 0x80] ++ hello_acute)
    = Some 13.
Proof.
  split_and!.
  - intros obj p c Hc H80 H2 H3 H4. unfold zstr_next_rune. rewrite Hc. simpl.
    rewrite !decide_False by lia.
    unfold rune_lead. rewrite !decide_False by done. done.
  - intros obj p c rune len i b Hc H80 Hlead Hi Hb Hbad.
    destruct (buf_load_Some _ _ _ Hc) as [Hp _].
    unfold zstr_next_rune. rewrite Hc. simpl.
    rewrite !decide_False by lia. rewrite Hlead.
    rewrite (rune_tail_bad _ obj p 1 rune i b); try done; lia.
  - intros obj p c z. apply zstr_next_rune_progress.
  - intros h s Hinv Hmax. unfold zstr_count_runes.
    assert (∃ obj, data_buffer h s = Some obj ∧
                   obj !! Z.to_nat (zstr_len s) = Some 0 ∧ 0 ≤ zstr_len s)
      as (obj & Hobj & Hnul & Hl0).
    { destruct s as [sh|l]; simpl in *.
      - destruct Hinv as (Hlen & Hr & Hterm). eexists. split; [done|].
        split; [|lia]. unfold short_raw. rewrite lookup_app_l; [done|].
        by apply lookup_lt_Some in Hterm.
      - destruct Hinv as (blk & Hblk & Hr & _ & _ & Hterm). exists blk.
        split_and!; try done. lia. }
    rewrite Hobj. simpl.
    destruct (count_runes_from_terminated _ obj Hnul (length obj) 0 0)
      as (n & Hn & Hbound); try lia.
    + apply lookup_lt_Some in Hnul. lia.
    + exists n. split; [done|lia].
  - intros h s c. apply zstr_count_runes_spec.
  - intros b bs. split; [apply spec_runes_step|apply spec_decode_next_len].
  - intros b bs H80 Hbad. rewrite spec_runes_step.
    assert (E : spec_decode_next (b :: bs) = (ZSTR_UTF8_INVALID, 1%nat)).
    { unfold spec_decode_next. rewrite decide_False by lia.
      destruct Hbad as [->|(bits & k & -> & Hno)]; [done|].
      by rewrite decide_False. }
    rewrite E. done.
  - vm_compute. reflexivity.
  - vm_compute. reflexivity.
  - vm_compute. reflexivity.
  - vm_compute. reflexivity.
Qed.

Lemma zstr_next_rune_recovers_witness :
  let c := nihongo ++ emoji ++ [0xF0; 0x9F; 0x41; 0x80] ++ hello_acute in
  let h := sample_heap c in
  let s := sample_long c in
  zstr_next_rune [0xE2; 0x82; 0x41; 0] 0 = Some (ZSTR_UTF8_INVALID, 1) ∧
  (∃ n, zstr_count_runes h s = Some n ∧ 0 ≤ n ≤ zstr_len s) ∧
  zstr_runes h s = Some (spec_runes 0 (spec_cstr c)) ∧
  zstr_count_runes h s = Some (zlen (spec_runes 0 (spec_cstr c))) ∧
  spec_runes 0 (spec_cstr c)
  = [0x65E5; 0x672C; 0x8A9E; 0x1F600; ZSTR_UTF8_INVALID; ZSTR_UTF8_INVALID;
     0x41; ZSTR_UTF8_INVALID; 0x68; 0xE9; 0x6C; 0x6C; 0x6F].
Proof.
  intros c h s.
  pose proof zstr_next_rune_recovers as (_ & Hcont & _ & Hcount & Hspec & _).
  assert (Hh : zstr_holds h s c) by holds_closed.
  split_and!.
  - apply (Hcont [0xE2; 0x82; 0x41; 0] 0 0xE2 0x02 3 2 0x41);
      try reflexivity; try lia; discriminate.
  - apply (Hcount h s); [apply Hh|reflexivity].
  - apply (Hspec h s c Hh); [vm_compute; repeat constructor; discriminate|reflexivity].
  - apply (Hspec h s c Hh); [vm_compute; repeat constructor; discriminate|reflexivity].
  - vm_compute. reflexivity.
Defined.
